(** * jax.scipy.fft: DCT-II and its inverse through the FFT (Makhoul 1980)

    A shallow embedding of [jax/_src/scipy/fft.py].  An array is a
    dtype tag, a shape and a function from multi-indices to elements; the
    [lax] and [jax.numpy] primitives the module calls are modelled on that
    representation, and the functions of the module are transliterated on
    top of them.  Element values are exact complex numbers over [R]:
    rounding is not modelled, the [dtype] field records the element type
    JAX assigns to each intermediate array.  A helper that can raise is
    given by two definitions: the error it raises, if any, and the array
    it returns when it raises none. *)

From Stdlib Require Import String List Arith ZArith Lia ZifyNat Bool Reals Lra.
Import ListNotations.

Set Implicit Arguments.

(* ================================================================== *)
(** * Python-level values: errors, results, optional arguments *)
(* ================================================================== *)

Inductive PyError : Type :=
| NotImplementedError
| ValueError
| IndexError
| TypeError
| RecursionError.

Inductive result (A : Type) : Type :=
| Ok (a : A)
| Raise (e : PyError).

Arguments Ok {A} a.
Arguments Raise {A} e.

Definition bind {A B : Type} (m : result A) (k : A -> result B) : result B :=
  match m with
  | Ok a => k a
  | Raise e => Raise e
  end.

Notation "x <- m ;; k" := (bind m (fun x => k))
  (at level 61, m at next level, right associativity).

Definition is_ok {A : Type} (m : result A) : bool :=
  match m with Ok _ => true | Raise _ => false end.

Definition default {A : Type} (d : A) (o : option A) : A :=
  match o with Some a => a | None => d end.

(** A library call that can fail is given by the error it raises, if
    any, and by the value it returns when it raises none. *)
Definition call {A : Type} (err : option PyError) (v : A) : result A :=
  match err with
  | Some e => Raise e
  | None => Ok v
  end.

(** The first of two errors. *)
Definition or_else (e1 e2 : option PyError) : option PyError :=
  match e1 with
  | Some e => Some e
  | None => e2
  end.

(* ================================================================== *)
(** * Element types *)
(* ================================================================== *)

Inductive DType : Type :=
| Int32 | Int64
| Float16 | BFloat16 | Float32 | Float64
| Complex64 | Complex128.

Definition is_complex_dtype (d : DType) : bool :=
  match d with Complex64 | Complex128 => true | _ => false end.

Definition is_int_dtype (d : DType) : bool :=
  match d with Int32 | Int64 => true | _ => false end.

(** Floating precision carried by a dtype, [None] for the integers. *)
Inductive Prec : Type := Half | Brain | Single | Double.

Definition prec_of (d : DType) : option Prec :=
  match d with
  | Int32 | Int64 => None
  | Float16 => Some Half
  | BFloat16 => Some Brain
  | Float32 | Complex64 => Some Single
  | Float64 | Complex128 => Some Double
  end.

Definition prec_join (p q : Prec) : Prec :=
  match p, q with
  | Double, _ | _, Double => Double
  | Single, _ | _, Single => Single
  | Half, Half => Half
  | Brain, Brain => Brain
  | Half, Brain | Brain, Half => Single
  end.

Definition prec_join_opt (p q : option Prec) : option Prec :=
  match p, q with
  | Some a, Some b => Some (prec_join a b)
  | Some a, None | None, Some a => Some a
  | None, None => None
  end.

Definition float_of_prec (p : Prec) : DType :=
  match p with
  | Half => Float16 | Brain => BFloat16 | Single => Float32 | Double => Float64
  end.

Definition complex_of_prec (p : Prec) : DType :=
  match p with
  | Double => Complex128
  | _ => Complex64
  end.

(** [jnp.promote_types] on the dtypes above (JAX's promotion lattice:
    integers below floats below complex, an integer never widens a float). *)
Definition promote_types (a b : DType) : DType :=
  match prec_join_opt (prec_of a) (prec_of b) with
  | None =>
      match a, b with
      | Int32, Int32 => Int32
      | _, _ => Int64
      end
  | Some p =>
      if is_complex_dtype a || is_complex_dtype b
      then complex_of_prec p
      else float_of_prec p
  end.

(** [dtypes.to_complex_dtype]: [complex128] for the 64-bit types (an
    [int64] goes through [float64]), [complex64] for every other type. *)
Definition to_complex_dtype (d : DType) : DType :=
  match d with
  | Int64 | Float64 | Complex128 => Complex128
  | _ => Complex64
  end.

(** dtype of [x.real]. *)
Definition real_dtype (d : DType) : DType :=
  match d with
  | Complex64 => Float32
  | Complex128 => Float64
  | _ => d
  end.

(** Python scalars are weakly typed: they change the dtype of an array
    only when their kind is above the array's kind. *)
Inductive PyKind : Type := KInt | KFloat | KComplex.

Definition weak_dtype (k : PyKind) (d : DType) : DType :=
  match k with
  | KInt => d
  | KFloat => if is_int_dtype d then Float32 else d
  | KComplex => to_complex_dtype d
  end.

(* ================================================================== *)
(** * Complex numbers over the reals *)
(* ================================================================== *)

Record C : Type := mkC { re : R; im : R }.

Definition RtoC (r : R) : C := mkC r 0.
Definition C0 : C := RtoC 0.

Definition Cadd (a b : C) : C := mkC (re a + re b) (im a + im b).
Definition Copp (a : C) : C := mkC (- re a) (- im a).
Definition Cmul (a b : C) : C :=
  mkC (re a * re b - im a * im b) (re a * im b + im a * re b).
Definition Cnorm2 (a : C) : R := re a * re a + im a * im a.
Definition Cdiv (a b : C) : C :=
  mkC ((re a * re b + im a * im b) / Cnorm2 b)
      ((im a * re b - re a * im b) / Cnorm2 b).
Definition Cexp (a : C) : C :=
  mkC (exp (re a) * cos (im a)) (exp (re a) * sin (im a)).
Definition Creal (a : C) : C := RtoC (re a).

(** Principal square root. *)
Definition Csqrt (a : C) : C :=
  let m := sqrt (Cnorm2 a) in
  mkC (sqrt ((m + re a) / 2))
      (if Rlt_dec (im a) 0 then - sqrt ((m - re a) / 2)
       else sqrt ((m - re a) / 2)).

Fixpoint Csum (n : nat) (f : nat -> C) : C :=
  match n with
  | O => C0
  | S m => Cadd (Csum m f) (f m)
  end.

Fixpoint Rsum (n : nat) (f : nat -> R) : R :=
  match n with
  | O => 0%R
  | S m => (Rsum m f + f m)%R
  end.

(* ================================================================== *)
(** * Multi-indices *)
(* ================================================================== *)

Definition Index : Type := list nat.

(** [idx[a]], 0 outside. *)
Definition at_ (a : nat) (idx : list nat) : nat := nth a idx 0.

(** [idx] with position [a] replaced by [v]; unchanged when [a] is out of
    range. *)
Fixpoint upd (a v : nat) (idx : list nat) {struct idx} : list nat :=
  match idx, a with
  | [], _ => []
  | _ :: t, O => v :: t
  | h :: t, S a' => h :: upd a' v t
  end.

Fixpoint map2 {A B D : Type} (f : A -> B -> D) (l : list A) (m : list B)
  : list D :=
  match l, m with
  | a :: l', b :: m' => f a b :: map2 f l' m'
  | _, _ => []
  end.

Fixpoint forallb2 {A B : Type} (f : A -> B -> bool) (l : list A) (m : list B)
  : bool :=
  match l, m with
  | [], [] => true
  | a :: l', b :: m' => f a b && forallb2 f l' m'
  | _, _ => false
  end.

Fixpoint sequence_opt {A : Type} (l : list (option A)) : option (list A) :=
  match l with
  | [] => Some []
  | None :: _ => None
  | Some a :: t =>
      match sequence_opt t with
      | Some r => Some (a :: r)
      | None => None
      end
  end.

(** [idx] addresses an element of an array of shape [sh]. *)
Definition valid_index (sh : list nat) (idx : Index) : Prop :=
  Forall2 lt idx sh.

Definition valid_indexb (sh : list nat) (idx : Index) : bool :=
  forallb2 Nat.ltb idx sh.

(* ================================================================== *)
(** * Arrays *)
(* ================================================================== *)

Record Array (A : Type) : Type := mkArray {
  dtype : DType;
  shape : list nat;
  data : Index -> A
}.

Arguments mkArray {A} dtype shape data.
Arguments dtype {A} a.
Arguments shape {A} a.
Arguments data {A} a idx.

Definition ndim {A : Type} (x : Array A) : nat := length (shape x).

(** [x.shape[a]]. *)
Definition dim {A : Type} (x : Array A) (a : nat) : nat := at_ a (shape x).

(** Same dtype, same shape, same elements. *)
Definition arr_eq {A : Type} (x y : Array A) : Prop :=
  dtype x = dtype y /\ shape x = shape y /\
  forall idx, valid_index (shape x) idx -> data x idx = data y idx.

(** Same shape and same elements (the dtype may differ). *)
Definition same_values {A : Type} (x y : Array A) : Prop :=
  shape x = shape y /\
  forall idx, valid_index (shape x) idx -> data x idx = data y idx.

(** Row-major contents of a 1-D array, and a 1-D array from a list. *)
Definition to_list {A : Type} (x : Array A) : list A :=
  map (fun i => data x [i]) (seq 0 (dim x 0)).

Definition of_list {A : Type} (d : DType) (dflt : A) (l : list A) : Array A :=
  mkArray d [length l] (fun idx => nth (at_ 0 idx) l dflt).

(** Contents of a 2-D array as a list of rows, and a 2-D array from rows. *)
Definition to_rows {A : Type} (x : Array A) : list (list A) :=
  map (fun i => map (fun j => data x [i; j]) (seq 0 (dim x 1)))
      (seq 0 (dim x 0)).

Definition of_rows {A : Type} (d : DType) (dflt : A) (r c : nat)
  (l : list (list A)) : Array A :=
  mkArray d [r; c] (fun idx => nth (at_ 1 idx) (nth (at_ 0 idx) l []) dflt).

(* ================================================================== *)
(** * [lax] and [jax.numpy] primitives that only move data *)
(* ================================================================== *)

Section Structural.

Context {A : Type}.

(** Number of elements of [range(lo, hi, step)]. *)
Definition range_len (lo hi step : nat) : nat := (hi - lo + step - 1) / step.

(** [lax.slice_in_dim(x, start, limit, stride, axis)]; [None] is the
    start, respectively the end, of the axis. *)
Definition lax_slice_in_dim (x : Array A) (start limit : option nat)
  (stride axis : nat) : Array A :=
  let lo := default 0 start in
  let hi := default (dim x axis) limit in
  mkArray (dtype x)
    (upd axis (range_len lo hi stride) (shape x))
    (fun idx => data x (upd axis (lo + stride * at_ axis idx) idx)).

(** The error of [lax.slice_in_dim]: a start beyond the limit, or a limit
    beyond the end of the axis, is a [TypeError].  [lax_slice_in_dim] is
    the slice of a call that raises none. *)
Definition lax_slice_in_dim_error (x : Array A) (start limit : option nat)
  (axis : nat) : option PyError :=
  let lo := default 0 start in
  let hi := default (dim x axis) limit in
  if (hi <? lo) || (dim x axis <? hi) then Some TypeError else None.

(** [lax.rev(x, dimensions)]. *)
Definition rev_dim (x : Array A) (a : nat) : Array A :=
  mkArray (dtype x) (shape x)
    (fun idx => data x (upd a (dim x a - 1 - at_ a idx) idx)).

Definition lax_rev (x : Array A) (dimensions : list nat) : Array A :=
  fold_left rev_dim dimensions x.

(** [lax.concatenate([x] + rest, dimension)]: the operand list is not
    empty. *)
Fixpoint concat_data (x : Array A) (rest : list (Array A)) (axis : nat)
  (idx : Index) : A :=
  match rest with
  | [] => data x idx
  | y :: rest' =>
      if at_ axis idx <? dim x axis then data x idx
      else concat_data y rest' axis (upd axis (at_ axis idx - dim x axis) idx)
  end.

Definition lax_concatenate (x : Array A) (rest : list (Array A))
  (dimension : nat) : Array A :=
  mkArray (dtype x)
    (upd dimension
       (fold_left (fun n y => n + dim y dimension) rest (dim x dimension))
       (shape x))
    (concat_data x rest dimension).

(** A Python [slice(start, stop, step)] object with a positive step. *)
Record pyslice : Type := mkSlice {
  sl_start : option nat;
  sl_stop : option nat;
  sl_step : nat
}.

Definition empty_slice : pyslice := mkSlice None None 1.

(** [slice.indices(n)]: bounds clamped to the axis length. *)
Definition sl_lo (s : pyslice) (n : nat) : nat := Nat.min (default 0 (sl_start s)) n.
Definition sl_hi (s : pyslice) (n : nat) : nat := Nat.min (default n (sl_stop s)) n.

Definition sl_len (s : pyslice) (n : nat) : nat :=
  range_len (sl_lo s n) (sl_hi s n) (sl_step s).

(** Does position [i] of an axis of length [n] belong to the slice, and
    which position of the slice is it. *)
Definition in_slice (n : nat) (s : pyslice) (i : nat) : bool :=
  (sl_lo s n <=? i) && (i <? sl_hi s n) && ((i - sl_lo s n) mod sl_step s =? 0).

Definition slice_pos (n : nat) (s : pyslice) (i : nat) : nat :=
  (i - sl_lo s n) / sl_step s.

(** [x[ix]] for a tuple of slices, one per axis. *)
Definition getitem (x : Array A) (ix : list pyslice) : Array A :=
  mkArray (dtype x)
    (map2 sl_len ix (shape x))
    (fun idx =>
       data x (map2 (fun sn i => sl_lo (fst sn) (snd sn) + sl_step (fst sn) * i)
                 (combine ix (shape x)) idx)).

(** [out.at[ix].set(v)] for a tuple of slices, one per axis. *)
Definition at_set (out : Array A) (ix : list pyslice) (v : Array A) : Array A :=
  mkArray (dtype out) (shape out)
    (fun idx =>
       if forallb2 (fun sn i => in_slice (snd sn) (fst sn) i)
            (combine ix (shape out)) idx
       then data v (map2 (fun sn i => slice_pos (snd sn) (fst sn) i)
                      (combine ix (shape out)) idx)
       else data out idx).

(** [jnp.zeros(shape, dtype)] and [lax.full(shape, fill, dtype)]. *)
Definition lax_full (sh : list nat) (fill : A) (d : DType) : Array A :=
  mkArray d sh (fun _ => fill).

(** [jnp.flip(x, axis)] and [jnp.roll(x, shift, axis)]. *)
Definition jnp_flip (x : Array A) (axis : nat) : Array A :=
  mkArray (dtype x) (shape x)
    (fun idx => data x (upd axis (dim x axis - 1 - at_ axis idx) idx)).

Definition jnp_roll (x : Array A) (shift axis : nat) : Array A :=
  let n := dim x axis in
  mkArray (dtype x) (shape x)
    (fun idx =>
       data x (upd axis ((at_ axis idx + (n - shift mod n)) mod n) idx)).

(** [lax.expand_dims(x, dimensions)]: axes of length one are inserted at
    the positions [dimensions] of the result. *)
Definition memb (p : nat) (l : list nat) : bool := existsb (Nat.eqb p) l.

Fixpoint expand_shape (r p : nat) (dims sh : list nat) : list nat :=
  match r with
  | O => []
  | S r' =>
      if memb p dims then 1 :: expand_shape r' (S p) dims sh
      else match sh with
           | [] => []
           | n :: sh' => n :: expand_shape r' (S p) dims sh'
           end
  end.

Fixpoint squeeze_index (p : nat) (dims : list nat) (idx : Index) : Index :=
  match idx with
  | [] => []
  | i :: t =>
      if memb p dims then squeeze_index (S p) dims t
      else i :: squeeze_index (S p) dims t
  end.

Definition lax_expand_dims (x : Array A) (dimensions : list nat) : Array A :=
  mkArray (dtype x)
    (expand_shape (ndim x + length dimensions) 0 dimensions (shape x))
    (fun idx => data x (squeeze_index 0 dimensions idx)).

(** [lax.pad(x, padding_value, padding_config)]: per axis a triple
    (low, high, interior); a negative low or high removes elements; a
    negative resulting length is an error. *)
Definition PadConfig : Type := (Z * Z * Z)%type.

Definition dilated (n : nat) (interior : Z) : Z :=
  if n =? 0 then 0%Z else (Z.of_nat n + interior * (Z.of_nat n - 1))%Z.

Definition pad_dim (c : PadConfig) (n : nat) : Z :=
  let '(lo, hi, interior) := c in (lo + hi + dilated n interior)%Z.

Definition pad_src (cn : PadConfig * nat) (p : nat) : option nat :=
  let '((lo, hi, interior), n) := cn in
  let q := (Z.of_nat p - lo)%Z in
  if ((0 <=? q) && (q <? dilated n interior)
      && (q mod (interior + 1) =? 0))%Z
  then Some (Z.to_nat (q / (interior + 1)))
  else None.

Definition pad_config_ok (c : PadConfig) (n : nat) : bool :=
  let '(lo, hi, interior) := c in
  ((0 <=? interior) && (0 <=? pad_dim c n))%Z.

Definition lax_pad (x : Array A) (padding_value : A)
  (padding_config : list PadConfig) : result (Array A) :=
  if negb (length padding_config =? ndim x) then Raise ValueError
  else if negb (forallb2 pad_config_ok padding_config (shape x))
  then Raise ValueError
  else Ok (mkArray (dtype x)
             (map2 (fun c n => Z.to_nat (pad_dim c n)) padding_config (shape x))
             (fun idx =>
                match sequence_opt
                        (map2 pad_src (combine padding_config (shape x)) idx)
                with
                | Some src => data x src
                | None => padding_value
                end)).

(** ** The two reorderings of [fft.py] *)

(** [_dct_interleave(x, axis)], lines 31-34. *)
Definition _dct_interleave (x : Array A) (axis : nat) : Array A :=
  let v0 := lax_slice_in_dim x None None 2 axis in
  let v1 := lax_rev (lax_slice_in_dim x (Some 1) None 2 axis) [axis] in
  lax_concatenate v0 [v1] axis.

(** The error of [_dct_interleave]: that of its two slices.  On an empty
    axis the second slice starts at 1, beyond the limit 0. *)
Definition _dct_interleave_error (x : Array A) (axis : nat)
  : option PyError :=
  or_else (lax_slice_in_dim_error x None None axis)
          (lax_slice_in_dim_error x (Some 1) None axis).

(** [math.ceil(n / 2)]. *)
Definition ceil_half (n : nat) : nat := (n + 1) / 2.

(** The tuple [(s if i == axis else empty_slice for i in range(len(x.shape)))]. *)
Definition axis_slices (s : pyslice) (axis r : nat) : list pyslice :=
  map (fun i => if i =? axis then s else empty_slice) (seq 0 r).

(** [_dct_deinterleave(x, axis)], lines 247-264; [zero] is the element
    [jnp.zeros] fills with. *)
Definition _dct_deinterleave (zero : A) (x : Array A) (axis : nat) : Array A :=
  let r := length (shape x) in
  let ix0 := axis_slices (mkSlice None (Some (ceil_half (dim x axis))) 1) axis r in
  let ix1 := axis_slices (mkSlice (Some (ceil_half (dim x axis))) None 1) axis r in
  let v0 := getitem x ix0 in
  let v1 := lax_rev (getitem x ix1) [axis] in
  let out := lax_full (shape x) zero (dtype x) in
  let evens := axis_slices (mkSlice None None 2) axis r in
  let odds := axis_slices (mkSlice (Some 1) None 2) axis r in
  let out := at_set out evens v0 in
  let out := at_set out odds v1 in
  out.

End Structural.

(** The error of [lax.full(shape, fill, dtype)]: a negative length in
    [shape] is a [TypeError]. *)
Definition lax_full_error (sh : list Z) : option PyError :=
  if existsb (fun n => (n <? 0)%Z) sh then Some TypeError else None.

(* ================================================================== *)
(** * Numeric primitives on complex-valued arrays *)
(* ================================================================== *)

Open Scope R_scope.

(** Elementwise unary operations; [astype], [x.real]. *)
Definition map_array (f : C -> C) (d : DType) (x : Array C) : Array C :=
  mkArray d (shape x) (fun idx => f (data x idx)).

Definition astype (x : Array C) (d : DType) : Array C :=
  map_array (fun z => if is_complex_dtype d then z else Creal z) d x.

Definition jnp_real (x : Array C) : Array C :=
  map_array Creal (real_dtype (dtype x)) x.

Definition jnp_negative (x : Array C) : Array C :=
  map_array Copp (dtype x) x.

Definition jnp_exp (x : Array C) : Array C :=
  map_array Cexp (dtype x) x.

Definition lax_sqrt (x : Array C) : Array C :=
  map_array Csqrt (dtype x) x.

(** [c * x] and [x * c] for a Python scalar [c] of kind [k]. *)
Definition py_mul (k : PyKind) (c : C) (x : Array C) : Array C :=
  map_array (Cmul c) (weak_dtype k (dtype x)) x.

(** NumPy broadcasting of two shapes and of an index of the result into
    an operand: shapes are aligned at the last axis, an axis of length one
    is repeated. *)
Definition bcast_shape (s1 s2 : list nat) : list nat :=
  let r := Nat.max (length s1) (length s2) in
  map2 (fun a b => if (a =? 1)%nat then b else a)
    (repeat 1%nat (r - length s1) ++ s1)
    (repeat 1%nat (r - length s2) ++ s2).

Definition bcast_index (sh : list nat) (idx : Index) : Index :=
  map2 (fun n i => if (n =? 1)%nat then 0%nat else i)
    sh (skipn (length idx - length sh) idx).

Definition binop (f : C -> C -> C) (d : DType) (x y : Array C) : Array C :=
  mkArray d (bcast_shape (shape x) (shape y))
    (fun idx => f (data x (bcast_index (shape x) idx))
                  (data y (bcast_index (shape y) idx))).

Definition jnp_add (x y : Array C) : Array C :=
  binop Cadd (promote_types (dtype x) (dtype y)) x y.

Definition jnp_multiply (x y : Array C) : Array C :=
  binop Cmul (promote_types (dtype x) (dtype y)) x y.

(** [x / y] is true division: integers become floats. *)
Definition jnp_divide (x y : Array C) : Array C :=
  let d := promote_types (dtype x) (dtype y) in
  binop Cdiv (if is_int_dtype d then Float32 else d) x y.

(** [jnp.arange(n, dtype=d)]. *)
Definition jnp_arange (n : nat) (d : DType) : Array C :=
  mkArray d [n] (fun idx => RtoC (INR (at_ 0 idx))).

(** [jnp.fft.fft(v, axis)] and [jnp.fft.ifft(V, axis)]: the discrete
    Fourier transform along one axis,
    [V[k] = sum_n v[n] exp(-2 pi i k n / N)] and
    [v[n] = (1/N) sum_k V[k] exp(2 pi i k n / N)]. *)
Definition dft_kernel (sign : R) (N k n : nat) : C :=
  Cexp (mkC 0 (sign * (2 * PI * INR k * INR n / INR N))).

Definition jnp_fft_fft (v : Array C) (axis : nat) : Array C :=
  let N := dim v axis in
  mkArray (to_complex_dtype (dtype v)) (shape v)
    (fun idx =>
       Csum N (fun n =>
         Cmul (data v (upd axis n idx)) (dft_kernel (-1) N (at_ axis idx) n))).

Definition jnp_fft_ifft (V : Array C) (axis : nat) : Array C :=
  let N := dim V axis in
  mkArray (to_complex_dtype (dtype V)) (shape V)
    (fun idx =>
       Cmul (RtoC (/ INR N))
         (Csum N (fun k =>
            Cmul (data V (upd axis k idx)) (dft_kernel 1 N k (at_ axis idx))))).

(** Modelled from the spec: [canonicalize_axis] of [jax._src.util], which
    is not part of the sources at hand.  An axis in [-rank, rank-1] is
    accepted, a negative one maps to [rank + axis]; any other axis is
    reported as invalid. *)
Definition canonicalize_axis (axis : Z) (num_dims : nat) : result nat :=
  if ((- Z.of_nat num_dims <=? axis) && (axis <? Z.of_nat num_dims))%Z
  then Ok (Z.to_nat (if (axis <? 0)%Z then axis + Z.of_nat num_dims else axis))
  else Raise ValueError.

(** [len(axes) != len(set(axes))]. *)
Fixpoint has_repeats (l : list Z) : bool :=
  match l with
  | [] => false
  | a :: t => existsb (Z.eqb a) t || has_repeats t
  end.

(** [canonicalize_axis] on each axis of a list. *)
Fixpoint canonicalize_axes (axes : list Z) (num_dims : nat)
  : result (list nat) :=
  match axes with
  | [] => Ok []
  | a :: t =>
      k <- canonicalize_axis a num_dims ;;
      ks <- canonicalize_axes t num_dims ;;
      Ok (k :: ks)
  end.

(** [jnp.fft.fftn(v, axes)]: an axis listed twice is refused with a
    [ValueError]; the axes are then canonicalized, and an axis listed
    under two names, such as 0 and -2, is refused with a [TypeError]
    (the transposition that moves the axes last is no permutation);
    otherwise the transform runs along each listed axis in turn. *)
Definition jnp_fft_fftn (v : Array C) (axes : list Z) : result (Array C) :=
  if has_repeats axes then Raise ValueError
  else
    ks <- canonicalize_axes axes (ndim v) ;;
    if has_repeats (map Z.of_nat ks) then Raise TypeError
    else Ok (fold_left jnp_fft_fft ks v).

(** [[a for a in range(r) if a != axis]]. *)
Definition other_axes (r axis : nat) : list nat :=
  filter (fun a => negb (a =? axis)%nat) (seq 0 r).

(* ================================================================== *)
(** * The functions of [fft.py] *)
(* ================================================================== *)

(** [_W4(N, k)], lines 27-29.  [promote_dtypes_complex(N, k)] turns the
    integer [N] into a rank-0 array and casts both to the complex type of
    [k]. *)
Definition _W4 (N : nat) (k : Array C) : Array C :=
  let d := to_complex_dtype (dtype k) in
  let N_arr := mkArray d [] (fun _ => RtoC (INR N)) in
  let k := astype k d in
  jnp_exp
    (jnp_divide
       (py_mul KComplex (Cmul (Copp (mkC 0 (1 / 2))) (RtoC PI)) k)
       N_arr).

(** [_dct_ortho_norm(out, axis)], lines 36-39. *)
Definition _dct_ortho_norm (out : Array C) (axis : nat) : Array C :=
  let factor :=
    lax_concatenate (lax_full [1%nat] (RtoC 4) (dtype out))
      [lax_full [(dim out axis - 1)%nat] (RtoC 2) (dtype out)] 0 in
  let factor := lax_expand_dims factor (other_axes (ndim out) axis) in
  jnp_divide out
    (lax_sqrt (py_mul KInt (RtoC (INR (dim out axis))) factor)).

(** The error of [_dct_ortho_norm]: on an empty axis the second
    [lax.full] is asked for the length [-1]. *)
Definition _dct_ortho_norm_error (out : Array C) (axis : nat)
  : option PyError :=
  or_else (lax_full_error [1%Z])
          (lax_full_error [(Z.of_nat (dim out axis) - 1)%Z]).

(** [norm == 'ortho']. *)
Definition is_ortho (norm : option string) : bool :=
  match norm with
  | Some s => String.eqb s "ortho"
  | None => false
  end.

(** The padding both [dct] and [idct] apply when [n] is given:
    [lax.pad(x, 0, [(0, n - x.shape[axis] if a == axis else 0, 0)
                    for a in range(x.ndim)])]. *)
Definition pad_axis_to (x : Array C) (axis : nat) (n : Z) : result (Array C) :=
  lax_pad x C0
    (map (fun a => (0, if (a =? axis)%nat then n - Z.of_nat (dim x axis) else 0, 0)%Z)
       (seq 0 (ndim x))).

(** [dct(x, type, n, axis, norm)], lines 45-85. *)
Definition dct (x : Array C) (type : Z) (n : option Z) (axis : Z)
  (norm : option string) : result (Array C) :=
  if negb (type =? 2)%Z then Raise NotImplementedError
  else
    axis <- canonicalize_axis axis (ndim x) ;;
    x <- match n with
         | Some n => pad_axis_to x axis n
         | None => Ok x
         end ;;
    let N := dim x axis in
    v <- call (_dct_interleave_error x axis) (_dct_interleave x axis) ;;
    let V := jnp_fft_fft v axis in
    let k := lax_expand_dims (jnp_arange N (real_dtype (dtype V)))
               (other_axes (ndim x) axis) in
    let out := jnp_multiply V (_W4 N k) in
    let out := py_mul KInt (RtoC 2) (jnp_real out) in
    if is_ortho norm
    then call (_dct_ortho_norm_error out axis) (_dct_ortho_norm out axis)
    else Ok out.

(** [_dct2(x, axes, norm)], lines 88-101.  The tuple assignment of line 89
    needs exactly two axes. *)
Definition _dct2 (x : Array C) (axes : list Z) (norm : option string)
  : result (Array C) :=
  match axes with
  | [a1; a2] =>
      axis1 <- canonicalize_axis a1 (ndim x) ;;
      axis2 <- canonicalize_axis a2 (ndim x) ;;
      let N1 := dim x axis1 in
      let N2 := dim x axis2 in
      v1 <- call (_dct_interleave_error x axis1) (_dct_interleave x axis1) ;;
      v <- call (_dct_interleave_error v1 axis2) (_dct_interleave v1 axis2) ;;
      V <- jnp_fft_fftn v axes ;;
      let k1 := lax_expand_dims (jnp_arange N1 (dtype V))
                  (other_axes (ndim x) axis1) in
      let k2 := lax_expand_dims (jnp_arange N2 (dtype V))
                  (other_axes (ndim x) axis2) in
      let out :=
        jnp_multiply (_W4 N1 k1)
          (jnp_add
             (jnp_multiply (_W4 N2 k2) V)
             (jnp_multiply (_W4 N2 (jnp_negative k2))
                (jnp_roll (jnp_flip V axis2) 1 axis2))) in
      let out := py_mul KInt (RtoC 2) (jnp_real out) in
      if is_ortho norm
      then
        o1 <- call (_dct_ortho_norm_error out axis1)
                (_dct_ortho_norm out axis1) ;;
        call (_dct_ortho_norm_error o1 axis2) (_dct_ortho_norm o1 axis2)
      else Ok out
  | _ => Raise ValueError
  end.

(** [dict(zip(axes, s))] as the list of pairs; a later pair overrides an
    earlier one with the same key. *)
Definition dict_get (d : list (Z * Z)) (k : Z) : option Z :=
  fold_left (fun acc kv => if (fst kv =? k)%Z then Some (snd kv) else acc)
    d None.

(** The padding of [dctn] and [idctn] when [s] is given, lines 138-141
    and 236-239. *)
Definition pad_axes_to (x : Array C) (axes s : list Z) : result (Array C) :=
  let ns := combine axes s in
  let pads :=
    map (fun a =>
           (0,
            match dict_get ns (Z.of_nat a) with
            | Some n => n - Z.of_nat (dim x a)
            | None => 0
            end,
            0)%Z)
      (seq 0 (ndim x)) in
  lax_pad x C0 pads.

(** [s[0] if s is not None else None]. *)
Definition first_length (s : option (list Z)) : result (option Z) :=
  match s with
  | None => Ok None
  | Some [] => Raise IndexError
  | Some (n :: _) => Ok (Some n)
  end.

(** [[axes[i:i+2] for i in range(0, len(axes), 2)]]. *)
Definition axes_blocks (axes : list Z) : list (list Z) :=
  map (fun j => firstn 2 (skipn (2 * j) axes))
    (seq 0 (range_len 0 (length axes) 2)).

(** [dctn(x, type, s, axes, norm)], lines 104-149.  The function calls
    itself on blocks of at most two axes; [fuel] bounds the depth of the
    recursion. *)
Fixpoint dctn_fuel (fuel : nat) (x : Array C) (type : Z)
  (s axes : option (list Z)) (norm : option string) : result (Array C) :=
  match fuel with
  | O => Raise RecursionError
  | S fuel' =>
      if negb (type =? 2)%Z then Raise NotImplementedError
      else
        let axes :=
          match axes with
          | None => map Z.of_nat (seq 0 (ndim x))
          | Some axes => axes
          end in
        if (length axes =? 1)%nat
        then n <- first_length s ;; dct x 2 n (nth 0 axes 0%Z) norm
        else
          x <- match s with
               | Some s => pad_axes_to x axes s
               | None => Ok x
               end ;;
          if (length axes =? 2)%nat then _dct2 x axes norm
          else
            fold_left
              (fun acc axes_block =>
                 x <- acc ;;
                 dctn_fuel fuel' x 2 None (Some axes_block) norm)
              (axes_blocks axes) (Ok x)
  end.

Definition dctn : Array C -> Z -> option (list Z) -> option (list Z) ->
                  option string -> result (Array C) :=
  dctn_fuel 2.

(** Lines 185-187 of [idct]: the passes of [_dct_ortho_norm] that precede
    the inverse FFT. *)
Definition idct_denormalize (x : Array C) (axis : nat) (norm : option string)
  : Array C :=
  let x := match norm with
           | None => _dct_ortho_norm x axis
           | Some _ => x
           end in
  _dct_ortho_norm x axis.

(** The error of these passes: that of the first call of
    [_dct_ortho_norm] that raises one. *)
Definition idct_denormalize_error (x : Array C) (axis : nat)
  (norm : option string) : option PyError :=
  match norm with
  | None =>
      or_else (_dct_ortho_norm_error x axis)
              (_dct_ortho_norm_error (_dct_ortho_norm x axis) axis)
  | Some _ => _dct_ortho_norm_error x axis
  end.

(** [idct(x, type, n, axis, norm)], lines 152-199. *)
Definition idct (x : Array C) (type : Z) (n : option Z) (axis : Z)
  (norm : option string) : result (Array C) :=
  if negb (type =? 2)%Z then Raise NotImplementedError
  else
    axis <- canonicalize_axis axis (ndim x) ;;
    x <- match n with
         | Some n => pad_axis_to x axis n
         | None => Ok x
         end ;;
    let N := dim x axis in
    let x := astype x Float32 in
    x <- call (idct_denormalize_error x axis norm)
           (idct_denormalize x axis norm) ;;
    let k := lax_expand_dims (jnp_arange N Float32)
               (other_axes (ndim x) axis) in
    let w4 := _W4 N k in
    let x := astype x (dtype w4) in
    let x := jnp_divide x (_W4 N k) in
    let x := py_mul KInt (RtoC (INR N)) (py_mul KInt (RtoC 2) x) in
    let x := jnp_fft_ifft x axis in
    let out := _dct_deinterleave C0 (jnp_real x) axis in
    Ok out.

(** [idctn(x, type, s, axes, norm)], lines 202-244. *)
Definition idctn (x : Array C) (type : Z) (s axes : option (list Z))
  (norm : option string) : result (Array C) :=
  if negb (type =? 2)%Z then Raise NotImplementedError
  else
    let axes :=
      match axes with
      | None => map Z.of_nat (seq 0 (ndim x))
      | Some axes => axes
      end in
    if (length axes =? 1)%nat
    then n <- first_length s ;; idct x 2 n (nth 0 axes 0%Z) norm
    else
      x <- match s with
           | Some s => pad_axes_to x axes s
           | None => Ok x
           end ;;
      fold_left (fun acc axis => x <- acc ;; idct x 2 None axis norm)
        axes (Ok x).

Close Scope R_scope.

(* ================================================================== *)
(** * Closed forms of the reorderings and of the transforms *)
(* ================================================================== *)

(** Position of the input that [_dct_interleave] moves to position [i]
    of an axis of length [n]. *)
Definition interleave_src (n i : nat) : nat :=
  if i <? ceil_half n then 2 * i else 2 * (n - 1 - i) + 1.

(** Position of the input that [_dct_deinterleave] moves to position [i]. *)
Definition deinterleave_src (n i : nat) : nat :=
  if i mod 2 =? 0 then i / 2 else n - 1 - i / 2.

(** The twiddle factor [_W4] computes from the index value [z]. *)
Definition twiddle (N : nat) (z : C) : C :=
  Cexp (Cdiv (Cmul (Cmul (Copp (mkC 0 (1 / 2))) (RtoC PI)) z) (RtoC (INR N))).

(** The divisor of [_dct_ortho_norm] at position [i] of an axis of
    length [N]. *)
Definition ortho_scale (N i : nat) : R :=
  sqrt (INR N * (if i =? 0 then 4 else 2)).

(** An array holds real values. *)
Definition is_real (x : Array C) : Prop :=
  forall idx, valid_index (shape x) idx -> im (data x idx) = 0%R.

(** Values along axis [a] through the index [idx]. *)
Definition lane (x : Array C) (a : nat) (idx : Index) (n : nat) : R :=
  re (data x (upd a n idx)).

(** Angle of the cosine that couples position [n] of the interleaved
    sequence with coefficient [k]. *)
Definition dct_angle (N k n : nat) : R :=
  (PI * INR k * (4 * INR n + 1) / (2 * INR N))%R.

(** What [dct] computes from the interleaved sequence [v], and what
    [idct] computes from the rescaled coefficients [Y] before it
    de-interleaves. *)
Definition dct_lane (N : nat) (v : nat -> R) (k : nat) : R :=
  (2 * Rsum N (fun n => v n * cos (dct_angle N k n)))%R.

Definition idct_lane (N : nat) (Y : nat -> R) (n : nat) : R :=
  (/ INR N * Rsum N (fun k => INR N * (2 * Y k) * cos (dct_angle N k n)))%R.

(** Lines 77-85 of [dct] and lines 183-199 of [idct], once the axis is
    canonical and the padding done, in a call where no helper raises. *)
Definition dct_kernel (x : Array C) (axis : nat) (norm : option string)
  : Array C :=
  let N := dim x axis in
  let v := _dct_interleave x axis in
  let V := jnp_fft_fft v axis in
  let k := lax_expand_dims (jnp_arange N (real_dtype (dtype V)))
             (other_axes (ndim x) axis) in
  let out := jnp_multiply V (_W4 N k) in
  let out := py_mul KInt (RtoC 2) (jnp_real out) in
  if is_ortho norm then _dct_ortho_norm out axis else out.

Definition idct_kernel (x : Array C) (axis : nat) (norm : option string)
  : Array C :=
  let N := dim x axis in
  let x := astype x Float32 in
  let x := idct_denormalize x axis norm in
  let k := lax_expand_dims (jnp_arange N Float32)
             (other_axes (ndim x) axis) in
  let w4 := _W4 N k in
  let x := astype x (dtype w4) in
  let x := jnp_divide x (_W4 N k) in
  let x := py_mul KInt (RtoC (INR N)) (py_mul KInt (RtoC 2) x) in
  let x := jnp_fft_ifft x axis in
  _dct_deinterleave C0 (jnp_real x) axis.

(** What the helpers make of an empty axis: the [TypeError] of
    [lax.slice_in_dim] or of [lax.full]. *)
Definition nonempty_axis (x : Array C) (axis : nat) (y : Array C)
  : result (Array C) :=
  if dim x axis =? 0 then Raise TypeError else Ok y.

(** Value left by the de-normalisation stage of [idct] at position [i]. *)
Definition denorm_value (N : nat) (norm : option string) (i : nat) (r : R) : R :=
  match norm with
  | None => (r / ortho_scale N i / ortho_scale N i)%R
  | Some _ => (r / ortho_scale N i)%R
  end.

(** [p] successive applications of [_dct_ortho_norm] along [axis]. *)
Definition ortho_passes (p : nat) (x : Array C) (axis : nat) : Array C :=
  Nat.iter p (fun y => _dct_ortho_norm y axis) x.

(** An axis that canonicalizes to a position of positive length. *)
Definition good_axis (sh : list nat) (axis : Z) : Prop :=
  exists a, canonicalize_axis axis (length sh) = Ok a /\ 0 < at_ a sh.

(** [x] with [m] zeros appended along [axis], and [x[:m]] along [axis]:
    what the spec compares the [n] argument of [dct] with. *)
Definition append_zeros (x : Array C) (axis m : nat) : Array C :=
  lax_concatenate x [lax_full (upd axis m (shape x)) C0 (dtype x)] axis.

Definition take_prefix (x : Array C) (axis m : nat) : Array C :=
  getitem x (axis_slices (mkSlice None (Some m) 1) axis (ndim x)).

(** Position [jnp.roll(jnp.flip(V, axis), 1, axis)] reads at position [i]
    of an axis of length [N]. *)
Definition mirror (N i : nat) : nat := (N - i) mod N.

(** Lines 93-101 of [_dct2], for canonical axes and the spectrum [V]. *)
Definition dct2_kernel (x : Array C) (axis1 axis2 : nat) (V : Array C)
  (norm : option string) : Array C :=
  let N1 := dim x axis1 in
  let N2 := dim x axis2 in
  let k1 := lax_expand_dims (jnp_arange N1 (dtype V))
              (other_axes (ndim x) axis1) in
  let k2 := lax_expand_dims (jnp_arange N2 (dtype V))
              (other_axes (ndim x) axis2) in
  let out :=
    jnp_multiply (_W4 N1 k1)
      (jnp_add
         (jnp_multiply (_W4 N2 k2) V)
         (jnp_multiply (_W4 N2 (jnp_negative k2))
            (jnp_roll (jnp_flip V axis2) 1 axis2))) in
  let out := py_mul KInt (RtoC 2) (jnp_real out) in
  if is_ortho norm
  then _dct_ortho_norm (_dct_ortho_norm out axis1) axis2
  else out.

(** The input value that reaches position [(n1, n2)] of the doubly
    interleaved array, along the axes [k1] and [k2] through [idx]. *)
Definition plane (x : Array C) (k1 k2 : nat) (idx : Index) (n1 n2 : nat) : R :=
  re (data x (upd k1 (interleave_src (dim x k1) n1)
                (upd k2 (interleave_src (dim x k2) n2) idx))).

(** The separable double cosine sum. *)
Definition dct2_sum (N1 N2 : nat) (w : nat -> nat -> R) (i1 i2 : nat) : R :=
  Rsum N2 (fun n2 =>
    (Rsum N1 (fun n1 => w n1 n2 * cos (dct_angle N1 i1 n1))
     * cos (dct_angle N2 i2 n2))%R).

(** The divisor the orthonormal mode applies at position [i]. *)
Definition norm_scale (norm : option string) (N i : nat) : R :=
  if is_ortho norm then ortho_scale N i else 1%R.

(** An axis outside [[-r, r-1]]. *)
Definition axis_out_of_range (r : nat) (a : Z) : Prop :=
  (a < - Z.of_nat r \/ Z.of_nat r <= a)%Z.

(** The high padding [dctn] and [idctn] give axis [i] of length [N] for
    the dictionary [d]. *)
Definition pad_amount (d : list (Z * Z)) (i N : nat) : Z :=
  match dict_get d (Z.of_nat i) with
  | Some n => (n - Z.of_nat N)%Z
  | None => 0%Z
  end.


(* ================================================================== *)
(** * Reference transforms *)
(* ================================================================== *)

(** Angle of the cosine that couples position [m] of the input with
    coefficient [k] in a DCT-II of length [N]. *)
Definition dctII_angle (N k m : nat) : R :=
  (PI * INR k * (2 * INR m + 1) / (2 * INR N))%R.

(** The unnormalised DCT-II,
    [y[k] = 2 sum_m x[m] cos(pi k (2 m + 1) / (2 N))]. *)
Definition dctII (N : nat) (x : nat -> R) (k : nat) : R :=
  (2 * Rsum N (fun m => x m * cos (dctII_angle N k m)))%R.

(** Weight [idct] gives coefficient [k] of an axis of length [N]. *)
Definition idct_weight (N : nat) (norm : option string) (k : nat) : R :=
  match norm with
  | None => ((if k =? 0 then 1 else 2) / (2 * INR N))%R
  | Some _ => (2 / ortho_scale N k)%R
  end.

(** The weighted DCT-III,
    [x[m] = sum_k w[k] X[k] cos(pi k (2 m + 1) / (2 N))]. *)
Definition dctIII (N : nat) (w X : nat -> R) (m : nat) : R :=
  Rsum N (fun k => (w k * X k * cos (dctII_angle N k m))%R).

(** Sum of the squares of the first [N] values of [v]. *)
Definition energy (N : nat) (v : nat -> R) : R :=
  Rsum N (fun n => (v n * v n)%R).

(** [dct], respectively [idct], along each axis of [axes] in turn. *)
Definition dct_each (x : Array C) (axes : list Z) (norm : option string)
  : result (Array C) :=
  fold_left (fun acc a => x <- acc ;; dct x 2 None a norm) axes (Ok x).

Definition idct_each (x : Array C) (axes : list Z) (norm : option string)
  : result (Array C) :=
  fold_left (fun acc a => x <- acc ;; idct x 2 None a norm) axes (Ok x).

(** The same on canonical axes, without the argument checks. *)
Definition dct_kernels (x : Array C) (ks : list nat) (norm : option string)
  : Array C :=
  fold_left (fun y k => dct_kernel y k norm) ks x.

Definition idct_kernels (x : Array C) (ks : list nat) (norm : option string)
  : Array C :=
  fold_left (fun y k => idct_kernel y k norm) ks x.

(** [axes] canonicalize to the positions [ks] of [x], all of positive
    length. *)
Definition canonical_axes (x : Array C) (axes : list Z) (ks : list nat)
  : Prop :=
  Forall2 (fun a k => canonicalize_axis a (ndim x) = Ok k /\ 0 < dim x k)
    axes ks.

(** Imaginary parts along axis [a] through the index [idx]. *)
Definition lane_im (x : Array C) (a : nat) (idx : Index) (n : nat) : R :=
  im (data x (upd a n idx)).

(** The sine sum with alternating signs,
    [2 sum_m (-1)^m w[m] sin(pi k (2 m + 1) / (2 N))]. *)
Definition alt_sine_sum (N : nat) (w : nat -> R) (k : nat) : R :=
  (2 * Rsum N (fun m => (if Nat.even m then 1 else -1) * w m
                        * sin (dctII_angle N k m)))%R.

(** Positions of a shape [sh] that exist and have positive length. *)
Definition good_positions (sh : list nat) (ks : list nat) : Prop :=
  Forall (fun k => k < length sh /\ 0 < at_ k sh) ks.


(* ================================================================== *)
(** * Index lemmas *)
(* ================================================================== *)

Ltac Zify.zify_post_hook ::= Z.div_mod_to_equations.

#[local] Arguments Nat.div : simpl never.
#[local] Arguments Nat.mul : simpl never.
#[local] Arguments Nat.modulo : simpl never.
#[local] Arguments Z.div : simpl never.
#[local] Arguments Z.modulo : simpl never.

Lemma valid_index_length sh idx :
  valid_index sh idx -> length idx = length sh.
Proof. intros H; induction H; simpl; congruence. Qed.

Lemma valid_index_at sh idx a :
  valid_index sh idx -> a < length sh -> at_ a idx < at_ a sh.
Proof.
  intros H; revert a; induction H; intros a Ha; simpl in *; [lia|].
  destruct a as [|a]; unfold at_ in *; simpl; [assumption|].
  apply IHForall2; lia.
Qed.

Lemma upd_length a v l : length (upd a v l) = length l.
Proof.
  revert a; induction l as [|h t IH]; intros [|a]; simpl; auto.
Qed.

Lemma at_upd_same a v l : a < length l -> at_ a (upd a v l) = v.
Proof.
  revert a; induction l as [|h t IH]; intros [|a] Ha; simpl in *;
    try lia; auto.
  unfold at_ in *; simpl; apply IH; lia.
Qed.

Lemma at_upd_other a b v l : a <> b -> at_ a (upd b v l) = at_ a l.
Proof.
  revert a b; induction l as [|h t IH]; intros [|a] [|b] Hab; simpl;
    try reflexivity; try lia.
  unfold at_ in *; simpl; apply IH; lia.
Qed.

Lemma upd_upd_same a v w l : upd a v (upd a w l) = upd a v l.
Proof.
  revert a; induction l as [|h t IH]; intros [|a]; simpl; auto.
  now rewrite IH.
Qed.

Lemma upd_upd_comm a b v w l :
  a <> b -> upd a v (upd b w l) = upd b w (upd a v l).
Proof.
  revert a b; induction l as [|h t IH]; intros [|a] [|b] Hab; simpl;
    try reflexivity; try lia.
  now rewrite IH by lia.
Qed.

Lemma upd_at_id a l : upd a (at_ a l) l = l.
Proof.
  revert a; induction l as [|h t IH]; intros [|a]; simpl; auto.
  unfold at_ in *; simpl; now rewrite IH.
Qed.

Lemma upd_out_of_range a v l : length l <= a -> upd a v l = l.
Proof.
  revert a; induction l as [|h t IH]; intros [|a] Ha; simpl in *;
    try reflexivity; try lia.
  now rewrite IH by lia.
Qed.

Lemma valid_index_upd sh idx a v n :
  valid_index sh idx -> v < n -> valid_index (upd a n sh) (upd a v idx).
Proof.
  intros H; revert a; induction H; intros a Hv; simpl.
  - destruct a; constructor.
  - destruct a as [|a]; constructor; auto.
    apply IHForall2; assumption.
Qed.

Lemma valid_index_upd_same_shape sh idx a v :
  valid_index sh idx -> v < at_ a sh -> valid_index sh (upd a v idx).
Proof.
  intros H Hv.
  rewrite <- (upd_at_id a sh).
  apply valid_index_upd; assumption.
Qed.

Lemma valid_index_upd_inv sh idx a n :
  valid_index (upd a n sh) idx -> a < length sh ->
  at_ a idx < n /\ forall v, v < at_ a sh -> valid_index sh (upd a v idx).
Proof.
  revert idx a; induction sh as [|m sh IH]; intros idx a H Ha; simpl in *.
  - lia.
  - destruct a as [|a]; inversion H; subst; unfold at_ in *; simpl.
    + split; [assumption|]. intros v Hv; constructor; assumption.
    + destruct (IH l a) as [H1 H2]; [assumption|lia|].
      split; [assumption|].
      intros v Hv; constructor; [assumption|]. apply H2; assumption.
Qed.

Lemma valid_indexb_spec sh idx :
  valid_indexb sh idx = true <-> valid_index sh idx.
Proof.
  unfold valid_indexb, valid_index.
  revert sh; induction idx as [|i idx IH]; intros [|n sh]; simpl.
  - split; auto.
  - split; [discriminate|]. intros H; inversion H.
  - split; [discriminate|]. intros H; inversion H.
  - rewrite andb_true_iff, Nat.ltb_lt, IH.
    split; [intros [? ?]; constructor; auto|].
    intros H; inversion H; subst; auto.
Qed.

(** ** Tuples of slices that act on one axis *)

Lemma range_len_unit n : range_len 0 n 1 = n.
Proof. unfold range_len. rewrite Nat.div_1_r. lia. Qed.

Lemma axis_slices_shape_after (s : pyslice) a p sh :
  a < p ->
  map2 sl_len
    (map (fun i => if i =? a then s else empty_slice) (seq p (length sh))) sh
  = sh.
Proof.
  revert p; induction sh as [|n sh IH]; intros p Hp; simpl; [reflexivity|].
  destruct (Nat.eqb_spec p a); [lia|].
  rewrite IH by lia. f_equal.
  unfold sl_len, sl_lo, sl_hi, empty_slice; simpl.
  rewrite Nat.min_id. apply range_len_unit.
Qed.

Lemma axis_slices_shape_from (s : pyslice) a p sh :
  p <= a ->
  map2 sl_len
    (map (fun i => if i =? a then s else empty_slice) (seq p (length sh))) sh
  = upd (a - p) (sl_len s (at_ (a - p) sh)) sh.
Proof.
  revert p; induction sh as [|n sh IH]; intros p Hp; simpl; [reflexivity|].
  destruct (Nat.eqb_spec p a) as [->|Hne].
  - rewrite Nat.sub_diag; simpl. f_equal.
    apply axis_slices_shape_after; lia.
  - replace (a - p) with (S (a - S p)) by lia.
    unfold at_; simpl. fold (at_ (a - S p) sh).
    rewrite IH by lia. f_equal.
    unfold sl_len, sl_lo, sl_hi, empty_slice; simpl.
    rewrite Nat.min_id. apply range_len_unit.
Qed.

Lemma axis_slices_shape (s : pyslice) a sh :
  map2 sl_len (axis_slices s a (length sh)) sh
  = upd a (sl_len s (at_ a sh)) sh.
Proof.
  unfold axis_slices. rewrite axis_slices_shape_from by lia.
  now rewrite Nat.sub_0_r.
Qed.

Section AxisMaps.

Variable f : pyslice -> nat -> nat -> nat.
Hypothesis f_empty : forall n i, f empty_slice n i = i.
Variables (s : pyslice) (a : nat).

Let ix p r := map (fun i => if i =? a then s else empty_slice) (seq p r).
Let F (sn : pyslice * nat) (i : nat) := f (fst sn) (snd sn) i.

Lemma axis_map_after p sh idx :
  a < p -> length idx = length sh ->
  map2 F (combine (ix p (length sh)) sh) idx = idx.
Proof.
  revert p idx; induction sh as [|n sh IH]; intros p [|i idx] Hp Hl;
    simpl in *; try reflexivity; try discriminate.
  destruct (Nat.eqb_spec p a); [lia|].
  unfold F at 1; simpl. rewrite f_empty. f_equal.
  apply IH; lia.
Qed.

Lemma axis_map_from p sh idx :
  p <= a -> length idx = length sh ->
  map2 F (combine (ix p (length sh)) sh) idx
  = upd (a - p) (f s (at_ (a - p) sh) (at_ (a - p) idx)) idx.
Proof.
  revert p idx; induction sh as [|n sh IH]; intros p [|i idx] Hp Hl;
    simpl in *; try reflexivity; try discriminate.
  destruct (Nat.eqb_spec p a) as [->|Hne].
  - rewrite Nat.sub_diag; simpl. unfold F at 1; simpl. f_equal.
    apply axis_map_after; lia.
  - replace (a - p) with (S (a - S p)) by lia.
    unfold at_; simpl. fold (at_ (a - S p) sh) (at_ (a - S p) idx).
    unfold F at 1; simpl. rewrite f_empty. f_equal.
    apply IH; lia.
Qed.

Lemma axis_map sh idx :
  length idx = length sh ->
  map2 F (combine (axis_slices s a (length sh)) sh) idx
  = upd a (f s (at_ a sh) (at_ a idx)) idx.
Proof.
  intros Hl. unfold axis_slices.
  change (map _ (seq 0 (length sh))) with (ix 0 (length sh)).
  rewrite axis_map_from by (assumption || lia).
  now rewrite Nat.sub_0_r.
Qed.

End AxisMaps.

Lemma in_slice_empty n i : i < n -> in_slice n empty_slice i = true.
Proof.
  intros H. unfold in_slice, sl_lo, sl_hi, empty_slice; simpl.
  rewrite Nat.min_id.
  apply Nat.ltb_lt in H. now rewrite H.
Qed.

Lemma axis_test_after (s : pyslice) a p sh idx :
  a < p -> valid_index sh idx ->
  forallb2 (fun sn i => in_slice (snd sn) (fst sn) i)
    (combine
       (map (fun i => if i =? a then s else empty_slice) (seq p (length sh)))
       sh) idx
  = true.
Proof.
  intros Hp H; revert p Hp; induction H; intros p Hp; simpl; [reflexivity|].
  destruct (Nat.eqb_spec p a); [lia|]. simpl.
  rewrite in_slice_empty by assumption. apply IHForall2; lia.
Qed.

Lemma axis_test_from (s : pyslice) a p sh idx :
  p <= a -> a - p < length sh -> valid_index sh idx ->
  forallb2 (fun sn i => in_slice (snd sn) (fst sn) i)
    (combine
       (map (fun i => if i =? a then s else empty_slice) (seq p (length sh)))
       sh) idx
  = in_slice (at_ (a - p) sh) s (at_ (a - p) idx).
Proof.
  intros Hp Ha H; revert p Hp Ha; induction H; intros p Hp Ha; simpl in *;
    [lia|].
  destruct (Nat.eqb_spec p a) as [->|Hne]; simpl.
  - rewrite Nat.sub_diag; unfold at_; simpl.
    rewrite axis_test_after by (assumption || lia).
    apply andb_true_r.
  - replace (a - p) with (S (a - S p)) in * by lia.
    unfold at_; simpl. fold (at_ (a - S p) l') (at_ (a - S p) l).
    rewrite in_slice_empty by assumption. simpl.
    apply IHForall2; lia.
Qed.

Lemma axis_test (s : pyslice) a sh idx :
  a < length sh -> valid_index sh idx ->
  forallb2 (fun sn i => in_slice (snd sn) (fst sn) i)
    (combine (axis_slices s a (length sh)) sh) idx
  = in_slice (at_ a sh) s (at_ a idx).
Proof.
  intros Ha H. unfold axis_slices.
  rewrite axis_test_from by (assumption || lia).
  now rewrite Nat.sub_0_r.
Qed.

(** ** The reorderings as index maps *)

Section Reorder.

Context {A : Type}.
Implicit Types x : Array A.

Lemma interleave_dtype x a : dtype (_dct_interleave x a) = dtype x.
Proof. reflexivity. Qed.

Lemma interleave_shape x a : shape (_dct_interleave x a) = shape x.
Proof.
  destruct (Nat.lt_ge_cases a (length (shape x))) as [Ha|Ha].
  - unfold _dct_interleave, lax_concatenate, lax_rev, rev_dim, lax_slice_in_dim,
      dim; simpl.
    rewrite upd_upd_same, !at_upd_same by assumption.
    transitivity (upd a (at_ a (shape x)) (shape x)); [|apply upd_at_id].
    f_equal.
    unfold range_len. generalize (at_ a (shape x)); intros n. lia.
  - unfold _dct_interleave, lax_concatenate, lax_slice_in_dim; simpl.
    rewrite upd_upd_same. now apply upd_out_of_range.
Qed.

Lemma interleave_ndim x a : ndim (_dct_interleave x a) = ndim x.
Proof. unfold ndim. now rewrite interleave_shape. Qed.

Lemma interleave_data x a idx :
  a < ndim x -> a < length idx ->
  data (_dct_interleave x a) idx
  = data x (upd a (interleave_src (dim x a) (at_ a idx)) idx).
Proof.
  intros Ha Hi.
  unfold _dct_interleave, lax_concatenate, lax_rev, rev_dim, lax_slice_in_dim,
    dim, interleave_src, ceil_half; simpl.
  unfold dim; simpl. unfold ndim in Ha.
  rewrite !at_upd_same by (rewrite ?upd_length; assumption).
  rewrite !upd_upd_same.
  unfold range_len.
  generalize (at_ a (shape x)) (at_ a idx); intros n i.
  replace (n - 0 + 2 - 1) with (n + 1) by lia.
  destruct (Nat.ltb_spec i ((n + 1) / 2)); f_equal; f_equal; lia.
Qed.

Lemma deinterleave_dtype zero x a : dtype (_dct_deinterleave zero x a) = dtype x.
Proof. reflexivity. Qed.

Lemma deinterleave_shape zero x a : shape (_dct_deinterleave zero x a) = shape x.
Proof. reflexivity. Qed.

Lemma slice_pos_empty n i : slice_pos n empty_slice i = i.
Proof.
  unfold slice_pos, sl_lo, empty_slice; simpl.
  rewrite Nat.div_1_r. lia.
Qed.

Lemma slice_at_empty n i :
  sl_lo empty_slice n + sl_step empty_slice * i = i.
Proof. unfold sl_lo, empty_slice; simpl. lia. Qed.

Lemma getitem_axis_data x s a r idx :
  r = ndim x -> length idx = r ->
  data (getitem x (axis_slices s a r)) idx
  = data x (upd a (sl_lo s (dim x a) + sl_step s * at_ a idx) idx).
Proof.
  intros -> Hl. unfold getitem, ndim in *; simpl.
  rewrite (axis_map (fun s n i => sl_lo s n + sl_step s * i))
    by (assumption || apply slice_at_empty).
  reflexivity.
Qed.

Lemma getitem_axis_shape x s a r :
  r = ndim x ->
  shape (getitem x (axis_slices s a r))
  = upd a (sl_len s (dim x a)) (shape x).
Proof. intros ->. unfold getitem, ndim; simpl. apply axis_slices_shape. Qed.

Lemma at_set_axis_data (out v : Array A) s a r idx :
  r = ndim out -> a < r -> valid_index (shape out) idx ->
  data (at_set out (axis_slices s a r) v) idx
  = if in_slice (dim out a) s (at_ a idx)
    then data v (upd a (slice_pos (dim out a) s (at_ a idx)) idx)
    else data out idx.
Proof.
  intros -> Ha Hv. unfold at_set, ndim in *; simpl.
  rewrite axis_test by assumption.
  rewrite (axis_map (fun s n i => slice_pos n s i))
    by (apply slice_pos_empty || (apply valid_index_length; assumption)).
  reflexivity.
Qed.

Lemma deinterleave_data zero x a idx :
  a < ndim x -> valid_index (shape x) idx ->
  data (_dct_deinterleave zero x a) idx
  = data x (upd a (deinterleave_src (dim x a) (at_ a idx)) idx).
Proof.
  intros Ha Hv.
  pose proof (valid_index_at Hv Ha) as Hi.
  pose proof (valid_index_length Hv) as Hl.
  unfold ndim in Ha.
  unfold _dct_deinterleave. cbv zeta.
  rewrite !at_set_axis_data by (assumption || reflexivity).
  unfold lax_rev, dim; cbn [fold_left]; unfold rev_dim, dim;
    cbn [data shape dtype lax_full at_set].
  rewrite !getitem_axis_shape by reflexivity.
  rewrite !getitem_axis_data
    by (reflexivity || (rewrite ?upd_length; assumption)).
  rewrite !at_upd_same by (rewrite ?upd_length; lia).
  rewrite !upd_upd_same.
  unfold in_slice, slice_pos, sl_len, sl_lo, sl_hi, range_len,
    deinterleave_src, ceil_half, dim;
    cbn [sl_start sl_stop sl_step default].
  revert Hi. generalize (at_ a (shape x)) (at_ a idx); intros n i Hi.
  rewrite !Nat.min_id, !Nat.div_1_r.
  destruct (Nat.eqb_spec (i mod 2) 0) as [He|Ho].
  - assert (E1 : (Nat.min 1 n <=? i) && (i <? n)
                 && ((i - Nat.min 1 n) mod 2 =? 0) = false).
    { destruct (Nat.eqb_spec ((i - Nat.min 1 n) mod 2) 0);
        [|apply andb_false_r].
      destruct (Nat.leb_spec (Nat.min 1 n) i); simpl; [|reflexivity].
      exfalso. lia. }
    rewrite E1.
    assert (E2 : (Nat.min 0 n <=? i) && (i <? n)
                 && ((i - Nat.min 0 n) mod 2 =? 0) = true).
    { rewrite !andb_true_iff, Nat.leb_le, Nat.ltb_lt, Nat.eqb_eq. lia. }
    rewrite E2. f_equal. f_equal. lia.
  - assert (E1 : (Nat.min 1 n <=? i) && (i <? n)
                 && ((i - Nat.min 1 n) mod 2 =? 0) = true).
    { rewrite !andb_true_iff, Nat.leb_le, Nat.ltb_lt, Nat.eqb_eq. lia. }
    rewrite E1. f_equal. f_equal. lia.
Qed.

Lemma interleave_src_lt n i : i < n -> interleave_src n i < n.
Proof.
  unfold interleave_src, ceil_half. intros H.
  destruct (Nat.ltb_spec i ((n + 1) / 2)); lia.
Qed.

Lemma deinterleave_src_lt n i : i < n -> deinterleave_src n i < n.
Proof.
  unfold deinterleave_src. intros H.
  destruct (Nat.eqb_spec (i mod 2) 0); lia.
Qed.

Lemma interleave_deinterleave_src n i :
  i < n -> interleave_src n (deinterleave_src n i) = i.
Proof.
  unfold interleave_src, deinterleave_src, ceil_half. intros H.
  destruct (Nat.eqb_spec (i mod 2) 0);
    match goal with |- context [?a <? ?b] => destruct (Nat.ltb_spec a b) end;
    lia.
Qed.

Lemma deinterleave_interleave_src n i :
  i < n -> deinterleave_src n (interleave_src n i) = i.
Proof.
  unfold interleave_src, deinterleave_src, ceil_half. intros H.
  destruct (Nat.ltb_spec i ((n + 1) / 2));
    match goal with |- context [?a =? ?b] => destruct (Nat.eqb_spec a b) end;
    lia.
Qed.

End Reorder.

(* ================================================================== *)
(** * The reorderings are inverse permutations (C3) *)
(* ================================================================== *)

Lemma deinterleave_interleave {A : Type} (zero : A) (x : Array A) a :
  a < ndim x ->
  arr_eq (_dct_deinterleave zero (_dct_interleave x a) a) x.
Proof.
  intros Ha. split; [reflexivity|]. split.
  - rewrite deinterleave_shape. apply interleave_shape.
  - rewrite deinterleave_shape, interleave_shape. intros idx Hv.
    pose proof (valid_index_at Hv Ha) as Hi.
    pose proof (valid_index_length Hv) as Hl.
    rewrite deinterleave_data
      by (rewrite ?interleave_ndim, ?interleave_shape; assumption).
    rewrite interleave_data
      by (rewrite ?upd_length; unfold ndim in *; lia).
    unfold dim. rewrite interleave_shape.
    rewrite at_upd_same by (unfold ndim in *; lia).
    rewrite upd_upd_same, interleave_deinterleave_src by assumption.
    now rewrite upd_at_id.
Qed.

Lemma interleave_deinterleave {A : Type} (zero : A) (x : Array A) a :
  a < ndim x ->
  arr_eq (_dct_interleave (_dct_deinterleave zero x a) a) x.
Proof.
  intros Ha. split; [reflexivity|]. split.
  - rewrite interleave_shape. apply deinterleave_shape.
  - rewrite interleave_shape, deinterleave_shape. intros idx Hv.
    pose proof (valid_index_at Hv Ha) as Hi.
    pose proof (valid_index_length Hv) as Hl.
    rewrite interleave_data by (unfold ndim in *; simpl; lia).
    unfold dim at 1. rewrite deinterleave_shape. fold (dim x a).
    rewrite deinterleave_data.
    + rewrite at_upd_same by (unfold ndim in *; lia).
      rewrite upd_upd_same, deinterleave_interleave_src by assumption.
      now rewrite upd_at_id.
    + assumption.
    + apply valid_index_upd_same_shape; [assumption|].
      apply interleave_src_lt; assumption.
Qed.

(** C3: for every array [x] and every axis [a] of [x] (of any length,
    even or odd), [_dct_deinterleave (_dct_interleave x a) a] and
    [_dct_interleave (_dct_deinterleave x a) a] are both [x]: same dtype,
    same shape and the same element at every index; the element type is
    arbitrary, no arithmetic is involved. *)
Theorem C3_interleave_deinterleave_inverse :
  forall (A : Type) (zero : A) (x : Array A) (a : nat),
    a < ndim x ->
    arr_eq (_dct_deinterleave zero (_dct_interleave x a) a) x /\
    arr_eq (_dct_interleave (_dct_deinterleave zero x a) a) x.
Proof.
  intros A zero x a Ha. split.
  - apply deinterleave_interleave; assumption.
  - apply interleave_deinterleave; assumption.
Qed.

Lemma C3_witness :
  let x := of_list Int32 0%Z [10; 11; 12; 13; 14]%Z in
  0 < ndim x /\
  arr_eq (_dct_deinterleave 0%Z (_dct_interleave x 0) 0) x /\
  arr_eq (_dct_interleave (_dct_deinterleave 0%Z x 0) 0) x.
Proof.
  intros x.
  assert (H : 0 < ndim x) by (unfold ndim; simpl; lia).
  split; [exact H|].
  exact (C3_interleave_deinterleave_inverse 0%Z x H).
Defined.

(* ================================================================== *)
(** * Broadcasting against a vector that lies along one axis *)
(* ================================================================== *)

Lemma memb_other_axes r a p :
  memb p (other_axes r a) = (p <? r) && negb (p =? a).
Proof.
  unfold memb, other_axes.
  destruct (existsb (Nat.eqb p) (filter (fun a0 => negb (a0 =? a)) (seq 0 r)))
    eqn:E.
  - apply existsb_exists in E. destruct E as [q [Hq Hpq]].
    apply Nat.eqb_eq in Hpq; subst q.
    apply filter_In in Hq. destruct Hq as [Hq Hne].
    apply in_seq in Hq. rewrite Hne.
    destruct (Nat.ltb_spec p r); [reflexivity|lia].
  - destruct (Nat.ltb_spec p r); [|reflexivity]. simpl.
    destruct (negb (p =? a)) eqn:Hne; [|reflexivity].
    assert (existsb (Nat.eqb p)
              (filter (fun a0 => negb (a0 =? a)) (seq 0 r)) = true);
      [|congruence].
    apply existsb_exists. exists p. split; [|apply Nat.eqb_refl].
    apply filter_In. split; [apply in_seq; lia|assumption].
Qed.

Lemma length_other_axes r a : a < r -> length (other_axes r a) = r - 1.
Proof.
  unfold other_axes. intros Ha.
  assert (G : forall m p, p <= a < p + m ->
    length (filter (fun a0 => negb (a0 =? a)) (seq p m)) = m - 1).
  { induction m as [|m IH]; intros p Hp; [lia|]. simpl.
    destruct (Nat.eqb_spec p a) as [->|Hne]; simpl.
    - assert (F : forall m q, a < q ->
        length (filter (fun a0 => negb (a0 =? a)) (seq q m)) = m).
      { clear. induction m as [|m IH]; intros q Hq; [reflexivity|]. simpl.
        destruct (Nat.eqb_spec q a); [lia|]. simpl. now rewrite IH by lia. }
      rewrite F by lia. lia.
    - rewrite IH by lia. lia. }
  apply G; lia.
Qed.

Lemma expand_shape_ones m p dims a sh :
  (forall q, p <= q < p + m -> memb q dims = negb (q =? a)) ->
  a < p -> expand_shape m p dims sh = repeat 1 m.
Proof.
  revert p; induction m as [|m IH]; intros p H Hp; simpl; [reflexivity|].
  rewrite H by lia.
  destruct (Nat.eqb_spec p a); [lia|]. simpl. f_equal.
  apply IH; [|lia]. intros q Hq; apply H; lia.
Qed.

Lemma expand_shape_axis m p dims a n :
  (forall q, p <= q < p + m -> memb q dims = negb (q =? a)) ->
  p <= a < p + m ->
  expand_shape m p dims [n] = upd (a - p) n (repeat 1 m).
Proof.
  revert p; induction m as [|m IH]; intros p H Hp; simpl; [lia|].
  rewrite H by lia.
  destruct (Nat.eqb_spec p a) as [->|Hne]; simpl.
  - rewrite Nat.sub_diag. f_equal.
    apply expand_shape_ones with (a := a); [|lia].
    intros q Hq; apply H; lia.
  - replace (a - p) with (S (a - S p)) by lia. f_equal.
    apply IH; [|lia]. intros q Hq; apply H; lia.
Qed.

Lemma squeeze_index_none p dims a idx :
  (forall q, p <= q < p + length idx -> memb q dims = negb (q =? a)) ->
  a < p -> squeeze_index p dims idx = [].
Proof.
  revert p; induction idx as [|i idx IH]; intros p H Hp; simpl in *;
    [reflexivity|].
  rewrite H by lia.
  destruct (Nat.eqb_spec p a); [lia|]. simpl.
  apply IH; [|lia]. intros q Hq; apply H; lia.
Qed.

Lemma squeeze_index_axis p dims a idx :
  (forall q, p <= q < p + length idx -> memb q dims = negb (q =? a)) ->
  p <= a < p + length idx ->
  squeeze_index p dims idx = [at_ (a - p) idx].
Proof.
  revert p; induction idx as [|i idx IH]; intros p H Hp; simpl in *; [lia|].
  rewrite H by lia.
  destruct (Nat.eqb_spec p a) as [->|Hne]; simpl.
  - rewrite Nat.sub_diag. unfold at_; simpl. f_equal.
    apply squeeze_index_none with (a := a); [|lia].
    intros q Hq; apply H; lia.
  - replace (a - p) with (S (a - S p)) by lia.
    unfold at_; simpl. apply IH; [|lia]. intros q Hq; apply H; lia.
Qed.

(** Shape and index of a vector of length [n] laid along axis [a] of a
    rank-[r] array. *)
Lemma expand_dims_axis_shape {A : Type} (k : Array A) r a :
  ndim k = 1 -> a < r ->
  shape (lax_expand_dims k (other_axes r a)) = upd a (dim k 0) (repeat 1 r).
Proof.
  intros Hk Ha. unfold lax_expand_dims; simpl.
  rewrite Hk, length_other_axes by assumption.
  replace (1 + (r - 1)) with r by lia.
  unfold ndim in Hk.
  destruct (shape k) as [|n [|? ?]] eqn:E; try discriminate.
  unfold dim; rewrite E; unfold at_; simpl.
  rewrite expand_shape_axis with (a := a); [now rewrite Nat.sub_0_r| |lia].
  intros q Hq. rewrite memb_other_axes.
  destruct (Nat.ltb_spec q r); [reflexivity|lia].
Qed.

Lemma expand_dims_axis_data {A : Type} (k : Array A) r a idx :
  length idx = r -> a < r ->
  data (lax_expand_dims k (other_axes r a)) idx = data k [at_ a idx].
Proof.
  intros Hl Ha. unfold lax_expand_dims; simpl.
  rewrite squeeze_index_axis with (a := a); [now rewrite Nat.sub_0_r| |lia].
  intros q Hq. rewrite memb_other_axes.
  destruct (Nat.ltb_spec q r); [reflexivity|lia].
Qed.

Lemma bcast_shape_same_length s1 s2 :
  length s1 = length s2 ->
  bcast_shape s1 s2 = map2 (fun a b => if a =? 1 then b else a) s1 s2.
Proof.
  intros H. unfold bcast_shape.
  rewrite H, Nat.max_id, Nat.sub_diag. reflexivity.
Qed.

Lemma bcast_shape_vec_r sh a :
  bcast_shape sh (upd a (at_ a sh) (repeat 1 (length sh))) = sh.
Proof.
  rewrite bcast_shape_same_length by (now rewrite upd_length, repeat_length).
  revert a; induction sh as [|n sh IH]; intros a; simpl; [reflexivity|].
  destruct a as [|a]; unfold at_; simpl.
  - f_equal; [now destruct (n =? 1)|].
    clear. induction sh as [|m sh IH]; simpl; [reflexivity|].
    rewrite IH. f_equal. destruct (Nat.eqb_spec m 1); congruence.
  - f_equal; [destruct (Nat.eqb_spec n 1); congruence|]. apply IH.
Qed.

Lemma bcast_shape_vec_l sh a :
  bcast_shape (upd a (at_ a sh) (repeat 1 (length sh))) sh = sh.
Proof.
  rewrite bcast_shape_same_length by (now rewrite upd_length, repeat_length).
  revert a; induction sh as [|n sh IH]; intros a; simpl; [reflexivity|].
  destruct a as [|a]; unfold at_; simpl.
  - f_equal; [now destruct (n =? 1)|].
    clear. induction sh as [|m sh IH]; simpl; [reflexivity|].
    now rewrite IH.
  - f_equal. apply IH.
Qed.

Lemma bcast_shape_scalar_r sh : bcast_shape sh [] = sh.
Proof.
  unfold bcast_shape. simpl. rewrite Nat.max_0_r, Nat.sub_diag, Nat.sub_0_r.
  simpl. rewrite app_nil_r.
  induction sh as [|n sh IH]; simpl; [reflexivity|].
  rewrite IH. f_equal. destruct (Nat.eqb_spec n 1); congruence.
Qed.

Lemma bcast_index_valid sh idx :
  valid_index sh idx -> bcast_index sh idx = idx.
Proof.
  intros H. unfold bcast_index.
  rewrite (valid_index_length H), Nat.sub_diag. simpl.
  induction H; simpl; [reflexivity|].
  rewrite IHForall2. f_equal.
  destruct (Nat.eqb_spec y 1); lia.
Qed.

Lemma bcast_index_vec sh a idx :
  valid_index sh idx ->
  bcast_index (upd a (at_ a sh) (repeat 1 (length sh))) idx
  = upd a (at_ a idx) (repeat 0 (length sh)).
Proof.
  intros H. unfold bcast_index.
  rewrite upd_length, repeat_length, (valid_index_length H), Nat.sub_diag.
  simpl. revert a; induction H; intros a; simpl; [reflexivity|].
  destruct a as [|a]; unfold at_; simpl.
  - f_equal; [destruct (Nat.eqb_spec y 1); lia|].
    clear - H0. induction H0; simpl; [reflexivity|]. now rewrite IHForall2.
  - f_equal. apply IHForall2.
Qed.

Lemma valid_index_vec r a n i :
  i < n -> valid_index (upd a n (repeat 1 r)) (upd a i (repeat 0 r)).
Proof.
  intros H. apply valid_index_upd; [|assumption].
  induction r; simpl; constructor; auto.
Qed.

(* ================================================================== *)
(** * Complex arithmetic *)
(* ================================================================== *)

Section ComplexLemmas.

Open Scope R_scope.

Lemma C_eq (a b : C) : re a = re b -> im a = im b -> a = b.
Proof. destruct a, b; simpl; intros -> ->; reflexivity. Qed.

Lemma INR_pos_neq0 n : (0 < n)%nat -> INR n <> 0.
Proof. intros H. apply not_0_INR. lia. Qed.

Lemma Cmul_RtoC a b : Cmul (RtoC a) (RtoC b) = RtoC (a * b).
Proof. apply C_eq; simpl; ring. Qed.

Lemma Cmul_RtoC_l a z : Cmul (RtoC a) z = mkC (a * re z) (a * im z).
Proof. apply C_eq; simpl; ring. Qed.

Lemma Cdiv_RtoC_r z s : s <> 0 -> Cdiv z (RtoC s) = mkC (re z / s) (im z / s).
Proof. intros H. apply C_eq; unfold Cdiv, Cnorm2; simpl; field; assumption. Qed.

Lemma Csqrt_RtoC r : 0 <= r -> Csqrt (RtoC r) = RtoC (sqrt r).
Proof.
  intros H. unfold Csqrt, Cnorm2, RtoC; simpl.
  replace (r * r + 0 * 0) with (r * r) by ring.
  rewrite sqrt_square by assumption.
  destruct (Rlt_dec 0 0) as [F|_]; [lra|].
  apply C_eq; simpl.
  - f_equal. field.
  - replace ((r - r) / 2) with 0 by field. apply sqrt_0.
Qed.

Lemma re_Csum n f : re (Csum n f) = Rsum n (fun k => re (f k)).
Proof. induction n as [|n IH]; simpl; [reflexivity|]. now rewrite IH. Qed.

Lemma im_Csum n f : im (Csum n f) = Rsum n (fun k => im (f k)).
Proof. induction n as [|n IH]; simpl; [reflexivity|]. now rewrite IH. Qed.

Lemma Rsum_ext n f g :
  (forall k, (k < n)%nat -> f k = g k) -> Rsum n f = Rsum n g.
Proof.
  induction n as [|n IH]; intros H; simpl; [reflexivity|].
  rewrite IH by (intros; apply H; lia). now rewrite H by lia.
Qed.

Lemma Csum_ext n f g :
  (forall k, (k < n)%nat -> f k = g k) -> Csum n f = Csum n g.
Proof.
  induction n as [|n IH]; intros H; simpl; [reflexivity|].
  rewrite IH by (intros; apply H; lia). now rewrite H by lia.
Qed.

Lemma Rsum_scal n c f : Rsum n (fun k => c * f k) = c * Rsum n f.
Proof. induction n as [|n IH]; simpl; [ring|]. rewrite IH. ring. Qed.

Lemma Rsum_plus n f g :
  Rsum n (fun k => f k + g k) = Rsum n f + Rsum n g.
Proof. induction n as [|n IH]; simpl; [ring|]. rewrite IH. ring. Qed.

Lemma Rsum_opp n f : Rsum n (fun k => - f k) = - Rsum n f.
Proof. induction n as [|n IH]; simpl; [ring|]. rewrite IH. ring. Qed.

Lemma Rsum_zero n : Rsum n (fun _ => 0) = 0.
Proof. induction n as [|n IH]; simpl; [reflexivity|]. rewrite IH. ring. Qed.

Lemma Rsum_swap n m (f : nat -> nat -> R) :
  Rsum n (fun i => Rsum m (fun j => f i j))
  = Rsum m (fun j => Rsum n (fun i => f i j)).
Proof.
  induction n as [|n IH]; simpl.
  - now rewrite Rsum_zero.
  - rewrite IH, <- Rsum_plus. reflexivity.
Qed.

Lemma Rsum_delta n m (v : nat -> R) :
  (m < n)%nat ->
  Rsum n (fun k => v k * (if (k =? m)%nat then 1 else 0)) = v m.
Proof.
  induction n as [|n IH]; intros H; [lia|]. simpl.
  destruct (Nat.eqb_spec n m) as [->|Hne].
  - rewrite Rsum_ext with (g := fun _ => 0); [rewrite Rsum_zero; ring|].
    intros k Hk. destruct (Nat.eqb_spec k m); [lia|ring].
  - rewrite IH by lia. ring.
Qed.

Lemma twiddle_val N z :
  (0 < N)%nat -> im z = 0 ->
  twiddle N z = mkC (cos (PI * re z / (2 * INR N)))
                    (- sin (PI * re z / (2 * INR N))).
Proof.
  intros HN Hz. pose proof (INR_pos_neq0 HN) as HN0.
  unfold twiddle.
  assert (E : Cdiv (Cmul (Cmul (Copp (mkC 0 (1 / 2))) (RtoC PI)) z)
                (RtoC (INR N))
              = mkC 0 (- (PI * re z / (2 * INR N)))).
  { rewrite Cdiv_RtoC_r by assumption.
    apply C_eq; simpl; rewrite Hz; field; assumption. }
  rewrite E. unfold Cexp; simpl.
  rewrite exp_0, cos_neg, sin_neg. apply C_eq; simpl; ring.
Qed.

Lemma dft_kernel_val sign N k n :
  dft_kernel sign N k n
  = mkC (cos (sign * (2 * PI * INR k * INR n / INR N)))
        (sin (sign * (2 * PI * INR k * INR n / INR N))).
Proof.
  unfold dft_kernel, Cexp; simpl. rewrite exp_0.
  apply C_eq; simpl; ring.
Qed.

End ComplexLemmas.

(* ================================================================== *)
(** * Elementwise operations against an axis vector *)
(* ================================================================== *)

Lemma binop_vec_r_shape f d (x y : Array C) a :
  shape y = upd a (dim x a) (repeat 1 (ndim x)) ->
  shape (binop f d x y) = shape x.
Proof.
  intros Hy. unfold binop; simpl. rewrite Hy. apply bcast_shape_vec_r.
Qed.

Lemma binop_vec_r_data f d (x y : Array C) a idx :
  shape y = upd a (dim x a) (repeat 1 (ndim x)) ->
  valid_index (shape x) idx ->
  data (binop f d x y) idx
  = f (data x idx) (data y (upd a (at_ a idx) (repeat 0 (ndim x)))).
Proof.
  intros Hy Hv. unfold binop; simpl.
  rewrite (bcast_index_valid Hv).
  rewrite Hy. unfold dim, ndim. now rewrite bcast_index_vec.
Qed.

Lemma binop_vec_l_shape f d (x y : Array C) a :
  shape y = upd a (dim x a) (repeat 1 (ndim x)) ->
  shape (binop f d y x) = shape x.
Proof.
  intros Hy. unfold binop; simpl. rewrite Hy. apply bcast_shape_vec_l.
Qed.

Lemma binop_vec_l_data f d (x y : Array C) a idx :
  shape y = upd a (dim x a) (repeat 1 (ndim x)) ->
  valid_index (shape x) idx ->
  data (binop f d y x) idx
  = f (data y (upd a (at_ a idx) (repeat 0 (ndim x)))) (data x idx).
Proof.
  intros Hy Hv. unfold binop; simpl.
  rewrite (bcast_index_valid Hv).
  rewrite Hy. unfold dim, ndim. now rewrite bcast_index_vec.
Qed.

Lemma binop_same_shape f d (x y : Array C) :
  shape y = shape x -> shape (binop f d x y) = shape x.
Proof.
  intros Hy. unfold binop; simpl. rewrite Hy.
  rewrite bcast_shape_same_length by reflexivity. clear.
  induction (shape x) as [|n sh IH]; simpl; [reflexivity|].
  rewrite IH. f_equal. destruct (Nat.eqb_spec n 1); congruence.
Qed.

Lemma binop_same_data f d (x y : Array C) idx :
  shape y = shape x -> valid_index (shape x) idx ->
  data (binop f d x y) idx = f (data x idx) (data y idx).
Proof.
  intros Hy Hv. unfold binop; simpl.
  rewrite Hy, bcast_index_valid by assumption. reflexivity.
Qed.

Lemma ndim_shape_eq {A : Type} (x y : Array A) :
  shape y = shape x -> ndim y = ndim x.
Proof. unfold ndim. now intros ->. Qed.

Lemma dim_shape_eq {A : Type} (x y : Array A) a :
  shape y = shape x -> dim y a = dim x a.
Proof. unfold dim. now intros ->. Qed.

Lemma map_array_shape f d (x : Array C) : shape (map_array f d x) = shape x.
Proof. reflexivity. Qed.

Lemma map_array_data f d (x : Array C) idx :
  data (map_array f d x) idx = f (data x idx).
Proof. reflexivity. Qed.

Lemma is_complex_to_complex d : is_complex_dtype (to_complex_dtype d) = true.
Proof. destruct d; reflexivity. Qed.

Lemma W4_shape N k : shape (_W4 N k) = shape k.
Proof. unfold _W4, jnp_divide, binop; simpl. apply bcast_shape_scalar_r. Qed.

Lemma W4_data N k idx :
  valid_index (shape k) idx ->
  data (_W4 N k) idx = twiddle N (data k idx).
Proof.
  intros Hv. unfold _W4, jnp_divide, binop, twiddle; simpl.
  rewrite bcast_index_valid by assumption.
  now rewrite is_complex_to_complex.
Qed.

(** The twiddle vector of [dct], [idct] and [_dct2] along axis [a]. *)
Lemma W4_arange_shape N d r a :
  a < r ->
  shape (_W4 N (lax_expand_dims (jnp_arange N d) (other_axes r a)))
  = upd a N (repeat 1 r).
Proof.
  intros Ha. rewrite W4_shape.
  now rewrite expand_dims_axis_shape by (reflexivity || assumption).
Qed.

Lemma W4_arange_data N d r a i :
  a < r -> i < N ->
  data (_W4 N (lax_expand_dims (jnp_arange N d) (other_axes r a)))
    (upd a i (repeat 0 r))
  = twiddle N (RtoC (INR i)).
Proof.
  intros Ha Hi. rewrite W4_data.
  - rewrite expand_dims_axis_data with (r := r);
      [|now rewrite upd_length, repeat_length|assumption].
    simpl. unfold at_ at 1; simpl.
    now rewrite at_upd_same by (now rewrite repeat_length).
  - rewrite expand_dims_axis_shape by (reflexivity || assumption).
    apply valid_index_vec; assumption.
Qed.

Lemma W4_neg_arange_shape N d r a :
  a < r ->
  shape (_W4 N (jnp_negative
                  (lax_expand_dims (jnp_arange N d) (other_axes r a))))
  = upd a N (repeat 1 r).
Proof.
  intros Ha. rewrite W4_shape. unfold jnp_negative.
  rewrite map_array_shape.
  now rewrite expand_dims_axis_shape by (reflexivity || assumption).
Qed.

Lemma W4_neg_arange_data N d r a i :
  a < r -> i < N ->
  data (_W4 N (jnp_negative
                 (lax_expand_dims (jnp_arange N d) (other_axes r a))))
    (upd a i (repeat 0 r))
  = twiddle N (Copp (RtoC (INR i))).
Proof.
  intros Ha Hi. rewrite W4_data.
  - unfold jnp_negative. rewrite map_array_data.
    rewrite expand_dims_axis_data with (r := r);
      [|now rewrite upd_length, repeat_length|assumption].
    simpl. unfold at_ at 1; simpl.
    now rewrite at_upd_same by (now rewrite repeat_length).
  - unfold jnp_negative. rewrite map_array_shape.
    rewrite expand_dims_axis_shape by (reflexivity || assumption).
    apply valid_index_vec; assumption.
Qed.

(* ================================================================== *)
(** * [_dct_ortho_norm] as a division by [ortho_scale] *)
(* ================================================================== *)

Lemma canonicalize_axis_nat a r :
  a < r -> canonicalize_axis (Z.of_nat a) r = Ok a.
Proof.
  intros H. unfold canonicalize_axis.
  destruct (Z.leb_spec (- Z.of_nat r) (Z.of_nat a)); [|lia].
  destruct (Z.ltb_spec (Z.of_nat a) (Z.of_nat r)); [|lia].
  destruct (Z.ltb_spec (Z.of_nat a) 0); [lia|].
  simpl. now rewrite Nat2Z.id.
Qed.

Lemma canonicalize_axis_neg a r :
  (- Z.of_nat r <= a < 0)%Z ->
  canonicalize_axis a r = Ok (Z.to_nat (Z.of_nat r + a)).
Proof.
  intros H. unfold canonicalize_axis.
  destruct (Z.leb_spec (- Z.of_nat r) a); [|lia].
  destruct (Z.ltb_spec a (Z.of_nat r)); [|lia].
  destruct (Z.ltb_spec a 0); [|lia].
  simpl. f_equal. f_equal. lia.
Qed.

Lemma canonicalize_axis_ok a r n :
  canonicalize_axis a r = Ok n -> n < r.
Proof.
  unfold canonicalize_axis.
  destruct (Z.leb_spec (- Z.of_nat r) a); simpl; [|discriminate].
  destruct (Z.ltb_spec a (Z.of_nat r)); simpl; [|discriminate].
  intros E; inversion E; subst; clear E.
  destruct (Z.ltb_spec a 0); lia.
Qed.

Lemma canonicalize_axis_bad a r :
  (a < - Z.of_nat r \/ Z.of_nat r <= a)%Z ->
  canonicalize_axis a r = Raise ValueError.
Proof.
  intros H. unfold canonicalize_axis.
  destruct (Z.leb_spec (- Z.of_nat r) a); simpl; [|reflexivity].
  destruct (Z.ltb_spec a (Z.of_nat r)); simpl; [lia|reflexivity].
Qed.

Section OrthoNorm.

Open Scope R_scope.

Variables (out : Array C) (a : nat).
Hypothesis Ha : (a < ndim out)%nat.
Hypothesis HN : (0 < dim out a)%nat.

Let factor1 : Array C :=
  lax_concatenate (lax_full [1%nat] (RtoC 4) (dtype out))
    [lax_full [(dim out a - 1)%nat] (RtoC 2) (dtype out)] 0.

Lemma ortho_divisor_shape :
  shape (lax_sqrt (py_mul KInt (RtoC (INR (dim out a)))
                     (lax_expand_dims factor1 (other_axes (ndim out) a))))
  = upd a (dim out a) (repeat 1%nat (ndim out)).
Proof.
  unfold lax_sqrt, py_mul. rewrite !map_array_shape.
  rewrite expand_dims_axis_shape by (reflexivity || assumption).
  f_equal. unfold factor1, dim, at_; simpl. unfold dim, at_; simpl.
  fold (at_ a (shape out)). fold (dim out a). lia.
Qed.

Lemma ortho_divisor_data i :
  (i < dim out a)%nat ->
  data (lax_sqrt (py_mul KInt (RtoC (INR (dim out a)))
                    (lax_expand_dims factor1 (other_axes (ndim out) a))))
    (upd a i (repeat 0%nat (ndim out)))
  = RtoC (ortho_scale (dim out a) i).
Proof.
  intros Hi. unfold lax_sqrt, py_mul. rewrite !map_array_data.
  rewrite expand_dims_axis_data with (r := ndim out);
    [|now rewrite upd_length, repeat_length|assumption].
  rewrite at_upd_same by (now rewrite repeat_length).
  unfold factor1; simpl. unfold dim at 2, at_ at 1 2; simpl.
  unfold ortho_scale.
  destruct i as [|i]; cbn [data lax_full Nat.eqb Nat.ltb Nat.leb];
    rewrite Cmul_RtoC; apply Csqrt_RtoC;
    apply Rmult_le_pos; try lra; apply pos_INR.
Qed.

Lemma ortho_scale_pos i : 0 < ortho_scale (dim out a) i.
Proof.
  unfold ortho_scale. apply sqrt_lt_R0.
  apply Rmult_lt_0_compat; [apply lt_0_INR; assumption|].
  destruct (i =? 0)%nat; lra.
Qed.

Lemma ortho_norm_shape : shape (_dct_ortho_norm out a) = shape out.
Proof.
  unfold _dct_ortho_norm, jnp_divide.
  apply binop_vec_r_shape with (a := a). apply ortho_divisor_shape.
Qed.

Lemma ortho_norm_data idx :
  valid_index (shape out) idx ->
  data (_dct_ortho_norm out a) idx
  = mkC (re (data out idx) / ortho_scale (dim out a) (at_ a idx))
        (im (data out idx) / ortho_scale (dim out a) (at_ a idx)).
Proof.
  intros Hv. unfold _dct_ortho_norm, jnp_divide.
  rewrite binop_vec_r_data with (a := a);
    [|apply ortho_divisor_shape|assumption].
  rewrite ortho_divisor_data by (apply valid_index_at; assumption).
  apply Cdiv_RtoC_r.
  apply Rgt_not_eq, Rlt_gt, ortho_scale_pos.
Qed.

End OrthoNorm.

Lemma ortho_scale_sqr N i :
  (0 < N)%nat ->
  (ortho_scale N i * ortho_scale N i
   = INR N * (if i =? 0 then 4 else 2))%R.
Proof.
  intros H. unfold ortho_scale. apply sqrt_sqrt.
  apply Rmult_le_pos; [apply pos_INR|]. destruct (i =? 0); lra.
Qed.

(* ================================================================== *)
(** * Sums of cosines *)
(* ================================================================== *)

Section TrigSums.

Open Scope R_scope.

Lemma cos_sum_telescope theta M :
  2 * sin (theta / 2) * Rsum M (fun k => cos (INR k * theta))
  = sin ((INR M - 1 / 2) * theta) + sin (theta / 2).
Proof.
  induction M as [|M IH].
  - simpl. replace ((0 - 1 / 2) * theta) with (- (theta / 2)) by field.
    rewrite sin_neg. ring.
  - cbn [Rsum]. rewrite Rmult_plus_distr_l, IH, S_INR.
    replace ((INR M + 1 - 1 / 2) * theta) with (INR M * theta + theta / 2)
      by field.
    replace ((INR M - 1 / 2) * theta) with (INR M * theta - theta / 2)
      by field.
    rewrite sin_plus, sin_minus. ring.
Qed.

Lemma frac_lt_1 q n : 0 < n -> q < n -> q / n < 1.
Proof.
  intros Hn Hq. apply (Rmult_lt_reg_r n); [assumption|].
  unfold Rdiv. rewrite Rmult_assoc, Rinv_l by lra. lra.
Qed.

Lemma frac_pos q n : 0 < n -> 0 < q -> 0 < q / n.
Proof. intros Hn Hq. apply Rdiv_lt_0_compat; assumption. Qed.

Lemma frac_gt_1 q n : 0 < n -> n < q -> 1 < q / n.
Proof.
  intros Hn Hq. apply (Rmult_lt_reg_r n); [assumption|].
  unfold Rdiv. rewrite Rmult_assoc, Rinv_l by lra. lra.
Qed.

Lemma cos_sum_zero N : Rsum N (fun k => cos (INR k * 0)) = INR N.
Proof.
  induction N as [|N IH]; [reflexivity|].
  cbn [Rsum]. rewrite IH, S_INR, Rmult_0_r, cos_0. reflexivity.
Qed.

Lemma cos_sum_even N j :
  (0 < j < N)%nat ->
  Rsum N (fun k => cos (INR k * (PI * INR (2 * j) / INR N))) = 0.
Proof.
  intros Hj.
  assert (HN : 0 < INR N) by (apply lt_0_INR; lia).
  assert (Hj0 : 0 < INR j) by (apply lt_0_INR; lia).
  assert (HjN : INR j < INR N) by (apply lt_INR; lia).
  set (theta := PI * INR (2 * j) / INR N).
  assert (Hh : theta / 2 = PI * (INR j / INR N)).
  { unfold theta. rewrite mult_INR. simpl. field. lra. }
  pose proof PI_RGT_0 as Hpi.
  assert (Hs : 0 < sin (theta / 2)).
  { rewrite Hh. apply sin_gt_0.
    - apply Rmult_lt_0_compat; [lra|]. apply frac_pos; assumption.
    - pose proof (frac_lt_1 HN HjN).
      replace PI with (PI * 1) at 2 by ring.
      apply Rmult_lt_compat_l; assumption. }
  pose proof (cos_sum_telescope theta N) as T.
  assert (E : sin ((INR N - 1 / 2) * theta) = - sin (theta / 2)).
  { replace ((INR N - 1 / 2) * theta)
      with (- (theta / 2) + 2 * INR j * PI).
    - rewrite sin_period. apply sin_neg.
    - unfold theta. rewrite mult_INR. simpl. field. lra. }
  rewrite E in T.
  assert (Z : 2 * sin (theta / 2)
              * Rsum N (fun k => cos (INR k * theta)) = 0) by lra.
  apply Rmult_integral in Z. destruct Z as [Z|Z]; [lra|exact Z].
Qed.

Lemma cos_sum_odd N j :
  (0 < N)%nat -> (2 * j + 1 < 4 * N)%nat ->
  Rsum N (fun k => cos (INR k * (PI * INR (2 * j + 1) / INR N))) = 1.
Proof.
  intros HN0 Hj.
  assert (HN : 0 < INR N) by (apply lt_0_INR; lia).
  set (q := INR (2 * j + 1)).
  set (theta := PI * q / INR N).
  assert (Hh : theta / 2 = PI * (q / (2 * INR N))).
  { unfold theta. field. lra. }
  pose proof PI_RGT_0 as Hpi.
  assert (Hq0 : 0 < q) by (apply lt_0_INR; lia).
  assert (Hs : sin (theta / 2) <> 0).
  { rewrite Hh.
    destruct (Nat.lt_ge_cases (2 * j + 1) (2 * N)) as [Hlt|Hge].
    - apply Rgt_not_eq, Rlt_gt, sin_gt_0.
      + apply Rmult_lt_0_compat; [lra|]. apply frac_pos; lra.
      + assert (q < 2 * INR N).
        { unfold q. apply lt_INR in Hlt. rewrite mult_INR in Hlt.
          simpl in Hlt. lra. }
        assert (q / (2 * INR N) < 1) by (apply frac_lt_1; lra).
        replace PI with (PI * 1) at 2 by ring.
        apply Rmult_lt_compat_l; assumption.
    - apply Rlt_not_eq, sin_lt_0.
      + assert (2 * INR N < q).
        { unfold q. assert (Hgt : (2 * N < 2 * j + 1)%nat) by lia.
          apply lt_INR in Hgt. rewrite mult_INR in Hgt.
          simpl in Hgt. lra. }
        assert (1 < q / (2 * INR N)) by (apply frac_gt_1; lra).
        replace PI with (PI * 1) at 1 by ring.
        apply Rmult_lt_compat_l; assumption.
      + assert (q < 4 * INR N).
        { unfold q. apply lt_INR in Hj. rewrite (mult_INR 4) in Hj.
          simpl in Hj. lra. }
        assert (q / (4 * INR N) < 1) by (apply frac_lt_1; lra).
        replace (PI * (q / (2 * INR N)))
          with (2 * PI * (q / (4 * INR N))) by (field; lra).
        replace (2 * PI) with (2 * PI * 1) at 2 by ring.
        apply Rmult_lt_compat_l; lra. }
  pose proof (cos_sum_telescope theta N) as T.
  assert (E : sin ((INR N - 1 / 2) * theta) = sin (theta / 2)).
  { replace ((INR N - 1 / 2) * theta)
      with (PI - theta / 2 + 2 * INR j * PI).
    - rewrite sin_period. apply sin_PI_x.
    - unfold theta, q. rewrite plus_INR, mult_INR. simpl. field. lra. }
  rewrite E in T.
  apply (Rmult_eq_reg_l (2 * sin (theta / 2))); [lra|].
  intros Z. apply Hs. lra.
Qed.

Lemma cos_product a b : 2 * cos a * cos b = cos (a - b) + cos (a + b).
Proof. rewrite cos_minus, cos_plus. ring. Qed.

Lemma dct_angle_diff N k m n :
  (0 < N)%nat -> (n <= m)%nat ->
  dct_angle N k m - dct_angle N k n
  = INR k * (PI * INR (2 * (m - n)) / INR N).
Proof.
  intros HN Hnm. unfold dct_angle.
  rewrite mult_INR, minus_INR by assumption. simpl.
  field. apply INR_pos_neq0; assumption.
Qed.

Lemma dct_angle_sum N k m n :
  (0 < N)%nat ->
  dct_angle N k m + dct_angle N k n
  = INR k * (PI * INR (2 * (m + n) + 1) / INR N).
Proof.
  intros HN. unfold dct_angle.
  rewrite plus_INR, mult_INR, plus_INR. simpl.
  field. apply INR_pos_neq0; assumption.
Qed.

Lemma cos_diff_sum N m n :
  (0 < N)%nat -> (n < N)%nat -> (m < N)%nat ->
  Rsum N (fun k => cos (dct_angle N k m - dct_angle N k n))
  = if (n =? m)%nat then INR N else 0.
Proof.
  intros HN Hn Hm.
  destruct (Nat.eqb_spec n m) as [->|Hne].
  - rewrite <- (cos_sum_zero N). apply Rsum_ext. intros k _.
    f_equal. ring.
  - destruct (Nat.lt_ge_cases n m) as [Hlt|Hge].
    + rewrite <- (@cos_sum_even N (m - n)) by lia.
      apply Rsum_ext. intros k _. f_equal.
      apply dct_angle_diff; lia.
    + rewrite <- (@cos_sum_even N (n - m)) by lia.
      apply Rsum_ext. intros k _.
      rewrite <- cos_neg. f_equal.
      rewrite <- (@dct_angle_diff N k n m) by lia. ring.
Qed.

Lemma dct_orthogonality N m n :
  (0 < N)%nat -> (n < N)%nat -> (m < N)%nat ->
  Rsum N (fun k => 2 * cos (dct_angle N k m) * cos (dct_angle N k n))
  = (if (n =? m)%nat then INR N else 0) + 1.
Proof.
  intros HN Hn Hm.
  rewrite Rsum_ext
    with (g := fun k => cos (dct_angle N k m - dct_angle N k n)
                        + cos (dct_angle N k m + dct_angle N k n))
    by (intros; apply cos_product).
  rewrite Rsum_plus, cos_diff_sum by assumption. f_equal.
  rewrite <- (@cos_sum_odd N (m + n)) by lia.
  apply Rsum_ext. intros k _. f_equal. apply dct_angle_sum; assumption.
Qed.

Lemma Rsum_first_weight N (g : nat -> R) :
  Rsum (S N) (fun k => (if (k =? 0)%nat then 1 else 2) * g k)
  = Rsum (S N) (fun k => 2 * g k) - g 0%nat.
Proof.
  induction N as [|N IH].
  - simpl. ring.
  - cbn [Rsum] in *. rewrite IH. simpl. ring.
Qed.

Lemma dct_angle_zero N n : dct_angle N 0 n = 0.
Proof. unfold dct_angle. simpl. unfold Rdiv. ring. Qed.

Lemma dct_weighted_orthogonality N m n :
  (0 < N)%nat -> (n < N)%nat -> (m < N)%nat ->
  Rsum N (fun k => (if (k =? 0)%nat then 1 else 2)
                   * (cos (dct_angle N k m) * cos (dct_angle N k n)))
  = if (n =? m)%nat then INR N else 0.
Proof.
  intros HN Hn Hm.
  destruct N as [|N]; [lia|].
  rewrite Rsum_first_weight.
  rewrite Rsum_ext
    with (g := fun k => 2 * cos (dct_angle (S N) k m)
                        * cos (dct_angle (S N) k n))
    by (intros; ring).
  rewrite dct_orthogonality by assumption.
  rewrite !dct_angle_zero, cos_0. ring.
Qed.

(** The rescaled inverse sum undoes the forward sum. *)
Lemma dct_inversion N (v : nat -> R) n :
  (0 < N)%nat -> (n < N)%nat ->
  idct_lane N
    (fun k => dct_lane N v k / ortho_scale N k / ortho_scale N k) n
  = v n.
Proof.
  intros HN Hn.
  assert (HN0 : INR N <> 0) by (apply INR_pos_neq0; assumption).
  unfold idct_lane, dct_lane.
  rewrite Rsum_ext
    with (g := fun k =>
            Rsum N (fun m =>
              v m * ((if (k =? 0)%nat then 1 else 2)
                     * (cos (dct_angle N k m) * cos (dct_angle N k n))))).
  - rewrite Rsum_swap.
    rewrite Rsum_ext
      with (g := fun m => INR N * (v m * (if (m =? n)%nat then 1 else 0))).
    + rewrite Rsum_scal, Rsum_delta by assumption. field. assumption.
    + intros m Hm. rewrite Rsum_scal.
      rewrite dct_weighted_orthogonality by assumption.
      rewrite Nat.eqb_sym. destruct (m =? n)%nat; ring.
  - intros k Hk.
    assert (Hs := ortho_scale_sqr k HN).
    assert (Hp : 0 < ortho_scale N k).
    { unfold ortho_scale. apply sqrt_lt_R0.
      apply Rmult_lt_0_compat; [apply lt_0_INR; assumption|].
      destruct (k =? 0)%nat; lra. }
    set (s := ortho_scale N k) in *.
    transitivity ((INR N * 4 / (s * s))
            * Rsum N (fun m => v m * (cos (dct_angle N k m)
                                      * cos (dct_angle N k n)))).
    + rewrite Rsum_ext
        with (f := fun m => v m * (cos (dct_angle N k m)
                                   * cos (dct_angle N k n)))
             (g := fun m => cos (dct_angle N k n)
                            * (v m * cos (dct_angle N k m)))
        by (intros; ring).
      rewrite Rsum_scal. field. lra.
    + rewrite Hs.
      replace (INR N * 4 / (INR N * (if (k =? 0)%nat then 4 else 2)))
        with (if (k =? 0)%nat then 1 else 2)
        by (destruct (k =? 0)%nat; field; assumption).
      rewrite <- Rsum_scal. apply Rsum_ext. intros m _. ring.
Qed.

End TrigSums.

(* ================================================================== *)
(** * The 1-D transforms in closed form *)
(* ================================================================== *)

Section LaneFormulas.

Open Scope R_scope.

Lemma fft_twiddle_real N k (v : nat -> C) :
  (0 < N)%nat ->
  (forall n, (n < N)%nat -> im (v n) = 0) ->
  re (Cmul (Csum N (fun n => Cmul (v n) (dft_kernel (-1) N k n)))
        (twiddle N (RtoC (INR k))))
  = Rsum N (fun n => re (v n) * cos (dct_angle N k n)).
Proof.
  intros HN Hv.
  assert (HN0 : INR N <> 0) by (apply INR_pos_neq0; assumption).
  rewrite twiddle_val by (assumption || reflexivity).
  cbn [re im Cmul RtoC]. rewrite re_Csum, im_Csum.
  set (beta := PI * INR k / (2 * INR N)).
  transitivity
    (Rsum N (fun n =>
       cos beta * re (Cmul (v n) (dft_kernel (-1) N k n))
       + sin beta * im (Cmul (v n) (dft_kernel (-1) N k n)))).
  { rewrite Rsum_plus, !Rsum_scal. ring. }
  apply Rsum_ext. intros n Hn.
  rewrite dft_kernel_val. cbn [re im Cmul].
  rewrite (Hv n Hn).
  replace (dct_angle N k n)
    with (beta - -1 * (2 * PI * INR k * INR n / INR N))
    by (unfold beta, dct_angle; field; assumption).
  rewrite cos_minus. ring.
Qed.

Lemma twiddle_norm N k :
  (0 < N)%nat -> Cnorm2 (twiddle N (RtoC (INR k))) = 1.
Proof.
  intros HN. rewrite twiddle_val by (assumption || reflexivity).
  unfold Cnorm2; cbn [re im RtoC].
  set (b := PI * INR k / (2 * INR N)).
  pose proof (sin2_cos2 b) as H. unfold Rsqr in H. lra.
Qed.

Lemma ifft_twiddle_real N n (Y : nat -> R) :
  (0 < N)%nat ->
  re (Cmul (RtoC (/ INR N))
        (Csum N (fun k =>
           Cmul (Cmul (RtoC (INR N))
                   (Cmul (RtoC 2)
                      (Cdiv (RtoC (Y k)) (twiddle N (RtoC (INR k))))))
             (dft_kernel 1 N k n))))
  = idct_lane N Y n.
Proof.
  intros HN.
  assert (HN0 : INR N <> 0) by (apply INR_pos_neq0; assumption).
  rewrite Cmul_RtoC_l. cbn [re]. rewrite re_Csum.
  unfold idct_lane. f_equal.
  apply Rsum_ext. intros k Hk.
  rewrite dft_kernel_val.
  unfold Cdiv. rewrite twiddle_norm by assumption.
  rewrite twiddle_val by (assumption || reflexivity).
  cbn [re im Cmul RtoC].
  set (beta := PI * INR k / (2 * INR N)).
  replace (dct_angle N k n)
    with (beta + 1 * (2 * PI * INR k * INR n / INR N))
    by (unfold beta, dct_angle; field; assumption).
  rewrite cos_plus. field.
Qed.

End LaneFormulas.

Section DctKernel.

Open Scope R_scope.

Variables (x : Array C) (a : nat).
Hypothesis Ha : (a < ndim x)%nat.
Hypothesis HN : (0 < dim x a)%nat.

Let unnorm (d : DType) : Array C :=
  py_mul KInt (RtoC 2)
    (jnp_real
       (jnp_multiply (jnp_fft_fft (_dct_interleave x a) a)
          (_W4 (dim x a)
             (lax_expand_dims (jnp_arange (dim x a) d)
                (other_axes (ndim x) a))))).

Lemma fft_interleave_vec d :
  shape (_W4 (dim x a)
           (lax_expand_dims (jnp_arange (dim x a) d) (other_axes (ndim x) a)))
  = upd a (dim (jnp_fft_fft (_dct_interleave x a) a) a)
      (repeat 1%nat (ndim (jnp_fft_fft (_dct_interleave x a) a))).
Proof.
  rewrite W4_arange_shape by assumption.
  unfold dim, ndim; cbn [shape jnp_fft_fft].
  now rewrite interleave_shape.
Qed.

Lemma dct_unnorm_shape d : shape (unnorm d) = shape x.
Proof.
  unfold unnorm, py_mul, jnp_real. rewrite !map_array_shape.
  unfold jnp_multiply.
  rewrite binop_vec_r_shape with (a := a) by apply fft_interleave_vec.
  cbn [shape jnp_fft_fft]. apply interleave_shape.
Qed.

Lemma interleave_is_real :
  is_real x -> is_real (_dct_interleave x a).
Proof.
  intros Hx idx Hv. rewrite interleave_shape in Hv.
  rewrite interleave_data
    by (assumption || (rewrite (valid_index_length Hv); exact Ha)).
  apply Hx. apply valid_index_upd_same_shape; [assumption|].
  apply interleave_src_lt. apply valid_index_at; assumption.
Qed.

Lemma dct_unnorm_data d idx :
  is_real x -> valid_index (shape x) idx ->
  data (unnorm d) idx
  = RtoC (dct_lane (dim x a) (lane (_dct_interleave x a) a idx) (at_ a idx)).
Proof.
  intros Hx Hv.
  pose proof (valid_index_at Hv Ha) as Hi.
  pose proof (valid_index_length Hv) as Hl.
  unfold unnorm, py_mul, jnp_real. rewrite !map_array_data.
  unfold jnp_multiply.
  rewrite binop_vec_r_data with (a := a);
    [|apply fft_interleave_vec
     |cbn [shape jnp_fft_fft]; rewrite interleave_shape; assumption].
  replace (ndim (jnp_fft_fft (_dct_interleave x a) a)) with (ndim x)
    by (unfold ndim; cbn [shape jnp_fft_fft]; now rewrite interleave_shape).
  rewrite W4_arange_data by assumption.
  cbn [data jnp_fft_fft].
  replace (dim (_dct_interleave x a) a) with (dim x a)
    by (unfold dim; now rewrite interleave_shape).
  rewrite Cmul_RtoC_l. unfold Creal, RtoC at 1. cbn [re im].
  rewrite fft_twiddle_real; [|assumption|].
  - apply C_eq; cbn [re im RtoC]; [reflexivity|ring].
  - intros n Hn. apply interleave_is_real; [assumption|].
    rewrite interleave_shape.
    apply valid_index_upd_same_shape; assumption.
Qed.

Lemma dct_kernel_shape norm : shape (dct_kernel x a norm) = shape x.
Proof.
  unfold dct_kernel. cbv zeta.
  set (d := real_dtype _).
  pose proof (dct_unnorm_shape d) as Hs. unfold unnorm in Hs.
  destruct (is_ortho norm); [|exact Hs].
  rewrite ortho_norm_shape; [exact Hs| |].
  - rewrite (ndim_shape_eq _ _ Hs). exact Ha.
  - rewrite (dim_shape_eq _ _ a Hs). exact HN.
Qed.

Lemma dct_kernel_data norm idx :
  is_real x -> valid_index (shape x) idx ->
  data (dct_kernel x a norm) idx
  = RtoC (dct_lane (dim x a) (lane (_dct_interleave x a) a idx) (at_ a idx)
          / (if is_ortho norm then ortho_scale (dim x a) (at_ a idx) else 1)).
Proof.
  intros Hx Hv. unfold dct_kernel. cbv zeta.
  set (d := real_dtype _).
  pose proof (dct_unnorm_shape d) as Hs.
  pose proof (dct_unnorm_data d Hx Hv) as Hd.
  unfold unnorm in Hs, Hd.
  destruct (is_ortho norm).
  - rewrite ortho_norm_data.
    + rewrite Hd, (dim_shape_eq _ _ a Hs).
      apply C_eq; cbn [re im RtoC]; [reflexivity|].
      unfold Rdiv. ring.
    + rewrite (ndim_shape_eq _ _ Hs). exact Ha.
    + rewrite (dim_shape_eq _ _ a Hs). exact HN.
    + rewrite Hs. exact Hv.
  - rewrite Hd. f_equal. field.
Qed.

End DctKernel.

Section IdctKernel.

Open Scope R_scope.

Variables (x : Array C) (a : nat) (norm : option string).
Hypothesis Ha : (a < ndim x)%nat.
Hypothesis HN : (0 < dim x a)%nat.

Lemma idct_denormalize_shape : shape (idct_denormalize x a norm) = shape x.
Proof.
  unfold idct_denormalize. destruct norm.
  - apply ortho_norm_shape; assumption.
  - assert (Hs := @ortho_norm_shape x a Ha HN).
    rewrite ortho_norm_shape; [exact Hs| |].
    + rewrite (ndim_shape_eq _ _ Hs). exact Ha.
    + rewrite (dim_shape_eq _ _ a Hs). exact HN.
Qed.

Lemma idct_denormalize_data idx :
  valid_index (shape x) idx ->
  data (idct_denormalize x a norm) idx
  = mkC (denorm_value (dim x a) norm (at_ a idx) (re (data x idx)))
        (denorm_value (dim x a) norm (at_ a idx) (im (data x idx))).
Proof.
  intros Hv. unfold idct_denormalize, denorm_value. destruct norm.
  - apply ortho_norm_data; assumption.
  - assert (Hs := @ortho_norm_shape x a Ha HN).
    rewrite ortho_norm_data.
    + rewrite (dim_shape_eq _ _ a Hs).
      rewrite ortho_norm_data by assumption. reflexivity.
    + rewrite (ndim_shape_eq _ _ Hs). exact Ha.
    + rewrite (dim_shape_eq _ _ a Hs). exact HN.
    + rewrite Hs. exact Hv.
Qed.

End IdctKernel.

Section IdctKernelData.

Open Scope R_scope.

Variables (x : Array C) (a : nat) (norm : option string).
Hypothesis Ha : (a < ndim x)%nat.
Hypothesis HN : (0 < dim x a)%nat.

Let x2 : Array C := idct_denormalize (astype x Float32) a norm.

Let x5 : Array C :=
  py_mul KInt (RtoC (INR (dim x a)))
    (py_mul KInt (RtoC 2)
       (jnp_divide
          (astype x2
             (dtype (_W4 (dim x a)
                       (lax_expand_dims (jnp_arange (dim x a) Float32)
                          (other_axes (ndim x2) a)))))
          (_W4 (dim x a)
             (lax_expand_dims (jnp_arange (dim x a) Float32)
                (other_axes (ndim x2) a))))).

Lemma idct_x2_shape : shape x2 = shape x.
Proof.
  unfold x2. rewrite idct_denormalize_shape; [reflexivity| |]; assumption.
Qed.

Lemma idct_x2_data idx :
  valid_index (shape x) idx ->
  data x2 idx
  = RtoC (denorm_value (dim x a) norm (at_ a idx) (re (data x idx))).
Proof.
  intros Hv. unfold x2.
  rewrite idct_denormalize_data by assumption.
  unfold astype. rewrite map_array_data. cbn [is_complex_dtype re im Creal RtoC].
  replace (dim (map_array (fun z => mkC (re z) 0) Float32 x) a) with (dim x a)
    by reflexivity.
  apply C_eq; cbn [re im RtoC]; [reflexivity|].
  unfold denorm_value. destruct norm; unfold Rdiv; ring.
Qed.

Lemma idct_x5_shape : shape x5 = shape x.
Proof.
  unfold x5, py_mul. rewrite !map_array_shape.
  unfold jnp_divide.
  rewrite binop_vec_r_shape with (a := a).
  - unfold astype. rewrite map_array_shape. apply idct_x2_shape.
  - rewrite W4_arange_shape
      by (rewrite (ndim_shape_eq _ _ idct_x2_shape); assumption).
    unfold astype, dim, ndim. rewrite !map_array_shape.
    now rewrite idct_x2_shape.
Qed.

Lemma idct_x5_data idx :
  valid_index (shape x) idx ->
  data x5 idx
  = Cmul (RtoC (INR (dim x a)))
      (Cmul (RtoC 2)
         (Cdiv (RtoC (denorm_value (dim x a) norm (at_ a idx)
                        (re (data x idx))))
            (twiddle (dim x a) (RtoC (INR (at_ a idx)))))).
Proof.
  intros Hv.
  pose proof (valid_index_at Hv Ha) as Hi.
  unfold x5, py_mul. rewrite !map_array_data.
  unfold jnp_divide.
  rewrite binop_vec_r_data with (a := a).
  - unfold astype at 1. rewrite map_array_data.
    change (ndim (astype x2 ?d)) with (ndim x2).
    rewrite !(ndim_shape_eq _ _ idct_x2_shape).
    rewrite W4_arange_data by assumption.
    rewrite idct_x2_data by assumption.
    reflexivity.
  - rewrite W4_arange_shape
      by (rewrite (ndim_shape_eq _ _ idct_x2_shape); assumption).
    unfold astype, dim, ndim. rewrite !map_array_shape.
    now rewrite idct_x2_shape.
  - unfold astype. rewrite map_array_shape, idct_x2_shape. assumption.
Qed.

Lemma idct_kernel_shape : shape (idct_kernel x a norm) = shape x.
Proof.
  unfold idct_kernel. cbv zeta.
  rewrite deinterleave_shape. unfold jnp_real. rewrite map_array_shape.
  cbn [shape jnp_fft_ifft].
  exact idct_x5_shape.
Qed.

Lemma idct_kernel_data idx :
  valid_index (shape x) idx ->
  data (idct_kernel x a norm) idx
  = RtoC (idct_lane (dim x a)
            (fun k => denorm_value (dim x a) norm k
                        (re (data x (upd a k idx))))
            (deinterleave_src (dim x a) (at_ a idx))).
Proof.
  intros Hv.
  pose proof (valid_index_at Hv Ha) as Hi.
  pose proof (valid_index_length Hv) as Hl.
  unfold idct_kernel. cbv zeta.
  fold x2. fold x5.
  assert (Hs6 : shape (jnp_real (jnp_fft_ifft x5 a)) = shape x).
  { unfold jnp_real. rewrite map_array_shape. cbn [shape jnp_fft_ifft].
    exact idct_x5_shape. }
  rewrite deinterleave_data;
    [|rewrite (ndim_shape_eq _ _ Hs6); assumption
     |rewrite Hs6; assumption].
  rewrite (dim_shape_eq _ _ a Hs6).
  unfold jnp_real. rewrite map_array_data. cbn [data jnp_fft_ifft].
  rewrite (dim_shape_eq _ _ a idct_x5_shape).
  rewrite at_upd_same by (unfold ndim in Ha; lia).
  unfold Creal. f_equal.
  rewrite <- ifft_twiddle_real by assumption.
  f_equal. f_equal. apply Csum_ext. intros k Hk.
  rewrite upd_upd_same.
  rewrite idct_x5_data
    by (apply valid_index_upd_same_shape; assumption).
  now rewrite at_upd_same by (unfold ndim in Ha; lia).
Qed.

End IdctKernelData.

(** The helpers raise on an empty axis, and only there. *)
Lemma interleave_error_spec {A : Type} (x : Array A) a :
  _dct_interleave_error x a = if dim x a =? 0 then Some TypeError else None.
Proof.
  unfold _dct_interleave_error, lax_slice_in_dim_error, or_else, default.
  rewrite Nat.ltb_irrefl.
  replace (dim x a <? 0) with false by (symmetry; apply Nat.ltb_ge; lia).
  cbn [orb]. rewrite orb_false_r.
  destruct (Nat.eqb_spec (dim x a) 0) as [E|E],
           (Nat.ltb_spec (dim x a) 1); try lia; reflexivity.
Qed.

Lemma ortho_norm_error_spec out a :
  _dct_ortho_norm_error out a
  = if dim out a =? 0 then Some TypeError else None.
Proof.
  unfold _dct_ortho_norm_error, lax_full_error, or_else.
  cbn [existsb Z.ltb Z.compare orb]. rewrite orb_false_r.
  destruct (Nat.eqb_spec (dim out a) 0) as [E|E],
           (Z.ltb_spec (Z.of_nat (dim out a) - 1) 0); try lia; reflexivity.
Qed.

Lemma idct_denormalize_error_spec x a norm :
  a < ndim x ->
  idct_denormalize_error x a norm
  = if dim x a =? 0 then Some TypeError else None.
Proof.
  intros Ha. unfold idct_denormalize_error.
  destruct norm as [s|]; [apply ortho_norm_error_spec|].
  rewrite !ortho_norm_error_spec.
  destruct (Nat.eqb_spec (dim x a) 0) as [E|E]; [reflexivity|].
  assert (HN : 0 < dim x a) by lia.
  cbn [or_else].
  rewrite (dim_shape_eq _ _ a (ortho_norm_shape x Ha HN)).
  destruct (Nat.eqb_spec (dim x a) 0); [lia|reflexivity].
Qed.

Lemma call_nonempty_axis x a (e : option PyError) y :
  e = (if dim x a =? 0 then Some TypeError else None) ->
  call e y = nonempty_axis x a y.
Proof. intros ->. unfold nonempty_axis. now destruct (dim x a =? 0). Qed.

Lemma nonempty_axis_ok x a y : 0 < dim x a -> nonempty_axis x a y = Ok y.
Proof.
  intros HN. unfold nonempty_axis.
  destruct (Nat.eqb_spec (dim x a) 0); [lia|reflexivity].
Qed.

Lemma nonempty_axis_empty x a y :
  dim x a = 0 -> nonempty_axis x a y = Raise TypeError.
Proof. intros E. unfold nonempty_axis. now rewrite E. Qed.

(** The public functions on a canonical axis with no requested length. *)
Lemma dct_no_pad_any x a norm :
  a < ndim x ->
  dct x 2 None (Z.of_nat a) norm = nonempty_axis x a (dct_kernel x a norm).
Proof.
  intros Ha. unfold dct. cbn [Z.eqb Pos.eqb negb].
  rewrite canonicalize_axis_nat by assumption. cbn [bind].
  rewrite interleave_error_spec. unfold nonempty_axis.
  destruct (Nat.eqb_spec (dim x a) 0) as [E|E]; [reflexivity|].
  cbn [call bind]. unfold dct_kernel. cbv zeta.
  destruct (is_ortho norm); [|reflexivity].
  set (d := real_dtype _).
  pose proof (dct_unnorm_shape x Ha d) as Hs. cbv beta in Hs.
  rewrite ortho_norm_error_spec, (dim_shape_eq _ _ a Hs).
  destruct (Nat.eqb_spec (dim x a) 0); [lia|reflexivity].
Qed.

Lemma idct_no_pad_any x a norm :
  a < ndim x ->
  idct x 2 None (Z.of_nat a) norm
  = nonempty_axis x a (idct_kernel x a norm).
Proof.
  intros Ha. unfold idct. cbn [Z.eqb Pos.eqb negb].
  rewrite canonicalize_axis_nat by assumption. cbn [bind].
  rewrite (@idct_denormalize_error_spec (astype x Float32) a norm Ha).
  change (dim (astype x Float32) a) with (dim x a).
  unfold nonempty_axis.
  destruct (Nat.eqb_spec (dim x a) 0) as [E|E]; reflexivity.
Qed.

Lemma dct_no_pad x a norm :
  a < ndim x -> 0 < dim x a ->
  dct x 2 None (Z.of_nat a) norm = Ok (dct_kernel x a norm).
Proof.
  intros Ha HN. rewrite dct_no_pad_any by assumption.
  now apply nonempty_axis_ok.
Qed.

Lemma idct_no_pad x a norm :
  a < ndim x -> 0 < dim x a ->
  idct x 2 None (Z.of_nat a) norm = Ok (idct_kernel x a norm).
Proof.
  intros Ha HN. rewrite idct_no_pad_any by assumption.
  now apply nonempty_axis_ok.
Qed.

Lemma dct_canonical x n axis a norm :
  canonicalize_axis axis (ndim x) = Ok a ->
  dct x 2 n axis norm = dct x 2 n (Z.of_nat a) norm.
Proof.
  intros H. unfold dct. cbn [Z.eqb Pos.eqb negb].
  rewrite H, canonicalize_axis_nat by (eapply canonicalize_axis_ok; eauto).
  reflexivity.
Qed.

Lemma idct_canonical x n axis a norm :
  canonicalize_axis axis (ndim x) = Ok a ->
  idct x 2 n axis norm = idct x 2 n (Z.of_nat a) norm.
Proof.
  intros H. unfold idct. cbn [Z.eqb Pos.eqb negb].
  rewrite H, canonicalize_axis_nat by (eapply canonicalize_axis_ok; eauto).
  reflexivity.
Qed.

(* ================================================================== *)
(** * Round trip of [dct] and [idct] (C1) *)
(* ================================================================== *)

Lemma idct_lane_ext N Y Y' n :
  (forall k, k < N -> Y k = Y' k) -> idct_lane N Y n = idct_lane N Y' n.
Proof.
  intros H. unfold idct_lane. f_equal.
  apply Rsum_ext. intros k Hk. now rewrite (H k Hk).
Qed.

Lemma dct_lane_ext N v v' k :
  (forall n, n < N -> v n = v' n) -> dct_lane N v k = dct_lane N v' k.
Proof.
  intros H. unfold dct_lane. f_equal.
  apply Rsum_ext. intros n Hn. now rewrite (H n Hn).
Qed.

Lemma lane_upd x a k idx n : lane x a (upd a k idx) n = lane x a idx n.
Proof. unfold lane. now rewrite upd_upd_same. Qed.

Lemma ortho_scale_neq0 N i : 0 < N -> ortho_scale N i <> 0%R.
Proof.
  intros H. unfold ortho_scale.
  apply Rgt_not_eq, Rlt_gt, sqrt_lt_R0.
  apply Rmult_lt_0_compat; [apply lt_0_INR; assumption|].
  destruct (i =? 0); lra.
Qed.

Lemma roundtrip_kernel x a norm :
  a < ndim x -> 0 < dim x a -> is_real x ->
  norm = None \/ norm = Some "ortho"%string ->
  same_values (idct_kernel (dct_kernel x a norm) a norm) x.
Proof.
  intros Ha HN Hx Hnorm.
  pose proof (@dct_kernel_shape x a Ha HN norm) as Hs.
  assert (Ha' : a < ndim (dct_kernel x a norm))
    by (rewrite (ndim_shape_eq _ _ Hs); assumption).
  assert (HN' : 0 < dim (dct_kernel x a norm) a)
    by (rewrite (dim_shape_eq _ _ a Hs); assumption).
  split.
  - rewrite idct_kernel_shape by assumption. exact Hs.
  - rewrite idct_kernel_shape, Hs by assumption. intros idx Hv.
    pose proof (valid_index_at Hv Ha) as Hi.
    pose proof (valid_index_length Hv) as Hl.
    rewrite idct_kernel_data by (assumption || (rewrite Hs; assumption)).
    rewrite (dim_shape_eq _ _ a Hs).
    rewrite idct_lane_ext
      with (Y' := fun k =>
              (dct_lane (dim x a) (lane (_dct_interleave x a) a idx) k
               / ortho_scale (dim x a) k / ortho_scale (dim x a) k)%R).
    + rewrite dct_inversion
        by (assumption || (apply deinterleave_src_lt; assumption)).
      unfold lane.
      rewrite interleave_data by (unfold ndim in *; rewrite ?upd_length; lia).
      rewrite at_upd_same by (unfold ndim in *; lia).
      rewrite upd_upd_same, interleave_deinterleave_src, upd_at_id
        by assumption.
      apply C_eq; cbn [re im RtoC]; [reflexivity|].
      symmetry. apply Hx. assumption.
    + intros k Hk.
      rewrite dct_kernel_data
        by (assumption || (apply valid_index_upd_same_shape; assumption)).
      rewrite at_upd_same by (unfold ndim in *; lia).
      cbn [re RtoC].
      rewrite dct_lane_ext
        with (v' := lane (_dct_interleave x a) a idx)
        by (intros; apply lane_upd).
      pose proof (@ortho_scale_neq0 (dim x a) k HN) as Hne.
      destruct Hnorm as [-> | ->]; unfold denorm_value; cbn [is_ortho].
      * field. assumption.
      * change (String.eqb "ortho" "ortho") with true. cbv iota.
        reflexivity.
Qed.

(** C1: for every real-valued array [x], every valid axis (negative or
    not) whose length is at least one, and [norm] either unset or
    ["ortho"], [dct] followed by [idct] with the same axis and norm and no
    requested length both succeed and give back the shape and the values
    of [x].  Values are exact reals here, so the tolerance of the claim is
    zero; the dtype of the result is not compared. *)
Theorem C1_dct_idct_roundtrip :
  forall (x : Array C) (axis : Z) (a : nat) (norm : option string),
    is_real x ->
    canonicalize_axis axis (ndim x) = Ok a ->
    0 < dim x a ->
    norm = None \/ norm = Some "ortho"%string ->
    exists y z,
      dct x 2 None axis norm = Ok y /\
      idct y 2 None axis norm = Ok z /\
      same_values z x.
Proof.
  intros x axis a norm Hx Hc HN Hnorm.
  pose proof (canonicalize_axis_ok _ _ Hc) as Ha.
  exists (dct_kernel x a norm), (idct_kernel (dct_kernel x a norm) a norm).
  pose proof (@dct_kernel_shape x a Ha HN norm) as Hs.
  split; [|split].
  - rewrite (@dct_canonical x None axis a norm Hc).
    apply dct_no_pad; assumption.
  - rewrite (@idct_canonical (dct_kernel x a norm) None axis a norm)
      by (rewrite (ndim_shape_eq _ _ Hs); assumption).
    apply idct_no_pad.
    + rewrite (ndim_shape_eq _ _ Hs); assumption.
    + rewrite (dim_shape_eq _ _ a Hs); assumption.
  - apply roundtrip_kernel; assumption.
Qed.

Lemma of_list_is_real d (l : list R) :
  is_real (of_list d C0 (map RtoC l)).
Proof.
  intros idx Hv. unfold of_list; cbn [data].
  destruct (Nat.lt_ge_cases (at_ 0 idx) (length (map RtoC l))) as [H|H].
  - rewrite (nth_indep _ C0 (RtoC 0)) by assumption.
    now rewrite map_nth.
  - now rewrite nth_overflow by assumption.
Qed.

Lemma C1_witness :
  let x := of_list Float64 C0 (map RtoC [1; 2; 3]%R) in
  is_real x /\
  canonicalize_axis (-1) (ndim x) = Ok 0 /\
  0 < dim x 0 /\
  exists y z,
    dct x 2 None (-1) (Some "ortho"%string) = Ok y /\
    idct y 2 None (-1) (Some "ortho"%string) = Ok z /\
    same_values z x.
Proof.
  intros x.
  assert (H1 : is_real x) by apply of_list_is_real.
  assert (H2 : canonicalize_axis (-1) (ndim x) = Ok 0) by reflexivity.
  assert (H3 : 0 < dim x 0) by (unfold dim, at_; simpl; lia).
  split; [exact H1|]. split; [exact H2|]. split; [exact H3|].
  exact (@C1_dct_idct_roundtrip x (-1)%Z 0 (Some "ortho"%string) H1 H2 H3
           (or_intror eq_refl)).
Defined.

(* ================================================================== *)
(** * How often [idct] rescales (C4) and what [norm] selects (C5) *)
(* ================================================================== *)

Lemma ortho_passes_spec p x a :
  a < ndim x -> 0 < dim x a ->
  shape (ortho_passes p x a) = shape x /\
  forall idx, valid_index (shape x) idx ->
    data (ortho_passes p x a) idx
    = mkC (re (data x idx) / ortho_scale (dim x a) (at_ a idx) ^ p)
          (im (data x idx) / ortho_scale (dim x a) (at_ a idx) ^ p).
Proof.
  intros Ha HN. induction p as [|p [IHs IHd]].
  - split; [reflexivity|]. intros idx _. simpl.
    apply C_eq; simpl; field.
  - assert (Ha' : a < ndim (ortho_passes p x a))
      by (rewrite (ndim_shape_eq _ _ IHs); assumption).
    assert (HN' : 0 < dim (ortho_passes p x a) a)
      by (rewrite (dim_shape_eq _ _ a IHs); assumption).
    change (ortho_passes (S p) x a)
      with (_dct_ortho_norm (ortho_passes p x a) a).
    split.
    + rewrite ortho_norm_shape by assumption. exact IHs.
    + intros idx Hv.
      rewrite ortho_norm_data by (assumption || (rewrite IHs; assumption)).
      rewrite (dim_shape_eq _ _ a IHs), IHd by assumption.
      pose proof (@ortho_scale_neq0 (dim x a) (at_ a idx) HN) as Hne.
      apply C_eq; cbn [re im pow]; field;
        (split; [apply pow_nonzero|]; assumption).
Qed.

Lemma ortho_scale_1_0 : ortho_scale 1 0 = 2%R.
Proof.
  unfold ortho_scale. simpl.
  replace (1 * 4)%R with (2 * 2)%R by ring.
  apply sqrt_square. lra.
Qed.

(** C4, as the code has it: the de-normalisation stage of [idct] applies
    [_dct_ortho_norm] once whatever [norm] is, and once more when [norm]
    is unset: two applications for [None], one for any given norm; along
    an axis of positive length every element is divided by the scale of
    its position that many times. *)
Theorem C4_idct_ortho_norm_passes :
  forall (x : Array C) (axis : nat) (norm : option string),
    let p := match norm with None => 2 | Some _ => 1 end in
    idct_denormalize x axis norm = ortho_passes p x axis /\
    (axis < ndim x -> 0 < dim x axis ->
     forall idx, valid_index (shape x) idx ->
       data (idct_denormalize x axis norm) idx
       = mkC (re (data x idx)
              / ortho_scale (dim x axis) (at_ axis idx) ^ p)
             (im (data x idx)
              / ortho_scale (dim x axis) (at_ axis idx) ^ p)).
Proof.
  intros x axis norm p.
  assert (E : idct_denormalize x axis norm = ortho_passes p x axis)
    by (subst p; destruct norm; reflexivity).
  split; [exact E|].
  intros Ha HN idx Hv. rewrite E.
  now apply ortho_passes_spec.
Qed.

Lemma C4_witness :
  let x := of_list Float32 C0 [RtoC 8] in
  0 < ndim x /\ 0 < dim x 0 /\ valid_index (shape x) [0] /\
  data (idct_denormalize x 0 None) [0]
  = mkC (re (data x [0]) / ortho_scale (dim x 0) (at_ 0 [0]) ^ 2)
        (im (data x [0]) / ortho_scale (dim x 0) (at_ 0 [0]) ^ 2).
Proof.
  intros x.
  assert (Ha : 0 < ndim x) by (unfold ndim; simpl; lia).
  assert (HN : 0 < dim x 0) by (unfold dim, at_; simpl; lia).
  assert (Hv : valid_index (shape x) [0]) by (repeat constructor).
  split; [exact Ha|]. split; [exact HN|]. split; [exact Hv|].
  exact (proj2 (C4_idct_ortho_norm_passes x 0 None) Ha HN [0] Hv).
Defined.

(** C4 as stated fails: on the one-element array [[1]] the stage leaves
    1/4 when [norm] is unset, where three passes would leave 1/8, and
    leaves 1/2 for ["ortho"], where two passes would leave 1/4. *)
Lemma C4_counterexample :
  let x := of_list Float32 C0 [RtoC 1] in
  data (idct_denormalize x 0 None) [0] <> data (ortho_passes 3 x 0) [0] /\
  data (idct_denormalize x 0 (Some "ortho"%string)) [0]
    <> data (ortho_passes 2 x 0) [0].
Proof.
  intros x.
  assert (Ha : 0 < ndim x) by (unfold ndim; simpl; lia).
  assert (HN : 0 < dim x 0) by (unfold dim, at_; simpl; lia).
  assert (Hv : valid_index (shape x) [0])
    by (repeat constructor).
  change (idct_denormalize x 0 None) with (ortho_passes 2 x 0).
  change (idct_denormalize x 0 (Some "ortho"%string))
    with (ortho_passes 1 x 0).
  destruct (@ortho_passes_spec 1 x 0 Ha HN) as [_ H1].
  destruct (@ortho_passes_spec 2 x 0 Ha HN) as [_ H2].
  destruct (@ortho_passes_spec 3 x 0 Ha HN) as [_ H3].
  rewrite (H1 _ Hv), (H2 _ Hv), (H3 _ Hv).
  change (dim x 0) with 1. change (at_ 0 [0]) with 0.
  rewrite ortho_scale_1_0.
  split; intros E; apply (f_equal re) in E; simpl in E; lra.
Qed.

Lemma idct_singleton d r norm :
  exists y,
    idct (of_list d C0 [RtoC r]) 2 None 0 norm = Ok y /\
    data y [0] = RtoC (2 * denorm_value 1 norm 0 r).
Proof.
  set (x := of_list d C0 [RtoC r]).
  assert (Ha : 0 < ndim x) by (unfold ndim; simpl; lia).
  assert (HN : 0 < dim x 0) by (unfold dim, at_; simpl; lia).
  assert (Hv : valid_index (shape x) [0]) by (repeat constructor).
  exists (idct_kernel x 0 norm). split.
  - apply (@idct_no_pad x 0 norm Ha HN).
  - rewrite idct_kernel_data by assumption. f_equal.
    change (dim x 0) with 1. change (at_ 0 [0]) with 0.
    unfold idct_lane, deinterleave_src. cbn [Rsum Nat.modulo].
    change (0 mod 2 =? 0) with true. cbv iota.
    change (0 / 2) with 0.
    rewrite dct_angle_zero, cos_0. simpl. field.
Qed.

Lemma is_ortho_other s :
  s <> "ortho"%string -> is_ortho (Some s) = false.
Proof.
  intros H. simpl. destruct (String.eqb_spec s "ortho"); congruence.
Qed.

(** C5, as the code has it: [dct] tests [norm == 'ortho'] and treats
    every other norm as unset; [idct] tests [norm is None], so every
    given norm, recognised or not, selects the same result as ["ortho"].
    On an unrecognised norm the two tests disagree: [dct] runs
    unnormalised and [idct] runs as the orthonormal inverse. *)
Theorem C5_norm_selection :
  forall (x : Array C) (type : Z) (n : option Z) (axis : Z) (s : string),
    (s <> "ortho"%string ->
     dct x type n axis (Some s) = dct x type n axis None) /\
    idct x type n axis (Some s) = idct x type n axis (Some "ortho"%string).
Proof.
  intros x type n axis s. split.
  - intros Hs. unfold dct. rewrite (is_ortho_other Hs). reflexivity.
  - reflexivity.
Qed.

Lemma C5_witness :
  "backward"%string <> "ortho"%string /\
  forall (x : Array C) (type : Z) (n : option Z) (axis : Z),
    dct x type n axis (Some "backward"%string) = dct x type n axis None.
Proof.
  assert (H : "backward"%string <> "ortho"%string) by discriminate.
  split; [exact H|].
  intros x type n axis.
  exact (proj1 (C5_norm_selection x type n axis "backward") H).
Defined.

(* ================================================================== *)
(** * [lax.pad] at the end of the axes *)
(* ================================================================== *)

Lemma dilated_0 n : dilated n 0 = Z.of_nat n.
Proof. unfold dilated. destruct (Nat.eqb_spec n 0); lia. Qed.

Lemma pad_high_ok (hs : list Z) sh :
  Forall2 (fun h n => (0 <= h + Z.of_nat n)%Z) hs sh ->
  forallb2 pad_config_ok (map (fun h => (0, h, 0)%Z) hs) sh = true.
Proof.
  intros H; induction H; simpl; [reflexivity|].
  rewrite IHForall2, andb_true_r.
  unfold pad_dim. rewrite dilated_0.
  apply Z.leb_le. lia.
Qed.

Lemma pad_high_shape (hs : list Z) sh :
  map2 (fun c n => Z.to_nat (pad_dim c n)) (map (fun h => (0, h, 0)%Z) hs) sh
  = map2 (fun h n => Z.to_nat (h + Z.of_nat n)) hs sh.
Proof.
  revert sh; induction hs as [|h hs IH]; intros [|n sh]; simpl;
    try reflexivity.
  rewrite IH. unfold pad_dim. rewrite dilated_0. f_equal.
Qed.

Lemma pad_high_src (hs : list Z) sh idx :
  length hs = length sh -> length idx = length sh ->
  sequence_opt
    (map2 pad_src (combine (map (fun h => (0, h, 0)%Z) hs) sh) idx)
  = if valid_indexb sh idx then Some idx else None.
Proof.
  revert sh idx; induction hs as [|h hs IH]; intros [|n sh] [|i idx] H1 H2;
    simpl in *; try reflexivity; try discriminate.
  unfold valid_indexb in *. simpl.
  rewrite dilated_0.
  replace (Z.of_nat i - 0)%Z with (Z.of_nat i) by lia.
  replace (0 + 1)%Z with 1%Z by reflexivity.
  rewrite Z.mod_1_r, Z.div_1_r, Nat2Z.id. simpl.
  destruct (Z.leb_spec 0 (Z.of_nat i)); [|lia]. simpl.
  destruct (Z.ltb_spec (Z.of_nat i) (Z.of_nat n));
    destruct (Nat.ltb_spec i n); try lia; simpl; [|reflexivity].
  rewrite IH by lia.
  destruct (forallb2 Nat.ltb idx sh); reflexivity.
Qed.

(** Padding (or cutting) at the end of each axis by [hs]: the result has
    the lengths [n + h] and holds [x] where [x] is defined, the padding
    value elsewhere. *)
Lemma lax_pad_high {A : Type} (x : Array A) (v : A) (hs : list Z) :
  length hs = ndim x ->
  Forall2 (fun h n => (0 <= h + Z.of_nat n)%Z) hs (shape x) ->
  exists y,
    lax_pad x v (map (fun h => (0, h, 0)%Z) hs) = Ok y /\
    dtype y = dtype x /\
    shape y = map2 (fun h n => Z.to_nat (h + Z.of_nat n)) hs (shape x) /\
    forall idx, length idx = ndim x ->
      data y idx = if valid_indexb (shape x) idx then data x idx else v.
Proof.
  intros Hl Hok. unfold lax_pad.
  rewrite length_map, Hl, Nat.eqb_refl. cbn [negb].
  rewrite pad_high_ok by assumption. cbn [negb].
  eexists. split; [reflexivity|]. cbn [dtype shape data].
  split; [reflexivity|]. split; [apply pad_high_shape|].
  intros idx Hi. unfold ndim in *.
  rewrite pad_high_src by assumption.
  destruct (valid_indexb (shape x) idx); reflexivity.
Qed.

Lemma lax_pad_ndim {A : Type} (x y : Array A) (v : A) cfg :
  lax_pad x v cfg = Ok y -> ndim y = ndim x.
Proof.
  unfold lax_pad.
  destruct (Nat.eqb_spec (length cfg) (ndim x)) as [Hl|]; [|discriminate].
  cbn [negb].
  destruct (forallb2 pad_config_ok cfg (shape x)); [|discriminate].
  cbn [negb]. intros E; inversion E; subst; clear E.
  unfold ndim in *; cbn [shape].
  revert Hl. generalize (shape x). clear.
  induction cfg as [|c cfg IH]; intros [|n sh] H; simpl in *;
    try reflexivity; try discriminate.
  f_equal. apply IH. lia.
Qed.

Lemma lax_pad_zero {A : Type} (x : Array A) (v : A) :
  exists y,
    lax_pad x v (map (fun _ => (0, 0, 0)%Z) (seq 0 (ndim x))) = Ok y /\
    arr_eq y x.
Proof.
  destruct (@lax_pad_high A x v (map (fun _ => 0%Z) (seq 0 (ndim x))))
    as [y [Hy [Hd [Hs Hv]]]].
  - now rewrite length_map, length_seq.
  - unfold ndim. generalize 0 at 1.
    induction (shape x) as [|n sh IH]; intros p; simpl; constructor;
      [lia|apply IH].
  - rewrite map_map in Hy. exists y. split; [exact Hy|].
    assert (Hs' : shape y = shape x).
    { rewrite Hs. unfold ndim. clear. generalize 0 at 1.
      induction (shape x) as [|n sh IH]; intros p; simpl; [reflexivity|].
      rewrite IH. f_equal. lia. }
    split; [exact Hd|]. split; [exact Hs'|].
    intros idx Hi. rewrite Hs' in Hi.
    rewrite Hv by (apply valid_index_length; assumption).
    apply valid_indexb_spec in Hi. now rewrite Hi.
Qed.

(* ================================================================== *)
(** * Transforms over no axis (C10) *)
(* ================================================================== *)

Lemma arr_eq_refl {A : Type} (x : Array A) : arr_eq x x.
Proof. repeat split. Qed.

Lemma pad_axes_to_no_axes x s :
  pad_axes_to x [] s
  = lax_pad x C0 (map (fun _ => (0, 0, 0)%Z) (seq 0 (ndim x))).
Proof. reflexivity. Qed.

Lemma dctn_no_axes x s norm :
  exists y, dctn x 2 s (Some []) norm = Ok y /\ arr_eq y x.
Proof.
  unfold dctn, dctn_fuel.
  cbn [Z.eqb Pos.eqb negb length Nat.eqb].
  destruct s as [s|].
  - rewrite pad_axes_to_no_axes.
    destruct (lax_pad_zero x C0) as [y [Hy He]].
    rewrite Hy. exists y. split; [reflexivity|exact He].
  - exists x. split; [reflexivity|apply arr_eq_refl].
Qed.

Lemma idctn_no_axes x s norm :
  exists y, idctn x 2 s (Some []) norm = Ok y /\ arr_eq y x.
Proof.
  unfold idctn.
  cbn [Z.eqb Pos.eqb negb length Nat.eqb].
  destruct s as [s|].
  - rewrite pad_axes_to_no_axes.
    destruct (lax_pad_zero x C0) as [y [Hy He]].
    rewrite Hy. exists y. split; [reflexivity|exact He].
  - exists x. split; [reflexivity|apply arr_eq_refl].
Qed.

Lemma dctn_default_rank0 x s norm :
  ndim x = 0 -> dctn x 2 s None norm = dctn x 2 s (Some []) norm.
Proof. intros H. unfold dctn, dctn_fuel. now rewrite H. Qed.

Lemma idctn_default_rank0 x s norm :
  ndim x = 0 -> idctn x 2 s None norm = idctn x 2 s (Some []) norm.
Proof. intros H. unfold idctn. now rewrite H. Qed.

(** C10: with [type = 2], [dctn] and [idctn] over an empty sequence of
    axes, given as such or as the default [axes=None] on a rank-0 array,
    return an array with the dtype, the shape and the elements of [x],
    whatever [s] and [norm] are. *)
Theorem C10_no_axes_identity :
  forall (x : Array C) (s : option (list Z)) (axes : option (list Z))
         (norm : option string),
    axes = Some [] \/ (axes = None /\ ndim x = 0) ->
    exists y z,
      dctn x 2 s axes norm = Ok y /\ arr_eq y x /\
      idctn x 2 s axes norm = Ok z /\ arr_eq z x.
Proof.
  intros x s axes norm H.
  destruct (dctn_no_axes x s norm) as [y [Hy Ey]].
  destruct (idctn_no_axes x s norm) as [z [Hz Ez]].
  exists y, z.
  destruct H as [-> | [-> H0]].
  - repeat split; assumption || apply Ey || apply Ez.
  - rewrite dctn_default_rank0, idctn_default_rank0 by assumption.
    repeat split; assumption || apply Ey || apply Ez.
Qed.

Lemma C10_witness :
  let x := of_rows Float32 C0 2 2 [[RtoC 1; RtoC 2]; [RtoC 3; RtoC 4]] in
  exists y z,
    dctn x 2 (Some [5; 7]%Z) (Some []) (Some "ortho"%string) = Ok y /\
    arr_eq y x /\
    idctn x 2 (Some [5; 7]%Z) (Some []) (Some "ortho"%string) = Ok z /\
    arr_eq z x.
Proof.
  intros x.
  exact (@C10_no_axes_identity x (Some [5; 7]%Z) (Some [])
           (Some "ortho"%string) (or_introl eq_refl)).
Defined.

(* ================================================================== *)
(** * The element type [idct] returns (C9) *)
(* ================================================================== *)

Lemma idct_kernel_dtype x a norm : dtype (idct_kernel x a norm) = Float32.
Proof. reflexivity. Qed.

Lemma idct_dtype x t n axis norm y :
  idct x t n axis norm = Ok y -> dtype y = Float32.
Proof.
  unfold idct. destruct (negb (t =? 2)%Z); [discriminate|].
  destruct (canonicalize_axis axis (ndim x)) as [a|]; [|discriminate].
  cbn [bind].
  destruct (match n with Some n0 => pad_axis_to x a n0 | None => Ok x end)
    as [x'|]; [|discriminate].
  cbn [bind].
  destruct (idct_denormalize_error (astype x' Float32) a norm);
    [discriminate|].
  cbn [call bind]. intros E; inversion E; subst. reflexivity.
Qed.

Lemma idct_ok x axis a norm :
  canonicalize_axis axis (ndim x) = Ok a -> 0 < dim x a ->
  exists y,
    idct x 2 None axis norm = Ok y /\ dtype y = Float32 /\
    shape y = shape x.
Proof.
  intros Hc HN. pose proof (canonicalize_axis_ok _ _ Hc) as Ha.
  exists (idct_kernel x a norm). split; [|split].
  - rewrite (@idct_canonical x None axis a norm Hc).
    apply idct_no_pad; assumption.
  - reflexivity.
  - apply idct_kernel_shape; assumption.
Qed.

Lemma idct_loop_dtype norm axes :
  forall acc y,
    (forall w, acc = Ok w -> dtype w = Float32) ->
    fold_left (fun acc axis => x <- acc ;; idct x 2 None axis norm) axes acc
    = Ok y ->
    dtype y = Float32.
Proof.
  induction axes as [|a axes IH]; intros acc y Hacc H; simpl in H.
  - apply Hacc; assumption.
  - apply IH in H; [assumption|].
    intros w Hw. destruct acc as [x'|]; [|discriminate].
    cbn [bind] in Hw. eapply idct_dtype; eassumption.
Qed.

Lemma idct_loop_ok norm axes :
  forall x,
    Forall (good_axis (shape x)) axes ->
    exists y,
      fold_left (fun acc axis => x <- acc ;; idct x 2 None axis norm)
        axes (Ok x) = Ok y /\
      shape y = shape x.
Proof.
  induction axes as [|a axes IH]; intros x H; simpl.
  - exists x. split; reflexivity.
  - inversion H as [|? ? [k [Hc Hk]] Hrest]; subst.
    destruct (@idct_ok x a k norm Hc Hk) as [y [Hy [_ Hs]]].
    rewrite Hy.
    destruct (IH y) as [z [Hz Hsz]]; [rewrite Hs; assumption|].
    exists z. split; [exact Hz|congruence].
Qed.

Lemma idctn_dtype x s axes norm y :
  axes <> [] ->
  idctn x 2 s (Some axes) norm = Ok y -> dtype y = Float32.
Proof.
  intros Hne. unfold idctn. cbn [Z.eqb Pos.eqb negb].
  destruct (length axes =? 1).
  - destruct (first_length s) as [n|]; [|discriminate]. cbn [bind].
    apply idct_dtype.
  - destruct (match s with Some s0 => pad_axes_to x axes s0 | None => Ok x end)
      as [x'|]; [|discriminate].
    cbn [bind]. destruct axes as [|a axes]; [congruence|].
    cbn [fold_left]. apply idct_loop_dtype.
    intros w Hw. cbn [bind] in Hw. eapply idct_dtype; eassumption.
Qed.

Lemma idctn_ok x axes norm :
  axes <> [] -> Forall (good_axis (shape x)) axes ->
  exists y,
    idctn x 2 None (Some axes) norm = Ok y /\ dtype y = Float32 /\
    shape y = shape x.
Proof.
  intros Hne Hg.
  assert (Hloop : exists y,
            fold_left (fun acc axis => x <- acc ;; idct x 2 None axis norm)
              axes (Ok x) = Ok y /\ shape y = shape x)
    by (apply idct_loop_ok; assumption).
  destruct Hloop as [y [Hy Hs]].
  exists y.
  assert (E : idctn x 2 None (Some axes) norm = Ok y).
  { unfold idctn. cbn [Z.eqb Pos.eqb negb first_length bind].
    destruct axes as [|a [|b axes]]; [congruence| |exact Hy].
    cbn [length Nat.eqb nth]. simpl in Hy. exact Hy. }
  split; [exact E|]. split; [|exact Hs].
  eapply idctn_dtype; eassumption.
Qed.

(** C9: whatever the dtype of [x], a result of [idct] is [float32], and so
    is a result of [idctn] over at least one axis; on axes that are valid
    and of positive length both return such a result. *)
Theorem C9_idct_returns_float32 :
  forall (x : Array C) (norm : option string),
    (forall n axis y, idct x 2 n axis norm = Ok y -> dtype y = Float32) /\
    (forall s axes y,
       axes <> [] -> idctn x 2 s (Some axes) norm = Ok y ->
       dtype y = Float32) /\
    (forall axis, good_axis (shape x) axis ->
       exists y, idct x 2 None axis norm = Ok y /\ dtype y = Float32) /\
    (forall axes, axes <> [] -> Forall (good_axis (shape x)) axes ->
       exists y, idctn x 2 None (Some axes) norm = Ok y /\
                 dtype y = Float32).
Proof.
  intros x norm. repeat split.
  - intros n axis y. apply idct_dtype.
  - intros s axes y. apply idctn_dtype.
  - intros axis [a [Hc Hk]].
    destruct (@idct_ok x axis a norm Hc Hk) as [y [Hy [Hd _]]].
    exists y. split; assumption.
  - intros axes Hne Hg.
    destruct (@idctn_ok x axes norm Hne Hg) as [y [Hy [Hd _]]].
    exists y. split; assumption.
Qed.

Lemma C9_witness :
  let x := of_list Float64 C0 [RtoC 1; RtoC 2] in
  good_axis (shape x) (-1) /\
  exists y, idct x 2 None (-1) None = Ok y /\ dtype y = Float32.
Proof.
  intros x.
  assert (H : good_axis (shape x) (-1)).
  { exists 0. split; [reflexivity|]. unfold at_; simpl; lia. }
  split; [exact H|].
  exact (proj1 (proj2 (proj2 (C9_idct_returns_float32 x None))) (-1)%Z H).
Defined.

(* ================================================================== *)
(** * The requested length [n] of [dct] (C8) *)
(* ================================================================== *)

Lemma pad_axis_hs_ok sh a (n : Z) p :
  (0 <= n)%Z ->
  Forall2 (fun h m => (0 <= h + Z.of_nat m)%Z)
    (map (fun a' => if a' =? a then (n - Z.of_nat (at_ (a - p) sh))%Z else 0%Z)
       (seq p (length sh)))
    sh.
Proof.
  intros Hn. revert p a.
  induction sh as [|m sh IH]; intros p a; simpl; constructor.
  - destruct (Nat.eqb_spec p a) as [->|]; [|lia].
    rewrite Nat.sub_diag. unfold at_; simpl. lia.
  - destruct (Nat.le_gt_cases a p) as [Hle|Hgt].
    + (* the axis is behind: every later entry is 0 *)
      clear IH.
      assert (G : forall q (l : list nat) (c : Z), a < q ->
        Forall2 (fun h m => (0 <= h + Z.of_nat m)%Z)
          (map (fun a' => if a' =? a then c else 0%Z) (seq q (length l))) l).
      { clear. intros q l c; revert q.
        induction l as [|m l IH]; intros q Hq; simpl; constructor.
        - destruct (Nat.eqb_spec q a); lia.
        - apply IH; lia. }
      apply G; lia.
    + replace (a - p) with (S (a - S p)) by lia.
      unfold at_; simpl. apply IH.
Qed.

Lemma pad_axis_hs_shape sh a (n : Z) p :
  p <= a -> a - p < length sh ->
  map2 (fun h m => Z.to_nat (h + Z.of_nat m))
    (map (fun a' => if a' =? a then (n - Z.of_nat (at_ (a - p) sh))%Z else 0%Z)
       (seq p (length sh)))
    sh
  = upd (a - p) (Z.to_nat n) sh.
Proof.
  revert p a.
  induction sh as [|m sh IH]; intros p a Hp Ha; simpl in *; [lia|].
  destruct (Nat.eqb_spec p a) as [->|Hne].
  - rewrite Nat.sub_diag. unfold at_; simpl. f_equal; [f_equal; lia|].
    assert (G : forall q (l : list nat) (c : Z), a < q ->
      map2 (fun h m => Z.to_nat (h + Z.of_nat m))
        (map (fun a' => if a' =? a then c else 0%Z) (seq q (length l))) l
      = l).
    { clear. intros q l c; revert q.
      induction l as [|m l IH]; intros q Hq; simpl; [reflexivity|].
      destruct (Nat.eqb_spec q a); [lia|].
      rewrite IH by lia. f_equal. lia. }
    apply G; lia.
  - replace (a - p) with (S (a - S p)) by lia.
    unfold at_; simpl. f_equal; [lia|].
    apply IH; lia.
Qed.

Lemma pad_axis_to_spec x a (n : Z) :
  a < ndim x -> (0 <= n)%Z ->
  exists y,
    pad_axis_to x a n = Ok y /\
    dtype y = dtype x /\
    shape y = upd a (Z.to_nat n) (shape x) /\
    forall idx, length idx = ndim x ->
      data y idx = if valid_indexb (shape x) idx then data x idx else C0.
Proof.
  intros Ha Hn. unfold pad_axis_to.
  destruct (@lax_pad_high C x C0
              (map (fun a' => if a' =? a
                              then (n - Z.of_nat (dim x a))%Z else 0%Z)
                 (seq 0 (ndim x))))
    as [y [Hy [Hd [Hs Hv]]]].
  - now rewrite length_map, length_seq.
  - pose proof (@pad_axis_hs_ok (shape x) a n 0 Hn) as G.
    rewrite Nat.sub_0_r in G. exact G.
  - rewrite map_map in Hy. exists y.
    split; [exact Hy|]. split; [exact Hd|]. split; [|exact Hv].
    rewrite Hs.
    pose proof (@pad_axis_hs_shape (shape x) a n 0) as G.
    rewrite Nat.sub_0_r in G. apply G; [lia|exact Ha].
Qed.

Lemma dct_with_length x n axis a norm :
  canonicalize_axis axis (ndim x) = Ok a ->
  dct x 2 (Some n) axis norm
  = x' <- pad_axis_to x a n ;; nonempty_axis x' a (dct_kernel x' a norm).
Proof.
  intros H. pose proof (canonicalize_axis_ok _ _ H) as Ha.
  unfold dct at 1. cbn [Z.eqb Pos.eqb negb].
  rewrite H. cbn [bind].
  destruct (pad_axis_to x a n) as [x'|e] eqn:Hp; [|reflexivity].
  cbn [bind].
  assert (Ha' : a < ndim x').
  { unfold pad_axis_to in Hp. apply lax_pad_ndim in Hp. lia. }
  rewrite <- (@dct_no_pad_any x' a norm Ha').
  unfold dct. cbn [Z.eqb Pos.eqb negb].
  now rewrite canonicalize_axis_nat by assumption.
Qed.

Lemma same_values_is_real x x' :
  same_values x x' -> is_real x -> is_real x'.
Proof.
  intros [Hs Hd] Hx idx Hv. rewrite <- Hs in Hv.
  rewrite <- Hd by assumption. apply Hx; assumption.
Qed.

Lemma dct_kernel_dtype_congr x x' a norm :
  dtype x = dtype x' ->
  dtype (dct_kernel x a norm) = dtype (dct_kernel x' a norm).
Proof.
  intros H. unfold dct_kernel. cbv zeta.
  destruct (is_ortho norm); cbn; rewrite H; reflexivity.
Qed.

Lemma dct_kernel_congr x x' a norm :
  a < ndim x -> 0 < dim x a -> is_real x ->
  dtype x = dtype x' -> same_values x x' ->
  arr_eq (dct_kernel x a norm) (dct_kernel x' a norm).
Proof.
  intros Ha HN Hx Hdt Hsv.
  pose proof (same_values_is_real Hsv Hx) as Hx'.
  destruct Hsv as [Hs Hd].
  assert (Ha' : a < ndim x') by (unfold ndim in *; now rewrite <- Hs).
  assert (HN' : 0 < dim x' a) by (unfold dim in *; now rewrite <- Hs).
  split; [apply dct_kernel_dtype_congr; assumption|]. split.
  - rewrite !dct_kernel_shape by assumption. exact Hs.
  - rewrite dct_kernel_shape by assumption. intros idx Hv.
    pose proof (valid_index_at Hv Ha) as Hi.
    pose proof (valid_index_length Hv) as Hl.
    rewrite !dct_kernel_data by (assumption || (rewrite <- Hs; assumption)).
    unfold dim. rewrite <- Hs. f_equal. f_equal.
    apply dct_lane_ext. intros n Hn. unfold lane.
    rewrite !interleave_data
      by (unfold ndim in *; rewrite ?upd_length; lia).
    unfold dim. rewrite <- Hs. f_equal. apply Hd.
    rewrite upd_upd_same.
    apply valid_index_upd_same_shape; [assumption|].
    rewrite at_upd_same by (unfold ndim in *; lia).
    apply interleave_src_lt; assumption.
Qed.

Lemma valid_indexb_longer sh a n idx :
  a < length sh -> at_ a sh <= n ->
  valid_index (upd a n sh) idx ->
  valid_indexb sh idx = (at_ a idx <? at_ a sh).
Proof.
  intros Ha Hn Hv.
  destruct (valid_index_upd_inv _ _ Hv Ha) as [Hi Hrest].
  destruct (Nat.ltb_spec (at_ a idx) (at_ a sh)) as [Hlt|Hge].
  - apply valid_indexb_spec.
    specialize (Hrest _ Hlt). now rewrite upd_at_id in Hrest.
  - destruct (valid_indexb sh idx) eqn:E; [|reflexivity].
    apply valid_indexb_spec in E.
    pose proof (valid_index_at E Ha). lia.
Qed.

Lemma valid_index_shorter sh a n idx :
  a < length sh -> n <= at_ a sh ->
  valid_index (upd a n sh) idx -> valid_index sh idx.
Proof.
  intros Ha Hn Hv.
  destruct (valid_index_upd_inv _ _ Hv Ha) as [Hi Hrest].
  assert (Hlt : at_ a idx < at_ a sh) by lia.
  specialize (Hrest _ Hlt). now rewrite upd_at_id in Hrest.
Qed.

Lemma pad_longer_eq_append x a m y :
  a < ndim x ->
  shape y = upd a (dim x a + m) (shape x) ->
  (forall idx, length idx = ndim x ->
     data y idx = if valid_indexb (shape x) idx then data x idx else C0) ->
  same_values y (append_zeros x a m).
Proof.
  intros Ha Hs Hd. unfold ndim in Ha.
  assert (Hsa : shape (append_zeros x a m) = upd a (dim x a + m) (shape x)).
  { unfold append_zeros, lax_concatenate; cbn [shape fold_left].
    unfold dim at 2; cbn [shape lax_full].
    now rewrite at_upd_same by assumption. }
  split; [congruence|].
  rewrite Hs. intros idx Hv.
  pose proof (valid_index_length Hv) as Hl. rewrite upd_length in Hl.
  rewrite Hd by assumption.
  rewrite (@valid_indexb_longer (shape x) a (dim x a + m) idx)
    by (assumption || (unfold dim; lia)).
  unfold append_zeros, lax_concatenate; cbn [data concat_data].
  fold (dim x a).
  destruct (at_ a idx <? dim x a); reflexivity.
Qed.

Lemma pad_shorter_eq_prefix x a m y :
  a < ndim x -> m <= dim x a ->
  shape y = upd a m (shape x) ->
  (forall idx, length idx = ndim x ->
     data y idx = if valid_indexb (shape x) idx then data x idx else C0) ->
  same_values y (take_prefix x a m).
Proof.
  intros Ha Hm Hs Hd. unfold ndim in Ha.
  assert (Hsp : shape (take_prefix x a m) = upd a m (shape x)).
  { unfold take_prefix. rewrite getitem_axis_shape by reflexivity.
    f_equal. unfold sl_len, sl_lo, sl_hi, range_len; cbn.
    rewrite Nat.div_1_r. lia. }
  split; [congruence|].
  rewrite Hs. intros idx Hv.
  pose proof (valid_index_length Hv) as Hl. rewrite upd_length in Hl.
  pose proof (@valid_index_shorter (shape x) a m idx Ha Hm Hv) as Hv'.
  rewrite Hd by assumption.
  apply valid_indexb_spec in Hv'. rewrite Hv'.
  unfold take_prefix. rewrite getitem_axis_data by (reflexivity || assumption).
  replace (sl_lo _ _ + sl_step _ * at_ a idx) with (at_ a idx)
    by (unfold sl_lo; cbn [sl_start sl_step default]; lia).
  now rewrite upd_at_id.
Qed.

Lemma padded_is_real x y :
  is_real x ->
  length (shape y) = length (shape x) ->
  (forall idx, length idx = ndim x ->
     data y idx = if valid_indexb (shape x) idx then data x idx else C0) ->
  is_real y.
Proof.
  intros Hx Hl Hd idx Hv.
  rewrite Hd by (rewrite (valid_index_length Hv); exact Hl).
  destruct (valid_indexb (shape x) idx) eqn:E; [|reflexivity].
  apply Hx. now apply valid_indexb_spec.
Qed.

Lemma dct_after_pad x x1 x2 axis a m norm :
  is_real x -> canonicalize_axis axis (ndim x) = Ok a -> 0 < m ->
  dtype x1 = dtype x -> shape x1 = upd a m (shape x) ->
  (forall idx, length idx = ndim x ->
     data x1 idx = if valid_indexb (shape x) idx then data x idx else C0) ->
  dtype x2 = dtype x -> same_values x1 x2 ->
  exists y',
    dct x2 2 None axis norm = Ok y' /\
    arr_eq (dct_kernel x1 a norm) y' /\
    dim (dct_kernel x1 a norm) a = m.
Proof.
  intros Hx Hc Hm Hdt Hs Hd Hdt2 Hsv.
  pose proof (canonicalize_axis_ok _ _ Hc) as Ha.
  assert (Hr1 : ndim x1 = ndim x)
    by (unfold ndim; now rewrite Hs, upd_length).
  assert (Ha1 : a < ndim x1) by lia.
  assert (HN1 : dim x1 a = m)
    by (unfold dim; rewrite Hs; apply at_upd_same; exact Ha).
  assert (Hx1 : is_real x1).
  { apply (@padded_is_real x x1 Hx); [|exact Hd].
    now rewrite Hs, upd_length. }
  assert (Hr2 : ndim x2 = ndim x)
    by (unfold ndim in *; destruct Hsv as [E _]; now rewrite <- E).
  exists (dct_kernel x2 a norm). split; [|split].
  - rewrite (@dct_canonical x2 None axis a norm) by (now rewrite Hr2).
    apply dct_no_pad; [lia|].
    destruct Hsv as [E _]. unfold dim. rewrite <- E. fold (dim x1 a). lia.
  - apply dct_kernel_congr; try assumption; [lia|congruence].
  - rewrite (dim_shape_eq _ _ a (@dct_kernel_shape x1 a Ha1
                                   ltac:(rewrite HN1; exact Hm) norm)).
    exact HN1.
Qed.

(** C8: on a real array whose transform axis has length [N >= 1],
    [dct] with [n = N + 2] succeeds, its result has length [N + 2] along
    the axis and is the [dct] of [x] with two zeros appended there; for
    [N > 2], [dct] with [n = N - 2] is the [dct] of [x[:N-2]]. *)
Theorem C8_dct_requested_length :
  forall (x : Array C) (axis : Z) (a : nat) (norm : option string),
    is_real x ->
    canonicalize_axis axis (ndim x) = Ok a ->
    0 < dim x a ->
    (exists y y',
       dct x 2 (Some (Z.of_nat (dim x a) + 2)%Z) axis norm = Ok y /\
       dct (append_zeros x a 2) 2 None axis norm = Ok y' /\
       arr_eq y y' /\ dim y a = dim x a + 2) /\
    (2 < dim x a ->
     exists y y',
       dct x 2 (Some (Z.of_nat (dim x a) - 2)%Z) axis norm = Ok y /\
       dct (take_prefix x a (dim x a - 2)) 2 None axis norm = Ok y' /\
       arr_eq y y' /\ dim y a = dim x a - 2).
Proof.
  intros x axis a norm Hx Hc HN.
  pose proof (canonicalize_axis_ok _ _ Hc) as Ha.
  split.
  - destruct (@pad_axis_to_spec x a (Z.of_nat (dim x a) + 2)%Z Ha)
      as [x1 [Hp [Hdt [Hs Hd]]]]; [lia|].
    replace (Z.to_nat (Z.of_nat (dim x a) + 2)) with (dim x a + 2) in Hs
      by lia.
    destruct (@dct_after_pad x x1 (append_zeros x a 2) axis a
                (dim x a + 2) norm) as [y' [Hy' [He Hdim]]];
      try assumption; try reflexivity; [lia| |].
    + apply pad_longer_eq_append; assumption.
    + exists (dct_kernel x1 a norm), y'.
      rewrite (@dct_with_length x _ axis a norm Hc), Hp. cbn [bind].
      rewrite nonempty_axis_ok
        by (unfold dim; rewrite Hs, at_upd_same by exact Ha; lia).
      repeat split; assumption || apply He.
  - intros H2.
    destruct (@pad_axis_to_spec x a (Z.of_nat (dim x a) - 2)%Z Ha)
      as [x1 [Hp [Hdt [Hs Hd]]]]; [lia|].
    replace (Z.to_nat (Z.of_nat (dim x a) - 2)) with (dim x a - 2) in Hs
      by lia.
    destruct (@dct_after_pad x x1 (take_prefix x a (dim x a - 2)) axis a
                (dim x a - 2) norm) as [y' [Hy' [He Hdim]]];
      try assumption; try reflexivity; [lia| |].
    + apply pad_shorter_eq_prefix; try assumption. lia.
    + exists (dct_kernel x1 a norm), y'.
      rewrite (@dct_with_length x _ axis a norm Hc), Hp. cbn [bind].
      rewrite nonempty_axis_ok
        by (unfold dim; rewrite Hs, at_upd_same by exact Ha; lia).
      repeat split; assumption || apply He.
Qed.

Lemma C8_witness :
  let x := of_list Float32 C0 (map RtoC [1; 2; 3; 4]%R) in
  is_real x /\
  canonicalize_axis (-1) (ndim x) = Ok 0 /\
  0 < dim x 0 /\ 2 < dim x 0 /\
  (exists y y',
     dct x 2 (Some 6%Z) (-1) None = Ok y /\
     dct (append_zeros x 0 2) 2 None (-1) None = Ok y' /\
     arr_eq y y' /\ dim y 0 = 6) /\
  (exists y y',
     dct x 2 (Some 2%Z) (-1) None = Ok y /\
     dct (take_prefix x 0 2) 2 None (-1) None = Ok y' /\
     arr_eq y y' /\ dim y 0 = 2).
Proof.
  intros x.
  assert (H1 : is_real x) by apply of_list_is_real.
  assert (H2 : canonicalize_axis (-1) (ndim x) = Ok 0) by reflexivity.
  assert (H3 : 0 < dim x 0) by (unfold dim, at_; simpl; lia).
  assert (H4 : 2 < dim x 0) by (unfold dim, at_; simpl; lia).
  split; [exact H1|]. split; [exact H2|]. split; [exact H3|].
  split; [exact H4|].
  destruct (@C8_dct_requested_length x (-1)%Z 0 None H1 H2 H3) as [P T].
  split; [exact P|exact (T H4)].
Defined.

(* ================================================================== *)
(** * The 2-D fast path against two 1-D passes (C2) *)
(* ================================================================== *)

Section Dct2Algebra.

Open Scope R_scope.

Lemma mirror_cases N i :
  (i < N)%nat -> mirror N i = if (i =? 0)%nat then 0%nat else (N - i)%nat.
Proof.
  intros H. unfold mirror.
  destruct (Nat.eqb_spec i 0) as [->|Hne].
  - rewrite Nat.sub_0_r. apply Nat.Div0.mod_same.
  - apply Nat.mod_small. lia.
Qed.

Lemma mirror_lt N i : (i < N)%nat -> (mirror N i < N)%nat.
Proof.
  intros H. rewrite mirror_cases by assumption.
  destruct (Nat.eqb_spec i 0); lia.
Qed.

Lemma roll_flip_position N i :
  (i < N)%nat ->
  (N - 1 - (i + (N - 1 mod N)) mod N)%nat = mirror N i.
Proof.
  intros H. rewrite mirror_cases by assumption.
  destruct (Nat.eq_dec N 1) as [->|HN1].
  - assert (i = 0%nat) by lia. subst. reflexivity.
  - rewrite (Nat.mod_small 1 N) by lia.
    destruct (Nat.eqb_spec i 0) as [->|Hne].
    + rewrite Nat.add_0_l, Nat.mod_small by lia. lia.
    + replace (i + (N - 1))%nat with (i - 1 + 1 * N)%nat by lia.
      rewrite Nat.Div0.mod_add, Nat.mod_small by lia. lia.
Qed.

Lemma dft_kernel_mirror N i n :
  (0 < N)%nat -> (i < N)%nat ->
  dft_kernel (-1) N (mirror N i) n
  = mkC (cos (2 * PI * INR i * INR n / INR N))
        (sin (2 * PI * INR i * INR n / INR N)).
Proof.
  intros HN Hi.
  assert (HN0 : INR N <> 0) by (apply INR_pos_neq0; assumption).
  rewrite dft_kernel_val, mirror_cases by assumption.
  destruct (Nat.eqb_spec i 0) as [->|Hne].
  - simpl. f_equal; f_equal; unfold Rdiv; ring.
  - rewrite minus_INR by lia.
    set (phi := 2 * PI * INR i * INR n / INR N).
    replace (-1 * (2 * PI * (INR N - INR i) * INR n / INR N))
      with (- (- phi + 2 * INR n * PI))
      by (unfold phi; field; assumption).
    rewrite cos_neg, sin_neg, cos_period, sin_period, cos_neg, sin_neg.
    f_equal. ring.
Qed.

Lemma twiddle_neg_val N i :
  (0 < N)%nat ->
  twiddle N (Copp (RtoC (INR i)))
  = mkC (cos (PI * INR i / (2 * INR N))) (sin (PI * INR i / (2 * INR N))).
Proof.
  intros HN.
  assert (HN0 : INR N <> 0) by (apply INR_pos_neq0; assumption).
  rewrite twiddle_val by (assumption || (simpl; ring)).
  cbn [re im Copp RtoC].
  replace (PI * - INR i / (2 * INR N)) with (- (PI * INR i / (2 * INR N)))
    by (field; assumption).
  rewrite cos_neg, sin_neg. f_equal. ring.
Qed.

(** The cross term of [_dct2]: the spectrum at [i2] and at its mirror
    position, each with its twiddle factor, add up to twice the cosine
    sum along the second axis. *)
Lemma dct2_combine N2 i2 (F : nat -> C) (W1 : C) :
  (0 < N2)%nat -> (i2 < N2)%nat ->
  re (Cmul W1
        (Cadd
           (Cmul (twiddle N2 (RtoC (INR i2)))
              (Csum N2 (fun n2 => Cmul (F n2) (dft_kernel (-1) N2 i2 n2))))
           (Cmul (twiddle N2 (Copp (RtoC (INR i2))))
              (Csum N2 (fun n2 =>
                 Cmul (F n2) (dft_kernel (-1) N2 (mirror N2 i2) n2))))))
  = 2 * Rsum N2 (fun n2 => re (Cmul (F n2) W1) * cos (dct_angle N2 i2 n2)).
Proof.
  intros HN Hi.
  assert (HN0 : INR N2 <> 0) by (apply INR_pos_neq0; assumption).
  rewrite twiddle_val by (assumption || reflexivity).
  rewrite twiddle_neg_val by assumption.
  set (beta := PI * INR i2 / (2 * INR N2)).
  cbn [re im Cmul Cadd RtoC].
  rewrite !re_Csum, !im_Csum.
  transitivity
    (Rsum N2 (fun n2 =>
       re W1 * (cos beta * re (Cmul (F n2) (dft_kernel (-1) N2 i2 n2))
                + sin beta * im (Cmul (F n2) (dft_kernel (-1) N2 i2 n2))
                + (cos beta
                   * re (Cmul (F n2) (dft_kernel (-1) N2 (mirror N2 i2) n2))
                   - sin beta
                     * im (Cmul (F n2)
                             (dft_kernel (-1) N2 (mirror N2 i2) n2))))
       - im W1 * (cos beta * im (Cmul (F n2) (dft_kernel (-1) N2 i2 n2))
                  - sin beta * re (Cmul (F n2) (dft_kernel (-1) N2 i2 n2))
                  + (cos beta
                     * im (Cmul (F n2)
                             (dft_kernel (-1) N2 (mirror N2 i2) n2))
                     + sin beta
                       * re (Cmul (F n2)
                               (dft_kernel (-1) N2 (mirror N2 i2) n2)))))).
  { unfold Rminus, beta.
    repeat (rewrite Rsum_plus || rewrite Rsum_scal || rewrite Rsum_opp).
    ring. }
  rewrite <- Rsum_scal.
  apply Rsum_ext. intros n2 Hn2.
  rewrite dft_kernel_mirror, dft_kernel_val by assumption.
  cbn [re im Cmul].
  set (phi := 2 * PI * INR i2 * INR n2 / INR N2).
  replace (-1 * phi) with (- phi) by ring.
  rewrite cos_neg, sin_neg.
  replace (dct_angle N2 i2 n2) with (phi + beta)
    by (unfold phi, beta, dct_angle; field; assumption).
  rewrite cos_plus. ring.
Qed.

End Dct2Algebra.

Lemma has_repeats_two (a b : Z) : a <> b -> has_repeats [a; b] = false.
Proof.
  intros H. simpl. apply Z.eqb_neq in H. now rewrite H.
Qed.

Lemma dct_kernel_is_real x a norm :
  a < ndim x -> 0 < dim x a -> is_real x -> is_real (dct_kernel x a norm).
Proof.
  intros Ha HN Hx idx Hv.
  rewrite dct_kernel_shape in Hv by assumption.
  rewrite dct_kernel_data by assumption. reflexivity.
Qed.

Section Dct2Kernel.

Open Scope R_scope.

Variables (x : Array C) (k1 k2 : nat).
Hypothesis Hk1 : (k1 < ndim x)%nat.
Hypothesis Hk2 : (k2 < ndim x)%nat.
Hypothesis Hne : k1 <> k2.
Hypothesis HN1 : (0 < dim x k1)%nat.
Hypothesis HN2 : (0 < dim x k2)%nat.
Hypothesis Hx : is_real x.

Let v : Array C := _dct_interleave (_dct_interleave x k1) k2.
Let V : Array C := jnp_fft_fft (jnp_fft_fft v k1) k2.

Lemma dct2_v_shape : shape v = shape x.
Proof. unfold v. now rewrite !interleave_shape. Qed.

Lemma dct2_V_shape : shape V = shape x.
Proof. unfold V. cbn [shape jnp_fft_fft]. exact dct2_v_shape. Qed.

Lemma dct2_v_data idx n1 n2 :
  length idx = ndim x ->
  data v (upd k1 n1 (upd k2 n2 idx))
  = data x (upd k1 (interleave_src (dim x k1) n1)
              (upd k2 (interleave_src (dim x k2) n2) idx)).
Proof.
  intros Hl. unfold v.
  rewrite interleave_data
    by (rewrite ?interleave_ndim, ?upd_length; lia).
  rewrite interleave_data by (rewrite ?upd_length; lia).
  rewrite (dim_shape_eq _ _ k2 (interleave_shape x k1)).
  rewrite (at_upd_other (a := k2) (b := k1)) by auto.
  rewrite at_upd_same by lia.
  rewrite at_upd_other by auto.
  rewrite at_upd_same by (rewrite upd_length; lia).
  rewrite (upd_upd_comm (a := k2) (b := k1)) by auto.
  rewrite upd_upd_same, upd_upd_same.
  reflexivity.
Qed.

Lemma dct2_v_real idx n1 n2 :
  valid_index (shape x) idx ->
  (n1 < dim x k1)%nat -> (n2 < dim x k2)%nat ->
  im (data v (upd k1 n1 (upd k2 n2 idx))) = 0.
Proof.
  intros Hv H1 H2.
  rewrite dct2_v_data by (apply valid_index_length; assumption).
  apply Hx.
  apply valid_index_upd_same_shape;
    [|apply interleave_src_lt; assumption].
  apply valid_index_upd_same_shape;
    [assumption|apply interleave_src_lt; assumption].
Qed.

Lemma dct2_V_data idx :
  length idx = ndim x ->
  data V idx
  = Csum (dim x k2) (fun n2 =>
      Cmul (Csum (dim x k1) (fun n1 =>
              Cmul (data v (upd k1 n1 (upd k2 n2 idx)))
                   (dft_kernel (-1) (dim x k1) (at_ k1 idx) n1)))
           (dft_kernel (-1) (dim x k2) (at_ k2 idx) n2)).
Proof.
  intros Hl. unfold V. cbn [data jnp_fft_fft].
  rewrite !(dim_shape_eq _ _ _ dct2_v_shape).
  change (dim (jnp_fft_fft v k1) k2) with (dim v k2).
  rewrite (dim_shape_eq _ _ _ dct2_v_shape).
  apply Csum_ext. intros n2 _. f_equal.
  apply Csum_ext. intros n1 _.
  now rewrite at_upd_other by auto.
Qed.

Let R : Array C := jnp_roll (jnp_flip V k2) 1 k2.

Lemma dct2_R_shape : shape R = shape x.
Proof. unfold R. cbn [shape jnp_roll jnp_flip]. exact dct2_V_shape. Qed.

Lemma dct2_R_data idx :
  valid_index (shape x) idx ->
  data R idx = data V (upd k2 (mirror (dim x k2) (at_ k2 idx)) idx).
Proof.
  intros Hv.
  pose proof (valid_index_at Hv Hk2) as Hi.
  pose proof (valid_index_length Hv) as Hl.
  unfold R. cbn [data jnp_roll jnp_flip].
  change (dim (jnp_flip V k2) k2) with (dim V k2).
  rewrite (dim_shape_eq _ _ k2 dct2_V_shape).
  rewrite at_upd_same by (unfold ndim in *; lia).
  rewrite upd_upd_same.
  now rewrite roll_flip_position by assumption.
Qed.

Let out2 (d : DType) : Array C :=
  py_mul KInt (RtoC 2)
    (jnp_real
       (jnp_multiply
          (_W4 (dim x k1)
             (lax_expand_dims (jnp_arange (dim x k1) d)
                (other_axes (ndim x) k1)))
          (jnp_add
             (jnp_multiply
                (_W4 (dim x k2)
                   (lax_expand_dims (jnp_arange (dim x k2) d)
                      (other_axes (ndim x) k2)))
                V)
             (jnp_multiply
                (_W4 (dim x k2)
                   (jnp_negative
                      (lax_expand_dims (jnp_arange (dim x k2) d)
                         (other_axes (ndim x) k2))))
                R)))).

Lemma vec_shape_for (X : Array C) N d k :
  shape X = shape x -> (k < ndim x)%nat -> N = dim x k ->
  shape (_W4 N (lax_expand_dims (jnp_arange N d) (other_axes (ndim x) k)))
  = upd k (dim X k) (repeat 1%nat (ndim X)).
Proof.
  intros HX Hk ->. rewrite W4_arange_shape by assumption.
  now rewrite (dim_shape_eq _ _ k HX), (ndim_shape_eq _ _ HX).
Qed.

Lemma negvec_shape_for (X : Array C) N d k :
  shape X = shape x -> (k < ndim x)%nat -> N = dim x k ->
  shape (_W4 N (jnp_negative
                  (lax_expand_dims (jnp_arange N d) (other_axes (ndim x) k))))
  = upd k (dim X k) (repeat 1%nat (ndim X)).
Proof.
  intros HX Hk ->. rewrite W4_neg_arange_shape by assumption.
  now rewrite (dim_shape_eq _ _ k HX), (ndim_shape_eq _ _ HX).
Qed.

Lemma dct2_sum_shapes d :
  let A := jnp_multiply
             (_W4 (dim x k2)
                (lax_expand_dims (jnp_arange (dim x k2) d)
                   (other_axes (ndim x) k2))) V in
  let B := jnp_multiply
             (_W4 (dim x k2)
                (jnp_negative
                   (lax_expand_dims (jnp_arange (dim x k2) d)
                      (other_axes (ndim x) k2)))) R in
  shape A = shape x /\ shape B = shape x /\
  shape (jnp_add A B) = shape x.
Proof.
  intros A B.
  assert (HA : shape A = shape x).
  { unfold A, jnp_multiply.
    rewrite binop_vec_l_shape with (a := k2); [exact dct2_V_shape|].
    apply vec_shape_for; auto using dct2_V_shape. }
  assert (HB : shape B = shape x).
  { unfold B, jnp_multiply.
    rewrite binop_vec_l_shape with (a := k2); [exact dct2_R_shape|].
    apply negvec_shape_for; auto using dct2_R_shape. }
  split; [exact HA|]. split; [exact HB|].
  unfold jnp_add. rewrite binop_same_shape; congruence.
Qed.

Lemma dct2_out2_shape d : shape (out2 d) = shape x.
Proof.
  destruct (dct2_sum_shapes d) as [HA [HB HS]].
  unfold out2, py_mul, jnp_real. rewrite !map_array_shape.
  unfold jnp_multiply at 1.
  rewrite binop_vec_l_shape with (a := k1); [exact HS|].
  apply vec_shape_for; auto.
Qed.

Lemma dct2_out2_data d idx :
  valid_index (shape x) idx ->
  data (out2 d) idx
  = RtoC (2 * (2 * dct2_sum (dim x k1) (dim x k2) (plane x k1 k2 idx)
                     (at_ k1 idx) (at_ k2 idx))).
Proof.
  intros Hv.
  pose proof (valid_index_at Hv Hk1) as Hi1.
  pose proof (valid_index_at Hv Hk2) as Hi2.
  pose proof (valid_index_length Hv) as Hl.
  destruct (dct2_sum_shapes d) as [HA [HB HS]].
  unfold out2, py_mul, jnp_real. rewrite !map_array_data.
  unfold jnp_multiply at 1.
  rewrite binop_vec_l_data with (a := k1);
    [|apply vec_shape_for; auto|rewrite HS; assumption].
  rewrite (ndim_shape_eq _ _ HS).
  rewrite W4_arange_data by assumption.
  unfold jnp_add.
  rewrite binop_same_data by (congruence || (rewrite HA; assumption)).
  unfold jnp_multiply.
  rewrite binop_vec_l_data with (a := k2);
    [|apply vec_shape_for; auto using dct2_V_shape
     |rewrite dct2_V_shape; assumption].
  rewrite binop_vec_l_data with (a := k2);
    [|apply negvec_shape_for; auto using dct2_R_shape
     |rewrite dct2_R_shape; assumption].
  rewrite (ndim_shape_eq _ _ dct2_V_shape), (ndim_shape_eq _ _ dct2_R_shape).
  rewrite W4_arange_data, W4_neg_arange_data by assumption.
  rewrite dct2_R_data by assumption.
  rewrite !dct2_V_data by (rewrite ?upd_length; assumption).
  rewrite at_upd_same by (unfold ndim in *; lia).
  rewrite at_upd_other by auto.
  rewrite Csum_ext
    with (f := fun n2 =>
            Cmul (Csum (dim x k1) (fun n1 =>
                    Cmul (data v (upd k1 n1
                                    (upd k2 n2
                                       (upd k2 (mirror (dim x k2) (at_ k2 idx))
                                          idx))))
                         (dft_kernel (-1) (dim x k1) (at_ k1 idx) n1)))
                 (dft_kernel (-1) (dim x k2) (mirror (dim x k2) (at_ k2 idx))
                    n2))
         (g := fun n2 =>
            Cmul (Csum (dim x k1) (fun n1 =>
                    Cmul (data v (upd k1 n1 (upd k2 n2 idx)))
                         (dft_kernel (-1) (dim x k1) (at_ k1 idx) n1)))
                 (dft_kernel (-1) (dim x k2) (mirror (dim x k2) (at_ k2 idx))
                    n2))
    by (intros n2 _; now rewrite upd_upd_same).
  rewrite Cmul_RtoC_l. unfold Creal, RtoC at 1. cbn [re im].
  rewrite (@dct2_combine (dim x k2) (at_ k2 idx)
             (fun n2 =>
                Csum (dim x k1) (fun n1 =>
                  Cmul (data v (upd k1 n1 (upd k2 n2 idx)))
                       (dft_kernel (-1) (dim x k1) (at_ k1 idx) n1))))
    by assumption.
  apply C_eq; cbn [re im RtoC]; [|ring].
  f_equal. f_equal. unfold dct2_sum.
  apply Rsum_ext. intros n2 Hn2. f_equal.
  rewrite fft_twiddle_real;
    [|assumption|intros n1 Hn1; apply dct2_v_real; assumption].
  apply Rsum_ext. intros n1 Hn1.
  rewrite dct2_v_data by assumption. reflexivity.
Qed.

Lemma norm_scale_neq0 norm N i : (0 < N)%nat -> norm_scale norm N i <> 0.
Proof.
  intros H. unfold norm_scale.
  destruct (is_ortho norm); [apply ortho_scale_neq0; assumption|lra].
Qed.

Lemma dct2_kernel_spec norm :
  shape (dct2_kernel x k1 k2 V norm) = shape x /\
  forall idx, valid_index (shape x) idx ->
    data (dct2_kernel x k1 k2 V norm) idx
    = RtoC (2 * (2 * dct2_sum (dim x k1) (dim x k2) (plane x k1 k2 idx)
                       (at_ k1 idx) (at_ k2 idx))
            / norm_scale norm (dim x k1) (at_ k1 idx)
            / norm_scale norm (dim x k2) (at_ k2 idx)).
Proof.
  unfold dct2_kernel. cbv zeta. fold R. fold (out2 (dtype V)).
  pose proof (dct2_out2_shape (dtype V)) as Hs.
  pose proof (dct2_out2_data (dtype V)) as Hd.
  unfold norm_scale. destruct (is_ortho norm).
  - assert (Ha1 : (k1 < ndim (out2 (dtype V)))%nat)
      by (rewrite (ndim_shape_eq _ _ Hs); assumption).
    assert (Hn1 : (0 < dim (out2 (dtype V)) k1)%nat)
      by (rewrite (dim_shape_eq _ _ k1 Hs); assumption).
    pose proof (@ortho_norm_shape _ k1 Ha1 Hn1) as Hs1.
    assert (Ha2 : (k2 < ndim (_dct_ortho_norm (out2 (dtype V)) k1))%nat)
      by (rewrite (ndim_shape_eq _ _ Hs1), (ndim_shape_eq _ _ Hs);
          assumption).
    assert (Hn2 : (0 < dim (_dct_ortho_norm (out2 (dtype V)) k1) k2)%nat)
      by (rewrite (dim_shape_eq _ _ k2 Hs1), (dim_shape_eq _ _ k2 Hs);
          assumption).
    split.
    + rewrite ortho_norm_shape by assumption. congruence.
    + intros idx Hv.
      rewrite ortho_norm_data
        by (assumption || (rewrite Hs1, Hs; assumption)).
      rewrite ortho_norm_data by (assumption || (rewrite Hs; assumption)).
      rewrite (dim_shape_eq _ _ k2 Hs1), (dim_shape_eq _ _ k2 Hs),
        (dim_shape_eq _ _ k1 Hs).
      rewrite Hd by assumption.
      apply C_eq; cbn [re im RtoC]; [reflexivity|].
      unfold Rdiv. ring.
  - split; [exact Hs|]. intros idx Hv.
    rewrite Hd by assumption. f_equal. field.
Qed.

Lemma ortho_norm_twice out a b :
  (a < ndim out)%nat -> (b < ndim out)%nat ->
  (0 < dim out a)%nat -> (0 < dim out b)%nat ->
  (o1 <- call (_dct_ortho_norm_error out a) (_dct_ortho_norm out a) ;;
   call (_dct_ortho_norm_error o1 b) (_dct_ortho_norm o1 b))
  = Ok (_dct_ortho_norm (_dct_ortho_norm out a) b).
Proof.
  intros Ha Hb HNa HNb.
  rewrite ortho_norm_error_spec.
  destruct (Nat.eqb_spec (dim out a) 0); [lia|]. cbn [call bind].
  rewrite ortho_norm_error_spec,
    (dim_shape_eq _ _ b (ortho_norm_shape out Ha HNa)).
  destruct (Nat.eqb_spec (dim out b) 0); [lia|reflexivity].
Qed.

Lemma dct2_kernel_shape norm :
  shape (dct2_kernel x k1 k2 V norm) = shape x.
Proof.
  unfold dct2_kernel. cbv zeta. fold R. fold (out2 (dtype V)).
  pose proof (dct2_out2_shape (dtype V)) as Hs.
  destruct (is_ortho norm); [|exact Hs].
  assert (Ha1 : (k1 < ndim (out2 (dtype V)))%nat)
    by (rewrite (ndim_shape_eq _ _ Hs); assumption).
  assert (Hn1 : (0 < dim (out2 (dtype V)) k1)%nat)
    by (rewrite (dim_shape_eq _ _ k1 Hs); assumption).
  pose proof (@ortho_norm_shape _ k1 Ha1 Hn1) as Hs1.
  assert (Ha2 : (k2 < ndim (_dct_ortho_norm (out2 (dtype V)) k1))%nat)
    by (rewrite (ndim_shape_eq _ _ Hs1), (ndim_shape_eq _ _ Hs);
        assumption).
  assert (Hn2 : (0 < dim (_dct_ortho_norm (out2 (dtype V)) k1) k2)%nat)
    by (rewrite (dim_shape_eq _ _ k2 Hs1), (dim_shape_eq _ _ k2 Hs);
        assumption).
  rewrite ortho_norm_shape by assumption. congruence.
Qed.

Lemma dct2_unfold norm :
  _dct2 x [Z.of_nat k1; Z.of_nat k2] norm
  = Ok (dct2_kernel x k1 k2 V norm).
Proof.
  unfold _dct2.
  rewrite !canonicalize_axis_nat by assumption. cbn [bind].
  rewrite interleave_error_spec.
  destruct (Nat.eqb_spec (dim x k1) 0); [lia|]. cbn [call bind].
  rewrite interleave_error_spec,
    (dim_shape_eq _ _ k2 (interleave_shape x k1)).
  destruct (Nat.eqb_spec (dim x k2) 0); [lia|]. cbn [call bind].
  unfold jnp_fft_fftn.
  rewrite (@has_repeats_two (Z.of_nat k1) (Z.of_nat k2)) by lia.
  cbn [canonicalize_axes].
  rewrite !interleave_ndim, !canonicalize_axis_nat by assumption.
  cbn [bind map].
  rewrite (@has_repeats_two (Z.of_nat k1) (Z.of_nat k2)) by lia.
  cbn [fold_left bind].
  unfold dct2_kernel. fold v. fold V.
  destruct (is_ortho norm); [|reflexivity].
  pose proof (dct2_out2_shape (dtype V)) as Hs.
  apply ortho_norm_twice.
  - change (k1 < ndim (out2 (dtype V)))%nat.
    now rewrite (ndim_shape_eq _ _ Hs).
  - change (k2 < ndim (out2 (dtype V)))%nat.
    now rewrite (ndim_shape_eq _ _ Hs).
  - change (0 < dim (out2 (dtype V)) k1)%nat.
    now rewrite (dim_shape_eq _ _ k1 Hs).
  - change (0 < dim (out2 (dtype V)) k2)%nat.
    now rewrite (dim_shape_eq _ _ k2 Hs).
Qed.

End Dct2Kernel.

Section SeparableSums.

Open Scope R_scope.

Lemma dct_lane_nested N1 N2 (w : nat -> nat -> R) i1 i2 c1 c2 :
  c1 <> 0 -> c2 <> 0 ->
  dct_lane N2 (fun n2 => dct_lane N1 (fun n1 => w n1 n2) i1 / c1) i2 / c2
  = 2 * (2 * dct2_sum N1 N2 w i1 i2) / c1 / c2.
Proof.
  intros H1 H2. unfold dct_lane, dct2_sum.
  rewrite Rsum_ext
    with (g := fun n2 =>
            (2 / c1) * (Rsum N1 (fun n1 => w n1 n2 * cos (dct_angle N1 i1 n1))
                        * cos (dct_angle N2 i2 n2)))
    by (intros; field; assumption).
  rewrite Rsum_scal. field. split; assumption.
Qed.

Lemma dct2_sum_swap N1 N2 (w : nat -> nat -> R) i1 i2 :
  dct2_sum N2 N1 (fun n2 n1 => w n1 n2) i2 i1 = dct2_sum N1 N2 w i1 i2.
Proof.
  unfold dct2_sum.
  rewrite Rsum_ext
    with (g := fun n1 =>
            Rsum N2 (fun n2 => w n1 n2 * cos (dct_angle N2 i2 n2)
                               * cos (dct_angle N1 i1 n1)))
    by (intros; rewrite Rmult_comm, <- Rsum_scal; apply Rsum_ext;
        intros; ring).
  rewrite Rsum_swap.
  apply Rsum_ext. intros n2 _.
  rewrite Rmult_comm, <- Rsum_scal. apply Rsum_ext. intros; ring.
Qed.

End SeparableSums.

Lemma plane_lane x k1 k2 idx n1 n2 :
  k1 <> k2 -> k1 < ndim x -> k2 < ndim x -> length idx = ndim x ->
  lane (_dct_interleave x k1) k1
    (upd k2 (interleave_src (dim x k2) n2) idx) n1
  = plane x k1 k2 idx n1 n2.
Proof.
  intros Hne H1 H2 Hl. unfold lane, plane.
  rewrite interleave_data by (rewrite ?upd_length; lia).
  rewrite at_upd_same by (rewrite upd_length; lia).
  now rewrite upd_upd_same.
Qed.

Lemma plane_swap x k1 k2 idx n1 n2 :
  k1 <> k2 -> plane x k2 k1 idx n2 n1 = plane x k1 k2 idx n1 n2.
Proof.
  intros Hne. unfold plane.
  now rewrite (upd_upd_comm (a := k2) (b := k1)) by auto.
Qed.

(** Two 1-D passes, first along [k1], then along [k2]. *)
Lemma dct_sequential_spec x k1 k2 norm :
  k1 < ndim x -> k2 < ndim x -> k1 <> k2 ->
  0 < dim x k1 -> 0 < dim x k2 -> is_real x ->
  shape (dct_kernel (dct_kernel x k1 norm) k2 norm) = shape x /\
  forall idx, valid_index (shape x) idx ->
    data (dct_kernel (dct_kernel x k1 norm) k2 norm) idx
    = RtoC (2 * (2 * dct2_sum (dim x k1) (dim x k2) (plane x k1 k2 idx)
                       (at_ k1 idx) (at_ k2 idx))
            / norm_scale norm (dim x k1) (at_ k1 idx)
            / norm_scale norm (dim x k2) (at_ k2 idx))%R.
Proof.
  intros H1 H2 Hne HN1 HN2 Hx.
  pose proof (@dct_kernel_shape x k1 H1 HN1 norm) as Hs.
  assert (H2' : k2 < ndim (dct_kernel x k1 norm))
    by (rewrite (ndim_shape_eq _ _ Hs); assumption).
  assert (HN2' : 0 < dim (dct_kernel x k1 norm) k2)
    by (rewrite (dim_shape_eq _ _ k2 Hs); assumption).
  pose proof (@dct_kernel_is_real x k1 norm H1 HN1 Hx) as Hy.
  split.
  - rewrite dct_kernel_shape by assumption. exact Hs.
  - intros idx Hv.
    pose proof (valid_index_at Hv H1) as Hi1.
    pose proof (valid_index_at Hv H2) as Hi2.
    pose proof (valid_index_length Hv) as Hl.
    rewrite dct_kernel_data by (assumption || (rewrite Hs; assumption)).
    rewrite (dim_shape_eq _ _ k2 Hs).
    fold (norm_scale norm (dim x k2) (at_ k2 idx)).
    rewrite dct_lane_ext
      with (v' := fun n2 =>
              (dct_lane (dim x k1) (fun n1 => plane x k1 k2 idx n1 n2)
                 (at_ k1 idx)
               / norm_scale norm (dim x k1) (at_ k1 idx))%R).
    + rewrite dct_lane_nested
        by (apply norm_scale_neq0; assumption).
      reflexivity.
    + intros n2 Hn2. unfold lane at 1.
      rewrite interleave_data
        by (rewrite ?upd_length; unfold ndim in *; lia).
      rewrite at_upd_same by (unfold ndim in *; lia).
      rewrite upd_upd_same, (dim_shape_eq _ _ k2 Hs).
      rewrite dct_kernel_data;
        [|assumption|assumption|assumption|].
      * rewrite at_upd_other by auto. cbn [re RtoC].
        fold (norm_scale norm (dim x k1) (at_ k1 idx)).
        f_equal. apply dct_lane_ext. intros n1 Hn1.
        apply plane_lane; assumption.
      * apply valid_index_upd_same_shape; [assumption|].
        apply interleave_src_lt; assumption.
Qed.

Lemma dct2_sum_ext N1 N2 w w' i1 i2 :
  (forall n1 n2, n1 < N1 -> n2 < N2 -> w n1 n2 = w' n1 n2) ->
  dct2_sum N1 N2 w i1 i2 = dct2_sum N1 N2 w' i1 i2.
Proof.
  intros H. unfold dct2_sum.
  apply Rsum_ext. intros n2 Hn2. f_equal.
  apply Rsum_ext. intros n1 Hn1. now rewrite H.
Qed.

Lemma dct2_dtype x k1 k2 norm :
  dtype (dct2_kernel x k1 k2
           (jnp_fft_fft
              (jnp_fft_fft (_dct_interleave (_dct_interleave x k1) k2) k1) k2)
           norm)
  = dtype (dct_kernel (dct_kernel x k1 norm) k2 norm).
Proof.
  unfold dct2_kernel, dct_kernel. cbv zeta.
  destruct (is_ortho norm); cbn; destruct (dtype x); reflexivity.
Qed.

Lemma dct_order_dtype x k1 k2 norm :
  dtype (dct_kernel (dct_kernel x k1 norm) k2 norm)
  = dtype (dct_kernel (dct_kernel x k2 norm) k1 norm).
Proof.
  unfold dct_kernel. cbv zeta.
  destruct (is_ortho norm); cbn; destruct (dtype x); reflexivity.
Qed.

(** The fast path and the two orders of 1-D passes, on any two distinct
    axes of positive length. *)
Lemma dct2_equals_sequential x k1 k2 norm :
  k1 < ndim x -> k2 < ndim x -> k1 <> k2 ->
  0 < dim x k1 -> 0 < dim x k2 -> is_real x ->
  exists y,
    _dct2 x [Z.of_nat k1; Z.of_nat k2] norm = Ok y /\
    arr_eq y (dct_kernel (dct_kernel x k1 norm) k2 norm) /\
    arr_eq y (dct_kernel (dct_kernel x k2 norm) k1 norm).
Proof.
  intros H1 H2 Hne HN1 HN2 Hx.
  destruct (@dct2_kernel_spec x k1 k2 H1 H2 Hne HN1 HN2 Hx norm)
    as [Hs Hd].
  destruct (@dct_sequential_spec x k1 k2 norm H1 H2 Hne HN1 HN2 Hx)
    as [Hs12 Hd12].
  destruct (@dct_sequential_spec x k2 k1 norm H2 H1 (not_eq_sym Hne)
              HN2 HN1 Hx) as [Hs21 Hd21].
  eexists. split; [apply dct2_unfold; assumption|].
  split; (split; [|split]).
  - apply dct2_dtype.
  - congruence.
  - rewrite Hs. intros idx Hv. now rewrite Hd, Hd12.
  - rewrite dct2_dtype. apply dct_order_dtype.
  - congruence.
  - rewrite Hs. intros idx Hv. rewrite Hd, Hd21 by assumption.
    f_equal.
    rewrite <- (dct2_sum_swap (dim x k1) (dim x k2) (plane x k1 k2 idx)).
    rewrite (@dct2_sum_ext (dim x k2) (dim x k1) (plane x k2 k1 idx)
               (fun n2 n1 => plane x k1 k2 idx n1 n2))
      by (intros; apply plane_swap; assumption).
    field. split; apply norm_scale_neq0; assumption.
Qed.

(** C2: on a real 2-D array with positive lengths, [dctn] over the axes
    [(0, 1)] goes through [_dct2] and returns what [dct] along axis 0
    followed by [dct] along axis 1 returns, and what [dct] along axis 1
    followed by [dct] along axis 0 returns: same dtype, shape and values,
    for every [norm].  Values are exact reals, so the tolerance is zero. *)
Theorem C2_dctn_2d_equals_sequential_dct :
  forall (x : Array C) (norm : option string) (N1 N2 : nat),
    shape x = [N1; N2] -> 0 < N1 -> 0 < N2 -> is_real x ->
    exists y t0 y01 t1 y10,
      dctn x 2 None (Some [0; 1]%Z) norm = Ok y /\
      _dct2 x [0; 1]%Z norm = Ok y /\
      dct x 2 None 0 norm = Ok t0 /\ dct t0 2 None 1 norm = Ok y01 /\
      dct x 2 None 1 norm = Ok t1 /\ dct t1 2 None 0 norm = Ok y10 /\
      arr_eq y y01 /\ arr_eq y y10.
Proof.
  intros x norm N1 N2 Hsh HN1 HN2 Hx.
  assert (H0 : 0 < ndim x) by (unfold ndim; rewrite Hsh; simpl; lia).
  assert (H1 : 1 < ndim x) by (unfold ndim; rewrite Hsh; simpl; lia).
  assert (Hd0 : 0 < dim x 0) by (unfold dim; rewrite Hsh; exact HN1).
  assert (Hd1 : 0 < dim x 1) by (unfold dim; rewrite Hsh; exact HN2).
  destruct (@dct2_equals_sequential x 0 1 norm H0 H1 ltac:(lia) Hd0 Hd1 Hx)
    as [y [Hy [E01 E10]]].
  pose proof (@dct_kernel_shape x 0 H0 Hd0 norm) as Hs0.
  pose proof (@dct_kernel_shape x 1 H1 Hd1 norm) as Hs1.
  exists y, (dct_kernel x 0 norm),
    (dct_kernel (dct_kernel x 0 norm) 1 norm),
    (dct_kernel x 1 norm),
    (dct_kernel (dct_kernel x 1 norm) 0 norm).
  change [0%Z; 1%Z] with [Z.of_nat 0; Z.of_nat 1].
  repeat split; try apply E01; try apply E10.
  - exact Hy.
  - exact Hy.
  - apply (@dct_no_pad x 0 norm H0 Hd0).
  - apply (@dct_no_pad (dct_kernel x 0 norm) 1 norm).
    + rewrite (ndim_shape_eq _ _ Hs0). exact H1.
    + rewrite (dim_shape_eq _ _ 1 Hs0). exact Hd1.
  - apply (@dct_no_pad x 1 norm H1 Hd1).
  - apply (@dct_no_pad (dct_kernel x 1 norm) 0 norm).
    + rewrite (ndim_shape_eq _ _ Hs1). exact H0.
    + rewrite (dim_shape_eq _ _ 0 Hs1). exact Hd0.
Qed.

Lemma of_rows_is_real d r c (l : list (list R)) :
  is_real (of_rows d C0 r c (map (map RtoC) l)).
Proof.
  intros idx Hv. unfold of_rows; cbn [data].
  set (i := at_ 0 idx). set (j := at_ 1 idx).
  destruct (Nat.lt_ge_cases i (length (map (map RtoC) l))) as [Hi|Hi].
  - rewrite (nth_indep _ [] (map RtoC [])) by assumption.
    rewrite map_nth.
    destruct (Nat.lt_ge_cases j (length (map RtoC (nth i l []))))
      as [Hj|Hj].
    + rewrite (nth_indep _ C0 (RtoC 0)) by assumption.
      now rewrite map_nth.
    + now rewrite nth_overflow by assumption.
  - rewrite (nth_overflow _ _ Hi). now destruct j.
Qed.

Lemma C2_witness :
  let x := of_rows Float32 C0 2 3
             (map (map RtoC) [[1; 2; 3]; [4; 5; 6]]%R) in
  shape x = [2; 3] /\ 0 < 2 /\ 0 < 3 /\ is_real x /\
  exists y t0 y01 t1 y10,
    dctn x 2 None (Some [0; 1]%Z) (Some "ortho"%string) = Ok y /\
    _dct2 x [0; 1]%Z (Some "ortho"%string) = Ok y /\
    dct x 2 None 0 (Some "ortho"%string) = Ok t0 /\
    dct t0 2 None 1 (Some "ortho"%string) = Ok y01 /\
    dct x 2 None 1 (Some "ortho"%string) = Ok t1 /\
    dct t1 2 None 0 (Some "ortho"%string) = Ok y10 /\
    arr_eq y y01 /\ arr_eq y y10.
Proof.
  intros x.
  assert (Hs : shape x = [2; 3]) by reflexivity.
  assert (H2 : 0 < 2) by lia.
  assert (H3 : 0 < 3) by lia.
  assert (Hx : is_real x) by apply of_rows_is_real.
  split; [exact Hs|]. split; [exact H2|]. split; [exact H3|].
  split; [exact Hx|].
  exact (@C2_dctn_2d_equals_sequential_dct x (Some "ortho"%string) 2 3
           Hs H2 H3 Hx).
Defined.

(* ================================================================== *)
(** * Ranks, axes and requested lengths in [dctn] and [idctn] (C6, C7) *)
(* ================================================================== *)

Lemma bcast_shape_length s1 s2 :
  length (bcast_shape s1 s2) = Nat.max (length s1) (length s2).
Proof.
  unfold bcast_shape.
  set (r := Nat.max (length s1) (length s2)).
  assert (G : forall (f : nat -> nat -> nat) l m,
             length l = length m -> length (map2 f l m) = length l).
  { clear. intros f l; induction l as [|a l IH]; intros [|b m] H;
      simpl in *; try reflexivity; try discriminate.
    f_equal. apply IH. lia. }
  rewrite G; rewrite !length_app, !repeat_length; subst r; lia.
Qed.

Lemma binop_ndim f d (x y : Array C) :
  ndim y = ndim x -> ndim (binop f d x y) = ndim x.
Proof.
  intros H. unfold ndim in *; cbn [shape binop].
  rewrite bcast_shape_length. lia.
Qed.

Lemma binop_ndim_l f d (x y : Array C) :
  ndim y = ndim x -> ndim (binop f d y x) = ndim x.
Proof.
  intros H. unfold ndim in *; cbn [shape binop].
  rewrite bcast_shape_length. lia.
Qed.

Lemma expand_axis_ndim {A : Type} (k : Array A) r a :
  ndim k = 1 -> a < r -> ndim (lax_expand_dims k (other_axes r a)) = r.
Proof.
  intros Hk Ha. unfold ndim at 1.
  rewrite expand_dims_axis_shape by assumption.
  now rewrite upd_length, repeat_length.
Qed.

Lemma W4_ndim N k : ndim (_W4 N k) = ndim k.
Proof. unfold ndim. now rewrite W4_shape. Qed.

Lemma ortho_norm_ndim out a :
  a < ndim out -> ndim (_dct_ortho_norm out a) = ndim out.
Proof.
  intros Ha. unfold _dct_ortho_norm, jnp_divide.
  apply binop_ndim. unfold lax_sqrt, py_mul.
  change (ndim (map_array ?f ?d (map_array ?g ?e ?y))) with (ndim y).
  apply expand_axis_ndim; [reflexivity|assumption].
Qed.

Lemma dct_kernel_ndim x a norm :
  a < ndim x -> ndim (dct_kernel x a norm) = ndim x.
Proof.
  intros Ha. unfold dct_kernel. cbv zeta.
  set (out := py_mul _ _ _).
  assert (Ho : ndim out = ndim x).
  { unfold out, py_mul, jnp_real.
    change (ndim (map_array ?f ?d (map_array ?g ?e ?y))) with (ndim y).
    unfold jnp_multiply. rewrite binop_ndim.
    - change (ndim (jnp_fft_fft ?w a)) with (ndim w).
      apply interleave_ndim.
    - change (ndim (jnp_fft_fft ?w a)) with (ndim w).
      rewrite interleave_ndim, W4_ndim.
      apply expand_axis_ndim; [reflexivity|assumption]. }
  destruct (is_ortho norm); [|exact Ho].
  rewrite ortho_norm_ndim; [exact Ho|lia].
Qed.

Lemma idct_kernel_ndim x a norm :
  a < ndim x -> ndim (idct_kernel x a norm) = ndim x.
Proof.
  intros Ha. unfold idct_kernel. cbv zeta.
  set (x2 := idct_denormalize _ _ _).
  assert (H2 : ndim x2 = ndim x).
  { unfold x2, idct_denormalize.
    destruct norm.
    - rewrite ortho_norm_ndim; [reflexivity|exact Ha].
    - rewrite !ortho_norm_ndim; try reflexivity; try exact Ha.
      rewrite ortho_norm_ndim; exact Ha. }
  unfold ndim at 1. rewrite deinterleave_shape.
  unfold jnp_real. rewrite map_array_shape.
  cbn [shape jnp_fft_ifft]. unfold py_mul. rewrite !map_array_shape.
  fold (ndim (jnp_divide (astype x2 (dtype (_W4 (dim x a)
         (lax_expand_dims (jnp_arange (dim x a) Float32)
            (other_axes (ndim x2) a)))))
       (_W4 (dim x a)
          (lax_expand_dims (jnp_arange (dim x a) Float32)
             (other_axes (ndim x2) a))))).
  unfold jnp_divide. rewrite binop_ndim.
  - exact H2.
  - change (ndim (astype ?w ?d)) with (ndim w).
    rewrite W4_ndim, H2.
    apply expand_axis_ndim; [reflexivity|assumption].
Qed.

Lemma pad_axis_to_ndim x a n y :
  pad_axis_to x a n = Ok y -> ndim y = ndim x.
Proof. unfold pad_axis_to. apply lax_pad_ndim. Qed.

Lemma pad_axes_to_ndim x axes s y :
  pad_axes_to x axes s = Ok y -> ndim y = ndim x.
Proof. unfold pad_axes_to. apply lax_pad_ndim. Qed.

Lemma dct_eq x t n axis norm :
  dct x t n axis norm
  = if negb (t =? 2)%Z then Raise NotImplementedError
    else a <- canonicalize_axis axis (ndim x) ;;
         x' <- match n with
               | Some n => pad_axis_to x a n
               | None => Ok x
               end ;;
         nonempty_axis x' a (dct_kernel x' a norm).
Proof.
  unfold dct at 1. destruct (negb (t =? 2)%Z); [reflexivity|].
  destruct (canonicalize_axis axis (ndim x)) as [a|e] eqn:Hc;
    [|reflexivity].
  apply canonicalize_axis_ok in Hc. cbn [bind].
  assert (T : forall x', a < ndim x' ->
            dct x' 2 None (Z.of_nat a) norm
            = nonempty_axis x' a (dct_kernel x' a norm))
    by (intros; now apply dct_no_pad_any).
  unfold dct in T. cbn [Z.eqb Pos.eqb negb] in T.
  destruct n as [n|]; cbn [bind].
  - destruct (pad_axis_to x a n) as [x'|e] eqn:Hp; [|reflexivity].
    cbn [bind]. apply pad_axis_to_ndim in Hp.
    rewrite <- T by lia. now rewrite canonicalize_axis_nat by lia.
  - rewrite <- T by assumption. now rewrite canonicalize_axis_nat.
Qed.

Lemma idct_eq x t n axis norm :
  idct x t n axis norm
  = if negb (t =? 2)%Z then Raise NotImplementedError
    else a <- canonicalize_axis axis (ndim x) ;;
         x' <- match n with
               | Some n => pad_axis_to x a n
               | None => Ok x
               end ;;
         nonempty_axis x' a (idct_kernel x' a norm).
Proof.
  unfold idct at 1. destruct (negb (t =? 2)%Z); [reflexivity|].
  destruct (canonicalize_axis axis (ndim x)) as [a|e] eqn:Hc;
    [|reflexivity].
  apply canonicalize_axis_ok in Hc. cbn [bind].
  assert (T : forall x', a < ndim x' ->
            idct x' 2 None (Z.of_nat a) norm
            = nonempty_axis x' a (idct_kernel x' a norm))
    by (intros; now apply idct_no_pad_any).
  unfold idct in T. cbn [Z.eqb Pos.eqb negb] in T.
  destruct n as [n|]; cbn [bind].
  - destruct (pad_axis_to x a n) as [x'|e] eqn:Hp; [|reflexivity].
    cbn [bind]. apply pad_axis_to_ndim in Hp.
    rewrite <- T by lia. now rewrite canonicalize_axis_nat by lia.
  - rewrite <- T by assumption. now rewrite canonicalize_axis_nat.
Qed.

Lemma nonempty_axis_inv x a y z :
  nonempty_axis x a y = Ok z -> z = y /\ 0 < dim x a.
Proof.
  unfold nonempty_axis. destruct (Nat.eqb_spec (dim x a) 0); [discriminate|].
  intros E; inversion E. split; [reflexivity|lia].
Qed.

Lemma dct_ndim x t n axis norm y :
  dct x t n axis norm = Ok y -> ndim y = ndim x.
Proof.
  rewrite dct_eq. destruct (negb (t =? 2)%Z); [discriminate|].
  destruct (canonicalize_axis axis (ndim x)) as [a|] eqn:Hc;
    [|discriminate].
  apply canonicalize_axis_ok in Hc. cbn [bind].
  destruct n as [n|]; cbn [bind].
  - destruct (pad_axis_to x a n) as [x'|] eqn:Hp; [|discriminate].
    cbn [bind]. intros E. apply nonempty_axis_inv in E.
    destruct E as [-> _].
    apply pad_axis_to_ndim in Hp.
    rewrite dct_kernel_ndim; lia.
  - intros E. apply nonempty_axis_inv in E. destruct E as [-> _].
    now apply dct_kernel_ndim.
Qed.

Lemma idct_ndim x t n axis norm y :
  idct x t n axis norm = Ok y -> ndim y = ndim x.
Proof.
  rewrite idct_eq. destruct (negb (t =? 2)%Z); [discriminate|].
  destruct (canonicalize_axis axis (ndim x)) as [a|] eqn:Hc;
    [|discriminate].
  apply canonicalize_axis_ok in Hc. cbn [bind].
  destruct n as [n|]; cbn [bind].
  - destruct (pad_axis_to x a n) as [x'|] eqn:Hp; [|discriminate].
    cbn [bind]. intros E. apply nonempty_axis_inv in E.
    destruct E as [-> _].
    apply pad_axis_to_ndim in Hp.
    rewrite idct_kernel_ndim; lia.
  - intros E. apply nonempty_axis_inv in E. destruct E as [-> _].
    now apply idct_kernel_ndim.
Qed.

Lemma dct_bad_axis x t n axis norm :
  canonicalize_axis axis (ndim x) = Raise ValueError ->
  is_ok (dct x t n axis norm) = false.
Proof.
  intros H. unfold dct. destruct (negb (t =? 2)%Z); [reflexivity|].
  now rewrite H.
Qed.

Lemma idct_bad_axis x t n axis norm :
  canonicalize_axis axis (ndim x) = Raise ValueError ->
  is_ok (idct x t n axis norm) = false.
Proof.
  intros H. unfold idct. destruct (negb (t =? 2)%Z); [reflexivity|].
  now rewrite H.
Qed.

Lemma fft_fold_ndim ks :
  forall v, ndim (fold_left jnp_fft_fft ks v) = ndim v.
Proof.
  induction ks as [|k ks IH]; intros v; [reflexivity|].
  cbn [fold_left]. now rewrite IH.
Qed.

Lemma fftn_ndim axes :
  forall v V, jnp_fft_fftn v axes = Ok V -> ndim V = ndim v.
Proof.
  unfold jnp_fft_fftn. intros v V H.
  destruct (has_repeats axes); [discriminate|].
  destruct (canonicalize_axes axes (ndim v)) as [ks|]; [|discriminate].
  cbn [bind] in H.
  destruct (has_repeats (map Z.of_nat ks)); [discriminate|].
  inversion H; subst. apply fft_fold_ndim.
Qed.

Lemma dct2_kernel_ndim x k1 k2 V norm :
  k1 < ndim x -> k2 < ndim x -> ndim V = ndim x ->
  ndim (dct2_kernel x k1 k2 V norm) = ndim x.
Proof.
  intros H1 H2 HV. unfold dct2_kernel. cbv zeta.
  set (out := py_mul _ _ _).
  assert (Ho : ndim out = ndim x).
  { unfold out, py_mul, jnp_real.
    change (ndim (map_array ?f ?d (map_array ?g ?e ?y))) with (ndim y).
    unfold jnp_multiply at 1. unfold jnp_add.
    assert (HA : ndim (jnp_multiply
                         (_W4 (dim x k2)
                            (lax_expand_dims (jnp_arange (dim x k2) (dtype V))
                               (other_axes (ndim x) k2))) V) = ndim x).
    { unfold jnp_multiply. rewrite binop_ndim_l; [exact HV|].
      rewrite W4_ndim, HV.
      apply expand_axis_ndim; [reflexivity|assumption]. }
    assert (HB : ndim (jnp_multiply
                         (_W4 (dim x k2)
                            (jnp_negative
                               (lax_expand_dims
                                  (jnp_arange (dim x k2) (dtype V))
                                  (other_axes (ndim x) k2))))
                         (jnp_roll (jnp_flip V k2) 1 k2)) = ndim x).
    { unfold jnp_multiply. rewrite binop_ndim_l; [exact HV|].
      rewrite W4_ndim.
      change (ndim (jnp_negative ?w)) with (ndim w).
      change (ndim (jnp_roll (jnp_flip V k2) 1 k2)) with (ndim V).
      rewrite HV.
      apply expand_axis_ndim; [reflexivity|assumption]. }
    rewrite binop_ndim_l.
    - rewrite binop_ndim; congruence.
    - rewrite binop_ndim by congruence.
      rewrite W4_ndim, HA.
      apply expand_axis_ndim; [reflexivity|assumption]. }
  destruct (is_ortho norm); [|exact Ho].
  rewrite !ortho_norm_ndim; try lia.
  rewrite ortho_norm_ndim; lia.
Qed.

Lemma dct2_inv x a1 a2 norm y :
  _dct2 x [a1; a2] norm = Ok y ->
  exists k1 k2 V,
    canonicalize_axis a1 (ndim x) = Ok k1 /\
    canonicalize_axis a2 (ndim x) = Ok k2 /\
    jnp_fft_fftn (_dct_interleave (_dct_interleave x k1) k2) [a1; a2]
    = Ok V /\
    y = dct2_kernel x k1 k2 V norm.
Proof.
  unfold _dct2.
  destruct (canonicalize_axis a1 (ndim x)) as [k1|]; [|discriminate].
  destruct (canonicalize_axis a2 (ndim x)) as [k2|]; [|discriminate].
  cbn [bind].
  destruct (_dct_interleave_error x k1); [discriminate|]. cbn [call bind].
  destruct (_dct_interleave_error _ k2); [discriminate|]. cbn [call bind].
  destruct (jnp_fft_fftn _ _) as [V|] eqn:HV; [|discriminate]. cbn [bind].
  unfold dct2_kernel.
  destruct (is_ortho norm).
  - destruct (_dct_ortho_norm_error _ k1); [discriminate|]. cbn [call bind].
    destruct (_dct_ortho_norm_error _ k2); [discriminate|]. cbn [call].
    intros E; injection E as <-. exists k1, k2, V.
    split; [reflexivity|]. split; [reflexivity|].
    split; [exact HV|reflexivity].
  - intros E; injection E as <-. exists k1, k2, V.
    split; [reflexivity|]. split; [reflexivity|].
    split; [exact HV|reflexivity].
Qed.

Lemma dct2_ndim x axes norm y :
  _dct2 x axes norm = Ok y -> ndim y = ndim x.
Proof.
  destruct axes as [|a1 [|a2 [|a3 rest]]]; try discriminate.
  intros E. apply dct2_inv in E.
  destruct E as (k1 & k2 & V & H1 & H2 & HV & ->).
  apply fftn_ndim in HV. rewrite !interleave_ndim in HV.
  apply canonicalize_axis_ok in H1. apply canonicalize_axis_ok in H2.
  now apply dct2_kernel_ndim.
Qed.

Lemma dct2_bad_axis x a1 a2 norm :
  canonicalize_axis a1 (ndim x) = Raise ValueError \/
  canonicalize_axis a2 (ndim x) = Raise ValueError ->
  is_ok (_dct2 x [a1; a2] norm) = false.
Proof.
  intros H. destruct (_dct2 x [a1; a2] norm) as [y|e] eqn:E; [|reflexivity].
  apply dct2_inv in E. destruct E as (k1 & k2 & V & H1 & H2 & _).
  destruct H as [H|H]; congruence.
Qed.

Lemma dct2_raw_axes x a1 a2 k1 k2 norm :
  canonicalize_axis a1 (ndim x) = Ok k1 ->
  canonicalize_axis a2 (ndim x) = Ok k2 ->
  k1 <> k2 ->
  _dct2 x [a1; a2] norm = _dct2 x [Z.of_nat k1; Z.of_nat k2] norm.
Proof.
  intros H1 H2 Hne.
  pose proof (canonicalize_axis_ok _ _ H1) as Hk1.
  pose proof (canonicalize_axis_ok _ _ H2) as Hk2.
  assert (Hraw : a1 <> a2) by (intros ->; congruence).
  unfold _dct2.
  rewrite H1, H2, !canonicalize_axis_nat by assumption. cbn [bind].
  destruct (_dct_interleave_error x k1); [reflexivity|]. cbn [call bind].
  destruct (_dct_interleave_error _ k2); [reflexivity|]. cbn [call bind].
  assert (HF : jnp_fft_fftn (_dct_interleave (_dct_interleave x k1) k2)
                 [a1; a2]
               = jnp_fft_fftn (_dct_interleave (_dct_interleave x k1) k2)
                   [Z.of_nat k1; Z.of_nat k2]).
  { unfold jnp_fft_fftn.
    rewrite (@has_repeats_two a1 a2 Hraw).
    rewrite (@has_repeats_two (Z.of_nat k1) (Z.of_nat k2)) by lia.
    cbn [canonicalize_axes].
    rewrite !interleave_ndim, H1, H2, !canonicalize_axis_nat by assumption.
    reflexivity. }
  rewrite HF. reflexivity.
Qed.

Lemma dct2_unfold_gen x a1 a2 k1 k2 norm :
  canonicalize_axis a1 (ndim x) = Ok k1 ->
  canonicalize_axis a2 (ndim x) = Ok k2 ->
  k1 <> k2 -> 0 < dim x k1 -> 0 < dim x k2 ->
  _dct2 x [a1; a2] norm
  = Ok (dct2_kernel x k1 k2
          (jnp_fft_fft
             (jnp_fft_fft (_dct_interleave (_dct_interleave x k1) k2) k1) k2)
          norm).
Proof.
  intros H1 H2 Hne HN1 HN2.
  pose proof (canonicalize_axis_ok _ _ H1) as Hk1.
  pose proof (canonicalize_axis_ok _ _ H2) as Hk2.
  rewrite (@dct2_raw_axes x a1 a2 k1 k2 norm H1 H2 Hne).
  apply dct2_unfold; assumption.
Qed.

(** ** The shapes of [dctn] and [idctn] *)

Lemma axes_blocks_nil : axes_blocks [] = [].
Proof. reflexivity. Qed.

Lemma axes_blocks_one a : axes_blocks [a] = [[a]].
Proof. reflexivity. Qed.

Lemma axes_blocks_cons2 a b rest :
  axes_blocks (a :: b :: rest) = [a; b] :: axes_blocks rest.
Proof.
  unfold axes_blocks.
  replace (range_len 0 (length (a :: b :: rest)) 2)
    with (S (range_len 0 (length rest) 2))
    by (unfold range_len; cbn [length]; lia).
  cbn [seq map]. f_equal.
  rewrite <- seq_shift, map_map.
  apply map_ext. intros j.
  replace (2 * S j) with (S (S (2 * j))) by lia. reflexivity.
Qed.

Lemma loop_raise {A B : Type} (f : result A -> B -> result A) l e :
  (forall b e', f (Raise e') b = Raise e') ->
  fold_left f l (Raise e) = Raise e.
Proof.
  intros H. induction l as [|b l IH]; simpl; [reflexivity|].
  now rewrite H.
Qed.

Lemma dctn_eq x t s axes norm :
  dctn x t s axes norm
  = if negb (t =? 2)%Z then Raise NotImplementedError
    else
      let axes := match axes with
                  | None => map Z.of_nat (seq 0 (ndim x))
                  | Some axes => axes
                  end in
      if length axes =? 1
      then n <- first_length s ;; dct x 2 n (nth 0 axes 0%Z) norm
      else
        x <- match s with
             | Some s => pad_axes_to x axes s
             | None => Ok x
             end ;;
        if length axes =? 2 then _dct2 x axes norm
        else
          fold_left
            (fun acc axes_block =>
               x <- acc ;; dctn_fuel 1 x 2 None (Some axes_block) norm)
            (axes_blocks axes) (Ok x).
Proof. reflexivity. Qed.

Lemma axes_blocks_lengths :
  forall n axes, length axes <= n ->
    Forall (fun blk => length blk = 1 \/ length blk = 2) (axes_blocks axes).
Proof.
  induction n as [|n IH]; intros axes Hlen.
  - destruct axes; [constructor|simpl in Hlen; lia].
  - destruct axes as [|a [|b rest]].
    + constructor.
    + rewrite axes_blocks_one. repeat constructor.
    + rewrite axes_blocks_cons2. constructor; [now right|].
      apply IH. simpl in Hlen. lia.
Qed.

Lemma dctn_fuel_block fuel x blk norm :
  length blk = 1 \/ length blk = 2 ->
  dctn_fuel (S fuel) x 2 None (Some blk) norm
  = dctn_fuel 1 x 2 None (Some blk) norm.
Proof.
  intros [H|H]; destruct blk as [|a [|b [|c blk]]]; try discriminate;
    reflexivity.
Qed.

Lemma fold_left_agree {A B : Type} (f g : A -> B -> A) l :
  Forall (fun b => forall a, f a b = g a b) l ->
  forall a, fold_left f l a = fold_left g l a.
Proof.
  intros H; induction H as [|b l Hb _ IH]; intros a; simpl;
    [reflexivity|].
  now rewrite Hb, IH.
Qed.

(** Two levels of recursion are all [dctn] ever uses: more fuel gives
    the same result, and the out-of-fuel error is never returned. *)
Lemma dctn_fuel_enough fuel x t s axes norm :
  dctn_fuel (S (S fuel)) x t s axes norm = dctn x t s axes norm.
Proof.
  rewrite dctn_eq.
  change (dctn_fuel (S (S fuel)) x t s axes norm)
    with (if negb (t =? 2)%Z then Raise NotImplementedError
          else
            let axes := match axes with
                        | None => map Z.of_nat (seq 0 (ndim x))
                        | Some axes => axes
                        end in
            if length axes =? 1
            then n <- first_length s ;; dct x 2 n (nth 0 axes 0%Z) norm
            else
              x <- match s with
                   | Some s => pad_axes_to x axes s
                   | None => Ok x
                   end ;;
              if length axes =? 2 then _dct2 x axes norm
              else
                fold_left
                  (fun acc axes_block =>
                     x <- acc ;;
                     dctn_fuel (S fuel) x 2 None (Some axes_block) norm)
                  (axes_blocks axes) (Ok x)).
  destruct (negb (t =? 2)%Z); [reflexivity|]. cbv zeta.
  set (ax := match axes with
             | None => map Z.of_nat (seq 0 (ndim x))
             | Some axes => axes
             end).
  destruct (length ax =? 1); [reflexivity|].
  destruct (match s with Some s0 => pad_axes_to x ax s0 | None => Ok x end)
    as [x'|]; [|reflexivity].
  cbn [bind]. destruct (length ax =? 2); [reflexivity|].
  apply fold_left_agree.
  eapply Forall_impl; [|apply (axes_blocks_lengths (n := length ax)); lia].
  intros blk Hblk [y|e]; [|reflexivity].
  cbn [bind]. now apply dctn_fuel_block.
Qed.

Lemma dctn_block_loop_bad norm r :
  forall n axes x,
    length axes <= n ->
    Exists (fun a => canonicalize_axis a r = Raise ValueError) axes ->
    ndim x = r ->
    is_ok
      (fold_left
         (fun acc axes_block =>
            x <- acc ;; dctn_fuel 1 x 2 None (Some axes_block) norm)
         (axes_blocks axes) (Ok x)) = false.
Proof.
  induction n as [|n IH]; intros axes x Hlen Hbad Hr.
  - destruct axes; [inversion Hbad|simpl in Hlen; lia].
  - destruct axes as [|a [|b rest]].
    + inversion Hbad.
    + rewrite axes_blocks_one. cbn [fold_left bind].
      inversion Hbad as [? ? Ha|? ? Ha]; subst; [|inversion Ha].
      change (dctn_fuel 1 x 2 None (Some [a]) norm)
        with (dct x 2 None a norm).
      now apply dct_bad_axis.
    + rewrite axes_blocks_cons2. cbn [fold_left bind].
      change (dctn_fuel 1 x 2 None (Some [a; b]) norm)
        with (_dct2 x [a; b] norm).
      destruct (_dct2 x [a; b] norm) as [y|e] eqn:E.
      * pose proof (dct2_ndim _ _ _ E) as Hy.
        apply IH; [simpl in Hlen; lia| |congruence].
        inversion Hbad as [? ? Ha|? ? Hb]; subst.
        -- pose proof (@dct2_bad_axis x a b norm (or_introl Ha)) as F.
           rewrite E in F. discriminate.
        -- inversion Hb as [? ? Hb'|? ? Hrest]; subst; [|exact Hrest].
           pose proof (@dct2_bad_axis x a b norm (or_intror Hb')) as F.
           rewrite E in F. discriminate.
      * rewrite loop_raise; [reflexivity|]. intros; reflexivity.
Qed.

Lemma dctn_bad_axis x t s axes norm :
  Exists (axis_out_of_range (ndim x)) axes ->
  is_ok (dctn x t s (Some axes) norm) = false.
Proof.
  intros Hbad.
  assert (Hbad' : Exists (fun a => canonicalize_axis a (ndim x)
                                   = Raise ValueError) axes).
  { eapply Exists_impl; [|exact Hbad].
    intros a Ha. now apply canonicalize_axis_bad. }
  rewrite dctn_eq.
  destruct (negb (t =? 2)%Z); [reflexivity|]. cbv zeta.
  destruct axes as [|a [|b rest]].
  - inversion Hbad.
  - cbn [length Nat.eqb nth].
    destruct (first_length s) as [n|]; [|reflexivity]. cbn [bind].
    inversion Hbad' as [? ? Ha|? ? Ha]; subst; [|inversion Ha].
    now apply dct_bad_axis.
  - destruct (match s with
              | Some s0 => pad_axes_to x (a :: b :: rest) s0
              | None => Ok x
              end) as [x'|] eqn:Hp; [|destruct rest; reflexivity].
    assert (Hr : ndim x' = ndim x).
    { destruct s; [now apply pad_axes_to_ndim in Hp|now inversion Hp]. }
    cbn [bind].
    destruct rest as [|c rest].
    + cbn [length Nat.eqb].
      apply dct2_bad_axis. rewrite Hr.
      inversion Hbad' as [? ? Ha|? ? Hb]; subst; [now left|].
      inversion Hb as [? ? Hb'|? ? Hc]; subst; [now right|inversion Hc].
    + cbn [length Nat.eqb].
      apply dctn_block_loop_bad
        with (r := ndim x) (n := length (a :: b :: c :: rest));
        [lia|exact Hbad'|exact Hr].
Qed.

Lemma idct_loop_bad norm r :
  forall axes x,
    Exists (fun a => canonicalize_axis a r = Raise ValueError) axes ->
    ndim x = r ->
    is_ok
      (fold_left (fun acc axis => x <- acc ;; idct x 2 None axis norm)
         axes (Ok x)) = false.
Proof.
  induction axes as [|a axes IH]; intros x Hbad Hr; [inversion Hbad|].
  cbn [fold_left bind].
  destruct (idct x 2 None a norm) as [y|e] eqn:E.
  - apply IH; [|apply idct_ndim in E; congruence].
    inversion Hbad as [? ? Ha|? ? Hrest]; subst; [|exact Hrest].
    pose proof (@idct_bad_axis x 2 None a norm Ha) as F.
    rewrite E in F. discriminate.
  - rewrite loop_raise; [reflexivity|]. intros; reflexivity.
Qed.

Lemma idctn_bad_axis x t s axes norm :
  Exists (axis_out_of_range (ndim x)) axes ->
  is_ok (idctn x t s (Some axes) norm) = false.
Proof.
  intros Hbad.
  assert (Hbad' : Exists (fun a => canonicalize_axis a (ndim x)
                                   = Raise ValueError) axes).
  { eapply Exists_impl; [|exact Hbad].
    intros a Ha. now apply canonicalize_axis_bad. }
  unfold idctn.
  destruct (negb (t =? 2)%Z); [reflexivity|].
  destruct (length axes =? 1) eqn:Hlen.
  - destruct axes as [|a [|b rest]]; try discriminate.
    destruct (first_length s) as [n|]; [|reflexivity]. cbn [bind nth].
    inversion Hbad' as [? ? Ha|? ? Ha]; subst; [|inversion Ha].
    now apply idct_bad_axis.
  - destruct (match s with
              | Some s0 => pad_axes_to x axes s0
              | None => Ok x
              end) as [x'|] eqn:Hp; [|reflexivity].
    assert (Hr : ndim x' = ndim x).
    { destruct s; [now apply pad_axes_to_ndim in Hp|now inversion Hp]. }
    cbn [bind]. apply idct_loop_bad with (r := ndim x); assumption.
Qed.

(** ** Two axes of a 2-D array *)

Lemma pad_2d x N1 N2 (h0 h1 : Z) :
  shape x = [N1; N2] ->
  (0 <= h0 + Z.of_nat N1)%Z -> (0 <= h1 + Z.of_nat N2)%Z ->
  exists y,
    lax_pad x C0 [(0, h0, 0); (0, h1, 0)]%Z = Ok y /\
    dtype y = dtype x /\
    shape y = [Z.to_nat (h0 + Z.of_nat N1); Z.to_nat (h1 + Z.of_nat N2)] /\
    (is_real x -> is_real y).
Proof.
  intros Hsh H0 H1.
  destruct (@lax_pad_high C x C0 [h0; h1]) as [y [Hy [Hd [Hs Hv]]]].
  - unfold ndim. now rewrite Hsh.
  - rewrite Hsh. repeat constructor; assumption.
  - exists y. split; [exact Hy|]. split; [exact Hd|].
    rewrite Hsh in Hs. split; [exact Hs|].
    intros Hx. apply (@padded_is_real x y Hx); [|exact Hv].
    now rewrite Hs, Hsh.
Qed.

Lemma pad_axes_to_2d x N1 N2 axes s :
  shape x = [N1; N2] ->
  pad_axes_to x axes s
  = lax_pad x C0 [(0, pad_amount (combine axes s) 0 N1, 0);
                  (0, pad_amount (combine axes s) 1 N2, 0)]%Z.
Proof.
  intros Hsh. unfold pad_axes_to, pad_amount, ndim, dim.
  rewrite Hsh. reflexivity.
Qed.

Lemma dct2_ok x a1 a2 k1 k2 norm :
  canonicalize_axis a1 (ndim x) = Ok k1 ->
  canonicalize_axis a2 (ndim x) = Ok k2 ->
  k1 <> k2 -> 0 < dim x k1 -> 0 < dim x k2 -> is_real x ->
  exists y, _dct2 x [a1; a2] norm = Ok y /\ shape y = shape x.
Proof.
  intros H1 H2 Hne HN1 HN2 Hx.
  pose proof (canonicalize_axis_ok _ _ H1) as Hk1.
  pose proof (canonicalize_axis_ok _ _ H2) as Hk2.
  destruct (@dct2_kernel_spec x k1 k2 Hk1 Hk2 Hne HN1 HN2 Hx norm)
    as [Hs _].
  eexists. split; [apply dct2_unfold_gen; eassumption|exact Hs].
Qed.

Lemma dctn_2d x N1 N2 s a1 a2 k1 k2 norm :
  shape x = [N1; N2] -> is_real x ->
  canonicalize_axis a1 2 = Ok k1 -> canonicalize_axis a2 2 = Ok k2 ->
  k1 <> k2 ->
  (0 < pad_amount (combine [a1; a2] s) 0 N1 + Z.of_nat N1)%Z ->
  (0 < pad_amount (combine [a1; a2] s) 1 N2 + Z.of_nat N2)%Z ->
  exists y,
    dctn x 2 (Some s) (Some [a1; a2]) norm = Ok y /\
    shape y
    = [Z.to_nat (pad_amount (combine [a1; a2] s) 0 N1 + Z.of_nat N1);
       Z.to_nat (pad_amount (combine [a1; a2] s) 1 N2 + Z.of_nat N2)].
Proof.
  intros Hsh Hx H1 H2 Hne Hp0 Hp1.
  rewrite dctn_eq. cbn [Z.eqb Pos.eqb negb length Nat.eqb]. cbv zeta.
  rewrite (@pad_axes_to_2d x N1 N2 _ _ Hsh).
  destruct (@pad_2d x N1 N2 _ _ Hsh (Z.lt_le_incl _ _ Hp0)
              (Z.lt_le_incl _ _ Hp1)) as [y [Hy [_ [Hs Hr]]]].
  rewrite Hy. cbn [bind].
  assert (Hnd : ndim y = 2) by (unfold ndim; now rewrite Hs).
  pose proof (canonicalize_axis_ok _ _ H1) as Hk1.
  pose proof (canonicalize_axis_ok _ _ H2) as Hk2.
  destruct (@dct2_ok y a1 a2 k1 k2 norm) as [z [Hz Hsz]];
    try (rewrite Hnd; assumption); try assumption; try (apply Hr; exact Hx).
  - unfold dim. rewrite Hs.
    destruct k1 as [|[|k1]]; unfold at_; cbn [nth]; lia.
  - unfold dim. rewrite Hs.
    destruct k2 as [|[|k2]]; unfold at_; cbn [nth]; lia.
  - exists z. split; [exact Hz|congruence].
Qed.

Lemma idctn_2d x N1 N2 s a1 a2 k1 k2 norm :
  shape x = [N1; N2] ->
  canonicalize_axis a1 2 = Ok k1 -> canonicalize_axis a2 2 = Ok k2 ->
  (0 < pad_amount (combine [a1; a2] s) 0 N1 + Z.of_nat N1)%Z ->
  (0 < pad_amount (combine [a1; a2] s) 1 N2 + Z.of_nat N2)%Z ->
  exists y,
    idctn x 2 (Some s) (Some [a1; a2]) norm = Ok y /\
    shape y
    = [Z.to_nat (pad_amount (combine [a1; a2] s) 0 N1 + Z.of_nat N1);
       Z.to_nat (pad_amount (combine [a1; a2] s) 1 N2 + Z.of_nat N2)].
Proof.
  intros Hsh H1 H2 Hp0 Hp1.
  unfold idctn. cbn [Z.eqb Pos.eqb negb length Nat.eqb].
  rewrite (@pad_axes_to_2d x N1 N2 _ _ Hsh).
  destruct (@pad_2d x N1 N2 _ _ Hsh (Z.lt_le_incl _ _ Hp0)
              (Z.lt_le_incl _ _ Hp1)) as [y [Hy [_ [Hs _]]]].
  rewrite Hy. cbn [bind].
  pose proof (canonicalize_axis_ok _ _ H1) as Hk1.
  pose proof (canonicalize_axis_ok _ _ H2) as Hk2.
  destruct (@idct_loop_ok norm [a1; a2] y) as [z [Hz Hsz]].
  - rewrite Hs. repeat constructor.
    + exists k1. split; [exact H1|].
      destruct k1 as [|[|k1]]; unfold at_; cbn [nth]; lia.
    + exists k2. split; [exact H2|].
      destruct k2 as [|[|k2]]; unfold at_; cbn [nth]; lia.
  - exists z. split; [exact Hz|congruence].
Qed.

Lemma to_nat_restore (m : Z) (N : nat) :
  Z.to_nat (m - Z.of_nat N + Z.of_nat N) = Z.to_nat m.
Proof. f_equal. lia. Qed.

Lemma to_nat_unpadded (N : nat) : Z.to_nat (0 + Z.of_nat N) = N.
Proof. lia. Qed.

Lemma negative_axis_canonical r (a : Z) :
  (- Z.of_nat r <= a < 0)%Z ->
  canonicalize_axis a r = Ok (Z.to_nat (Z.of_nat r + a)) /\
  canonicalize_axis (Z.of_nat r + a) r = Ok (Z.to_nat (Z.of_nat r + a)).
Proof.
  intros H. split; [now apply canonicalize_axis_neg|].
  rewrite <- (Z2Nat.id (Z.of_nat r + a)) at 1 by lia.
  apply canonicalize_axis_nat. lia.
Qed.

Lemma dct_negative_axis x n (a : Z) norm :
  (- Z.of_nat (ndim x) <= a < 0)%Z ->
  dct x 2 n a norm = dct x 2 n (Z.of_nat (ndim x) + a) norm /\
  idct x 2 n a norm = idct x 2 n (Z.of_nat (ndim x) + a) norm.
Proof.
  intros H. destruct (negative_axis_canonical _ H) as [E1 E2]. split.
  - rewrite (@dct_canonical x n a _ norm E1).
    now rewrite (@dct_canonical x n (Z.of_nat (ndim x) + a) _ norm E2).
  - rewrite (@idct_canonical x n a _ norm E1).
    now rewrite (@idct_canonical x n (Z.of_nat (ndim x) + a) _ norm E2).
Qed.

(** C6, evaluated on the code: [dct] and [idct] canonicalize a negative
    axis before they pad, so a negative axis gives the result of
    [rank + axis]; but on a real 2-D array with lengths [N1, N2] and
    requested lengths [s = (m1, m2)], [dctn] and [idctn] with the
    negative axes [(-1, -2)] return the unpadded shape [N1, N2], while
    with the canonical axes [(1, 0)] they return the requested shape
    [m2, m1]: the negative axes are looked up in [dict(zip(axes, s))]
    before they are canonicalized, and are not found. *)
Theorem C6_negative_axes_are_not_padded :
  forall (x : Array C) (N1 N2 : nat) (m1 m2 : Z) (norm : option string),
    shape x = [N1; N2] -> 0 < N1 -> 0 < N2 -> is_real x ->
    (0 < m1)%Z -> (0 < m2)%Z ->
    (forall n a, (- 2 <= a < 0)%Z ->
       dct x 2 n a norm = dct x 2 n (2 + a) norm /\
       idct x 2 n a norm = idct x 2 n (2 + a) norm) /\
    (exists y, dctn x 2 (Some [m1; m2]) (Some [-1; -2]%Z) norm = Ok y /\
               shape y = [N1; N2]) /\
    (exists y, dctn x 2 (Some [m1; m2]) (Some [1; 0]%Z) norm = Ok y /\
               shape y = [Z.to_nat m2; Z.to_nat m1]) /\
    (exists y, idctn x 2 (Some [m1; m2]) (Some [-1; -2]%Z) norm = Ok y /\
               shape y = [N1; N2]) /\
    (exists y, idctn x 2 (Some [m1; m2]) (Some [1; 0]%Z) norm = Ok y /\
               shape y = [Z.to_nat m2; Z.to_nat m1]).
Proof.
  intros x N1 N2 m1 m2 norm Hsh HN1 HN2 Hx Hm1 Hm2.
  assert (P0 : pad_amount (combine [-1; -2]%Z [m1; m2]) 0 N1 = 0%Z)
    by reflexivity.
  assert (P1 : pad_amount (combine [-1; -2]%Z [m1; m2]) 1 N2 = 0%Z)
    by reflexivity.
  assert (Q0 : pad_amount (combine [1; 0]%Z [m1; m2]) 0 N1
               = (m2 - Z.of_nat N1)%Z) by reflexivity.
  assert (Q1 : pad_amount (combine [1; 0]%Z [m1; m2]) 1 N2
               = (m1 - Z.of_nat N2)%Z) by reflexivity.
  split.
  { intros n a Ha.
    assert (Hr : ndim x = 2) by (unfold ndim; now rewrite Hsh).
    pose proof (@dct_negative_axis x n a norm) as G.
    rewrite Hr in G. apply G. simpl. lia. }
  repeat split.
  - destruct (@dctn_2d x N1 N2 [m1; m2] (-1) (-2) 1 0 norm Hsh Hx
                eq_refl eq_refl) as [y [Hy Hs]];
      [lia|rewrite P0; lia|rewrite P1; lia|].
    exists y. split; [exact Hy|].
    now rewrite Hs, P0, P1, !to_nat_unpadded.
  - destruct (@dctn_2d x N1 N2 [m1; m2] 1 0 1 0 norm Hsh Hx
                eq_refl eq_refl) as [y [Hy Hs]];
      [lia|rewrite Q0; lia|rewrite Q1; lia|].
    exists y. split; [exact Hy|].
    now rewrite Hs, Q0, Q1, !to_nat_restore.
  - destruct (@idctn_2d x N1 N2 [m1; m2] (-1) (-2) 1 0 norm Hsh
                eq_refl eq_refl) as [y [Hy Hs]];
      [rewrite P0; lia|rewrite P1; lia|].
    exists y. split; [exact Hy|].
    now rewrite Hs, P0, P1, !to_nat_unpadded.
  - destruct (@idctn_2d x N1 N2 [m1; m2] 1 0 1 0 norm Hsh
                eq_refl eq_refl) as [y [Hy Hs]];
      [rewrite Q0; lia|rewrite Q1; lia|].
    exists y. split; [exact Hy|].
    now rewrite Hs, Q0, Q1, !to_nat_restore.
Qed.

Lemma C6_witness :
  let x := of_rows Float32 C0 2 2 (map (map RtoC) [[1; 2]; [3; 4]]%R) in
  shape x = [2; 2] /\ is_real x /\
  (exists y, dctn x 2 (Some [4; 4]%Z) (Some [-1; -2]%Z) None = Ok y /\
             shape y = [2; 2]) /\
  (exists y, dctn x 2 (Some [4; 4]%Z) (Some [1; 0]%Z) None = Ok y /\
             shape y = [4; 4]).
Proof.
  intros x.
  assert (Hs : shape x = [2; 2]) by reflexivity.
  assert (Hx : is_real x) by apply of_rows_is_real.
  split; [exact Hs|]. split; [exact Hx|].
  destruct (@C6_negative_axes_are_not_padded x 2 2 4%Z 4%Z None Hs
              ltac:(lia) ltac:(lia) Hx ltac:(lia) ltac:(lia))
    as [_ [A [B _]]].
  split; [exact A|exact B].
Defined.

(** C7 as stated fails: [s] has one entry, [axes] has two, and [dctn]
    and [idctn] both return a result. *)
Lemma C7_counterexample :
  let x := of_rows Float32 C0 2 2 (map (map RtoC) [[1; 2]; [3; 4]]%R) in
  length [3%Z] <> length [0%Z; 1%Z] /\
  is_ok (dctn x 2 (Some [3%Z]) (Some [0; 1]%Z) None) = true /\
  is_ok (idctn x 2 (Some [3%Z]) (Some [0; 1]%Z) None) = true.
Proof.
  intros x.
  assert (Hs : shape x = [2; 2]) by reflexivity.
  assert (Hx : is_real x) by apply of_rows_is_real.
  split; [simpl; lia|]. split.
  - destruct (@dctn_2d x 2 2 [3%Z] 0 1 0 1 None Hs Hx eq_refl eq_refl)
      as [y [Hy _]]; [lia|reflexivity|reflexivity|].
    now rewrite Hy.
  - destruct (@idctn_2d x 2 2 [3%Z] 0 1 0 1 None Hs eq_refl eq_refl)
      as [y [Hy _]]; [reflexivity|reflexivity|].
    now rewrite Hy.
Qed.

(* ================================================================== *)
(** * The transforms in closed form *)
(* ================================================================== *)

Section Reindexing.

Open Scope R_scope.

(** A sum is unchanged when its terms are visited through a permutation
    of the positions. *)
Lemma Rsum_perm N (s t : nat -> nat) (F : nat -> R) :
  (forall i, (i < N)%nat -> (s i < N)%nat) ->
  (forall i, (i < N)%nat -> (t i < N)%nat) ->
  (forall i, (i < N)%nat -> s (t i) = i) ->
  (forall i, (i < N)%nat -> t (s i) = i) ->
  Rsum N (fun n => F (s n)) = Rsum N F.
Proof.
  intros Hs Ht Hst Hts.
  transitivity
    (Rsum N (fun n =>
       Rsum N (fun m => F m * (if (m =? s n)%nat then 1 else 0)))).
  - apply Rsum_ext. intros n Hn. symmetry. apply Rsum_delta. now apply Hs.
  - rewrite Rsum_swap. apply Rsum_ext. intros m Hm.
    transitivity
      (Rsum N (fun n =>
         (fun _ : nat => F m) n * (if (n =? t m)%nat then 1 else 0))).
    + apply Rsum_ext. intros n Hn. f_equal.
      destruct (Nat.eqb_spec m (s n)) as [E|E],
               (Nat.eqb_spec n (t m)) as [E'|E']; try reflexivity.
      * exfalso. apply E'. subst m. now rewrite Hts.
      * exfalso. apply E. subst n. now rewrite Hst.
    + apply (Rsum_delta (fun _ : nat => F m)). now apply Ht.
Qed.

Lemma Rsum_interleave N (F : nat -> R) :
  Rsum N (fun n => F (interleave_src N n)) = Rsum N F.
Proof.
  apply (@Rsum_perm N (interleave_src N) (deinterleave_src N) F).
  - apply interleave_src_lt.
  - apply deinterleave_src_lt.
  - apply interleave_deinterleave_src.
  - apply deinterleave_interleave_src.
Qed.

(** The cosine [dct] pairs with position [n] of the interleaved sequence
    is the DCT-II cosine of the position that element came from. *)
Lemma cos_dct_angle_interleave N k n :
  (0 < N)%nat -> (n < N)%nat ->
  cos (dct_angle N k n) = cos (dctII_angle N k (interleave_src N n)).
Proof.
  intros HN Hn.
  assert (HN' : INR N <> 0) by now apply INR_pos_neq0.
  unfold interleave_src, dct_angle, dctII_angle.
  destruct (Nat.ltb_spec n (ceil_half N)) as [Hlt|Hge].
  - f_equal. rewrite mult_INR. simpl INR. field. assumption.
  - replace (INR (2 * (N - 1 - n) + 1)) with (2 * INR N - 2 * INR n - 1).
    + replace (PI * INR k * (2 * (2 * INR N - 2 * INR n - 1) + 1)
               / (2 * INR N))
        with (- (PI * INR k * (4 * INR n + 1) / (2 * INR N))
              + 2 * INR k * PI) by (field; assumption).
      now rewrite cos_period, cos_neg.
    + rewrite plus_INR, mult_INR, !minus_INR by lia. simpl INR. ring.
Qed.

Lemma cos_dct_angle_deinterleave N k n :
  (0 < N)%nat -> (n < N)%nat ->
  cos (dct_angle N k (deinterleave_src N n)) = cos (dctII_angle N k n).
Proof.
  intros HN Hn.
  rewrite cos_dct_angle_interleave
    by (assumption || now apply deinterleave_src_lt).
  now rewrite interleave_deinterleave_src.
Qed.

Lemma dct_lane_textbook N (v : nat -> R) k :
  (0 < N)%nat ->
  dct_lane N (fun n => v (interleave_src N n)) k = dctII N v k.
Proof.
  intros HN. unfold dct_lane, dctII. f_equal.
  rewrite <- (Rsum_interleave N (fun m => v m * cos (dctII_angle N k m))).
  apply Rsum_ext. intros n Hn. now rewrite cos_dct_angle_interleave.
Qed.

Lemma idct_lane_textbook N (Y : nat -> R) n :
  (0 < N)%nat -> (n < N)%nat ->
  idct_lane N Y (deinterleave_src N n)
  = Rsum N (fun k => 2 * Y k * cos (dctII_angle N k n)).
Proof.
  intros HN Hn.
  assert (HN' : INR N <> 0) by now apply INR_pos_neq0.
  unfold idct_lane. rewrite <- Rsum_scal. apply Rsum_ext. intros k Hk.
  rewrite cos_dct_angle_deinterleave by assumption. field. assumption.
Qed.

End Reindexing.

Section ClosedForms.

Open Scope R_scope.

Lemma lane_interleave x a idx n :
  (a < ndim x)%nat -> (a < length idx)%nat ->
  lane (_dct_interleave x a) a idx n
  = lane x a idx (interleave_src (dim x a) n).
Proof.
  intros Ha Hl. unfold lane.
  rewrite interleave_data by (rewrite ?upd_length; assumption).
  now rewrite at_upd_same, upd_upd_same by assumption.
Qed.

Lemma dctII_ext N v v' k :
  (forall n, (n < N)%nat -> v n = v' n) -> dctII N v k = dctII N v' k.
Proof.
  intros H. unfold dctII. f_equal. apply Rsum_ext. intros n Hn.
  now rewrite H.
Qed.

Lemma dct_kernel_textbook x a norm idx :
  (a < ndim x)%nat -> (0 < dim x a)%nat -> is_real x ->
  valid_index (shape x) idx ->
  data (dct_kernel x a norm) idx
  = RtoC (dctII (dim x a) (lane x a idx) (at_ a idx)
          / norm_scale norm (dim x a) (at_ a idx)).
Proof.
  intros Ha HN Hx Hv.
  rewrite (dct_kernel_data Ha HN norm Hx Hv). unfold norm_scale.
  do 2 f_equal.
  rewrite <- dct_lane_textbook by assumption.
  apply dct_lane_ext. intros n Hn. apply lane_interleave; [assumption|].
  rewrite (valid_index_length Hv). exact Ha.
Qed.

Lemma idct_weight_denorm N norm k r :
  (0 < N)%nat ->
  2 * denorm_value N norm k r = idct_weight N norm k * r.
Proof.
  intros HN.
  assert (HN' : INR N <> 0) by now apply INR_pos_neq0.
  pose proof (ortho_scale_neq0 k HN) as Hs.
  unfold denorm_value, idct_weight. destruct norm as [s|].
  - field. assumption.
  - replace (r / ortho_scale N k / ortho_scale N k)
      with (r / (ortho_scale N k * ortho_scale N k)) by (field; assumption).
    rewrite ortho_scale_sqr by assumption.
    destruct (k =? 0)%nat; field; assumption.
Qed.

Lemma idct_kernel_textbook x a norm idx :
  (a < ndim x)%nat -> (0 < dim x a)%nat -> valid_index (shape x) idx ->
  data (idct_kernel x a norm) idx
  = RtoC (dctIII (dim x a) (idct_weight (dim x a) norm) (lane x a idx)
            (at_ a idx)).
Proof.
  intros Ha HN Hv.
  rewrite (idct_kernel_data x norm Ha HN Hv). f_equal.
  rewrite idct_lane_textbook
    by (assumption || (apply valid_index_at; assumption)).
  unfold dctIII. apply Rsum_ext. intros k Hk.
  rewrite idct_weight_denorm by assumption. reflexivity.
Qed.

End ClosedForms.

(** X1: along a valid axis of positive length [N] of a real array, [dct]
    with [n] unset returns the DCT-II of scipy's definition,
    [y[k] = 2 sum_m x[m] cos(pi k (2 m + 1) / (2 N))], divided for
    [norm = 'ortho'] by [sqrt(4 N)] at [k = 0] and by [sqrt(2 N)]
    elsewhere; the shape is unchanged. *)
Theorem X1_dct_is_dctII :
  forall (x : Array C) (axis : Z) (a : nat) (norm : option string),
    is_real x ->
    canonicalize_axis axis (ndim x) = Ok a ->
    0 < dim x a ->
    exists y,
      dct x 2 None axis norm = Ok y /\
      shape y = shape x /\
      forall idx, valid_index (shape x) idx ->
        data y idx
        = RtoC (dctII (dim x a) (lane x a idx) (at_ a idx)
                / norm_scale norm (dim x a) (at_ a idx))%R.
Proof.
  intros x axis a norm Hx Hc HN.
  pose proof (canonicalize_axis_ok _ _ Hc) as Ha.
  exists (dct_kernel x a norm). split; [|split].
  - rewrite (dct_canonical x None axis norm Hc). now apply dct_no_pad.
  - now apply dct_kernel_shape.
  - intros idx Hv. now apply dct_kernel_textbook.
Qed.

Lemma X1_witness :
  let x := of_list Float32 C0 (map RtoC [1; 2; 3]%R) in
  is_real x /\
  canonicalize_axis (-1) (ndim x) = Ok 0 /\
  0 < dim x 0 /\
  exists y,
    dct x 2 None (-1) (Some "ortho"%string) = Ok y /\
    shape y = shape x /\
    forall idx, valid_index (shape x) idx ->
      data y idx
      = RtoC (dctII (dim x 0) (lane x 0 idx) (at_ 0 idx)
              / norm_scale (Some "ortho"%string) (dim x 0) (at_ 0 idx))%R.
Proof.
  intros x.
  assert (H1 : is_real x) by apply of_list_is_real.
  assert (H2 : canonicalize_axis (-1) (ndim x) = Ok 0) by reflexivity.
  assert (H3 : 0 < dim x 0) by (unfold dim, at_; simpl; lia).
  split; [exact H1|]. split; [exact H2|]. split; [exact H3|].
  exact (@X1_dct_is_dctII x (-1)%Z 0 (Some "ortho"%string) H1 H2 H3).
Defined.

(** X2: along a valid axis of positive length [N], [idct] with [n] unset
    returns the weighted DCT-III of the real parts,
    [x[m] = sum_k w[k] X[k] cos(pi k (2 m + 1) / (2 N))], with
    [w[0] = 1 / (2 N)] and [w[k] = 1 / N] when [norm] is unset, and
    [w[0] = 2 / sqrt(4 N)] and [w[k] = 2 / sqrt(2 N)] when a [norm] is
    given; the shape is unchanged. *)
Theorem X2_idct_is_dctIII :
  forall (x : Array C) (axis : Z) (a : nat) (norm : option string),
    canonicalize_axis axis (ndim x) = Ok a ->
    0 < dim x a ->
    exists y,
      idct x 2 None axis norm = Ok y /\
      shape y = shape x /\
      forall idx, valid_index (shape x) idx ->
        data y idx
        = RtoC (dctIII (dim x a) (idct_weight (dim x a) norm) (lane x a idx)
                  (at_ a idx)).
Proof.
  intros x axis a norm Hc HN.
  pose proof (canonicalize_axis_ok _ _ Hc) as Ha.
  exists (idct_kernel x a norm). split; [|split].
  - rewrite (idct_canonical x None axis norm Hc). now apply idct_no_pad.
  - now apply idct_kernel_shape.
  - intros idx Hv. now apply idct_kernel_textbook.
Qed.

Lemma X2_witness :
  let x := of_list Float32 C0 (map RtoC [1; 2; 3]%R) in
  canonicalize_axis (-1) (ndim x) = Ok 0 /\
  0 < dim x 0 /\
  exists y,
    idct x 2 None (-1) None = Ok y /\
    shape y = shape x /\
    forall idx, valid_index (shape x) idx ->
      data y idx
      = RtoC (dctIII (dim x 0) (idct_weight (dim x 0) None) (lane x 0 idx)
                (at_ 0 idx)).
Proof.
  intros x.
  assert (H2 : canonicalize_axis (-1) (ndim x) = Ok 0) by reflexivity.
  assert (H3 : 0 < dim x 0) by (unfold dim, at_; simpl; lia).
  split; [exact H2|]. split; [exact H3|].
  exact (@X2_idct_is_dctIII x (-1)%Z 0 None H2 H3).
Defined.

(* ================================================================== *)
(** * Orthogonality over the positions, and [dct] after [idct] *)
(* ================================================================== *)

Section PositionSums.

Open Scope R_scope.

Lemma cos_arith_telescope a b M :
  2 * sin (b / 2) * Rsum M (fun n => cos (a + INR n * b))
  = sin (a + (INR M - 1 / 2) * b) - sin (a - b / 2).
Proof.
  induction M as [|M IH].
  - simpl. replace (a + (0 - 1 / 2) * b) with (a - b / 2) by field. ring.
  - cbn [Rsum]. rewrite Rmult_plus_distr_l, IH, S_INR.
    replace (a + (INR M + 1 - 1 / 2) * b) with (a + INR M * b + b / 2)
      by field.
    replace (a + (INR M - 1 / 2) * b) with (a + INR M * b - b / 2)
      by field.
    rewrite sin_plus, sin_minus. ring.
Qed.

Lemma Rsum_const N c : Rsum N (fun _ => c) = INR N * c.
Proof.
  induction N as [|N IH]; [simpl; ring|].
  cbn [Rsum]. rewrite IH, S_INR. ring.
Qed.

(** The cosines of a nonzero frequency below [2 N] sum to zero over the
    [N] half-sample positions. *)
Lemma half_sample_cos_sum N q :
  (0 < q < 2 * N)%nat ->
  Rsum N (fun n => cos (PI * INR q * (2 * INR n + 1) / (2 * INR N))) = 0.
Proof.
  intros Hq.
  assert (HN : 0 < INR N) by (apply lt_0_INR; lia).
  assert (Hq0 : 0 < INR q) by (apply lt_0_INR; lia).
  assert (Hq2 : INR q < 2 * INR N).
  { destruct Hq as [_ Hq]. apply lt_INR in Hq. rewrite mult_INR in Hq.
    simpl in Hq. lra. }
  pose proof PI_RGT_0 as Hpi.
  set (b := PI * INR q / INR N).
  set (a := PI * INR q / (2 * INR N)).
  assert (Hs : 0 < sin (b / 2)).
  { replace (b / 2) with (PI * (INR q / (2 * INR N)))
      by (unfold b; field; lra).
    apply sin_gt_0.
    - apply Rmult_lt_0_compat; [lra|]. apply frac_pos; lra.
    - assert (INR q / (2 * INR N) < 1) by (apply frac_lt_1; lra).
      replace PI with (PI * 1) at 2 by ring.
      apply Rmult_lt_compat_l; assumption. }
  pose proof (cos_arith_telescope a b N) as T.
  replace (a - b / 2) with 0 in T by (unfold a, b; field; lra).
  replace (a + (INR N - 1 / 2) * b) with (IZR (Z.of_nat q) * PI) in T
    by (rewrite <- INR_IZR_INZ; unfold a, b; field; lra).
  rewrite sin_0, (sin_eq_0_1 (IZR (Z.of_nat q) * PI)) in T
    by (exists (Z.of_nat q); reflexivity).
  assert (E : Rsum N (fun n => cos (a + INR n * b)) = 0).
  { assert (Z : 2 * sin (b / 2) * Rsum N (fun n => cos (a + INR n * b)) = 0)
      by lra.
    apply Rmult_integral in Z. destruct Z as [Z|Z]; [lra|exact Z]. }
  rewrite <- E. apply Rsum_ext. intros n Hn. f_equal.
  unfold a, b. field. lra.
Qed.

Lemma dctII_angle_diff N k j n :
  (0 < N)%nat -> (j <= k)%nat ->
  dctII_angle N k n - dctII_angle N j n
  = PI * INR (k - j) * (2 * INR n + 1) / (2 * INR N).
Proof.
  intros HN Hjk. unfold dctII_angle. rewrite minus_INR by assumption.
  field. now apply INR_pos_neq0.
Qed.

Lemma dctII_angle_sum N k j n :
  (0 < N)%nat ->
  dctII_angle N k n + dctII_angle N j n
  = PI * INR (k + j) * (2 * INR n + 1) / (2 * INR N).
Proof.
  intros HN. unfold dctII_angle. rewrite plus_INR.
  field. now apply INR_pos_neq0.
Qed.

Lemma half_sample_cos_sum_gen N q :
  (0 < N)%nat -> (q < 2 * N)%nat ->
  Rsum N (fun n => cos (PI * INR q * (2 * INR n + 1) / (2 * INR N)))
  = if (q =? 0)%nat then INR N else 0.
Proof.
  intros HN Hq. destruct (Nat.eqb_spec q 0) as [E|E].
  - subst q. transitivity (Rsum N (fun _ => 1)).
    + apply Rsum_ext. intros n Hn. simpl INR.
      replace (PI * 0 * (2 * INR n + 1) / (2 * INR N)) with 0
        by (field; now apply INR_pos_neq0).
      apply cos_0.
    + rewrite Rsum_const. ring.
  - apply half_sample_cos_sum. lia.
Qed.

(** The DCT-II cosines of two coefficients are orthogonal over the
    positions. *)
Lemma dctII_orthogonality N k j :
  (0 < N)%nat -> (k < N)%nat -> (j < N)%nat ->
  Rsum N (fun n => 2 * cos (dctII_angle N k n) * cos (dctII_angle N j n))
  = if (k =? j)%nat then (if (k =? 0)%nat then 2 * INR N else INR N) else 0.
Proof.
  intros HN Hk Hj.
  transitivity
    (Rsum N (fun n =>
       cos (PI * INR (Nat.max k j - Nat.min k j) * (2 * INR n + 1)
            / (2 * INR N))
       + cos (PI * INR (k + j) * (2 * INR n + 1) / (2 * INR N)))).
  - apply Rsum_ext. intros n Hn. rewrite cos_product.
    rewrite dctII_angle_sum by assumption. f_equal.
    destruct (Nat.le_ge_cases j k) as [L|L].
    + rewrite Nat.max_l, Nat.min_r by assumption.
      now rewrite dctII_angle_diff.
    + rewrite Nat.max_r, Nat.min_l by assumption.
      rewrite <- dctII_angle_diff by assumption.
      rewrite <- cos_neg. f_equal. ring.
  - rewrite Rsum_plus, !half_sample_cos_sum_gen by (assumption || lia).
    destruct (Nat.eqb_spec k j) as [E|E].
    + subst j. replace (Nat.max k k - Nat.min k k)%nat with 0%nat by lia.
      cbn [Nat.eqb].
      destruct (Nat.eqb_spec k 0) as [E0|E0].
      * subst k. cbn [Nat.add Nat.eqb]. ring.
      * destruct (Nat.eqb_spec (k + k) 0); [lia|ring].
    + destruct (Nat.eqb_spec (Nat.max k j - Nat.min k j) 0); [lia|].
      destruct (Nat.eqb_spec (k + j) 0); [lia|ring].
Qed.

Lemma idct_weight_unit N norm j :
  (0 < N)%nat -> norm = None \/ norm = Some "ortho"%string ->
  idct_weight N norm j * (if (j =? 0)%nat then 2 * INR N else INR N)
  / norm_scale norm N j = 1.
Proof.
  intros HN Hn.
  assert (HN' : INR N <> 0) by now apply INR_pos_neq0.
  pose proof (ortho_scale_neq0 j HN) as Hs.
  pose proof (ortho_scale_sqr j HN) as Hq.
  destruct Hn as [-> | ->]; unfold idct_weight, norm_scale; cbn [is_ortho].
  - destruct (j =? 0)%nat; field; assumption.
  - change (String.eqb "ortho" "ortho") with true. cbv iota.
    apply (Rmult_eq_reg_r (ortho_scale N j * ortho_scale N j));
      [|now apply Rmult_integral_contrapositive].
    transitivity (2 * (if (j =? 0)%nat then 2 * INR N else INR N)).
    + field. assumption.
    + rewrite Hq. destruct (j =? 0)%nat; ring.
Qed.

(** The DCT-II of the weighted DCT-III of [X] is [X]. *)
Lemma dctII_dctIII N norm (X : nat -> R) j :
  (0 < N)%nat -> (j < N)%nat ->
  norm = None \/ norm = Some "ortho"%string ->
  dctII N (dctIII N (idct_weight N norm) X) j / norm_scale norm N j = X j.
Proof.
  intros HN Hj Hn.
  assert (E : dctII N (dctIII N (idct_weight N norm) X) j
              = idct_weight N norm j * X j
                * (if (j =? 0)%nat then 2 * INR N else INR N)).
  { unfold dctII, dctIII. rewrite <- Rsum_scal.
    transitivity
      (Rsum N (fun m =>
         Rsum N (fun k =>
           idct_weight N norm k * X k
           * (2 * cos (dctII_angle N k m) * cos (dctII_angle N j m))))).
    { apply Rsum_ext. intros m Hm.
      rewrite (Rmult_comm (Rsum _ _)), <- !Rsum_scal.
      apply Rsum_ext. intros k Hk. ring. }
    rewrite Rsum_swap.
    transitivity
      (Rsum N (fun k =>
         (fun k => idct_weight N norm k * X k
                   * (if (k =? 0)%nat then 2 * INR N else INR N)) k
         * (if (k =? j)%nat then 1 else 0))).
    { apply Rsum_ext. intros k Hk. rewrite Rsum_scal.
      rewrite dctII_orthogonality by assumption.
      destruct (k =? j)%nat; ring. }
    now rewrite Rsum_delta. }
  rewrite E.
  transitivity
    (X j * (idct_weight N norm j
            * (if (j =? 0)%nat then 2 * INR N else INR N)
            / norm_scale norm N j)).
  - field. now apply norm_scale_neq0.
  - rewrite idct_weight_unit by assumption. ring.
Qed.

End PositionSums.

Lemma idct_kernel_is_real x a norm :
  a < ndim x -> 0 < dim x a -> is_real (idct_kernel x a norm).
Proof.
  intros Ha HN idx Hv. rewrite idct_kernel_shape in Hv by assumption.
  now rewrite (idct_kernel_data x norm Ha HN Hv).
Qed.

Lemma lane_idct_kernel x a norm idx m :
  a < ndim x -> 0 < dim x a -> valid_index (shape x) idx -> m < dim x a ->
  lane (idct_kernel x a norm) a idx m
  = dctIII (dim x a) (idct_weight (dim x a) norm) (lane x a idx) m.
Proof.
  intros Ha HN Hv Hm. unfold lane at 1.
  rewrite idct_kernel_textbook
    by (assumption || (apply valid_index_upd_same_shape; assumption)).
  cbn [re RtoC].
  rewrite at_upd_same by (rewrite (valid_index_length Hv); exact Ha).
  unfold dctIII. apply Rsum_ext. intros k Hk. now rewrite lane_upd.
Qed.

Lemma lane_self x a idx :
  is_real x -> valid_index (shape x) idx ->
  RtoC (lane x a idx (at_ a idx)) = data x idx.
Proof.
  intros Hx Hv. unfold lane. rewrite upd_at_id.
  apply C_eq; cbn [re im RtoC]; [reflexivity|]. symmetry. now apply Hx.
Qed.

Lemma reverse_roundtrip_kernel x a norm :
  a < ndim x -> 0 < dim x a -> is_real x ->
  norm = None \/ norm = Some "ortho"%string ->
  same_values (dct_kernel (idct_kernel x a norm) a norm) x.
Proof.
  intros Ha HN Hx Hn.
  pose proof (idct_kernel_shape x norm Ha HN) as Hs.
  assert (Ha' : a < ndim (idct_kernel x a norm))
    by (rewrite (ndim_shape_eq _ _ Hs); exact Ha).
  assert (HN' : 0 < dim (idct_kernel x a norm) a)
    by (rewrite (dim_shape_eq _ _ a Hs); exact HN).
  split.
  - now rewrite dct_kernel_shape.
  - intros idx Hv. rewrite dct_kernel_shape, Hs in Hv by assumption.
    rewrite dct_kernel_textbook;
      [|assumption|assumption|now apply idct_kernel_is_real
       |rewrite Hs; assumption].
    rewrite (dim_shape_eq _ _ a Hs).
    rewrite (@dctII_ext (dim x a) _
               (dctIII (dim x a) (idct_weight (dim x a) norm)
                  (lane x a idx)))
      by (intros n Hn'; now apply lane_idct_kernel).
    rewrite dctII_dctIII
      by (assumption || (apply valid_index_at; assumption)).
    now apply lane_self.
Qed.

(** X3: [dct] undoes [idct].  Along a valid axis of positive length of a
    real array, [idct] followed by [dct], both with [n] unset and with
    the same [norm] (unset or ['ortho']), returns the values of the
    input. *)
Theorem X3_idct_dct_roundtrip :
  forall (x : Array C) (axis : Z) (a : nat) (norm : option string),
    is_real x ->
    canonicalize_axis axis (ndim x) = Ok a ->
    0 < dim x a ->
    norm = None \/ norm = Some "ortho"%string ->
    exists y z,
      idct x 2 None axis norm = Ok y /\
      dct y 2 None axis norm = Ok z /\
      same_values z x.
Proof.
  intros x axis a norm Hx Hc HN Hn.
  pose proof (canonicalize_axis_ok _ _ Hc) as Ha.
  pose proof (idct_kernel_shape x norm Ha HN) as Hs.
  exists (idct_kernel x a norm), (dct_kernel (idct_kernel x a norm) a norm).
  split; [|split].
  - rewrite (idct_canonical x None axis norm Hc). now apply idct_no_pad.
  - assert (Hc' : canonicalize_axis axis (ndim (idct_kernel x a norm)) = Ok a)
      by (rewrite (ndim_shape_eq _ _ Hs); exact Hc).
    rewrite (dct_canonical _ None axis norm Hc'). apply dct_no_pad.
    + rewrite (ndim_shape_eq _ _ Hs). exact Ha.
    + rewrite (dim_shape_eq _ _ a Hs). exact HN.
  - now apply reverse_roundtrip_kernel.
Qed.

Lemma X3_witness :
  let x := of_list Float32 C0 (map RtoC [1; 2; 3]%R) in
  is_real x /\
  canonicalize_axis (-1) (ndim x) = Ok 0 /\
  0 < dim x 0 /\
  exists y z,
    idct x 2 None (-1) None = Ok y /\
    dct y 2 None (-1) None = Ok z /\
    same_values z x.
Proof.
  intros x.
  assert (H1 : is_real x) by apply of_list_is_real.
  assert (H2 : canonicalize_axis (-1) (ndim x) = Ok 0) by reflexivity.
  assert (H3 : 0 < dim x 0) by (unfold dim, at_; simpl; lia).
  split; [exact H1|]. split; [exact H2|]. split; [exact H3|].
  exact (@X3_idct_dct_roundtrip x (-1)%Z 0 None H1 H2 H3 (or_introl eq_refl)).
Defined.

(* ================================================================== *)
(** * Linearity and energy *)
(* ================================================================== *)

Section Linearity.

Open Scope R_scope.

Lemma dctII_plus N f g k :
  dctII N (fun n => f n + g n) k = dctII N f k + dctII N g k.
Proof.
  unfold dctII. rewrite <- Rmult_plus_distr_l, <- Rsum_plus. f_equal.
  apply Rsum_ext. intros n Hn. ring.
Qed.

Lemma dctII_scal N c f k :
  dctII N (fun n => c * f n) k = c * dctII N f k.
Proof.
  unfold dctII.
  transitivity
    (2 * Rsum N (fun m => c * (f m * cos (dctII_angle N k m)))).
  - f_equal. apply Rsum_ext. intros n Hn. ring.
  - rewrite Rsum_scal. ring.
Qed.

Lemma lane_dct_kernel x a norm idx k :
  (a < ndim x)%nat -> (0 < dim x a)%nat -> is_real x ->
  valid_index (shape x) idx -> (k < dim x a)%nat ->
  lane (dct_kernel x a norm) a idx k
  = dctII (dim x a) (lane x a idx) k / norm_scale norm (dim x a) k.
Proof.
  intros Ha HN Hx Hv Hk. unfold lane at 1.
  rewrite dct_kernel_textbook
    by (assumption || (apply valid_index_upd_same_shape; assumption)).
  cbn [re RtoC].
  rewrite at_upd_same by (rewrite (valid_index_length Hv); exact Ha).
  f_equal. apply dctII_ext. intros n Hn. apply lane_upd.
Qed.

Lemma idct_lane_unfold N Y n :
  (0 < N)%nat ->
  idct_lane N Y n = Rsum N (fun k => 2 * Y k * cos (dct_angle N k n)).
Proof.
  intros HN. unfold idct_lane. rewrite <- Rsum_scal.
  apply Rsum_ext. intros k Hk. field. now apply INR_pos_neq0.
Qed.

(** The orthonormal DCT-II keeps the sum of squares. *)
Lemma dctII_parseval N (v : nat -> R) :
  (0 < N)%nat ->
  energy N (fun k => dctII N v k / ortho_scale N k) = energy N v.
Proof.
  intros HN.
  set (u := fun n => v (interleave_src N n)).
  set (c := fun k => dct_lane N u k / ortho_scale N k).
  transitivity (energy N c).
  { unfold energy. apply Rsum_ext. intros k Hk. unfold c, u.
    now rewrite dct_lane_textbook. }
  transitivity (energy N u);
    [|unfold energy, u; apply (Rsum_interleave N (fun m => v m * v m))].
  unfold energy.
  transitivity
    (Rsum N (fun k =>
       Rsum N (fun n =>
         u n * (2 * (c k / ortho_scale N k) * cos (dct_angle N k n))))).
  { apply Rsum_ext. intros k Hk.
    transitivity (c k / ortho_scale N k * dct_lane N u k).
    - unfold c. field. now apply ortho_scale_neq0.
    - unfold dct_lane.
      rewrite <- Rmult_assoc, <- Rsum_scal.
      apply Rsum_ext. intros n Hn. ring. }
  rewrite Rsum_swap. apply Rsum_ext. intros n Hn.
  rewrite Rsum_scal. f_equal.
  rewrite <- idct_lane_unfold by assumption.
  unfold c. now apply dct_inversion.
Qed.

End Linearity.

Lemma jnp_add_same_shape x y :
  shape y = shape x -> shape (jnp_add x y) = shape x.
Proof. intros Hs. unfold jnp_add. now apply binop_same_shape. Qed.

Lemma jnp_add_same_data x y idx :
  shape y = shape x -> valid_index (shape x) idx ->
  data (jnp_add x y) idx = Cadd (data x idx) (data y idx).
Proof. intros Hs Hv. unfold jnp_add. now apply binop_same_data. Qed.

Lemma dct_ok_kernel x axis a norm :
  canonicalize_axis axis (ndim x) = Ok a -> 0 < dim x a ->
  dct x 2 None axis norm = Ok (dct_kernel x a norm).
Proof.
  intros Hc HN. rewrite (dct_canonical x None axis norm Hc).
  apply dct_no_pad; [exact (canonicalize_axis_ok _ _ Hc)|exact HN].
Qed.

Lemma idct_ok_kernel x axis a norm :
  canonicalize_axis axis (ndim x) = Ok a -> 0 < dim x a ->
  idct x 2 None axis norm = Ok (idct_kernel x a norm).
Proof.
  intros Hc HN. rewrite (idct_canonical x None axis norm Hc).
  apply idct_no_pad; [exact (canonicalize_axis_ok _ _ Hc)|exact HN].
Qed.

(** X4: [dct] is linear.  Along a valid axis of positive length, the
    transform of the sum of two real arrays of one shape is the sum of
    their transforms, and the transform of [c * x] for a real scalar [c]
    is [c] times the transform of [x]. *)
Theorem X4_dct_linear :
  forall (x y : Array C) (c : R) (axis : Z) (a : nat) (norm : option string),
    is_real x -> is_real y -> shape y = shape x ->
    canonicalize_axis axis (ndim x) = Ok a ->
    0 < dim x a ->
    exists u v w s,
      dct x 2 None axis norm = Ok u /\
      dct y 2 None axis norm = Ok v /\
      dct (jnp_add x y) 2 None axis norm = Ok w /\
      dct (py_mul KFloat (RtoC c) x) 2 None axis norm = Ok s /\
      forall idx, valid_index (shape x) idx ->
        data w idx = Cadd (data u idx) (data v idx) /\
        data s idx = Cmul (RtoC c) (data u idx).
Proof.
  intros x y c axis a norm Hx Hy Hs Hc HN.
  pose proof (canonicalize_axis_ok _ _ Hc) as Ha.
  pose proof (jnp_add_same_shape x y Hs) as Hsa.
  assert (Hsm : shape (py_mul KFloat (RtoC c) x) = shape x)
    by apply map_array_shape.
  assert (Hxa : is_real (jnp_add x y)).
  { intros idx Hv. rewrite Hsa in Hv.
    rewrite jnp_add_same_data by assumption. cbn [im Cadd].
    rewrite (Hx idx Hv), (Hy idx) by (rewrite Hs; exact Hv). lra. }
  assert (Hxm : is_real (py_mul KFloat (RtoC c) x)).
  { intros idx Hv. rewrite Hsm in Hv. unfold py_mul.
    rewrite map_array_data, Cmul_RtoC_l. cbn [im].
    rewrite (Hx idx Hv). lra. }
  exists (dct_kernel x a norm), (dct_kernel y a norm),
         (dct_kernel (jnp_add x y) a norm),
         (dct_kernel (py_mul KFloat (RtoC c) x) a norm).
  split; [now apply dct_ok_kernel|].
  split; [apply dct_ok_kernel;
    [now rewrite (ndim_shape_eq _ _ Hs)|now rewrite (dim_shape_eq _ _ a Hs)]|].
  split; [apply dct_ok_kernel;
    [now rewrite (ndim_shape_eq _ _ Hsa)|now rewrite (dim_shape_eq _ _ a Hsa)]|].
  split; [apply dct_ok_kernel;
    [now rewrite (ndim_shape_eq _ _ Hsm)|now rewrite (dim_shape_eq _ _ a Hsm)]|].
  intros idx Hv.
  pose proof (norm_scale_neq0 norm (at_ a idx) HN) as Hn0.
  rewrite (@dct_kernel_textbook x a norm idx) by assumption.
  rewrite (@dct_kernel_textbook y a norm idx);
    [|now rewrite (ndim_shape_eq _ _ Hs)|now rewrite (dim_shape_eq _ _ a Hs)
     |assumption|now rewrite Hs].
  rewrite (@dct_kernel_textbook (jnp_add x y) a norm idx);
    [|now rewrite (ndim_shape_eq _ _ Hsa)
     |now rewrite (dim_shape_eq _ _ a Hsa)
     |assumption|now rewrite Hsa].
  rewrite (@dct_kernel_textbook (py_mul KFloat (RtoC c) x) a norm idx);
    [|now rewrite (ndim_shape_eq _ _ Hsm)
     |now rewrite (dim_shape_eq _ _ a Hsm)
     |assumption|now rewrite Hsm].
  rewrite (dim_shape_eq _ _ a Hs), (dim_shape_eq _ _ a Hsa),
    (dim_shape_eq _ _ a Hsm).
  split.
  - rewrite (@dctII_ext (dim x a) (lane (jnp_add x y) a idx)
               (fun n => lane x a idx n + lane y a idx n)%R).
    + rewrite dctII_plus.
      apply C_eq; cbn [re im RtoC Cadd]; [field; assumption|lra].
    + intros n Hn. unfold lane.
      rewrite jnp_add_same_data
        by (assumption || (apply valid_index_upd_same_shape; assumption)).
      reflexivity.
  - rewrite (@dctII_ext (dim x a) (lane (py_mul KFloat (RtoC c) x) a idx)
               (fun n => c * lane x a idx n)%R).
    + rewrite dctII_scal, Cmul_RtoC.
      f_equal. field. assumption.
    + intros n Hn. unfold lane, py_mul.
      rewrite map_array_data, Cmul_RtoC_l. reflexivity.
Qed.

Lemma X4_witness :
  let x := of_list Float32 C0 (map RtoC [1; 2; 3]%R) in
  let y := of_list Float32 C0 (map RtoC [4; 0; 5]%R) in
  is_real x /\ is_real y /\ shape y = shape x /\
  canonicalize_axis 0 (ndim x) = Ok 0 /\
  0 < dim x 0 /\
  exists u v w s,
    dct x 2 None 0 None = Ok u /\
    dct y 2 None 0 None = Ok v /\
    dct (jnp_add x y) 2 None 0 None = Ok w /\
    dct (py_mul KFloat (RtoC 3) x) 2 None 0 None = Ok s /\
    forall idx, valid_index (shape x) idx ->
      data w idx = Cadd (data u idx) (data v idx) /\
      data s idx = Cmul (RtoC 3) (data u idx).
Proof.
  intros x y.
  assert (H1 : is_real x) by apply of_list_is_real.
  assert (H2 : is_real y) by apply of_list_is_real.
  assert (H3 : shape y = shape x) by reflexivity.
  assert (H4 : canonicalize_axis 0 (ndim x) = Ok 0) by reflexivity.
  assert (H5 : 0 < dim x 0) by (unfold dim, at_; simpl; lia).
  split; [exact H1|]. split; [exact H2|]. split; [exact H3|].
  split; [exact H4|]. split; [exact H5|].
  exact (@X4_dct_linear x y 3%R 0%Z 0 None H1 H2 H3 H4 H5).
Defined.

Lemma energy_ext N v v' :
  (forall n, n < N -> v n = v' n) -> energy N v = energy N v'.
Proof.
  intros H. unfold energy. apply Rsum_ext. intros n Hn. now rewrite H.
Qed.

(** X5: with [norm = 'ortho'] the transform is orthonormal.  Along a
    valid axis of positive length of a real array, the squares of the
    coefficients [dct] returns sum to the sum of the squares of the
    input, on every line along the axis. *)
Theorem X5_dct_ortho_preserves_energy :
  forall (x : Array C) (axis : Z) (a : nat),
    is_real x ->
    canonicalize_axis axis (ndim x) = Ok a ->
    0 < dim x a ->
    exists y,
      dct x 2 None axis (Some "ortho"%string) = Ok y /\
      forall idx, valid_index (shape x) idx ->
        energy (dim x a) (lane y a idx) = energy (dim x a) (lane x a idx).
Proof.
  intros x axis a Hx Hc HN.
  pose proof (canonicalize_axis_ok _ _ Hc) as Ha.
  exists (dct_kernel x a (Some "ortho"%string)).
  split; [now apply dct_ok_kernel|].
  intros idx Hv.
  rewrite <- (dctII_parseval (lane x a idx) HN).
  apply energy_ext. intros k Hk.
  now rewrite lane_dct_kernel.
Qed.

Lemma X5_witness :
  let x := of_list Float32 C0 (map RtoC [1; 2; 3]%R) in
  is_real x /\
  canonicalize_axis (-1) (ndim x) = Ok 0 /\
  0 < dim x 0 /\
  exists y,
    dct x 2 None (-1) (Some "ortho"%string) = Ok y /\
    forall idx, valid_index (shape x) idx ->
      energy (dim x 0) (lane y 0 idx) = energy (dim x 0) (lane x 0 idx).
Proof.
  intros x.
  assert (H1 : is_real x) by apply of_list_is_real.
  assert (H2 : canonicalize_axis (-1) (ndim x) = Ok 0) by reflexivity.
  assert (H3 : 0 < dim x 0) by (unfold dim, at_; simpl; lia).
  split; [exact H1|]. split; [exact H2|]. split; [exact H3|].
  exact (@X5_dct_ortho_preserves_energy x (-1)%Z 0 H1 H2 H3).
Defined.

(* ================================================================== *)
(** * Complex input *)
(* ================================================================== *)

Section ComplexInput.

Open Scope R_scope.

Lemma fft_twiddle_complex N k (v : nat -> C) :
  (0 < N)%nat ->
  re (Cmul (Csum N (fun n => Cmul (v n) (dft_kernel (-1) N k n)))
        (twiddle N (RtoC (INR k))))
  = Rsum N (fun n => re (v n) * cos (dct_angle N k n)
                     + im (v n) * sin (dct_angle N k n)).
Proof.
  intros HN.
  assert (HN0 : INR N <> 0) by (apply INR_pos_neq0; assumption).
  rewrite twiddle_val by (assumption || reflexivity).
  cbn [re im Cmul RtoC]. rewrite re_Csum, im_Csum.
  set (beta := PI * INR k / (2 * INR N)).
  transitivity
    (Rsum N (fun n =>
       cos beta * re (Cmul (v n) (dft_kernel (-1) N k n))
       + sin beta * im (Cmul (v n) (dft_kernel (-1) N k n)))).
  { rewrite Rsum_plus, !Rsum_scal. ring. }
  apply Rsum_ext. intros n Hn.
  rewrite dft_kernel_val. cbn [re im Cmul].
  replace (dct_angle N k n)
    with (beta - -1 * (2 * PI * INR k * INR n / INR N))
    by (unfold beta, dct_angle; field; assumption).
  rewrite cos_minus, sin_minus. ring.
Qed.

Lemma sin_dct_angle_interleave N k n :
  (0 < N)%nat -> (n < N)%nat ->
  sin (dct_angle N k n)
  = (if Nat.even (interleave_src N n) then 1 else -1)
    * sin (dctII_angle N k (interleave_src N n)).
Proof.
  intros HN Hn.
  assert (HN' : INR N <> 0) by now apply INR_pos_neq0.
  unfold interleave_src, dct_angle, dctII_angle.
  destruct (Nat.ltb_spec n (ceil_half N)) as [Hlt|Hge].
  - rewrite Nat.even_mul. cbn [Nat.even orb].
    rewrite Rmult_1_l. f_equal. rewrite mult_INR. simpl INR.
    field. assumption.
  - rewrite Nat.add_1_r, Nat.even_succ, Nat.odd_mul.
    cbn [Nat.odd Nat.even negb andb].
    replace (INR (S (2 * (N - 1 - n)))) with (2 * INR N - 2 * INR n - 1)
      by (rewrite S_INR, mult_INR, !minus_INR by lia; simpl INR; ring).
    replace (PI * INR k * (2 * (2 * INR N - 2 * INR n - 1) + 1)
             / (2 * INR N))
      with (- (PI * INR k * (4 * INR n + 1) / (2 * INR N))
            + 2 * INR k * PI) by (field; assumption).
    rewrite sin_period, sin_neg. ring.
Qed.

Variables (x : Array C) (a : nat).
Hypothesis Ha : (a < ndim x)%nat.
Hypothesis HN : (0 < dim x a)%nat.

Lemma dct_unnorm_complex d idx :
  valid_index (shape x) idx ->
  data
    (py_mul KInt (RtoC 2)
       (jnp_real
          (jnp_multiply (jnp_fft_fft (_dct_interleave x a) a)
             (_W4 (dim x a)
                (lax_expand_dims (jnp_arange (dim x a) d)
                   (other_axes (ndim x) a))))))
    idx
  = RtoC (dctII (dim x a) (lane x a idx) (at_ a idx)
          + alt_sine_sum (dim x a) (lane_im x a idx) (at_ a idx)).
Proof.
  intros Hv.
  pose proof (valid_index_at Hv Ha) as Hi.
  pose proof (valid_index_length Hv) as Hl.
  assert (Hla : (a < length idx)%nat) by (rewrite Hl; exact Ha).
  unfold py_mul, jnp_real. rewrite !map_array_data.
  unfold jnp_multiply.
  rewrite binop_vec_r_data with (a := a);
    [|now apply fft_interleave_vec
     |cbn [shape jnp_fft_fft]; rewrite interleave_shape; assumption].
  replace (ndim (jnp_fft_fft (_dct_interleave x a) a)) with (ndim x)
    by (unfold ndim; cbn [shape jnp_fft_fft]; now rewrite interleave_shape).
  rewrite W4_arange_data by assumption.
  cbn [data jnp_fft_fft].
  replace (dim (_dct_interleave x a) a) with (dim x a)
    by (unfold dim; now rewrite interleave_shape).
  rewrite Cmul_RtoC_l. unfold Creal, RtoC at 1. cbn [re im].
  rewrite fft_twiddle_complex by assumption.
  apply C_eq; cbn [re im RtoC]; [|ring].
  unfold dctII, alt_sine_sum.
  rewrite <- Rmult_plus_distr_l, <- Rsum_plus. f_equal.
  rewrite <- (Rsum_interleave (dim x a)
                (fun m => lane x a idx m
                          * cos (dctII_angle (dim x a) (at_ a idx) m)
                          + (if Nat.even m then 1 else -1)
                            * lane_im x a idx m
                            * sin (dctII_angle (dim x a) (at_ a idx) m))).
  apply Rsum_ext. intros n Hn.
  rewrite cos_dct_angle_interleave, sin_dct_angle_interleave by assumption.
  rewrite interleave_data by (rewrite ?upd_length; assumption).
  rewrite at_upd_same, upd_upd_same by assumption.
  unfold lane, lane_im. ring.
Qed.

Lemma dct_kernel_complex norm idx :
  valid_index (shape x) idx ->
  data (dct_kernel x a norm) idx
  = RtoC ((dctII (dim x a) (lane x a idx) (at_ a idx)
           + alt_sine_sum (dim x a) (lane_im x a idx) (at_ a idx))
          / norm_scale norm (dim x a) (at_ a idx)).
Proof.
  intros Hv. unfold dct_kernel, norm_scale. cbv zeta.
  set (d := real_dtype _).
  pose proof (dct_unnorm_shape x Ha d) as Hs.
  pose proof (dct_unnorm_complex d Hv) as Hd.
  cbv beta in Hs.
  destruct (is_ortho norm).
  - rewrite ortho_norm_data.
    + rewrite Hd, (dim_shape_eq _ _ a Hs).
      apply C_eq; cbn [re im RtoC]; [reflexivity|].
      unfold Rdiv. ring.
    + rewrite (ndim_shape_eq _ _ Hs). exact Ha.
    + rewrite (dim_shape_eq _ _ a Hs). exact HN.
    + rewrite Hs. exact Hv.
  - rewrite Hd. f_equal. field.
Qed.

End ComplexInput.

(** X6: [dct] returns real values whatever the input.  On a complex
    array the real parts go through the DCT-II and the imaginary parts
    through a sine sum with alternating signs,
    [2 sum_m (-1)^m im(x[m]) sin(pi k (2 m + 1) / (2 N))], added to it:
    the result is not the DCT-II of the complex sequence. *)
Theorem X6_dct_of_complex_input :
  forall (x : Array C) (axis : Z) (a : nat) (norm : option string),
    canonicalize_axis axis (ndim x) = Ok a ->
    0 < dim x a ->
    exists y,
      dct x 2 None axis norm = Ok y /\
      is_real y /\
      forall idx, valid_index (shape x) idx ->
        data y idx
        = RtoC ((dctII (dim x a) (lane x a idx) (at_ a idx)
                 + alt_sine_sum (dim x a) (lane_im x a idx) (at_ a idx))
                / norm_scale norm (dim x a) (at_ a idx))%R.
Proof.
  intros x axis a norm Hc HN.
  pose proof (canonicalize_axis_ok _ _ Hc) as Ha.
  exists (dct_kernel x a norm).
  split; [now apply dct_ok_kernel|]. split.
  - intros idx Hv. rewrite dct_kernel_shape in Hv by assumption.
    now rewrite (@dct_kernel_complex x a Ha HN norm idx Hv).
  - intros idx Hv. now apply dct_kernel_complex.
Qed.

Lemma X6_witness :
  let x := of_list Complex64 C0 [mkC 1 2; mkC 0 (-1); mkC 3 0] in
  canonicalize_axis (-1) (ndim x) = Ok 0 /\
  0 < dim x 0 /\
  exists y,
    dct x 2 None (-1) None = Ok y /\
    is_real y /\
    forall idx, valid_index (shape x) idx ->
      data y idx
      = RtoC ((dctII (dim x 0) (lane x 0 idx) (at_ 0 idx)
               + alt_sine_sum (dim x 0) (lane_im x 0 idx) (at_ 0 idx))
              / norm_scale None (dim x 0) (at_ 0 idx))%R.
Proof.
  intros x.
  assert (H2 : canonicalize_axis (-1) (ndim x) = Ok 0) by reflexivity.
  assert (H3 : 0 < dim x 0) by (unfold dim, at_; simpl; lia).
  split; [exact H2|]. split; [exact H3|].
  exact (@X6_dct_of_complex_input x (-1)%Z 0 None H2 H3).
Defined.

Lemma idct_kernel_re_congr x x' a norm :
  a < ndim x -> 0 < dim x a -> shape x' = shape x ->
  (forall idx, valid_index (shape x) idx ->
     re (data x' idx) = re (data x idx)) ->
  arr_eq (idct_kernel x' a norm) (idct_kernel x a norm).
Proof.
  intros Ha HN Hs Hd.
  assert (Ha' : a < ndim x') by now rewrite (ndim_shape_eq _ _ Hs).
  assert (HN' : 0 < dim x' a) by now rewrite (dim_shape_eq _ _ a Hs).
  split; [|split].
  - now rewrite !idct_kernel_dtype.
  - now rewrite !idct_kernel_shape.
  - intros idx Hv. rewrite idct_kernel_shape, Hs in Hv by assumption.
    rewrite !idct_kernel_textbook by (assumption || now rewrite Hs).
    rewrite (dim_shape_eq _ _ a Hs). f_equal.
    unfold dctIII. apply Rsum_ext. intros k Hk. unfold lane.
    rewrite Hd; [reflexivity|].
    apply valid_index_upd_same_shape; assumption.
Qed.

(** X7: [idct] reads only the real parts of its input (the cast to
    [float32] of line 184 drops the imaginary parts): along a valid axis
    of positive length it returns on [x] the array it returns on
    [x.real]. *)
Theorem X7_idct_ignores_imaginary_parts :
  forall (x : Array C) (axis : Z) (a : nat) (norm : option string),
    canonicalize_axis axis (ndim x) = Ok a ->
    0 < dim x a ->
    exists y y',
      idct x 2 None axis norm = Ok y /\
      idct (jnp_real x) 2 None axis norm = Ok y' /\
      arr_eq y' y.
Proof.
  intros x axis a norm Hc HN.
  pose proof (canonicalize_axis_ok _ _ Hc) as Ha.
  assert (Hs : shape (jnp_real x) = shape x) by apply map_array_shape.
  exists (idct_kernel x a norm), (idct_kernel (jnp_real x) a norm).
  split; [now apply idct_ok_kernel|].
  split; [apply idct_ok_kernel;
    [now rewrite (ndim_shape_eq _ _ Hs)|now rewrite (dim_shape_eq _ _ a Hs)]|].
  apply idct_kernel_re_congr; try assumption.
  intros idx Hv. unfold jnp_real. now rewrite map_array_data.
Qed.

Lemma X7_witness :
  let x := of_list Complex64 C0 [mkC 1 2; mkC 0 (-1); mkC 3 0] in
  canonicalize_axis (-1) (ndim x) = Ok 0 /\
  0 < dim x 0 /\
  exists y y',
    idct x 2 None (-1) None = Ok y /\
    idct (jnp_real x) 2 None (-1) None = Ok y' /\
    arr_eq y' y.
Proof.
  intros x.
  assert (H2 : canonicalize_axis (-1) (ndim x) = Ok 0) by reflexivity.
  assert (H3 : 0 < dim x 0) by (unfold dim, at_; simpl; lia).
  split; [exact H2|]. split; [exact H3|].
  exact (@X7_idct_ignores_imaginary_parts x (-1)%Z 0 None H2 H3).
Defined.

(* ================================================================== *)
(** * Several axes: [dctn] and [idctn] as compositions *)
(* ================================================================== *)

Lemma arr_eq_sym {A : Type} (x y : Array A) : arr_eq x y -> arr_eq y x.
Proof.
  intros [Hd [Hs Hv]]. split; [|split]; try congruence.
  intros idx Hi. symmetry. apply Hv. now rewrite Hs.
Qed.

Lemma arr_eq_trans {A : Type} (x y z : Array A) :
  arr_eq x y -> arr_eq y z -> arr_eq x z.
Proof.
  intros [Hd [Hs Hv]] [Hd' [Hs' Hv']]. split; [|split]; try congruence.
  intros idx Hi. rewrite Hv by assumption. apply Hv'. now rewrite <- Hs.
Qed.

Lemma arr_eq_same_values {A : Type} (x y : Array A) :
  arr_eq x y -> same_values x y.
Proof. intros [_ H]. exact H. Qed.

Lemma same_values_trans {A : Type} (x y z : Array A) :
  same_values x y -> same_values y z -> same_values x z.
Proof.
  intros [Hs Hv] [Hs' Hv']. split; try congruence.
  intros idx Hi. rewrite Hv by assumption. apply Hv'. now rewrite <- Hs.
Qed.

Lemma arr_eq_is_real x y : arr_eq x y -> is_real x -> is_real y.
Proof.
  intros H. apply same_values_is_real. now apply arr_eq_same_values.
Qed.

Lemma dct_kernel_real_output x a norm :
  a < ndim x -> 0 < dim x a -> is_real (dct_kernel x a norm).
Proof.
  intros Ha HN idx Hv. rewrite dct_kernel_shape in Hv by assumption.
  now rewrite (@dct_kernel_complex x a Ha HN norm idx Hv).
Qed.

Lemma dct_kernel_arr_congr x x' a norm :
  a < ndim x -> 0 < dim x a -> arr_eq x x' ->
  arr_eq (dct_kernel x a norm) (dct_kernel x' a norm).
Proof.
  intros Ha HN [Hd [Hs0 Hv]].
  assert (Hs : shape x' = shape x) by (symmetry; exact Hs0).
  assert (Ha' : a < ndim x') by now rewrite (ndim_shape_eq _ _ Hs).
  assert (HN' : 0 < dim x' a) by now rewrite (dim_shape_eq _ _ a Hs).
  split; [|split].
  - now apply dct_kernel_dtype_congr.
  - rewrite !dct_kernel_shape by assumption. exact Hs0.
  - intros idx Hi. rewrite dct_kernel_shape in Hi by assumption.
    rewrite (@dct_kernel_complex x a Ha HN norm idx Hi).
    rewrite (@dct_kernel_complex x' a Ha' HN' norm idx)
      by (rewrite Hs; exact Hi).
    rewrite (dim_shape_eq _ _ a Hs).
    assert (E : forall n, n < dim x a ->
              data x (upd a n idx) = data x' (upd a n idx)).
    { intros n Hn. apply Hv. apply valid_index_upd_same_shape; assumption. }
    do 2 f_equal. f_equal.
    + apply dctII_ext. intros n Hn. unfold lane. now rewrite E.
    + unfold alt_sine_sum. f_equal. apply Rsum_ext. intros n Hn.
      unfold lane_im. now rewrite E.
Qed.

Lemma canonical_axes_good x axes ks :
  canonical_axes x axes ks -> good_positions (shape x) ks.
Proof.
  unfold canonical_axes, good_positions.
  induction 1 as [|a k axes ks [Hc HN] _ IH]; constructor; [|exact IH].
  split; [exact (canonicalize_axis_ok _ _ Hc)|exact HN].
Qed.

Lemma canonical_axes_shape x y axes ks :
  shape y = shape x -> canonical_axes x axes ks -> canonical_axes y axes ks.
Proof.
  intros Hs. unfold canonical_axes.
  induction 1 as [|a k axes ks [Hc HN] _ IH]; constructor; [|exact IH].
  now rewrite (ndim_shape_eq _ _ Hs), (dim_shape_eq _ _ k Hs).
Qed.

Lemma list_pair_ind {A : Type} (P : list A -> Prop) :
  P [] -> (forall a, P [a]) -> (forall a b l, P l -> P (a :: b :: l)) ->
  forall l, P l.
Proof.
  intros H0 H1 H2.
  assert (H : forall l, P l /\ forall a, P (a :: l)).
  { induction l as [|b l [IH1 IH2]]; split; auto. }
  intros l. apply H.
Qed.

Lemma good_positions_inv sh k ks :
  good_positions sh (k :: ks) ->
  k < length sh /\ 0 < at_ k sh /\ good_positions sh ks.
Proof.
  intros H. inversion H as [|? ? [Hk HN] Hr]; subst. now repeat split.
Qed.

Lemma dct_kernels_cons x k ks norm :
  dct_kernels x (k :: ks) norm = dct_kernels (dct_kernel x k norm) ks norm.
Proof. reflexivity. Qed.

Lemma idct_kernels_cons x k ks norm :
  idct_kernels x (k :: ks) norm
  = idct_kernels (idct_kernel x k norm) ks norm.
Proof. reflexivity. Qed.

Lemma dct_kernels_shape ks norm :
  forall x, good_positions (shape x) ks ->
    shape (dct_kernels x ks norm) = shape x.
Proof.
  induction ks as [|k ks IH]; intros x H; [reflexivity|].
  apply good_positions_inv in H. destruct H as [Hk [HN Hr]].
  pose proof (dct_kernel_shape x Hk HN norm) as Hs.
  rewrite dct_kernels_cons, IH; [exact Hs|now rewrite Hs].
Qed.

Lemma idct_kernels_shape ks norm :
  forall x, good_positions (shape x) ks ->
    shape (idct_kernels x ks norm) = shape x.
Proof.
  induction ks as [|k ks IH]; intros x H; [reflexivity|].
  apply good_positions_inv in H. destruct H as [Hk [HN Hr]].
  pose proof (idct_kernel_shape x norm Hk HN) as Hs.
  rewrite idct_kernels_cons, IH; [exact Hs|now rewrite Hs].
Qed.

Lemma dct_kernels_is_real ks norm :
  forall x, good_positions (shape x) ks -> is_real x ->
    is_real (dct_kernels x ks norm).
Proof.
  induction ks as [|k ks IH]; intros x H Hx; [exact Hx|].
  apply good_positions_inv in H. destruct H as [Hk [HN Hr]].
  pose proof (dct_kernel_shape x Hk HN norm) as Hs.
  rewrite dct_kernels_cons. apply IH; [now rewrite Hs|].
  now apply dct_kernel_real_output.
Qed.

Lemma dct_kernels_congr ks norm :
  forall x x', good_positions (shape x) ks -> arr_eq x x' ->
    arr_eq (dct_kernels x ks norm) (dct_kernels x' ks norm).
Proof.
  induction ks as [|k ks IH]; intros x x' H E; [exact E|].
  apply good_positions_inv in H. destruct H as [Hk [HN Hr]].
  pose proof (dct_kernel_shape x Hk HN norm) as Hs.
  rewrite !dct_kernels_cons. apply IH; [now rewrite Hs|].
  now apply dct_kernel_arr_congr.
Qed.

Lemma dct_each_kernels norm :
  forall axes ks x, canonical_axes x axes ks ->
    dct_each x axes norm = Ok (dct_kernels x ks norm).
Proof.
  induction axes as [|a axes IH]; intros ks x H;
    inversion H as [|? k ? ks' [Hc HN] Hr]; subst; [reflexivity|].
  pose proof (canonicalize_axis_ok _ _ Hc) as Hk.
  unfold dct_each. cbn [fold_left bind].
  rewrite (@dct_ok_kernel x a k norm Hc HN).
  apply (IH ks' (dct_kernel x k norm)).
  apply (canonical_axes_shape (x := x)); [|exact Hr].
  now apply dct_kernel_shape.
Qed.

Lemma idct_each_kernels norm :
  forall axes ks x, canonical_axes x axes ks ->
    idct_each x axes norm = Ok (idct_kernels x ks norm).
Proof.
  induction axes as [|a axes IH]; intros ks x H;
    inversion H as [|? k ? ks' [Hc HN] Hr]; subst; [reflexivity|].
  pose proof (canonicalize_axis_ok _ _ Hc) as Hk.
  unfold idct_each. cbn [fold_left bind].
  rewrite (@idct_ok_kernel x a k norm Hc HN).
  apply (IH ks' (idct_kernel x k norm)).
  apply (canonical_axes_shape (x := x)); [|exact Hr].
  now apply idct_kernel_shape.
Qed.

Lemma dct2_sequential_raw x a1 a2 k1 k2 norm :
  canonicalize_axis a1 (ndim x) = Ok k1 ->
  canonicalize_axis a2 (ndim x) = Ok k2 ->
  k1 <> k2 -> 0 < dim x k1 -> 0 < dim x k2 -> is_real x ->
  exists y,
    _dct2 x [a1; a2] norm = Ok y /\
    arr_eq y (dct_kernel (dct_kernel x k1 norm) k2 norm) /\
    arr_eq y (dct_kernel (dct_kernel x k2 norm) k1 norm).
Proof.
  intros Hc1 Hc2 Hne HN1 HN2 Hx.
  pose proof (canonicalize_axis_ok _ _ Hc1) as H1.
  pose proof (canonicalize_axis_ok _ _ Hc2) as H2.
  destruct (@dct2_equals_sequential x k1 k2 norm H1 H2 Hne HN1 HN2 Hx)
    as [y [Hy HE]].
  exists y. split; [|exact HE].
  rewrite <- Hy.
  rewrite (@dct2_unfold_gen x a1 a2 k1 k2 norm Hc1 Hc2 Hne HN1 HN2).
  rewrite (@dct2_unfold_gen x (Z.of_nat k1) (Z.of_nat k2) k1 k2 norm)
    by (try (now apply canonicalize_axis_nat); assumption).
  reflexivity.
Qed.

Lemma dctn_as_blocks x axes norm :
  dctn x 2 None (Some axes) norm
  = fold_left
      (fun acc blk => x <- acc ;; dctn_fuel 1 x 2 None (Some blk) norm)
      (axes_blocks axes) (Ok x).
Proof.
  rewrite dctn_eq. destruct axes as [|a [|b [|c l]]]; reflexivity.
Qed.

Lemma idctn_as_each x axes norm :
  idctn x 2 None (Some axes) norm = idct_each x axes norm.
Proof.
  destruct axes as [|a [|b l]]; reflexivity.
Qed.

Lemma dctn_blocks_sequential norm :
  forall axes ks x,
    canonical_axes x axes ks -> NoDup ks -> is_real x ->
    exists y,
      fold_left
        (fun acc blk => x <- acc ;; dctn_fuel 1 x 2 None (Some blk) norm)
        (axes_blocks axes) (Ok x) = Ok y /\
      arr_eq y (dct_kernels x ks norm).
Proof.
  induction axes as [|a|a1 a2 axes IH] using list_pair_ind;
    intros ks x H Hnd Hx.
  - inversion H; subst. exists x. split; [reflexivity|apply arr_eq_refl].
  - inversion H as [|? k ? ks' [Hc HN] Hr]; subst. inversion Hr; subst.
    exists (dct_kernel x k norm). split; [|apply arr_eq_refl].
    rewrite axes_blocks_one. cbn [fold_left bind].
    change (dctn_fuel 1 x 2 None (Some [a]) norm)
      with (dct x 2 None a norm).
    now apply dct_ok_kernel.
  - inversion H as [|? k1 ? ks1 [Hc1 HN1] Hr1]; subst.
    inversion Hr1 as [|? k2 ? ks2 [Hc2 HN2] Hr2]; subst.
    assert (Hne : k1 <> k2).
    { inversion Hnd as [|? ? Hin _]; subst. intros ->. apply Hin. now left. }
    assert (Hnd2 : NoDup ks2).
    { inversion Hnd as [|? ? _ Hn1]; subst. now inversion Hn1. }
    pose proof (canonicalize_axis_ok _ _ Hc1) as H1.
    pose proof (canonicalize_axis_ok _ _ Hc2) as H2.
    destruct (@dct2_sequential_raw x a1 a2 k1 k2 norm Hc1 Hc2 Hne HN1 HN2 Hx)
      as [y1 [Hy1 [E1 _]]].
    pose proof (dct_kernel_shape x H1 HN1 norm) as Hs1.
    assert (Hs2 : shape (dct_kernel (dct_kernel x k1 norm) k2 norm) = shape x).
    { rewrite dct_kernel_shape; [exact Hs1| |].
      - now rewrite (ndim_shape_eq _ _ Hs1).
      - now rewrite (dim_shape_eq _ _ k2 Hs1). }
    assert (Hsy : shape y1 = shape x).
    { destruct E1 as [_ [E _]]. congruence. }
    assert (Hry : is_real y1).
    { apply (arr_eq_is_real (arr_eq_sym E1)).
      apply dct_kernel_real_output.
      - now rewrite (ndim_shape_eq _ _ Hs1).
      - now rewrite (dim_shape_eq _ _ k2 Hs1). }
    destruct (IH ks2 y1 (@canonical_axes_shape x y1 axes ks2 Hsy Hr2) Hnd2 Hry)
      as [y [Hy Ey]].
    exists y. split.
    + rewrite axes_blocks_cons2. cbn [fold_left bind].
      change (dctn_fuel 1 x 2 None (Some [a1; a2]) norm)
        with (_dct2 x [a1; a2] norm).
      rewrite Hy1. exact Hy.
    + apply (arr_eq_trans Ey). rewrite !dct_kernels_cons.
      apply dct_kernels_congr; [|exact E1].
      rewrite Hsy. exact (@canonical_axes_good x axes ks2 Hr2).
Qed.

(** X8: [dctn] over any number of axes is [dct] along each of them in
    turn.  For a real array, axes that canonicalize to distinct positions
    of positive length and [s] unset, [dctn] (whether it goes through
    [dct], through [_dct2] or through the loop over blocks of two axes)
    returns the array that successive calls of [dct] return: same dtype,
    shape and values. *)
Theorem X8_dctn_is_sequential_dct :
  forall (x : Array C) (axes : list Z) (ks : list nat) (norm : option string),
    is_real x ->
    canonical_axes x axes ks ->
    NoDup ks ->
    exists y z,
      dctn x 2 None (Some axes) norm = Ok y /\
      dct_each x axes norm = Ok z /\
      arr_eq y z.
Proof.
  intros x axes ks norm Hx Hc Hnd.
  destruct (@dctn_blocks_sequential norm axes ks x Hc Hnd Hx) as [y [Hy E]].
  exists y, (dct_kernels x ks norm). split; [|split].
  - rewrite dctn_as_blocks. exact Hy.
  - now apply dct_each_kernels.
  - exact E.
Qed.

Lemma X8_witness :
  let x := mkArray Float32 [2; 3; 2]
             (fun idx => RtoC (INR (at_ 0 idx + 2 * at_ 1 idx + at_ 2 idx))) in
  is_real x /\
  canonical_axes x [0; -1; 1]%Z [0; 2; 1] /\
  NoDup [0; 2; 1] /\
  exists y z,
    dctn x 2 None (Some [0; -1; 1]%Z) (Some "ortho"%string) = Ok y /\
    dct_each x [0; -1; 1]%Z (Some "ortho"%string) = Ok z /\
    arr_eq y z.
Proof.
  intros x.
  assert (H1 : is_real x) by (intros idx _; reflexivity).
  assert (H2 : canonical_axes x [0; -1; 1]%Z [0; 2; 1]).
  { repeat constructor; unfold dim, at_; simpl; lia. }
  assert (H3 : NoDup [0; 2; 1]).
  { repeat constructor; simpl; intuition lia. }
  split; [exact H1|]. split; [exact H2|]. split; [exact H3|].
  exact (@X8_dctn_is_sequential_dct x [0; -1; 1]%Z [0; 2; 1]
           (Some "ortho"%string) H1 H2 H3).
Defined.

Lemma dct_kernel_comm x a b norm :
  a < ndim x -> b < ndim x -> a <> b ->
  0 < dim x a -> 0 < dim x b -> is_real x ->
  arr_eq (dct_kernel (dct_kernel x a norm) b norm)
         (dct_kernel (dct_kernel x b norm) a norm).
Proof.
  intros Ha Hb Hne HNa HNb Hx.
  destruct (@dct2_equals_sequential x a b norm Ha Hb Hne HNa HNb Hx)
    as [y [_ [E1 E2]]].
  exact (arr_eq_trans (arr_eq_sym E1) E2).
Qed.

Lemma dct_kernels_push norm a :
  forall ks x,
    is_real x -> a < ndim x -> 0 < dim x a ->
    good_positions (shape x) ks -> ~ In a ks ->
    arr_eq (dct_kernels (dct_kernel x a norm) ks norm)
           (dct_kernel (dct_kernels x ks norm) a norm).
Proof.
  induction ks as [|b ks IH]; intros x Hx Ha HN Hg Hin;
    [apply arr_eq_refl|].
  apply good_positions_inv in Hg. destruct Hg as [Hb [HNb Hr]].
  assert (Hne : a <> b) by (intros ->; apply Hin; now left).
  pose proof (dct_kernel_shape x Ha HN norm) as Hsa.
  pose proof (dct_kernel_shape x Hb HNb norm) as Hsb.
  rewrite !dct_kernels_cons.
  apply (@arr_eq_trans _ _
           (dct_kernels (dct_kernel (dct_kernel x b norm) a norm) ks norm)).
  - apply dct_kernels_congr.
    + rewrite dct_kernel_shape, Hsa;
        [exact Hr|now rewrite (ndim_shape_eq _ _ Hsa)
        |now rewrite (dim_shape_eq _ _ b Hsa)].
    + now apply dct_kernel_comm.
  - apply IH.
    + now apply dct_kernel_real_output.
    + now rewrite (ndim_shape_eq _ _ Hsb).
    + now rewrite (dim_shape_eq _ _ a Hsb).
    + now rewrite Hsb.
    + intros H. apply Hin. now right.
Qed.

Lemma idct_kernels_congr ks norm :
  forall x x', good_positions (shape x) ks -> same_values x' x ->
    same_values (idct_kernels x' ks norm) (idct_kernels x ks norm).
Proof.
  induction ks as [|k ks IH]; intros x x' H E; [exact E|].
  apply good_positions_inv in H. destruct H as [Hk [HN Hr]].
  pose proof (idct_kernel_shape x norm Hk HN) as Hs.
  rewrite !idct_kernels_cons. apply IH; [now rewrite Hs|].
  apply arr_eq_same_values. destruct E as [Es Ev].
  apply idct_kernel_re_congr; try assumption.
  intros idx Hv. rewrite Ev; [reflexivity|]. now rewrite Es.
Qed.

Lemma roundtrip_kernels norm :
  norm = None \/ norm = Some "ortho"%string ->
  forall ks x,
    is_real x -> good_positions (shape x) ks -> NoDup ks ->
    same_values (idct_kernels (dct_kernels x ks norm) ks norm) x.
Proof.
  intros Hn.
  induction ks as [|a ks IH]; intros x Hx Hg Hnd.
  - split; [reflexivity|]. intros idx _. reflexivity.
  - pose proof Hg as Hg'.
    apply good_positions_inv in Hg. destruct Hg as [Ha [HN Hr]].
    inversion Hnd as [|? ? Hin Hnd']; subst.
    pose proof (@dct_kernels_shape ks norm x Hr) as Hsk.
    pose proof (@dct_kernels_is_real ks norm x Hr Hx) as Hrk.
    assert (Hak : a < ndim (dct_kernels x ks norm))
      by now rewrite (ndim_shape_eq _ _ Hsk).
    assert (HNk : 0 < dim (dct_kernels x ks norm) a)
      by now rewrite (dim_shape_eq _ _ a Hsk).
    pose proof (dct_kernel_shape _ Hak HNk norm) as Hsd.
    rewrite dct_kernels_cons, idct_kernels_cons.
    apply (@same_values_trans _ _
             (idct_kernels (dct_kernels x ks norm) ks norm));
      [|now apply IH].
    apply idct_kernels_congr; [now rewrite Hsk|].
    apply (@same_values_trans _ _
             (idct_kernel (dct_kernel (dct_kernels x ks norm) a norm)
                a norm));
      [|now apply roundtrip_kernel].
    apply arr_eq_same_values.
    pose proof (@dct_kernels_push norm a ks x Hx Ha HN Hr Hin) as E.
    destruct E as [_ [Es Ev]].
    apply idct_kernel_re_congr.
    + now rewrite (ndim_shape_eq _ _ Hsd), (ndim_shape_eq _ _ Hsk).
    + now rewrite (dim_shape_eq _ _ a Hsd), (dim_shape_eq _ _ a Hsk).
    + exact Es.
    + intros idx Hv. rewrite Ev; [reflexivity|]. now rewrite Es.
Qed.

Lemma roundtrip_axes x axes ks norm :
  is_real x -> canonical_axes x axes ks -> NoDup ks ->
  norm = None \/ norm = Some "ortho"%string ->
  exists y z,
    dctn x 2 None (Some axes) norm = Ok y /\
    idctn y 2 None (Some axes) norm = Ok z /\
    shape y = shape x /\
    same_values z x.
Proof.
  intros Hx Hc Hnd Hn.
  pose proof (canonical_axes_good Hc) as Hg.
  destruct (@dctn_blocks_sequential norm axes ks x Hc Hnd Hx) as [y [Hy E]].
  pose proof (@dct_kernels_shape ks norm x Hg) as Hsk.
  assert (Hsy : shape y = shape x).
  { destruct E as [_ [Es _]]. congruence. }
  exists y, (idct_kernels y ks norm). split; [|split; [|split]].
  - rewrite dctn_as_blocks. exact Hy.
  - rewrite idctn_as_each. apply idct_each_kernels.
    exact (@canonical_axes_shape x y axes ks Hsy Hc).
  - exact Hsy.
  - apply (@same_values_trans _ _
             (idct_kernels (dct_kernels x ks norm) ks norm));
      [|now apply roundtrip_kernels].
    apply idct_kernels_congr; [now rewrite Hsk|].
    now apply arr_eq_same_values.
Qed.

(** X9: [idctn] undoes [dctn] over any number of axes.  For a real
    array, axes that canonicalize to distinct positions of positive
    length, [s] unset and the same [norm] (unset or ['ortho']) in both
    calls, [idctn] of [dctn] of the array returns the values of the
    array. *)
Theorem X9_dctn_idctn_roundtrip :
  forall (x : Array C) (axes : list Z) (ks : list nat) (norm : option string),
    is_real x ->
    canonical_axes x axes ks ->
    NoDup ks ->
    norm = None \/ norm = Some "ortho"%string ->
    exists y z,
      dctn x 2 None (Some axes) norm = Ok y /\
      idctn y 2 None (Some axes) norm = Ok z /\
      same_values z x.
Proof.
  intros x axes ks norm Hx Hc Hnd Hn.
  destruct (roundtrip_axes Hx Hc Hnd Hn) as [y [z [Hy [Hz [_ E]]]]].
  now exists y, z.
Qed.

Lemma X9_witness :
  let x := mkArray Float32 [2; 3; 2]
             (fun idx => RtoC (INR (at_ 0 idx + 2 * at_ 1 idx + at_ 2 idx))) in
  is_real x /\
  canonical_axes x [0; -1; 1]%Z [0; 2; 1] /\
  NoDup [0; 2; 1] /\
  exists y z,
    dctn x 2 None (Some [0; -1; 1]%Z) None = Ok y /\
    idctn y 2 None (Some [0; -1; 1]%Z) None = Ok z /\
    same_values z x.
Proof.
  intros x.
  assert (H1 : is_real x) by (intros idx _; reflexivity).
  assert (H2 : canonical_axes x [0; -1; 1]%Z [0; 2; 1]).
  { repeat constructor; unfold dim, at_; simpl; lia. }
  assert (H3 : NoDup [0; 2; 1]).
  { repeat constructor; simpl; intuition lia. }
  split; [exact H1|]. split; [exact H2|]. split; [exact H3|].
  exact (@X9_dctn_idctn_roundtrip x [0; -1; 1]%Z [0; 2; 1] None H1 H2 H3
           (or_introl eq_refl)).
Defined.

(* ================================================================== *)
(** * The length [n] of [dct] and [idct] *)
(* ================================================================== *)

Lemma valid_indexb_upd sh a m idx j :
  a < length sh -> valid_index (upd a m sh) idx ->
  valid_indexb sh (upd a j idx) = (j <? at_ a sh).
Proof.
  intros Ha Hv.
  destruct (valid_index_upd_inv _ _ Hv Ha) as [_ Hin].
  pose proof (valid_index_length Hv) as Hl. rewrite upd_length in Hl.
  destruct (Nat.ltb_spec j (at_ a sh)) as [Hj|Hj].
  - apply valid_indexb_spec. now apply Hin.
  - destruct (valid_indexb sh (upd a j idx)) eqn:E; [|reflexivity].
    apply valid_indexb_spec in E.
    pose proof (valid_index_at E Ha) as Hlt.
    rewrite at_upd_same in Hlt by (rewrite Hl; exact Ha). lia.
Qed.

(** The line through [idx] along axis [a], cut or continued with zeros. *)
Lemma padded_lane x y a m idx j :
  a < ndim x ->
  shape y = upd a m (shape x) ->
  (forall idx, length idx = ndim x ->
     data y idx = if valid_indexb (shape x) idx then data x idx else C0) ->
  valid_index (shape y) idx ->
  lane y a idx j = if j <? dim x a then lane x a idx j else 0%R.
Proof.
  intros Ha Hs Hd Hv. rewrite Hs in Hv.
  pose proof (valid_index_length Hv) as Hl. rewrite upd_length in Hl.
  unfold lane. rewrite Hd by (rewrite upd_length; exact Hl).
  rewrite (@valid_indexb_upd (shape x) a m idx j Ha Hv). fold (dim x a).
  now destruct (j <? dim x a).
Qed.

Lemma dctIII_ext N w X X' m :
  (forall k, k < N -> X k = X' k) -> dctIII N w X m = dctIII N w X' m.
Proof.
  intros H. unfold dctIII. apply Rsum_ext. intros k Hk. now rewrite H.
Qed.

Lemma idct_with_length x n axis a norm :
  canonicalize_axis axis (ndim x) = Ok a ->
  idct x 2 (Some n) axis norm
  = x' <- pad_axis_to x a n ;; nonempty_axis x' a (idct_kernel x' a norm).
Proof.
  intros H. rewrite idct_eq. cbn [Z.eqb Pos.eqb negb].
  rewrite H. reflexivity.
Qed.

(** X10: the length [n] of [dct].  For a real array, a valid axis of
    length [N] and [n = m > 0], [dct] returns along the axis the [m]
    coefficients of the DCT-II of length [m] of the sequence
    [x[0], ..., x[min(m, N) - 1]] continued with zeros; the other axes
    keep their lengths. *)
Theorem X10_dct_with_length :
  forall (x : Array C) (axis : Z) (a m : nat) (norm : option string),
    is_real x ->
    canonicalize_axis axis (ndim x) = Ok a ->
    0 < m ->
    exists y,
      dct x 2 (Some (Z.of_nat m)) axis norm = Ok y /\
      shape y = upd a m (shape x) /\
      forall idx, valid_index (shape y) idx ->
        data y idx
        = RtoC (dctII m
                  (fun j => if j <? dim x a then lane x a idx j else 0%R)
                  (at_ a idx)
                / norm_scale norm m (at_ a idx))%R.
Proof.
  intros x axis a m norm Hx Hc Hm.
  pose proof (canonicalize_axis_ok _ _ Hc) as Ha.
  destruct (@pad_axis_to_spec x a (Z.of_nat m) Ha (Nat2Z.is_nonneg m))
    as [x1 [Hp [Hd1 [Hs1 Hv1]]]].
  rewrite Nat2Z.id in Hs1.
  assert (Hn1 : ndim x1 = ndim x)
    by (unfold ndim; now rewrite Hs1, upd_length).
  assert (Ha1 : a < ndim x1) by now rewrite Hn1.
  assert (HN1 : dim x1 a = m)
    by (unfold dim; rewrite Hs1; now apply at_upd_same).
  assert (HN1' : 0 < dim x1 a) by now rewrite HN1.
  assert (Hx1 : is_real x1).
  { apply (@padded_is_real x x1 Hx); [|exact Hv1].
    now rewrite Hs1, upd_length. }
  exists (dct_kernel x1 a norm). split; [|split].
  - rewrite (@dct_with_length x (Z.of_nat m) axis a norm Hc), Hp.
    cbn [bind]. now apply nonempty_axis_ok.
  - now rewrite dct_kernel_shape.
  - intros idx Hv. rewrite dct_kernel_shape in Hv by assumption.
    rewrite dct_kernel_textbook by assumption.
    rewrite HN1. do 2 f_equal.
    apply dctII_ext. intros j Hj.
    now apply (@padded_lane x x1 a m idx j).
Qed.

Lemma X10_witness :
  let x := of_list Float32 C0 (map RtoC [1; 2; 3]%R) in
  is_real x /\
  canonicalize_axis (-1) (ndim x) = Ok 0 /\
  0 < 5 /\
  exists y,
    dct x 2 (Some (Z.of_nat 5)) (-1) None = Ok y /\
    shape y = upd 0 5 (shape x) /\
    forall idx, valid_index (shape y) idx ->
      data y idx
      = RtoC (dctII 5
                (fun j => if j <? dim x 0 then lane x 0 idx j else 0%R)
                (at_ 0 idx)
              / norm_scale None 5 (at_ 0 idx))%R.
Proof.
  intros x.
  assert (H1 : is_real x) by apply of_list_is_real.
  assert (H2 : canonicalize_axis (-1) (ndim x) = Ok 0) by reflexivity.
  assert (H3 : 0 < 5) by lia.
  split; [exact H1|]. split; [exact H2|]. split; [exact H3|].
  exact (@X10_dct_with_length x (-1)%Z 0 5 None H1 H2 H3).
Defined.

(** X11: the length [n] of [idct].  For a valid axis of length [N] and
    [n = m > 0], [idct] returns along the axis the [m] values of the
    weighted DCT-III of length [m] of the coefficients
    [X[0], ..., X[min(m, N) - 1]] continued with zeros; the other axes
    keep their lengths. *)
Theorem X11_idct_with_length :
  forall (x : Array C) (axis : Z) (a m : nat) (norm : option string),
    canonicalize_axis axis (ndim x) = Ok a ->
    0 < m ->
    exists y,
      idct x 2 (Some (Z.of_nat m)) axis norm = Ok y /\
      shape y = upd a m (shape x) /\
      forall idx, valid_index (shape y) idx ->
        data y idx
        = RtoC (dctIII m (idct_weight m norm)
                  (fun j => if j <? dim x a then lane x a idx j else 0%R)
                  (at_ a idx)).
Proof.
  intros x axis a m norm Hc Hm.
  pose proof (canonicalize_axis_ok _ _ Hc) as Ha.
  destruct (@pad_axis_to_spec x a (Z.of_nat m) Ha (Nat2Z.is_nonneg m))
    as [x1 [Hp [Hd1 [Hs1 Hv1]]]].
  rewrite Nat2Z.id in Hs1.
  assert (Hn1 : ndim x1 = ndim x)
    by (unfold ndim; now rewrite Hs1, upd_length).
  assert (Ha1 : a < ndim x1) by now rewrite Hn1.
  assert (HN1 : dim x1 a = m)
    by (unfold dim; rewrite Hs1; now apply at_upd_same).
  assert (HN1' : 0 < dim x1 a) by now rewrite HN1.
  exists (idct_kernel x1 a norm). split; [|split].
  - rewrite (@idct_with_length x (Z.of_nat m) axis a norm Hc), Hp.
    cbn [bind]. now apply nonempty_axis_ok.
  - now rewrite idct_kernel_shape.
  - intros idx Hv. rewrite idct_kernel_shape in Hv by assumption.
    rewrite idct_kernel_textbook by assumption.
    rewrite HN1. f_equal.
    apply dctIII_ext. intros j Hj.
    now apply (@padded_lane x x1 a m idx j).
Qed.

Lemma X11_witness :
  let x := of_list Float32 C0 (map RtoC [1; 2; 3]%R) in
  canonicalize_axis (-1) (ndim x) = Ok 0 /\
  0 < 2 /\
  exists y,
    idct x 2 (Some (Z.of_nat 2)) (-1) None = Ok y /\
    shape y = upd 0 2 (shape x) /\
    forall idx, valid_index (shape y) idx ->
      data y idx
      = RtoC (dctIII 2 (idct_weight 2 None)
                (fun j => if j <? dim x 0 then lane x 0 idx j else 0%R)
                (at_ 0 idx)).
Proof.
  intros x.
  assert (H2 : canonicalize_axis (-1) (ndim x) = Ok 0) by reflexivity.
  assert (H3 : 0 < 2) by lia.
  split; [exact H2|]. split; [exact H3|].
  exact (@X11_idct_with_length x (-1)%Z 0 2 None H2 H3).
Defined.

Lemma pad_to_own_length x a :
  a < ndim x ->
  exists y, pad_axis_to x a (Z.of_nat (dim x a)) = Ok y /\ arr_eq y x.
Proof.
  intros Ha.
  destruct (@pad_axis_to_spec x a (Z.of_nat (dim x a)) Ha
              (Nat2Z.is_nonneg _)) as [y [Hp [Hd [Hs Hv]]]].
  rewrite Nat2Z.id in Hs. unfold dim in Hs. rewrite upd_at_id in Hs.
  exists y. split; [exact Hp|]. split; [exact Hd|]. split; [exact Hs|].
  intros idx Hi. rewrite Hs in Hi.
  rewrite Hv by (apply valid_index_length; exact Hi).
  now rewrite (proj2 (valid_indexb_spec _ _) Hi).
Qed.

(** X12: [n] defaults to the length of the axis.  Along a valid axis of
    positive length [N], [dct] and [idct] called with [n = N] return
    what they return with [n] unset: same dtype, shape and values. *)
Theorem X12_length_of_axis_is_default :
  forall (x : Array C) (axis : Z) (a : nat) (norm : option string),
    canonicalize_axis axis (ndim x) = Ok a ->
    0 < dim x a ->
    exists y y' z z',
      dct x 2 (Some (Z.of_nat (dim x a))) axis norm = Ok y /\
      dct x 2 None axis norm = Ok y' /\
      arr_eq y y' /\
      idct x 2 (Some (Z.of_nat (dim x a))) axis norm = Ok z /\
      idct x 2 None axis norm = Ok z' /\
      arr_eq z z'.
Proof.
  intros x axis a norm Hc HN.
  pose proof (canonicalize_axis_ok _ _ Hc) as Ha.
  destruct (pad_to_own_length x Ha) as [x1 [Hp E]].
  pose proof E as [Hd [Hs Hv]].
  assert (Ha1 : a < ndim x1) by now rewrite (ndim_shape_eq _ _ Hs).
  assert (HN1 : 0 < dim x1 a) by now rewrite (dim_shape_eq _ _ a Hs).
  exists (dct_kernel x1 a norm), (dct_kernel x a norm),
         (idct_kernel x1 a norm), (idct_kernel x a norm).
  split; [|split; [|split; [|split; [|split]]]].
  - rewrite (@dct_with_length x _ axis a norm Hc), Hp.
    cbn [bind]. now apply nonempty_axis_ok.
  - now apply dct_ok_kernel.
  - now apply dct_kernel_arr_congr.
  - rewrite (@idct_with_length x _ axis a norm Hc), Hp.
    cbn [bind]. now apply nonempty_axis_ok.
  - now apply idct_ok_kernel.
  - apply idct_kernel_re_congr; try assumption.
    intros idx Hi. rewrite Hv; [reflexivity|]. now rewrite Hs.
Qed.

Lemma X12_witness :
  let x := of_list Float32 C0 (map RtoC [1; 2; 3]%R) in
  canonicalize_axis (-1) (ndim x) = Ok 0 /\
  0 < dim x 0 /\
  exists y y' z z',
    dct x 2 (Some (Z.of_nat (dim x 0))) (-1) None = Ok y /\
    dct x 2 None (-1) None = Ok y' /\
    arr_eq y y' /\
    idct x 2 (Some (Z.of_nat (dim x 0))) (-1) None = Ok z /\
    idct x 2 None (-1) None = Ok z' /\
    arr_eq z z'.
Proof.
  intros x.
  assert (H2 : canonicalize_axis (-1) (ndim x) = Ok 0) by reflexivity.
  assert (H3 : 0 < dim x 0) by (unfold dim, at_; simpl; lia).
  split; [exact H2|]. split; [exact H3|].
  exact (@X12_length_of_axis_is_default x (-1)%Z 0 None H2 H3).
Defined.

Lemma pad_config_negative (n : Z) (m : nat) :
  (n < 0)%Z ->
  pad_config_ok (0, n - Z.of_nat m, 0)%Z m = false.
Proof.
  intros Hn. unfold pad_config_ok, pad_dim, dilated.
  destruct (Nat.eqb_spec m 0) as [->|Hm]; cbn [Z.leb andb];
    apply Z.leb_gt; lia.
Qed.

Lemma pad_axis_negative sh a (n : Z) :
  (n < 0)%Z ->
  forall p, p <= a -> a - p < length sh ->
    forallb2 pad_config_ok
      (map (fun a' => (0, if (a' =? a)%nat
                          then n - Z.of_nat (at_ (a - p) sh) else 0, 0)%Z)
         (seq p (length sh)))
      sh = false.
Proof.
  intros Hn.
  induction sh as [|m sh IH]; intros p Hp Ha; cbn [length] in *; [lia|].
  cbn [seq map forallb2].
  destruct (Nat.eqb_spec p a) as [->|Hne].
  - rewrite Nat.sub_diag. change (at_ 0 (m :: sh)) with m.
    now rewrite pad_config_negative.
  - replace (a - p) with (S (a - S p)) by lia.
    change (at_ (S (a - S p)) (m :: sh)) with (at_ (a - S p) sh).
    rewrite IH by lia. apply andb_false_r.
Qed.

Lemma pad_axis_to_negative x a (n : Z) :
  a < ndim x -> (n < 0)%Z -> pad_axis_to x a n = Raise ValueError.
Proof.
  intros Ha Hn. unfold pad_axis_to, lax_pad.
  rewrite length_map, length_seq, Nat.eqb_refl. cbn [negb].
  pose proof (@pad_axis_negative (shape x) a n Hn 0 (Nat.le_0_l a)) as G.
  rewrite Nat.sub_0_r in G. unfold dim, ndim.
  now rewrite G.
Qed.

(** X13: a negative length is refused.  With a valid axis and [n < 0],
    [dct] and [idct] raise the [ValueError] of [lax.pad] (the padded axis
    would have a negative length) instead of cutting the input. *)
Theorem X13_negative_length_is_refused :
  forall (x : Array C) (n : Z) (axis : Z) (a : nat) (norm : option string),
    canonicalize_axis axis (ndim x) = Ok a ->
    (n < 0)%Z ->
    dct x 2 (Some n) axis norm = Raise ValueError /\
    idct x 2 (Some n) axis norm = Raise ValueError.
Proof.
  intros x n axis a norm Hc Hn.
  pose proof (canonicalize_axis_ok _ _ Hc) as Ha.
  rewrite (@dct_with_length x n axis a norm Hc),
    (@idct_with_length x n axis a norm Hc),
    (@pad_axis_to_negative x a n Ha Hn).
  split; reflexivity.
Qed.

Lemma X13_witness :
  let x := of_list Float32 C0 (map RtoC [1; 2; 3]%R) in
  canonicalize_axis 0 (ndim x) = Ok 0 /\
  (-1 < 0)%Z /\
  dct x 2 (Some (-1)%Z) 0 None = Raise ValueError /\
  idct x 2 (Some (-1)%Z) 0 None = Raise ValueError.
Proof.
  intros x.
  assert (H2 : canonicalize_axis 0 (ndim x) = Ok 0) by reflexivity.
  assert (H3 : (-1 < 0)%Z) by lia.
  split; [exact H2|]. split; [exact H3|].
  exact (@X13_negative_length_is_refused x (-1)%Z 0%Z 0 None H2 H3).
Defined.

(* ================================================================== *)
(** * Argument checks *)
(* ================================================================== *)

(** X14: only type 2 is implemented, and the type is checked first.  With
    [type <> 2] each of [dct], [idct], [dctn] and [idctn] raises
    [NotImplementedError], whatever the array, the lengths, the axes
    (valid or not) and [norm]. *)
Theorem X14_only_type_2 :
  forall (x : Array C) (type : Z) (n : option Z) (axis : Z)
         (s axes : option (list Z)) (norm : option string),
    type <> 2%Z ->
    dct x type n axis norm = Raise NotImplementedError /\
    idct x type n axis norm = Raise NotImplementedError /\
    dctn x type s axes norm = Raise NotImplementedError /\
    idctn x type s axes norm = Raise NotImplementedError.
Proof.
  intros x type n axis s axes norm Ht.
  apply Z.eqb_neq in Ht.
  rewrite dct_eq, idct_eq, dctn_eq. unfold idctn. rewrite Ht.
  repeat split; reflexivity.
Qed.

Lemma X14_witness :
  let x := of_list Float32 C0 (map RtoC [1; 2; 3]%R) in
  3%Z <> 2%Z /\
  dct x 3 None 7 None = Raise NotImplementedError /\
  idct x 3 None 7 None = Raise NotImplementedError /\
  dctn x 3 None (Some [7%Z]) None = Raise NotImplementedError /\
  idctn x 3 None (Some [7%Z]) None = Raise NotImplementedError.
Proof.
  intros x.
  assert (H : 3%Z <> 2%Z) by lia.
  split; [exact H|].
  exact (@X14_only_type_2 x 3%Z None 7%Z None (Some [7%Z]) None H).
Defined.

(** X15: an axis outside [[-ndim, ndim - 1]] is refused by [dct] and
    [idct] with the [ValueError] of [canonicalize_axis], before the
    length [n] is looked at. *)
Theorem X15_axis_out_of_range :
  forall (x : Array C) (n : option Z) (axis : Z) (norm : option string),
    axis_out_of_range (ndim x) axis ->
    dct x 2 n axis norm = Raise ValueError /\
    idct x 2 n axis norm = Raise ValueError.
Proof.
  intros x n axis norm Hb.
  rewrite dct_eq, idct_eq. cbn [Z.eqb Pos.eqb negb].
  rewrite (@canonicalize_axis_bad axis (ndim x) Hb). split; reflexivity.
Qed.

Lemma X15_witness :
  let x := of_list Float32 C0 (map RtoC [1; 2; 3]%R) in
  axis_out_of_range (ndim x) 1 /\
  dct x 2 (Some (-4)%Z) 1 None = Raise ValueError /\
  idct x 2 (Some (-4)%Z) 1 None = Raise ValueError.
Proof.
  intros x.
  assert (H : axis_out_of_range (ndim x) 1)
    by (right; unfold ndim; simpl; lia).
  split; [exact H|].
  exact (@X15_axis_out_of_range x (Some (-4)%Z) 1%Z None H).
Defined.

(* ================================================================== *)
(** * The helpers: [_dct_interleave], [_dct_deinterleave] and [_W4] *)
(* ================================================================== *)

(** X16: where [_dct_interleave] puts each element.  Along the axis, of
    length [N], the element at the even position [2 i] moves to position
    [i] and the element at the odd position [2 i + 1] moves to position
    [N - 1 - i]: the even positions come first in order, the odd ones
    follow in reverse.  Dtype and shape are kept. *)
Theorem X16_interleave_positions :
  forall (A : Type) (x : Array A) (a : nat) (idx : Index) (i : nat),
    a < ndim x ->
    valid_index (shape x) idx ->
    dtype (_dct_interleave x a) = dtype x /\
    shape (_dct_interleave x a) = shape x /\
    (2 * i < dim x a ->
     data (_dct_interleave x a) (upd a i idx)
     = data x (upd a (2 * i) idx)) /\
    (2 * i + 1 < dim x a ->
     data (_dct_interleave x a) (upd a (dim x a - 1 - i) idx)
     = data x (upd a (2 * i + 1) idx)).
Proof.
  intros A x a idx i Ha Hv.
  pose proof (valid_index_length Hv) as Hl.
  assert (Hla : a < length idx) by (rewrite Hl; exact Ha).
  split; [apply interleave_dtype|]. split; [apply interleave_shape|].
  split; intros Hi;
    rewrite interleave_data by (rewrite ?upd_length; assumption);
    rewrite at_upd_same, upd_upd_same by assumption;
    f_equal; f_equal; unfold interleave_src, ceil_half.
  - destruct (Nat.ltb_spec i ((dim x a + 1) / 2)); lia.
  - destruct (Nat.ltb_spec (dim x a - 1 - i) ((dim x a + 1) / 2)); lia.
Qed.

Lemma X16_witness :
  let x := of_list Int32 0%Z [10; 11; 12; 13; 14]%Z in
  0 < ndim x /\
  valid_index (shape x) [0] /\
  dtype (_dct_interleave x 0) = dtype x /\
  shape (_dct_interleave x 0) = shape x /\
  (2 * 1 < dim x 0 ->
   data (_dct_interleave x 0) (upd 0 1 [0]) = data x (upd 0 (2 * 1) [0])) /\
  (2 * 1 + 1 < dim x 0 ->
   data (_dct_interleave x 0) (upd 0 (dim x 0 - 1 - 1) [0])
   = data x (upd 0 (2 * 1 + 1) [0])).
Proof.
  intros x.
  assert (H1 : 0 < ndim x) by (unfold ndim; simpl; lia).
  assert (H2 : valid_index (shape x) [0]) by (repeat constructor).
  split; [exact H1|]. split; [exact H2|].
  exact (@X16_interleave_positions Z x 0 [0] 1 H1 H2).
Defined.

(** X17: where [_dct_deinterleave] puts each element.  Along the axis,
    of length [N], the element at position [i] of the first half moves to
    the even position [2 i] and the element at position [N - 1 - i] moves
    to the odd position [2 i + 1].  Every position of the result is
    written: nothing of the [jnp.zeros] array it starts from is left,
    whatever the filler.  Dtype and shape are kept. *)
Theorem X17_deinterleave_positions :
  forall (A : Type) (zero zero' : A) (x : Array A) (a : nat) (idx : Index)
         (i : nat),
    a < ndim x ->
    valid_index (shape x) idx ->
    dtype (_dct_deinterleave zero x a) = dtype x /\
    shape (_dct_deinterleave zero x a) = shape x /\
    (2 * i < dim x a ->
     data (_dct_deinterleave zero x a) (upd a (2 * i) idx)
     = data x (upd a i idx)) /\
    (2 * i + 1 < dim x a ->
     data (_dct_deinterleave zero x a) (upd a (2 * i + 1) idx)
     = data x (upd a (dim x a - 1 - i) idx)) /\
    arr_eq (_dct_deinterleave zero x a) (_dct_deinterleave zero' x a).
Proof.
  intros A zero zero' x a idx i Ha Hv.
  pose proof (valid_index_length Hv) as Hl.
  assert (Hla : a < length idx) by (rewrite Hl; exact Ha).
  split; [apply deinterleave_dtype|]. split; [apply deinterleave_shape|].
  split; [|split].
  - intros Hi.
    rewrite deinterleave_data
      by (assumption || (apply valid_index_upd_same_shape; assumption)).
    rewrite at_upd_same, upd_upd_same by assumption.
    f_equal; f_equal. unfold deinterleave_src.
    destruct (Nat.eqb_spec ((2 * i) mod 2) 0); lia.
  - intros Hi.
    rewrite deinterleave_data
      by (assumption || (apply valid_index_upd_same_shape; assumption)).
    rewrite at_upd_same, upd_upd_same by assumption.
    f_equal; f_equal. unfold deinterleave_src.
    destruct (Nat.eqb_spec ((2 * i + 1) mod 2) 0); lia.
  - split; [|split].
    + now rewrite !deinterleave_dtype.
    + now rewrite !deinterleave_shape.
    + intros j Hj. rewrite deinterleave_shape in Hj.
      now rewrite !deinterleave_data by assumption.
Qed.

Lemma X17_witness :
  let x := of_list Int32 0%Z [10; 12; 14; 13; 11]%Z in
  0 < ndim x /\
  valid_index (shape x) [0] /\
  dtype (_dct_deinterleave 0%Z x 0) = dtype x /\
  shape (_dct_deinterleave 0%Z x 0) = shape x /\
  (2 * 1 < dim x 0 ->
   data (_dct_deinterleave 0%Z x 0) (upd 0 (2 * 1) [0])
   = data x (upd 0 1 [0])) /\
  (2 * 1 + 1 < dim x 0 ->
   data (_dct_deinterleave 0%Z x 0) (upd 0 (2 * 1 + 1) [0])
   = data x (upd 0 (dim x 0 - 1 - 1) [0])) /\
  arr_eq (_dct_deinterleave 0%Z x 0) (_dct_deinterleave 7%Z x 0).
Proof.
  intros x.
  assert (H1 : 0 < ndim x) by (unfold ndim; simpl; lia).
  assert (H2 : valid_index (shape x) [0]) by (repeat constructor).
  split; [exact H1|]. split; [exact H2|].
  exact (@X17_deinterleave_positions Z 0%Z 7%Z x 0 [0] 1 H1 H2).
Defined.

Section TwiddleFactors.

Open Scope R_scope.

(** X18: the twiddle factors.  For [N > 0] and a real array [k],
    [_W4(N, k)] has the shape of [k] and holds
    [exp(-i pi k / (2 N)) = cos(pi k / (2 N)) - i sin(pi k / (2 N))], a
    number of modulus one whose inverse is the element of [_W4(N, -k)]
    at the same position. *)
Theorem X18_W4_values :
  forall (N : nat) (k : Array C) (idx : Index),
    (0 < N)%nat ->
    is_real k ->
    valid_index (shape k) idx ->
    shape (_W4 N k) = shape k /\
    data (_W4 N k) idx
    = mkC (cos (PI * re (data k idx) / (2 * INR N)))
          (- sin (PI * re (data k idx) / (2 * INR N))) /\
    Cnorm2 (data (_W4 N k) idx) = 1 /\
    Cmul (data (_W4 N k) idx) (data (_W4 N (jnp_negative k)) idx) = RtoC 1.
Proof.
  intros N k idx HN Hk Hv.
  assert (E : data (_W4 N k) idx
              = mkC (cos (PI * re (data k idx) / (2 * INR N)))
                    (- sin (PI * re (data k idx) / (2 * INR N)))).
  { rewrite W4_data by assumption. apply twiddle_val; [assumption|].
    now apply Hk. }
  assert (E' : data (_W4 N (jnp_negative k)) idx
               = mkC (cos (PI * re (data k idx) / (2 * INR N)))
                     (sin (PI * re (data k idx) / (2 * INR N)))).
  { rewrite W4_data by (unfold jnp_negative; now rewrite map_array_shape).
    unfold jnp_negative. rewrite map_array_data.
    rewrite twiddle_val; [|assumption|cbn [im Copp]; rewrite (Hk idx Hv); lra].
    cbn [re Copp].
    replace (PI * - re (data k idx) / (2 * INR N))
      with (- (PI * re (data k idx) / (2 * INR N)))
      by (field; now apply INR_pos_neq0).
    rewrite cos_neg, sin_neg. f_equal. lra. }
  pose proof (sin2_cos2 (PI * re (data k idx) / (2 * INR N))) as H.
  unfold Rsqr in H.
  split; [apply W4_shape|]. split; [exact E|]. split.
  - rewrite E. unfold Cnorm2; cbn [re im]. lra.
  - rewrite E, E'. apply C_eq; cbn [re im Cmul RtoC]; lra.
Qed.

End TwiddleFactors.

Lemma X18_witness :
  let k := of_list Float32 C0 (map RtoC [0; 1; 2]%R) in
  (0 < 3)%nat /\ is_real k /\ valid_index (shape k) [1] /\
  shape (_W4 3 k) = shape k /\
  data (_W4 3 k) [1]
  = mkC (cos (PI * re (data k [1]) / (2 * INR 3)))
        (- sin (PI * re (data k [1]) / (2 * INR 3))) /\
  Cnorm2 (data (_W4 3 k) [1]) = 1%R /\
  Cmul (data (_W4 3 k) [1]) (data (_W4 3 (jnp_negative k)) [1]) = RtoC 1.
Proof.
  intros k.
  assert (H1 : (0 < 3)%nat) by lia.
  assert (H2 : is_real k) by apply of_list_is_real.
  assert (H3 : valid_index (shape k) [1]) by (repeat constructor).
  split; [exact H1|]. split; [exact H2|]. split; [exact H3|].
  exact (@X18_W4_values 3 k [1] H1 H2 H3).
Defined.

(* ================================================================== *)
(** * Defaults and delegation in [dctn] and [idctn] *)
(* ================================================================== *)

Lemma canonical_positions x (l : list nat) :
  (forall k, In k l -> k < ndim x /\ 0 < dim x k) ->
  canonical_axes x (map Z.of_nat l) l.
Proof.
  unfold canonical_axes.
  induction l as [|k l IH]; intros H; cbn [map]; constructor.
  - destruct (H k (or_introl eq_refl)) as [Hk HN].
    split; [now apply canonicalize_axis_nat|exact HN].
  - apply IH. intros j Hj. apply H. now right.
Qed.

Lemma canonical_all_axes x :
  Forall (fun n => 0 < n) (shape x) ->
  canonical_axes x (map Z.of_nat (seq 0 (ndim x))) (seq 0 (ndim x)).
Proof.
  intros Hp. apply canonical_positions.
  intros k Hk. apply in_seq in Hk.
  assert (Hlt : k < ndim x) by lia. split; [exact Hlt|].
  unfold dim, at_. rewrite Forall_forall in Hp. apply Hp.
  apply nth_In. exact Hlt.
Qed.

(** X19: the default call.  On a real array without an empty axis,
    [dctn(x)] followed by [idctn], both with [s] and [axes] unset and
    with the same [norm] (unset or ['ortho']), transforms every axis and
    returns the values of [x]. *)
Theorem X19_default_axes_roundtrip :
  forall (x : Array C) (norm : option string),
    is_real x ->
    Forall (fun n => 0 < n) (shape x) ->
    norm = None \/ norm = Some "ortho"%string ->
    exists y z,
      dctn x 2 None None norm = Ok y /\
      idctn y 2 None None norm = Ok z /\
      same_values z x.
Proof.
  intros x norm Hx Hp Hn.
  destruct (roundtrip_axes Hx (canonical_all_axes x Hp)
              (seq_NoDup (ndim x) 0) Hn) as [y [z [Hy [Hz [Hs E]]]]].
  exists y, z. split; [|split; [|exact E]].
  - rewrite dctn_eq. rewrite dctn_eq in Hy. exact Hy.
  - unfold idctn. unfold idctn in Hz.
    rewrite (ndim_shape_eq _ _ Hs). exact Hz.
Qed.

Lemma X19_witness :
  let x := mkArray Float32 [2; 3; 2]
             (fun idx => RtoC (INR (at_ 0 idx + 2 * at_ 1 idx + at_ 2 idx))) in
  is_real x /\
  Forall (fun n => 0 < n) (shape x) /\
  exists y z,
    dctn x 2 None None (Some "ortho"%string) = Ok y /\
    idctn y 2 None None (Some "ortho"%string) = Ok z /\
    same_values z x.
Proof.
  intros x.
  assert (H1 : is_real x) by (intros idx _; reflexivity).
  assert (H2 : Forall (fun n => 0 < n) (shape x))
    by (repeat constructor).
  split; [exact H1|]. split; [exact H2|].
  exact (@X19_default_axes_roundtrip x (Some "ortho"%string) H1 H2
           (or_intror eq_refl)).
Defined.

(** X20: one axis.  With exactly one axis, [dctn] and [idctn] hand over
    to [dct] and [idct] with [n = s[0]]: the other entries of [s] are
    ignored, and an empty [s] raises [IndexError]. *)
Theorem X20_single_axis_delegates :
  forall (x : Array C) (a n : Z) (rest : list Z) (norm : option string),
    dctn x 2 None (Some [a]) norm = dct x 2 None a norm /\
    dctn x 2 (Some (n :: rest)) (Some [a]) norm = dct x 2 (Some n) a norm /\
    dctn x 2 (Some []) (Some [a]) norm = Raise IndexError /\
    idctn x 2 None (Some [a]) norm = idct x 2 None a norm /\
    idctn x 2 (Some (n :: rest)) (Some [a]) norm
    = idct x 2 (Some n) a norm /\
    idctn x 2 (Some []) (Some [a]) norm = Raise IndexError.
Proof.
  intros x a n rest norm. rewrite !dctn_eq. repeat split; reflexivity.
Qed.





(* ================================================================== *)
(** * The shape [s] asks for *)
(* ================================================================== *)

Lemma dict_get_acc (d : list (Z * Z)) (k : Z) (acc : option Z) :
  fold_left (fun acc kv => if (fst kv =? k)%Z then Some (snd kv) else acc)
    d acc
  = match dict_get d k with
    | Some v => Some v
    | None => acc
    end.
Proof.
  unfold dict_get. revert acc.
  induction d as [|[k0 v0] d IH]; intros acc; [reflexivity|].
  cbn [fold_left fst snd]. rewrite IH, (IH (if (k0 =? k)%Z then _ else _)).
  destruct (fold_left _ d None); [reflexivity|].
  now destruct (k0 =? k)%Z.
Qed.

Lemma dict_get_cons k0 v0 (d : list (Z * Z)) (k : Z) :
  dict_get ((k0, v0) :: d) k
  = match dict_get d k with
    | Some v => Some v
    | None => if (k0 =? k)%Z then Some v0 else None
    end.
Proof. unfold dict_get at 1. cbn [fold_left fst snd]. apply dict_get_acc. Qed.

Lemma dict_get_absent (ks s : list nat) (a : nat) :
  ~ In a ks ->
  dict_get (combine (map Z.of_nat ks) (map Z.of_nat s)) (Z.of_nat a) = None.
Proof.
  revert s. induction ks as [|k ks IH]; intros s Hin; [reflexivity|].
  destruct s as [|n s]; [reflexivity|].
  cbn [map combine]. rewrite dict_get_cons, IH
    by (intros H; apply Hin; now right).
  destruct (Z.eqb_spec (Z.of_nat k) (Z.of_nat a)) as [E|E]; [|reflexivity].
  exfalso. apply Hin. left. lia.
Qed.

Lemma dict_get_present (ks s : list nat) (i : nat) :
  NoDup ks -> length s = length ks -> i < length ks ->
  dict_get (combine (map Z.of_nat ks) (map Z.of_nat s))
    (Z.of_nat (nth i ks 0))
  = Some (Z.of_nat (nth i s 0)).
Proof.
  revert s i. induction ks as [|k ks IH]; intros s i Hnd Hl Hi;
    [cbn [length] in Hi; lia|].
  destruct s as [|n s]; [discriminate|].
  inversion Hnd as [|? ? Hin Hnd']; subst.
  cbn [map combine]. rewrite dict_get_cons.
  destruct i as [|i]; cbn [nth].
  - rewrite dict_get_absent by assumption. now rewrite Z.eqb_refl.
  - rewrite IH; [reflexivity|assumption| |];
      cbn [length] in *; lia.
Qed.

Lemma dict_get_nonneg (ks s : list nat) (k v : Z) :
  dict_get (combine (map Z.of_nat ks) (map Z.of_nat s)) k = Some v ->
  (0 <= v)%Z.
Proof.
  revert s. induction ks as [|k0 ks IH]; intros s; [discriminate|].
  destruct s as [|n s]; [discriminate|].
  cbn [map combine]. rewrite dict_get_cons.
  destruct (dict_get _ k) as [w|] eqn:E.
  - intros H; inversion H; subst. now apply (IH s).
  - destruct (Z.of_nat k0 =? k)%Z; [|discriminate].
    intros H; inversion H; subst. lia.
Qed.

Lemma Forall2_map_seq {B : Type} (P : B -> nat -> Prop) (g : nat -> B) sh :
  forall p,
    (forall j, j < length sh -> P (g (p + j)) (nth j sh 0)) ->
    Forall2 P (map g (seq p (length sh))) sh.
Proof.
  induction sh as [|n sh IH]; intros p H; cbn [length seq map];
    constructor.
  - specialize (H 0 (Nat.lt_0_succ _)). now rewrite Nat.add_0_r in H.
  - apply IH. intros j Hj.
    specialize (H (S j) (proj1 (Nat.succ_lt_mono _ _) Hj)).
    now rewrite Nat.add_succ_r in H.
Qed.

Lemma nth_map2_seq (f : Z -> nat -> nat) (g : nat -> Z) sh :
  forall p a, a < length sh ->
    nth a (map2 f (map g (seq p (length sh))) sh) 0
    = f (g (p + a)) (nth a sh 0).
Proof.
  induction sh as [|n sh IH]; intros p a Ha; cbn [length] in *; [lia|].
  cbn [seq map map2]. destruct a as [|a]; cbn [nth].
  - now rewrite Nat.add_0_r.
  - rewrite IH by lia. now rewrite Nat.add_succ_r.
Qed.

(** The padding of [dctn] and [idctn] for distinct nonnegative axes. *)
Lemma pad_axes_to_spec x (ks s : list nat) :
  NoDup ks -> length s = length ks ->
  exists y,
    pad_axes_to x (map Z.of_nat ks) (map Z.of_nat s) = Ok y /\
    dtype y = dtype x /\
    ndim y = ndim x /\
    (is_real x -> is_real y) /\
    (forall i, i < length ks -> nth i ks 0 < ndim x ->
       dim y (nth i ks 0) = nth i s 0) /\
    (forall a, a < ndim x -> ~ In a ks -> dim y a = dim x a).
Proof.
  intros Hnd Hl.
  set (ns := combine (map Z.of_nat ks) (map Z.of_nat s)).
  set (g := fun a => pad_amount ns a (dim x a)).
  destruct (@lax_pad_high C x C0 (map g (seq 0 (ndim x))))
    as [y [Hy [Hd [Hs Hv]]]].
  - now rewrite length_map, length_seq.
  - apply Forall2_map_seq. intros j Hj. cbn [Nat.add].
    unfold g, pad_amount, dim, at_.
    destruct (dict_get ns (Z.of_nat j)) as [v|] eqn:E; [|lia].
    apply dict_get_nonneg in E. lia.
  - assert (Hn : ndim y = ndim x).
    { unfold ndim. rewrite Hs.
      clear. unfold ndim. generalize 0.
      induction (shape x) as [|n sh IH]; intros p; [reflexivity|].
      cbn [length seq map map2]. now rewrite IH. }
    assert (Hdim : forall a, a < ndim x ->
              dim y a = Z.to_nat (g a + Z.of_nat (dim x a))).
    { intros a Ha. unfold dim at 1, at_. rewrite Hs.
      unfold ndim. now rewrite nth_map2_seq by exact Ha. }
    exists y. split; [|split; [exact Hd|split; [exact Hn|split; [|split]]]].
    + rewrite <- Hy. unfold pad_axes_to. rewrite map_map. reflexivity.
    + intros Hx. apply (@padded_is_real x y Hx); [|exact Hv]. exact Hn.
    + intros i Hi Hlt. rewrite Hdim by assumption.
      unfold g, pad_amount, ns.
      rewrite dict_get_present by assumption. lia.
    + intros a Ha Hin. rewrite Hdim by assumption.
      unfold g, pad_amount, ns.
      rewrite dict_get_absent by assumption. lia.
Qed.

Lemma dctn_padded x axes s norm :
  length axes <> 1 ->
  dctn x 2 (Some s) (Some axes) norm
  = x' <- pad_axes_to x axes s ;; dctn x' 2 None (Some axes) norm.
Proof.
  intros Hl. rewrite dctn_eq. cbn [Z.eqb Pos.eqb negb].
  destruct (Nat.eqb_spec (length axes) 1) as [E|E]; [contradiction|].
  destruct (pad_axes_to x axes s) as [x'|e]; cbn [bind]; [|reflexivity].
  rewrite dctn_eq. cbn [Z.eqb Pos.eqb negb bind].
  destruct (Nat.eqb_spec (length axes) 1) as [E'|E']; [contradiction|].
  reflexivity.
Qed.

Lemma idctn_padded x axes s norm :
  length axes <> 1 ->
  idctn x 2 (Some s) (Some axes) norm
  = x' <- pad_axes_to x axes s ;; idct_each x' axes norm.
Proof.
  intros Hl. unfold idctn. cbn [Z.eqb Pos.eqb negb].
  destruct (Nat.eqb_spec (length axes) 1) as [E|E]; [contradiction|].
  reflexivity.
Qed.

Lemma length_shapes x a (m : nat) norm :
  a < ndim x -> 0 < m ->
  exists y z,
    dct x 2 (Some (Z.of_nat m)) (Z.of_nat a) norm = Ok y /\
    idct x 2 (Some (Z.of_nat m)) (Z.of_nat a) norm = Ok z /\
    shape y = upd a m (shape x) /\ shape z = upd a m (shape x).
Proof.
  intros Ha Hm.
  pose proof (canonicalize_axis_nat Ha) as Hc.
  destruct (@pad_axis_to_spec x a (Z.of_nat m) Ha (Nat2Z.is_nonneg m))
    as [x1 [Hp [_ [Hs1 _]]]].
  rewrite Nat2Z.id in Hs1.
  assert (Ha1 : a < ndim x1)
    by (unfold ndim; now rewrite Hs1, upd_length).
  assert (HN1 : 0 < dim x1 a)
    by (unfold dim; rewrite Hs1, at_upd_same; assumption).
  exists (dct_kernel x1 a norm), (idct_kernel x1 a norm).
  split; [|split; [|split]].
  - rewrite (@dct_with_length x _ _ a norm Hc), Hp.
    cbn [bind]. now apply nonempty_axis_ok.
  - rewrite (@idct_with_length x _ _ a norm Hc), Hp.
    cbn [bind]. now apply nonempty_axis_ok.
  - now rewrite dct_kernel_shape.
  - now rewrite idct_kernel_shape.
Qed.

(** X22: the shape [s] asks for.  For a real array, distinct nonnegative
    axes within the rank and as many positive lengths in [s], [dctn] and
    [idctn] return an array of the rank of the input whose axis
    [axes[i]] has length [s[i]] and whose other axes keep their
    lengths. *)
Theorem X22_requested_shape :
  forall (x : Array C) (ks s : list nat) (norm : option string),
    is_real x ->
    NoDup ks ->
    (forall k, In k ks -> k < ndim x) ->
    length s = length ks ->
    Forall (fun n => 0 < n) s ->
    exists y z,
      dctn x 2 (Some (map Z.of_nat s)) (Some (map Z.of_nat ks)) norm = Ok y /\
      idctn x 2 (Some (map Z.of_nat s)) (Some (map Z.of_nat ks)) norm
      = Ok z /\
      ndim y = ndim x /\ ndim z = ndim x /\
      (forall i, i < length ks ->
         dim y (nth i ks 0) = nth i s 0 /\ dim z (nth i ks 0) = nth i s 0) /\
      (forall a, a < ndim x -> ~ In a ks ->
         dim y a = dim x a /\ dim z a = dim x a).
Proof.
  intros x ks s norm Hx Hnd Hin Hl Hpos.
  destruct (Nat.eq_dec (length ks) 1) as [H1|H1].
  - (* one axis: through [dct] and [idct] *)
    destruct ks as [|k [|k' ks]]; try discriminate.
    destruct s as [|n [|n' s]]; try discriminate.
    assert (Hk : k < ndim x) by (apply Hin; now left).
    assert (Hn : 0 < n) by now inversion Hpos.
    destruct (@length_shapes x k n norm Hk Hn) as [y [z [Hy [Hz [Hsy Hsz]]]]].
    exists y, z. rewrite dctn_eq. unfold idctn.
    cbn [map length Nat.eqb Z.eqb Pos.eqb negb first_length bind nth].
    split; [exact Hy|]. split; [exact Hz|].
    unfold ndim, dim. rewrite Hsy, Hsz, upd_length.
    split; [reflexivity|]. split; [reflexivity|]. split.
    + intros i Hi. cbn [length] in Hi.
      assert (i = 0) by lia. subst i. cbn [nth].
      now rewrite at_upd_same by exact Hk.
    + intros a Ha Hna.
      rewrite at_upd_other by (intros ->; apply Hna; now left).
      split; reflexivity.
  - (* otherwise: padding, then the transforms *)
    destruct (@pad_axes_to_spec x ks s Hnd Hl)
      as [x' [Hp [_ [Hn' [Hr' [Hin' Hout']]]]]].
    assert (Hc : canonical_axes x' (map Z.of_nat ks) ks).
    { apply canonical_positions. intros k Hk.
      assert (Hlt : k < ndim x) by now apply Hin.
      split; [now rewrite Hn'|].
      destruct (In_nth _ _ 0 Hk) as [i [Hi E]]. subst k.
      rewrite Hin' by assumption.
      rewrite Forall_forall in Hpos. apply Hpos, nth_In. now rewrite Hl. }
    pose proof (canonical_axes_good Hc) as Hg.
    destruct (@dctn_blocks_sequential norm _ ks x' Hc Hnd (Hr' Hx))
      as [y [Hy E]].
    assert (Hsy : shape y = shape x').
    { destruct E as [_ [Es _]]. rewrite Es. now apply dct_kernels_shape. }
    pose proof (@idct_kernels_shape ks norm x' Hg) as Hsz.
    exists y, (idct_kernels x' ks norm).
    split; [|split; [|split; [|split; [|split]]]].
    + rewrite dctn_padded by (now rewrite length_map).
      rewrite Hp. cbn [bind]. rewrite dctn_as_blocks. exact Hy.
    + rewrite idctn_padded by (now rewrite length_map).
      rewrite Hp. cbn [bind]. now apply idct_each_kernels.
    + now rewrite (ndim_shape_eq _ _ Hsy).
    + now rewrite (ndim_shape_eq _ _ Hsz).
    + intros i Hi.
      rewrite (dim_shape_eq _ _ _ Hsy), (dim_shape_eq _ _ _ Hsz).
      split; apply Hin'; try assumption; apply Hin, nth_In; exact Hi.
    + intros a Ha Hna.
      rewrite (dim_shape_eq _ _ _ Hsy), (dim_shape_eq _ _ _ Hsz).
      split; now apply Hout'.
Qed.

Lemma X22_witness :
  let x := mkArray Float32 [2; 3; 2]
             (fun idx => RtoC (INR (at_ 0 idx + 2 * at_ 1 idx + at_ 2 idx))) in
  is_real x /\
  NoDup [2; 0] /\
  (forall k, In k [2; 0] -> k < ndim x) /\
  length [5; 1] = length [2; 0] /\
  Forall (fun n => 0 < n) [5; 1] /\
  exists y z,
    dctn x 2 (Some (map Z.of_nat [5; 1])) (Some (map Z.of_nat [2; 0])) None
    = Ok y /\
    idctn x 2 (Some (map Z.of_nat [5; 1])) (Some (map Z.of_nat [2; 0])) None
    = Ok z /\
    ndim y = ndim x /\ ndim z = ndim x /\
    (forall i, i < length [2; 0] ->
       dim y (nth i [2; 0] 0) = nth i [5; 1] 0 /\
       dim z (nth i [2; 0] 0) = nth i [5; 1] 0) /\
    (forall a, a < ndim x -> ~ In a [2; 0] ->
       dim y a = dim x a /\ dim z a = dim x a).
Proof.
  intros x.
  assert (H1 : is_real x) by (intros idx _; reflexivity).
  assert (H2 : NoDup [2; 0]) by (repeat constructor; simpl; intuition lia).
  assert (H3 : forall k, In k [2; 0] -> k < ndim x)
    by (unfold ndim; simpl; intuition lia).
  assert (H4 : length [5; 1] = length [2; 0]) by reflexivity.
  assert (H5 : Forall (fun n => 0 < n) [5; 1]) by (repeat constructor).
  split; [exact H1|]. split; [exact H2|]. split; [exact H3|].
  split; [exact H4|]. split; [exact H5|].
  exact (@X22_requested_shape x [2; 0] [5; 1] None H1 H2 H3 H4 H5).
Defined.

(* ================================================================== *)
(** * Constant lines and axes of length one *)
(* ================================================================== *)

Section SpecialInputs.

Open Scope R_scope.

Lemma dctII_const N c k :
  (0 < N)%nat -> (k < N)%nat ->
  dctII N (fun _ => c) k = if (k =? 0)%nat then 2 * INR N * c else 0.
Proof.
  intros HN Hk. unfold dctII.
  rewrite Rsum_scal.
  replace (Rsum N (fun m => cos (dctII_angle N k m)))
    with (if (k =? 0)%nat then INR N else 0).
  - destruct (k =? 0)%nat; ring.
  - symmetry. unfold dctII_angle.
    apply half_sample_cos_sum_gen; [assumption|lia].
Qed.

End SpecialInputs.

(** X23: a constant signal has only a mean coefficient.  When a real
    array is constant along a valid axis of positive length [N], [dct]
    without [norm] returns [2 N] times that constant at position 0 of
    the axis and 0 at every other position. *)
Theorem X23_dct_of_constant_lines :
  forall (x : Array C) (axis : Z) (a : nat),
    is_real x ->
    canonicalize_axis axis (ndim x) = Ok a ->
    0 < dim x a ->
    (forall idx n, valid_index (shape x) idx -> n < dim x a ->
       data x (upd a n idx) = data x idx) ->
    exists y,
      dct x 2 None axis None = Ok y /\
      forall idx, valid_index (shape x) idx ->
        data y idx
        = if at_ a idx =? 0
          then RtoC (2 * INR (dim x a) * re (data x idx))%R
          else C0.
Proof.
  intros x axis a Hx Hc HN Hconst.
  pose proof (canonicalize_axis_ok _ _ Hc) as Ha.
  exists (dct_kernel x a None). split; [now apply dct_ok_kernel|].
  intros idx Hv.
  pose proof (valid_index_at Hv Ha) as Hk. fold (dim x a) in Hk.
  rewrite dct_kernel_textbook by assumption.
  rewrite (@dctII_ext (dim x a) (lane x a idx)
             (fun _ => re (data x idx)))
    by (intros n Hn; unfold lane; now rewrite Hconst).
  rewrite dctII_const by assumption.
  unfold norm_scale; cbn [is_ortho].
  destruct (at_ a idx =? 0); unfold C0; f_equal; field.
Qed.

Lemma X23_witness :
  let x := of_list Float32 C0 (map RtoC [5; 5; 5]%R) in
  is_real x /\
  canonicalize_axis 0 (ndim x) = Ok 0 /\
  0 < dim x 0 /\
  (forall idx n, valid_index (shape x) idx -> n < dim x 0 ->
     data x (upd 0 n idx) = data x idx) /\
  exists y,
    dct x 2 None 0 None = Ok y /\
    forall idx, valid_index (shape x) idx ->
      data y idx
      = if at_ 0 idx =? 0
        then RtoC (2 * INR (dim x 0) * re (data x idx))%R
        else C0.
Proof.
  intros x.
  assert (H1 : is_real x) by apply of_list_is_real.
  assert (H2 : canonicalize_axis 0 (ndim x) = Ok 0) by reflexivity.
  assert (H3 : 0 < dim x 0) by (unfold dim, at_; simpl; lia).
  assert (H4 : forall idx n, valid_index (shape x) idx -> n < dim x 0 ->
                 data x (upd 0 n idx) = data x idx).
  { intros idx n Hv Hn.
    inversion Hv as [|i m idx' sh' Hi Hr]; subst.
    inversion Hr; subst. change (dim x 0) with 3 in Hn.
    cbn [upd]. unfold x, of_list, at_; cbn [data nth map].
    destruct n as [|[|[|n]]]; [| | |lia];
      destruct i as [|[|[|i]]]; try lia; reflexivity. }
  split; [exact H1|]. split; [exact H2|]. split; [exact H3|].
  split; [exact H4|].
  exact (@X23_dct_of_constant_lines x 0%Z 0 H1 H2 H3 H4).
Defined.

Section LengthOne.

Open Scope R_scope.

Lemma dctII_angle_zero N m : dctII_angle N 0 m = 0.
Proof. unfold dctII_angle. simpl INR. unfold Rdiv. ring. Qed.

Lemma dctII_one v : dctII 1 v 0 = 2 * v 0%nat.
Proof.
  unfold dctII. cbn [Rsum]. rewrite dctII_angle_zero, cos_0. ring.
Qed.

Lemma dctIII_one w X : dctIII 1 w X 0 = w 0%nat * X 0%nat.
Proof.
  unfold dctIII. cbn [Rsum]. rewrite dctII_angle_zero, cos_0. ring.
Qed.

End LengthOne.

(** X24: an axis of length one.  Along a valid axis of length 1 of a
    real array, [dct] doubles the values and [idct] halves them when
    [norm] is unset, and both return the values unchanged with
    [norm = 'ortho']. *)
Theorem X24_axis_of_length_one :
  forall (x : Array C) (axis : Z) (a : nat),
    is_real x ->
    canonicalize_axis axis (ndim x) = Ok a ->
    dim x a = 1 ->
    exists y y' z z',
      dct x 2 None axis None = Ok y /\
      dct x 2 None axis (Some "ortho"%string) = Ok y' /\
      idct x 2 None axis None = Ok z /\
      idct x 2 None axis (Some "ortho"%string) = Ok z' /\
      forall idx, valid_index (shape x) idx ->
        data y idx = RtoC (2 * re (data x idx))%R /\
        data y' idx = data x idx /\
        data z idx = RtoC (re (data x idx) / 2)%R /\
        data z' idx = data x idx.
Proof.
  intros x axis a Hx Hc H1.
  pose proof (canonicalize_axis_ok _ _ Hc) as Ha.
  assert (HN : 0 < dim x a) by lia.
  exists (dct_kernel x a None), (dct_kernel x a (Some "ortho"%string)),
         (idct_kernel x a None), (idct_kernel x a (Some "ortho"%string)).
  split; [now apply dct_ok_kernel|]. split; [now apply dct_ok_kernel|].
  split; [now apply idct_ok_kernel|]. split; [now apply idct_ok_kernel|].
  intros idx Hv.
  pose proof (valid_index_at Hv Ha) as Hk. fold (dim x a) in Hk.
  assert (Hk0 : at_ a idx = 0) by lia.
  assert (Hl : lane x a idx 0 = re (data x idx)).
  { unfold lane. rewrite <- Hk0. now rewrite upd_at_id. }
  assert (Hself : RtoC (re (data x idx)) = data x idx).
  { apply C_eq; cbn [re im RtoC]; [reflexivity|]. symmetry. now apply Hx. }
  rewrite !dct_kernel_textbook, !idct_kernel_textbook by assumption.
  rewrite H1, Hk0, dctII_one, !dctIII_one, Hl.
  unfold norm_scale, idct_weight; cbn [is_ortho Nat.eqb].
  change (String.eqb "ortho" "ortho") with true. cbv iota.
  rewrite ortho_scale_1_0. simpl INR.
  split; [f_equal; field|].
  split; [transitivity (RtoC (re (data x idx))); [f_equal; field|exact Hself]|].
  split; [f_equal; field|].
  transitivity (RtoC (re (data x idx))); [f_equal; field|exact Hself].
Qed.

Lemma X24_witness :
  let x := of_rows Float32 C0 1 2 (map (map RtoC) [[3; 4]]%R) in
  is_real x /\
  canonicalize_axis (-2) (ndim x) = Ok 0 /\
  dim x 0 = 1 /\
  exists y y' z z',
    dct x 2 None (-2) None = Ok y /\
    dct x 2 None (-2) (Some "ortho"%string) = Ok y' /\
    idct x 2 None (-2) None = Ok z /\
    idct x 2 None (-2) (Some "ortho"%string) = Ok z' /\
    forall idx, valid_index (shape x) idx ->
      data y idx = RtoC (2 * re (data x idx))%R /\
      data y' idx = data x idx /\
      data z idx = RtoC (re (data x idx) / 2)%R /\
      data z' idx = data x idx.
Proof.
  intros x.
  assert (H1 : is_real x) by apply of_rows_is_real.
  assert (H2 : canonicalize_axis (-2) (ndim x) = Ok 0) by reflexivity.
  assert (H3 : dim x 0 = 1) by reflexivity.
  split; [exact H1|]. split; [exact H2|]. split; [exact H3|].
  exact (@X24_axis_of_length_one x (-2)%Z 0 H1 H2 H3).
Defined.

(* ================================================================== *)
(** * Lengths in [s] against the axes listed (C7) *)
(* ================================================================== *)

Lemma dict_get_in (d : list (Z * Z)) (k v : Z) :
  dict_get d k = Some v -> In (k, v) d.
Proof.
  induction d as [|[k0 v0] d IH]; [discriminate|].
  rewrite dict_get_cons. destruct (dict_get d k) as [w|].
  - intros E. right. now apply IH.
  - destruct (Z.eqb_spec k0 k) as [->|]; [|discriminate].
    intros E; inversion E. now left.
Qed.

Lemma map_fst_combine (axes s : list Z) :
  map fst (combine axes s) = firstn (length s) axes.
Proof.
  revert s. induction axes as [|a axes IH]; intros [|n s];
    cbn [combine map length firstn fst]; try reflexivity.
  now rewrite IH.
Qed.

(** [zip] stops at the shorter list: a key past the entries of [s] is not
    in the dictionary. *)
Lemma dict_get_unpaired (axes s : list Z) (k : Z) :
  ~ In k (firstn (length s) axes) -> dict_get (combine axes s) k = None.
Proof.
  intros H. destruct (dict_get (combine axes s) k) as [v|] eqn:E;
    [|reflexivity].
  exfalso. apply H. rewrite <- map_fst_combine.
  apply dict_get_in in E. exact (in_map fst _ _ E).
Qed.

Lemma dict_get_paired (axes s : list Z) (i : nat) :
  NoDup axes -> i < length axes -> i < length s ->
  dict_get (combine axes s) (nth i axes 0%Z) = Some (nth i s 0%Z).
Proof.
  revert s i. induction axes as [|a axes IH]; intros s i Hnd Hi Hs;
    [cbn [length] in Hi; lia|].
  destruct s as [|n s]; [cbn [length] in Hs; lia|].
  inversion Hnd as [|? ? Hin Hnd']; subst.
  cbn [combine]. rewrite dict_get_cons.
  destruct i as [|i]; cbn [nth].
  - destruct (dict_get (combine axes s) a) as [v|] eqn:E.
    + exfalso. apply Hin. apply dict_get_in in E.
      exact (in_combine_l _ _ _ _ E).
    + now rewrite Z.eqb_refl.
  - rewrite IH; [reflexivity|assumption| |]; cbn [length] in *; lia.
Qed.

Lemma dict_get_value (axes s : list Z) (k v : Z) :
  dict_get (combine axes s) k = Some v -> In v s.
Proof.
  intros E. apply dict_get_in in E. exact (in_combine_r _ _ _ _ E).
Qed.

(** The padding of [dctn] and [idctn] for any axes and any lengths that
    are not negative: position [a] gets the length the dictionary holds
    for the key [a], and keeps its own when the dictionary holds none. *)
Lemma pad_axes_to_any x (axes s : list Z) :
  Forall (fun n => (0 <= n)%Z) s ->
  exists y,
    pad_axes_to x axes s = Ok y /\
    dtype y = dtype x /\
    ndim y = ndim x /\
    forall a, a < ndim x ->
      dim y a = match dict_get (combine axes s) (Z.of_nat a) with
                | Some n => Z.to_nat n
                | None => dim x a
                end.
Proof.
  intros Hpos.
  set (ns := combine axes s).
  set (g := fun a => pad_amount ns a (dim x a)).
  destruct (@lax_pad_high C x C0 (map g (seq 0 (ndim x))))
    as [y [Hy [Hd [Hs Hv]]]].
  - now rewrite length_map, length_seq.
  - apply Forall2_map_seq. intros j Hj. cbn [Nat.add].
    unfold g, pad_amount, dim, at_.
    destruct (dict_get ns (Z.of_nat j)) as [v|] eqn:E; [|lia].
    apply dict_get_value in E.
    pose proof (proj1 (Forall_forall _ _) Hpos v E) as Hv0.
    cbv beta in Hv0. lia.
  - assert (Hn : ndim y = ndim x).
    { unfold ndim. rewrite Hs.
      clear. unfold ndim. generalize 0.
      induction (shape x) as [|n sh IH]; intros p; [reflexivity|].
      cbn [length seq map map2]. now rewrite IH. }
    exists y. split; [|split; [exact Hd|split; [exact Hn|]]].
    + rewrite <- Hy. unfold pad_axes_to. rewrite map_map. reflexivity.
    + intros a Ha. unfold dim at 1, at_. rewrite Hs.
      unfold ndim. rewrite nth_map2_seq by exact Ha. cbn [Nat.add].
      unfold g, pad_amount. fold ns.
      destruct (dict_get ns (Z.of_nat a)) as [v|] eqn:E.
      * f_equal. unfold dim, at_. lia.
      * unfold dim, at_. lia.
Qed.

Lemma Forall2_in_l {A B : Type} (P : A -> B -> Prop) l m a :
  Forall2 P l m -> In a l -> exists b, In b m /\ P a b.
Proof.
  induction 1 as [|a0 b0 l m H0 _ IH]; intros Hin; [contradiction|].
  destruct Hin as [->|Hin].
  - exists b0. split; [now left|exact H0].
  - destruct (IH Hin) as [b [Hb Hp]]. exists b. split; [now right|exact Hp].
Qed.

Lemma Forall2_nth_both {A B : Type} (P : A -> B -> Prop) l m da db :
  Forall2 P l m -> forall i, i < length l -> P (nth i l da) (nth i m db).
Proof.
  induction 1 as [|a0 b0 l m H0 _ IH]; intros i Hi;
    [cbn [length] in Hi; lia|].
  destruct i as [|i]; [exact H0|].
  cbn [nth]. apply IH. cbn [length] in Hi. lia.
Qed.

(** Axes that canonicalize to distinct positions are themselves
    distinct. *)
Lemma canonical_raw_distinct r axes ks :
  Forall2 (fun a k => canonicalize_axis a r = Ok k) axes ks ->
  NoDup ks -> NoDup axes.
Proof.
  induction 1 as [|a k axes ks Hc Hr IH]; intros Hnd; [constructor|].
  inversion Hnd as [|? ? Hin Hnd']; subst.
  constructor; [|now apply IH].
  intros Ha. destruct (@Forall2_in_l _ _ _ _ _ a Hr Ha) as [k' [Hk' Hc']].
  apply Hin. congruence.
Qed.

Lemma canonicalize_axis_nonneg_inv a r k :
  canonicalize_axis a r = Ok k -> (0 <= a)%Z -> a = Z.of_nat k.
Proof.
  unfold canonicalize_axis.
  destruct ((- Z.of_nat r <=? a) && (a <? Z.of_nat r))%Z; [|discriminate].
  intros E Ha. inversion E.
  destruct (Z.ltb_spec a 0); lia.
Qed.

Lemma canonical_axes_intro x axes ks :
  Forall2 (fun a k => canonicalize_axis a (ndim x) = Ok k) axes ks ->
  (forall k, In k ks -> 0 < dim x k) ->
  canonical_axes x axes ks.
Proof.
  unfold canonical_axes.
  induction 1 as [|a k axes ks Hc _ IH]; intros Hpos; constructor.
  - split; [exact Hc|]. apply Hpos. now left.
  - apply IH. intros k' Hk'. apply Hpos. now right.
Qed.

Lemma dct2_ok_shape x a1 a2 k1 k2 norm :
  canonicalize_axis a1 (ndim x) = Ok k1 ->
  canonicalize_axis a2 (ndim x) = Ok k2 ->
  k1 <> k2 -> 0 < dim x k1 -> 0 < dim x k2 ->
  exists y, _dct2 x [a1; a2] norm = Ok y /\ shape y = shape x.
Proof.
  intros H1 H2 Hne HN1 HN2.
  pose proof (canonicalize_axis_ok _ _ H1) as Hk1.
  pose proof (canonicalize_axis_ok _ _ H2) as Hk2.
  eexists. split; [apply dct2_unfold_gen; eassumption|].
  now apply dct2_kernel_shape.
Qed.

(** The loop of [dctn] over blocks of two axes returns an array of the
    shape of its input, whatever the values. *)
Lemma dctn_blocks_ok norm :
  forall axes ks x,
    canonical_axes x axes ks -> NoDup ks ->
    exists y,
      fold_left
        (fun acc blk => x <- acc ;; dctn_fuel 1 x 2 None (Some blk) norm)
        (axes_blocks axes) (Ok x) = Ok y /\
      shape y = shape x.
Proof.
  induction axes as [|a|a1 a2 axes IH] using list_pair_ind;
    intros ks x H Hnd.
  - exists x. split; reflexivity.
  - inversion H as [|? k ? ks' [Hc HN] Hr]; subst. inversion Hr; subst.
    pose proof (canonicalize_axis_ok _ _ Hc) as Hk.
    exists (dct_kernel x k norm). split; [|now apply dct_kernel_shape].
    rewrite axes_blocks_one. cbn [fold_left bind].
    change (dctn_fuel 1 x 2 None (Some [a]) norm)
      with (dct x 2 None a norm).
    now apply dct_ok_kernel.
  - inversion H as [|? k1 ? ks1 [Hc1 HN1] Hr1]; subst.
    inversion Hr1 as [|? k2 ? ks2 [Hc2 HN2] Hr2]; subst.
    assert (Hne : k1 <> k2).
    { inversion Hnd as [|? ? Hin _]; subst. intros ->. apply Hin. now left. }
    assert (Hnd2 : NoDup ks2).
    { inversion Hnd as [|? ? _ Hn1]; subst. now inversion Hn1. }
    destruct (@dct2_ok_shape x a1 a2 k1 k2 norm Hc1 Hc2 Hne HN1 HN2)
      as [y1 [Hy1 Hsy]].
    destruct (IH ks2 y1 (@canonical_axes_shape x y1 axes ks2 Hsy Hr2) Hnd2)
      as [y [Hy Ey]].
    exists y. split; [|congruence].
    rewrite axes_blocks_cons2. cbn [fold_left bind].
    change (dctn_fuel 1 x 2 None (Some [a1; a2]) norm)
      with (_dct2 x [a1; a2] norm).
    rewrite Hy1. exact Hy.
Qed.

(** C7, as the code has it: [dctn] and [idctn] report an error whenever a
    listed axis is outside [[-rank, rank-1]]; they never compare [s] with
    [axes].  For any number of axes other than one that canonicalize to
    distinct positions of positive length and any list [s] of positive
    lengths, whatever the lengths of the two lists, both return a result
    of one shape and of the rank of the input: [zip] pairs the axes with
    [s] up to the shorter list, an axis paired under a nonnegative index
    gets its length from [s], and every position that is not paired
    under its nonnegative index keeps its length, so the surplus entries
    of the longer list are ignored. *)
Theorem C7_axis_errors_but_no_length_check :
  forall (x : Array C) (norm : option string),
    (forall type s axes,
       Exists (axis_out_of_range (ndim x)) axes ->
       is_ok (dctn x type s (Some axes) norm) = false /\
       is_ok (idctn x type s (Some axes) norm) = false) /\
    (forall (axes : list Z) (ks : list nat) (s : list Z),
       length axes <> 1 ->
       Forall2 (fun a k => canonicalize_axis a (ndim x) = Ok k) axes ks ->
       NoDup ks ->
       (forall k, In k ks -> 0 < dim x k) ->
       Forall (fun n => (0 < n)%Z) s ->
       exists y z,
         dctn x 2 (Some s) (Some axes) norm = Ok y /\
         idctn x 2 (Some s) (Some axes) norm = Ok z /\
         shape z = shape y /\
         ndim y = ndim x /\
         (forall i, i < length axes -> i < length s ->
            (0 <= nth i axes 0)%Z ->
            dim y (nth i ks 0) = Z.to_nat (nth i s 0%Z)) /\
         (forall a, a < ndim x ->
            ~ In (Z.of_nat a) (firstn (length s) axes) ->
            dim y a = dim x a)).
Proof.
  intros x norm. split.
  - intros type s axes Hbad. split.
    + now apply dctn_bad_axis.
    + now apply idctn_bad_axis.
  - intros axes ks s Hl Hc Hnd Hpos Hs.
    assert (Hs0 : Forall (fun n => (0 <= n)%Z) s).
    { eapply Forall_impl; [|exact Hs]. cbv beta. intros; lia. }
    destruct (@pad_axes_to_any x axes s Hs0) as [x' [Hp [_ [Hn Hdim]]]].
    assert (Hc' : canonical_axes x' axes ks).
    { apply canonical_axes_intro; [now rewrite Hn|].
      intros k Hk.
      destruct (@Forall2_in_l _ _ _ _ _ k (Forall2_flip Hc) Hk)
        as [a [_ Ha]]. cbv beta in Ha.
      rewrite Hdim by exact (canonicalize_axis_ok _ _ Ha).
      destruct (dict_get (combine axes s) (Z.of_nat k)) as [v|] eqn:E;
        [|now apply Hpos].
      apply dict_get_value in E.
      pose proof (proj1 (Forall_forall _ _) Hs v E) as Hv.
      cbv beta in Hv. lia. }
    destruct (@dctn_blocks_ok norm axes ks x' Hc' Hnd) as [y [Hy Hsy]].
    exists y, (idct_kernels x' ks norm).
    split; [|split; [|split; [|split; [|split]]]].
    + rewrite dctn_padded, Hp by exact Hl. cbn [bind].
      rewrite dctn_as_blocks. exact Hy.
    + rewrite idctn_padded, Hp by exact Hl. cbn [bind].
      now apply idct_each_kernels.
    + rewrite idct_kernels_shape
        by exact (@canonical_axes_good x' axes ks Hc').
      now rewrite Hsy.
    + now rewrite (ndim_shape_eq _ _ Hsy).
    + intros i Hi1 Hi2 Hi0.
      pose proof (@Forall2_nth_both _ _ _ _ _ 0%Z 0 Hc i Hi1) as Hci. cbv beta in Hci.
      pose proof (@canonicalize_axis_nonneg_inv _ _ _ Hci Hi0) as Ek.
      rewrite (dim_shape_eq _ _ (nth i ks 0) Hsy).
      rewrite Hdim by exact (canonicalize_axis_ok _ _ Hci).
      rewrite <- Ek.
      rewrite dict_get_paired;
        [reflexivity|exact (@canonical_raw_distinct _ _ _ Hc Hnd)
        |exact Hi1|exact Hi2].
    + intros a Ha Hin.
      rewrite (dim_shape_eq _ _ a Hsy), Hdim by exact Ha.
      now rewrite dict_get_unpaired.
Qed.

Lemma C7_witness :
  let x := of_rows Float32 C0 2 2 (map (map RtoC) [[1; 2]; [3; 4]]%R) in
  let axes := [0; 1]%Z in
  let ks := [0; 1] in
  let s := [3%Z] in
  Exists (axis_out_of_range (ndim x)) [0; 2]%Z /\
  is_ok (dctn x 2 (Some [2; 2]%Z) (Some [0; 2]%Z) None) = false /\
  is_ok (idctn x 2 (Some [2; 2]%Z) (Some [0; 2]%Z) None) = false /\
  length axes <> 1 /\
  Forall2 (fun a k => canonicalize_axis a (ndim x) = Ok k) axes ks /\
  NoDup ks /\
  (forall k, In k ks -> 0 < dim x k) /\
  Forall (fun n => (0 < n)%Z) s /\
  exists y z,
    dctn x 2 (Some s) (Some axes) None = Ok y /\
    idctn x 2 (Some s) (Some axes) None = Ok z /\
    shape z = shape y /\
    ndim y = ndim x /\
    (forall i, i < length axes -> i < length s ->
       (0 <= nth i axes 0)%Z ->
       dim y (nth i ks 0) = Z.to_nat (nth i s 0%Z)) /\
    (forall a, a < ndim x ->
       ~ In (Z.of_nat a) (firstn (length s) axes) ->
       dim y a = dim x a).
Proof.
  intros x axes ks s.
  assert (H : Exists (axis_out_of_range (ndim x)) [0; 2]%Z).
  { apply Exists_cons_tl, Exists_cons_hd. right. unfold ndim; simpl. lia. }
  assert (H1 : length axes <> 1) by (cbn [length axes]; lia).
  assert (H2 : Forall2 (fun a k => canonicalize_axis a (ndim x) = Ok k)
                 axes ks) by (repeat constructor).
  assert (H3 : NoDup ks).
  { repeat constructor; cbn [In]; intros F; decompose [or] F; lia. }
  assert (H4 : forall k, In k ks -> 0 < dim x k).
  { intros k Hk. cbn [In ks] in Hk. decompose [or] Hk; subst;
      try contradiction; unfold dim, at_; simpl; lia. }
  assert (H5 : Forall (fun n => (0 < n)%Z) s) by (repeat constructor).
  split; [exact H|].
  split; [exact (proj1 (proj1 (C7_axis_errors_but_no_length_check x None)
                          2%Z (Some [2; 2]%Z) [0; 2]%Z H))|].
  split; [exact (proj2 (proj1 (C7_axis_errors_but_no_length_check x None)
                          2%Z (Some [2; 2]%Z) [0; 2]%Z H))|].
  split; [exact H1|]. split; [exact H2|]. split; [exact H3|].
  split; [exact H4|]. split; [exact H5|].
  exact (proj2 (C7_axis_errors_but_no_length_check x None)
           axes ks s H1 H2 H3 H4 H5).
Defined.

(* ================================================================== *)
(** * An unrecognised [norm] and the round trip (C5) *)
(* ================================================================== *)

(** C5 as stated fails for [idct], and the round trip with it: with the
    unrecognised norm ["backward"], [idct] returns on [[1]] the value 1
    where the unset norm gives 1/2; [dct] of [[1]] is [[2]] as with the
    unset norm, and [idct] of that, again with ["backward"], is [[2]],
    not [[1]]. *)
Lemma C5_counterexample :
  let x := of_list Float32 C0 [RtoC 1] in
  exists y z u w,
    idct x 2 None 0 (Some "backward"%string) = Ok y /\
    idct x 2 None 0 None = Ok z /\
    data y [0] = RtoC 1 /\
    data z [0] = RtoC (1 / 2) /\
    data y [0] <> data z [0] /\
    dct x 2 None 0 (Some "backward"%string) = Ok u /\
    dct x 2 None 0 None = Ok u /\
    idct u 2 None 0 (Some "backward"%string) = Ok w /\
    data w [0] = RtoC 2 /\
    data w [0] <> data x [0].
Proof.
  intros x.
  assert (Ha : 0 < ndim x) by (unfold ndim; simpl; lia).
  assert (HN : 0 < dim x 0) by (unfold dim, at_; simpl; lia).
  assert (Hv : valid_index (shape x) [0]) by (repeat constructor).
  assert (Hx : is_real x) by exact (@of_list_is_real Float32 [1%R]).
  assert (Hl : lane x 0 [0] 0 = 1%R) by reflexivity.
  set (u := dct_kernel x 0 None).
  assert (Hsu : shape u = shape x) by now apply dct_kernel_shape.
  assert (Hau : 0 < ndim u) by now rewrite (ndim_shape_eq _ _ Hsu).
  assert (HNu : 0 < dim u 0) by now rewrite (dim_shape_eq _ _ 0 Hsu).
  assert (Hvu : valid_index (shape u) [0]) by now rewrite Hsu.
  assert (Du : data u [0] = RtoC 2).
  { unfold u. rewrite dct_kernel_textbook by assumption.
    change (dim x 0) with 1. change (at_ 0 [0]) with 0.
    rewrite dctII_one, Hl.
    unfold norm_scale; cbn [is_ortho]. f_equal. field. }
  assert (Hlu : lane u 0 [0] 0 = 2%R).
  { unfold lane. change (upd 0 0 [0]) with [0]. now rewrite Du. }
  assert (Dy : data (idct_kernel x 0 (Some "backward"%string)) [0] = RtoC 1).
  { rewrite idct_kernel_textbook by assumption.
    change (dim x 0) with 1. change (at_ 0 [0]) with 0.
    rewrite dctIII_one, Hl. unfold idct_weight.
    rewrite ortho_scale_1_0. f_equal. field. }
  assert (Dz : data (idct_kernel x 0 None) [0] = RtoC (1 / 2)).
  { rewrite idct_kernel_textbook by assumption.
    change (dim x 0) with 1. change (at_ 0 [0]) with 0.
    rewrite dctIII_one, Hl. unfold idct_weight.
    cbn [Nat.eqb]. simpl INR. f_equal. field. }
  assert (Dw : data (idct_kernel u 0 (Some "backward"%string)) [0] = RtoC 2).
  { rewrite idct_kernel_textbook by assumption.
    rewrite (dim_shape_eq _ _ 0 Hsu).
    change (dim x 0) with 1. change (at_ 0 [0]) with 0.
    rewrite dctIII_one, Hlu. unfold idct_weight.
    rewrite ortho_scale_1_0. f_equal. field. }
  exists (idct_kernel x 0 (Some "backward"%string)), (idct_kernel x 0 None),
         u, (idct_kernel u 0 (Some "backward"%string)).
  split; [exact (@idct_no_pad x 0 (Some "backward"%string) Ha HN)|].
  split; [exact (@idct_no_pad x 0 None Ha HN)|].
  split; [exact Dy|]. split; [exact Dz|].
  split; [rewrite Dy, Dz; intros E; apply (f_equal re) in E; simpl in E; lra|].
  split; [exact (@dct_no_pad x 0 (Some "backward"%string) Ha HN)|].
  split; [exact (@dct_no_pad x 0 None Ha HN)|].
  split; [exact (@idct_no_pad u 0 (Some "backward"%string) Hau HNu)|].
  split; [exact Dw|].
  rewrite Dw. intros E; apply (f_equal re) in E; simpl in E; lra.
Qed.

(* ================================================================== *)
(** * The reorderings on concrete arrays *)
(* ================================================================== *)

Lemma example_interleave :
  to_list (_dct_interleave (of_list Int32 0%Z [0; 1; 2; 3; 4]%Z) 0)
  = [0; 2; 4; 3; 1]%Z.
Proof. reflexivity. Qed.

Lemma example_deinterleave :
  to_list (_dct_deinterleave 0%Z (of_list Int32 0%Z [0; 2; 4; 3; 1]%Z) 0)
  = [0; 1; 2; 3; 4]%Z.
Proof. reflexivity. Qed.

Lemma example_dct_singleton (r : R) :
  exists y,
    dct (of_list Float32 C0 (map RtoC [r])) 2 None (-1) None = Ok y /\
    shape y = [1] /\ data y [0] = RtoC (2 * r).
Proof.
  set (x := of_list Float32 C0 (map RtoC [r])).
  assert (Ha : 0 < ndim x) by (unfold ndim; simpl; lia).
  assert (HN : 0 < dim x 0) by (unfold dim, at_; simpl; lia).
  assert (Hv : valid_index (shape x) [0]) by (repeat constructor).
  exists (dct_kernel x 0 None). split; [|split].
  - rewrite (@dct_canonical x None (-1) 0 None eq_refl).
    now apply dct_no_pad.
  - now rewrite dct_kernel_shape.
  - rewrite dct_kernel_data by (assumption || apply of_list_is_real).
    f_equal. change (dim x 0) with 1. change (at_ 0 [0]) with 0.
    unfold dct_lane. cbn [Rsum is_ortho].
    rewrite dct_angle_zero, cos_0.
    unfold lane. rewrite interleave_data by (simpl; lia).
    simpl. field.
Qed.
